(** * chatgpt-export-viewer: ingestion, indexing and reconciliation core

    A shallow embedding of the TypeScript sources of the import pipeline
    (slimConvert.ts, text.ts, searchWorker.ts, importer.ts,
    datasetImporter.ts, AppDataContext.tsx) and of the code around it
    (searchBuilder.ts, merge.ts and others), together with the properties
    the specification states about them and further properties the code
    has.

    Conventions of the embedding:
    - a JavaScript string is a [string]: a sequence of 8-bit code units
      (the Latin-1 part of UTF-16); [length], [slice] and [indexOf] count
      code units exactly as JavaScript does;
    - a JavaScript number that carries a timestamp, a node count or a clone
      suffix is an integer ([Z] or [N]); comparisons and the products the
      code forms are exact on them (as they are in double precision below
      2^53);
    - [undefined] and [null] are [None];
    - a [Map] or a plain object whose iteration order is observable is an
      insertion-ordered association list ([JsMap]); the node mapping of a
      raw conversation, which is only looked up and counted, is a [gmap];
    - [console.warn] is a list of events returned next to the result;
    - a [throw] is the [inl] branch of a sum. *)

From Stdlib Require Import ZArith NArith Ascii String Lia.
From Stdlib Require Import DecimalString DecimalN Sorted.
From stdpp Require Import base tactics option list gmap sets strings.

Local Open Scope Z_scope.

(** ** JavaScript string primitives *)

Module Js.

Definition slash : ascii := "/"%char.
Definition backslash : ascii := "\"%char.
Definition nul : ascii := Ascii.zero.

(** [s.includes(c)] for a one-character needle. *)
Fixpoint includesChar (c : ascii) (s : string) : bool :=
  match s with
  | EmptyString => false
  | String a r => Ascii.eqb a c || includesChar c r
  end.

(** [s.startsWith(p)]. *)
Fixpoint startsWith (p s : string) : bool :=
  match p, s with
  | EmptyString, _ => true
  | String a p', String b s' => Ascii.eqb a b && startsWith p' s'
  | String _ _, EmptyString => false
  end.

(** [s.slice(n)]. *)
Fixpoint dropChars (n : nat) (s : string) : string :=
  match n, s with
  | O, _ => s
  | S n', String _ r => dropChars n' r
  | S _, EmptyString => EmptyString
  end.

(** [s.endsWith(p)]. *)
Definition endsWith (p s : string) : bool :=
  (String.length p <=? String.length s)%nat
  && String.eqb (dropChars (String.length s - String.length p) s) p.

(** [s.split(c)] for a one-character separator: never the empty list,
    [''.split('/')] is [['']]. *)
Fixpoint split (c : ascii) (s : string) : list string :=
  match s with
  | EmptyString => [EmptyString]
  | String a r =>
      if Ascii.eqb a c then EmptyString :: split c r
      else match split c r with
           | [] => [String a EmptyString]
           | h :: t => String a h :: t
           end
  end.

(** [parts.join(c)]. *)
Fixpoint join (c : ascii) (parts : list string) : string :=
  match parts with
  | [] => EmptyString
  | [p] => p
  | p :: rest => p +:+ String c (join c rest)
  end.

(** [s.replace(/\\/g, '/')]. *)
Fixpoint replaceBackslashes (s : string) : string :=
  match s with
  | EmptyString => EmptyString
  | String a r =>
      String (if Ascii.eqb a backslash then slash else a) (replaceBackslashes r)
  end.

(** [s.replace(/^\.\/?/, '')]: a leading dot goes, and the slash after it
    when there is one. *)
Definition stripLeadingDot (s : string) : string :=
  match s with
  | String a r =>
      if Ascii.eqb a "."%char then
        match r with
        | String b r' => if Ascii.eqb b slash then r' else r
        | EmptyString => r
        end
      else s
  | EmptyString => s
  end.

(** [s.replace(/^\/+/, '')]. *)
Fixpoint stripLeadingSlashes (s : string) : string :=
  match s with
  | String a r => if Ascii.eqb a slash then stripLeadingSlashes r else s
  | EmptyString => EmptyString
  end.

(** The character class [[A-Za-z]]. *)
Definition isAsciiLetter (a : ascii) : bool :=
  let n := N_of_ascii a in
  ((65 <=? n) && (n <=? 90) || (97 <=? n) && (n <=? 122))%N.

(** The character class [\d]. *)
Definition isDigit (a : ascii) : bool :=
  let n := N_of_ascii a in ((48 <=? n) && (n <=? 57))%N.

(** What [.] refuses without the [s] flag: the line terminators (of the four
    that JavaScript knows, LF and CR lie in the 8-bit alphabet). *)
Definition isLineTerminator (a : ascii) : bool :=
  let n := N_of_ascii a in ((n =? 10) || (n =? 13))%N.

(** [/^[A-Za-z]:/.test(s)]. *)
Definition hasDriveLetterPrefix (s : string) : bool :=
  match s with
  | String a (String b _) => isAsciiLetter a && Ascii.eqb b ":"%char
  | _ => false
  end.

End Js.

(** ** AssetPathValidator (slimConvert.ts) *)

Module AssetPath.
Import Js.

(** One turn of the [for (const part of parts)] loop of [normalizePath];
    [safeParts.pop()] on an empty array does nothing. *)
Definition normalizeStep (safeParts : list string) (part : string) : list string :=
  if String.eqb part EmptyString || String.eqb part "." then safeParts
  else if String.eqb part ".." then removelast safeParts
  else safeParts ++ [part].

Definition normalizeParts (parts : list string) : list string :=
  fold_left normalizeStep parts [].

Definition normalizePath (input : string) : string :=
  let normalized :=
    stripLeadingSlashes (stripLeadingDot (replaceBackslashes input)) in
  join slash (normalizeParts (split slash normalized)).

Definition pathHasTraversal (value : string) : bool :=
  existsb (fun segment => String.eqb segment "..") (split slash value).

Definition isSafeRelativePath (input : string) : bool :=
  if String.eqb input EmptyString then false
  else if includesChar nul input then false
  else if includesChar backslash input then false
  else if startsWith "/" input then false
  else if hasDriveLetterPrefix input then false
  else if pathHasTraversal input then false
  else negb (String.eqb (normalizePath input) EmptyString).

(** The directory writer of datasetImporter.ts.  [path.resolve] and
    [path.sep] belong to the Node runtime, not to the repository: they are
    parameters of the model. *)
Section Writer.
Variable resolve : string -> string -> string.
Variable sep : string.

Definition rootWithSep (rootDir : string) : string :=
  if endsWith sep rootDir then rootDir else rootDir +:+ sep.

Definition safeJoinUnder (rootDir relativePath : string) : option string :=
  let target := resolve rootDir relativePath in
  if String.eqb target rootDir || startsWith (rootWithSep rootDir) target
  then Some target
  else None.

(** The asset loop of [writeDataset]: the files it creates, in order, with
    their contents.  [Bytes] is the payload type ([Uint8Array]). *)
Definition assetWrites {Bytes : Type} (assetsDir : string)
    (assetData : list (string * Bytes)) : list (string * Bytes) :=
  flat_map
    (fun entry : string * Bytes =>
       let (assetKey, data) := entry in
       if isSafeRelativePath assetKey then
         match safeJoinUnder assetsDir assetKey with
         | Some assetPath => [(assetPath, data)]
         | None => []
         end
       else [])
    assetData.

End Writer.

(** Node's [path.resolve(root, rel)] on a POSIX host, for an absolute [root]:
    an absolute [rel] replaces [root]; the segments are then normalised the
    way [normalizeParts] does (empty and [.] segments dropped, [..] pops and
    stops at the root). *)
Definition posixResolve (rootDir relativePath : string) : string :=
  let full :=
    if startsWith "/" relativePath then relativePath
    else if String.eqb relativePath EmptyString then rootDir
    else rootDir +:+ String slash relativePath in
  String slash (join slash (normalizeParts (split slash full))).

End AssetPath.

Module AssetPathExamples.
Import Js AssetPath.

Example normalize_plain : normalizePath "assets\img/./a.png" = "assets/img/a.png".
Proof. reflexivity. Qed.

Example normalize_dotdot : normalizePath "a/b/../c" = "a/c".
Proof. reflexivity. Qed.

Example unsafe_escape : isSafeRelativePath "../escape.png" = false.
Proof. reflexivity. Qed.

Example safe_plain : isSafeRelativePath "file-abc/image.png" = true.
Proof. reflexivity. Qed.

Example join_under_escape :
  safeJoinUnder posixResolve "/" "/out/assets" "../escape.png" = None.
Proof. reflexivity. Qed.

Example join_under_plain :
  safeJoinUnder posixResolve "/" "/out/assets" "a/b.png" = Some "/out/assets/a/b.png".
Proof. reflexivity. Qed.

End AssetPathExamples.

(** ** Facts about the string primitives *)

Module JsFacts.
Import Js.
#[local] Arguments Ascii.eqb : simpl never.

Lemma includesChar_true_iff c s :
  includesChar c s = true <-> In c (list_ascii_of_string s).
Proof.
  induction s as [|a r IH]; simpl.
  - split; [discriminate | tauto].
  - rewrite orb_true_iff, IH, Ascii.eqb_eq. tauto.
Qed.

Lemma includesChar_app c s t :
  includesChar c (s +:+ t) = includesChar c s || includesChar c t.
Proof.
  induction s as [|a r IH]; simpl; [done|].
  by rewrite IH, orb_assoc.
Qed.

Lemma startsWith_spec p s :
  startsWith p s = true <-> exists rest, s = p +:+ rest.
Proof.
  revert s; induction p as [|a p IH]; intros s; simpl.
  - split; [eauto | done].
  - destruct s as [|b s].
    + split; [discriminate | intros [rest H]; discriminate].
    + rewrite andb_true_iff, Ascii.eqb_eq, IH. split.
      * intros [-> [rest ->]]. eauto.
      * intros [rest H]. injection H as -> ->. eauto.
Qed.

Lemma split_not_nil c s : split c s <> [].
Proof.
  destruct s as [|a r]; simpl; [done|].
  destruct (Ascii.eqb a c); [done|]. by destruct (split c r).
Qed.

(** No segment of a split contains the separator. *)
Lemma split_segments_free c s :
  Forall (fun seg => includesChar c seg = false) (split c s).
Proof.
  induction s as [|a r IH]; simpl.
  - by constructor.
  - destruct (Ascii.eqb a c) eqn:E; [by constructor|].
    destruct (split c r) as [|h t]; [constructor; [simpl; by rewrite E|done]|].
    inversion IH; subst. constructor; [simpl; by rewrite E|done].
Qed.

(** A character absent from the string is absent from its segments. *)
Lemma split_segments_without b c s :
  includesChar b s = false ->
  Forall (fun seg => includesChar b seg = false) (split c s).
Proof.
  induction s as [|a r IH]; simpl; intros H.
  - by constructor.
  - apply orb_false_iff in H as [Ha Hr]. specialize (IH Hr).
    destruct (Ascii.eqb a c); [by constructor|].
    destruct (split c r) as [|h t]; [constructor; [simpl; by rewrite Ha|done]|].
    inversion IH; subst. constructor; [simpl; by rewrite Ha, orb_false_l|done].
Qed.

Lemma split_free_id c s : includesChar c s = false -> split c s = [s].
Proof.
  induction s as [|a r IH]; simpl; intros H; [done|].
  apply orb_false_iff in H as [Ha Hr]. by rewrite Ha, (IH Hr).
Qed.

Lemma split_app_sep c p x :
  includesChar c p = false -> split c (p +:+ String c x) = p :: split c x.
Proof.
  induction p as [|a p IH]; simpl; intros H.
  - by rewrite Ascii.eqb_refl.
  - apply orb_false_iff in H as [Ha Hp]. by rewrite Ha, (IH Hp).
Qed.

(** [split] undoes [join] on a non-empty list of separator-free parts. *)
Lemma split_join c parts :
  parts <> [] ->
  Forall (fun seg => includesChar c seg = false) parts ->
  split c (join c parts) = parts.
Proof.
  induction parts as [|p rest IH]; intros Hne Hfree; [done|].
  inversion Hfree as [|? ? Hp Hrest]; subst.
  destruct rest as [|q rest].
  - simpl. by apply split_free_id.
  - change (join c (p :: q :: rest)) with (p +:+ String c (join c (q :: rest))).
    rewrite split_app_sep by done. f_equal. by apply IH.
Qed.

Lemma join_split c s : join c (split c s) = s.
Proof.
  induction s as [|a r IH]; simpl; [done|].
  destruct (Ascii.eqb a c) eqn:E.
  - apply Ascii.eqb_eq in E as ->.
    pose proof (split_not_nil c r) as Hne.
    destruct (split c r) as [|h t] eqn:Hs; [done|].
    simpl in *. by rewrite IH.
  - destruct (split c r) as [|h t] eqn:Hs; [by destruct (split_not_nil c r)|].
    destruct t as [|h' t]; simpl in *; by rewrite <- IH.
Qed.

Lemma includesChar_join b c parts :
  Ascii.eqb c b = false ->
  Forall (fun seg => includesChar b seg = false) parts ->
  includesChar b (join c parts) = false.
Proof.
  intros Hcb. induction parts as [|p rest IH]; intros H; [done|].
  inversion H as [|? ? Hp Hrest]; subst.
  destruct rest as [|q rest]; [done|].
  change (join c (p :: q :: rest)) with (p +:+ String c (join c (q :: rest))).
  rewrite includesChar_app, Hp. simpl. rewrite Hcb. by apply IH.
Qed.

Lemma replaceBackslashes_free s :
  includesChar backslash (replaceBackslashes s) = false.
Proof.
  induction s as [|a r IH]; simpl; [done|].
  rewrite IH. by destruct (Ascii.eqb a backslash) eqn:E; simpl; rewrite ?E.
Qed.

Lemma replaceBackslashes_id s :
  includesChar backslash s = false -> replaceBackslashes s = s.
Proof.
  induction s as [|a r IH]; simpl; intros H; [done|].
  apply orb_false_iff in H as [Ha Hr]. by rewrite Ha, (IH Hr).
Qed.

Lemma stripLeadingDot_without b s :
  includesChar b s = false -> includesChar b (stripLeadingDot s) = false.
Proof.
  intros H. destruct s as [|a [|a' r]]; simpl in *; [done|..].
  - by destruct (Ascii.eqb a ".").
  - apply orb_false_iff in H as [Ha H]. pose proof H as H'.
    apply orb_false_iff in H' as [Ha' Hr].
    destruct (Ascii.eqb a "."); [|simpl; by rewrite Ha].
    by destruct (Ascii.eqb a' slash).
Qed.

Lemma stripLeadingSlashes_without b s :
  includesChar b s = false -> includesChar b (stripLeadingSlashes s) = false.
Proof.
  induction s as [|a r IH]; simpl; intros H; [done|].
  apply orb_false_iff in H as [Ha Hr].
  destruct (Ascii.eqb a slash); [by apply IH|]. simpl. by rewrite Ha, Hr.
Qed.

Lemma stripLeadingSlashes_id s :
  startsWith "/" s = false -> stripLeadingSlashes s = s.
Proof.
  destruct s as [|a r]; simpl; [done|].
  rewrite andb_true_r. intros H. unfold slash. by rewrite Ascii.eqb_sym, H.
Qed.

End JsFacts.

(** ** Facts about the asset-path validator *)

Module AssetPathFacts.
Import Js JsFacts AssetPath.
#[local] Arguments Ascii.eqb : simpl never.
#[local] Arguments String.eqb : simpl never.

(** The forms the specification lists as rejected, in its own words. *)
Definition containsChar (c : ascii) (s : string) : Prop :=
  In c (list_ascii_of_string s).

Definition beginsWithSlash (s : string) : Prop :=
  exists rest, s = String slash rest.

Definition beginsWithDriveLetter (s : string) : Prop :=
  exists a rest,
    s = String a (String ":"%char rest) /\
    ((65 <= nat_of_ascii a <= 90)%nat \/ (97 <= nat_of_ascii a <= 122)%nat).

Definition hasDotDotSegment (s : string) : Prop := In ".." (split slash s).

Definition rejectedForm (s : string) : Prop :=
  s = EmptyString \/ containsChar nul s \/ containsChar backslash s \/
  beginsWithSlash s \/ beginsWithDriveLetter s \/ hasDotDotSegment s.

(** A path lies inside [rootDir] when it is [rootDir] followed by the
    separator and a remainder (or, degenerately, [rootDir] itself). *)
Definition insideRoot (sep rootDir path : string) : Prop :=
  path = rootDir \/ exists rest, path = rootWithSep sep rootDir +:+ rest.

(** A segment of a clean relative path. *)
Definition cleanSegment (seg : string) : Prop :=
  seg <> EmptyString /\ seg <> "." /\ seg <> ".." /\
  includesChar slash seg = false /\ includesChar backslash seg = false.

Lemma isAsciiLetter_spec a :
  (65 <= nat_of_ascii a <= 90)%nat \/ (97 <= nat_of_ascii a <= 122)%nat ->
  isAsciiLetter a = true.
Proof.
  unfold isAsciiLetter, nat_of_ascii. intros H.
  apply orb_true_iff. rewrite !andb_true_iff, !N.leb_le. lia.
Qed.

Lemma pathHasTraversal_spec s :
  pathHasTraversal s = true <-> hasDotDotSegment s.
Proof.
  unfold pathHasTraversal, hasDotDotSegment. rewrite existsb_exists. split.
  - intros [seg [Hin Heq]]. apply String.eqb_eq in Heq. by subst.
  - intros Hin. exists "..". split; [done|]. apply String.eqb_refl.
Qed.

Lemma isSafeRelativePath_rejects s :
  rejectedForm s -> isSafeRelativePath s = false.
Proof.
  unfold isSafeRelativePath.
  intros [->|[H|[H|[[rest ->]|[(a & rest & -> & Ha)|H]]]]].
  - done.
  - apply includesChar_true_iff in H. rewrite H. by case_match.
  - apply includesChar_true_iff in H. rewrite H. by repeat case_match.
  - replace (startsWith "/" (String slash rest)) with true by done.
    by repeat case_match.
  - replace (hasDriveLetterPrefix (String a (String ":" rest))) with true.
    + by repeat case_match.
    + simpl. by rewrite (isAsciiLetter_spec a Ha).
  - apply pathHasTraversal_spec in H. rewrite H. by repeat case_match.
Qed.

(** Whatever [path.resolve] computes, [safeJoinUnder] only lets through a
    target under the root. *)
Lemma safeJoinUnder_inside resolve sep rootDir rel target :
  safeJoinUnder resolve sep rootDir rel = Some target ->
  insideRoot sep rootDir target /\ target = resolve rootDir rel.
Proof.
  unfold safeJoinUnder, insideRoot. intros H.
  destruct (String.eqb (resolve rootDir rel) rootDir) eqn:E1; simpl in H.
  - injection H as <-. apply String.eqb_eq in E1. auto.
  - destruct (startsWith (rootWithSep sep rootDir) (resolve rootDir rel)) eqn:E2;
      [|discriminate].
    injection H as <-. apply startsWith_spec in E2. auto.
Qed.

Lemma assetWrites_spec resolve sep (Bytes : Type) assetsDir
    (assetData : list (string * Bytes)) path data :
  In (path, data) (assetWrites resolve sep assetsDir assetData) <->
  exists key,
    In (key, data) assetData /\ isSafeRelativePath key = true /\
    safeJoinUnder resolve sep assetsDir key = Some path.
Proof.
  unfold assetWrites. rewrite in_flat_map. split.
  - intros [[key d] [Hin Hw]].
    destruct (isSafeRelativePath key) eqn:Hs; [|done].
    destruct (safeJoinUnder resolve sep assetsDir key) eqn:Hj; [|done].
    destruct Hw as [[= -> ->]|[]]. eauto.
  - intros (key & Hin & Hs & Hj). exists (key, data). split; [done|].
    rewrite Hs, Hj. by left.
Qed.

(** *** The segment loop of [normalizePath] *)

Lemma Forall_removelast {A} (P : A -> Prop) l :
  Forall P l -> Forall P (removelast l).
Proof.
  induction 1 as [|x l Hx Hl IH]; simpl; [done|].
  destruct l; [done|]. by constructor.
Qed.

Lemma normalizeStep_clean acc part :
  Forall cleanSegment acc ->
  includesChar slash part = false -> includesChar backslash part = false ->
  Forall cleanSegment (normalizeStep acc part).
Proof.
  intros Hacc Hs Hb. unfold normalizeStep.
  destruct (String.eqb part EmptyString) eqn:E1; [done|].
  destruct (String.eqb part ".") eqn:E2; [done|]. simpl.
  destruct (String.eqb part "..") eqn:E3; [by apply Forall_removelast|].
  apply Forall_app. split; [done|]. constructor; [|done].
  apply String.eqb_neq in E1, E2, E3. by repeat split.
Qed.

Lemma fold_normalizeStep_clean parts acc :
  Forall cleanSegment acc ->
  Forall (fun seg => includesChar slash seg = false) parts ->
  Forall (fun seg => includesChar backslash seg = false) parts ->
  Forall cleanSegment (fold_left normalizeStep parts acc).
Proof.
  revert acc. induction parts as [|p parts IH]; intros acc Hacc Hs Hb; [done|].
  inversion Hs; inversion Hb; subst. simpl.
  apply IH; [by apply normalizeStep_clean|done..].
Qed.

Lemma normalizeStep_push acc part :
  cleanSegment part -> normalizeStep acc part = acc ++ [part].
Proof.
  intros (H1 & H2 & H3 & _). unfold normalizeStep.
  apply String.eqb_neq in H1, H2, H3. by rewrite H1, H2, H3.
Qed.

Lemma fold_normalizeStep_id parts acc :
  Forall cleanSegment parts -> fold_left normalizeStep parts acc = acc ++ parts.
Proof.
  revert acc. induction parts as [|p parts IH]; intros acc H; simpl.
  - by rewrite app_nil_r.
  - inversion H; subst. rewrite normalizeStep_push by done.
    rewrite IH by done. by rewrite <- app_assoc.
Qed.

(** The output of [normalizePath] is a slash-join of clean segments. *)
Lemma normalizePath_shape input :
  exists segs,
    normalizePath input = join slash segs /\ Forall cleanSegment segs.
Proof.
  unfold normalizePath.
  set (n := stripLeadingSlashes (stripLeadingDot (replaceBackslashes input))).
  exists (normalizeParts (split slash n)). split; [done|].
  apply fold_normalizeStep_clean; [done|apply split_segments_free|].
  apply split_segments_without. subst n.
  apply stripLeadingSlashes_without, stripLeadingDot_without,
    replaceBackslashes_free.
Qed.

Lemma join_clean_no_leading_slash segs :
  Forall cleanSegment segs -> startsWith "/" (join slash segs) = false.
Proof.
  intros H. destruct segs as [|p rest]; [done|].
  inversion H as [|? ? (Hne & _ & _ & Hs & _) _]; subst.
  destruct p as [|a p]; [done|].
  simpl in Hs. apply orb_false_iff in Hs as [Ha _].
  assert (forall t, startsWith "/" (String a t) = false) as Hgo.
  { intros t. simpl. unfold slash in Ha. by rewrite Ascii.eqb_sym, Ha. }
  destruct rest; [apply Hgo|]. apply (Hgo (p +:+ _)).
Qed.

(** For every input the output has no backslash, does not begin with a
    slash, and is empty or splits into clean segments only. *)
Lemma normalizePath_output input :
  includesChar backslash (normalizePath input) = false /\
  startsWith "/" (normalizePath input) = false /\
  (normalizePath input = EmptyString \/
   Forall cleanSegment (split slash (normalizePath input))).
Proof.
  destruct (normalizePath_shape input) as (segs & -> & Hclean).
  assert (Forall (fun seg => includesChar slash seg = false) segs) as Hs.
  { eapply Forall_impl; [exact Hclean|]. by intros ? (_ & _ & _ & ? & _). }
  assert (Forall (fun seg => includesChar backslash seg = false) segs) as Hb.
  { eapply Forall_impl; [exact Hclean|]. by intros ? (_ & _ & _ & _ & ?). }
  split; [by apply includesChar_join|].
  split; [by apply join_clean_no_leading_slash|].
  destruct segs as [|p rest]; [by left|right].
  by rewrite split_join.
Qed.

Lemma stripLeadingDot_id s :
  startsWith "." s = false -> stripLeadingDot s = s.
Proof.
  destruct s as [|a r]; simpl; [done|].
  rewrite andb_true_r. intros H. by rewrite Ascii.eqb_sym, H.
Qed.

(** A second pass changes nothing as long as the first result does not
    begin with a dot. *)
Lemma normalizePath_stable input :
  startsWith "." (normalizePath input) = false ->
  normalizePath (normalizePath input) = normalizePath input.
Proof.
  intros Hdot.
  destruct (normalizePath_output input) as (Hb & Hsl & Hsegs).
  destruct (normalizePath_shape input) as (segs & Heq & Hclean).
  unfold normalizePath at 1.
  rewrite replaceBackslashes_id, stripLeadingDot_id, stripLeadingSlashes_id
    by done.
  rewrite Heq. destruct segs as [|p rest]; [done|].
  rewrite split_join; [|done|].
  - unfold normalizeParts. by rewrite fold_normalizeStep_id.
  - eapply Forall_impl; [exact Hclean|]. by intros ? (_ & _ & _ & ? & _).
Qed.

(** Every path the validator accepts normalises to a non-empty clean
    relative path. *)
Lemma isSafeRelativePath_normalizes input :
  isSafeRelativePath input = true ->
  normalizePath input <> EmptyString /\
  Forall cleanSegment (split slash (normalizePath input)).
Proof.
  unfold isSafeRelativePath. intros H.
  repeat (case_match; [discriminate|]).
  apply negb_true_iff, String.eqb_neq in H.
  destruct (normalizePath_output input) as (_ & _ & [?|?]); done.
Qed.

(** C3. The validator rejects the empty string, a string with a NUL
    character, with a backslash, beginning with a slash, beginning with a
    drive letter and a colon, or with a segment equal to [..]; and every file
    the asset loop of [writeDataset] creates lies inside the assets root,
    whatever [path.resolve] makes of the key: it comes from a key the
    validator accepted and [safeJoinUnder] let through. *)
Theorem asset_paths_validated_and_confined
    (input : string) (resolve : string -> string -> string) (sep : string)
    (Bytes : Type) (assetsDir : string) (assetData : list (string * Bytes))
    (path : string) (data : Bytes) :
  (rejectedForm input -> isSafeRelativePath input = false) /\
  (In (path, data) (assetWrites resolve sep assetsDir assetData) ->
   insideRoot sep assetsDir path /\
   exists key,
     In (key, data) assetData /\ isSafeRelativePath key = true /\
     ~ rejectedForm key /\ path = resolve assetsDir key).
Proof.
  split; [apply isSafeRelativePath_rejects|].
  intros Hin. apply assetWrites_spec in Hin as (key & Hkey & Hsafe & Hjoin).
  apply safeJoinUnder_inside in Hjoin as [Hinside ->].
  split; [done|]. exists key. repeat split; try done.
  intros Hrej. apply isSafeRelativePath_rejects in Hrej. congruence.
Qed.

Lemma asset_paths_validated_and_confined_witness :
  isSafeRelativePath "../escape.png" = false /\
  insideRoot "/" "/out/assets" "/out/assets/img/a.png".
Proof.
  destruct (asset_paths_validated_and_confined "../escape.png" posixResolve "/"
              unit "/out/assets" [("../escape.png", tt); ("img/a.png", tt)]
              "/out/assets/img/a.png" tt) as [Hreject Hinside].
  split.
  - apply Hreject. do 5 right. unfold hasDotDotSegment. simpl. by left.
  - apply Hinside. simpl. by left.
Defined.

(** The crafted archive of the test suite: nothing is written for
    [../escape.png]. *)
Example crafted_escape_writes_nothing :
  assetWrites posixResolve "/" "/out/assets" [("../escape.png", tt)] = [].
Proof. reflexivity. Qed.

(** C10 (the code departs from the claim). [normalizePath] is not
    idempotent: the pattern that strips a leading [./] also strips a dot
    that no slash follows, so a first pass can leave a name that begins
    with a dot and a second pass removes that dot. *)
Theorem normalizePath_not_idempotent :
  normalizePath "./.gitignore" = ".gitignore" /\
  normalizePath (normalizePath "./.gitignore") = "gitignore" /\
  normalizePath (normalizePath "./.gitignore") <> normalizePath "./.gitignore".
Proof. repeat split; try reflexivity. vm_compute. discriminate. Qed.

End AssetPathFacts.

(** ** Insertion-ordered maps with string keys ([Map], plain objects) *)

Module JsMap.

Definition t (V : Type) : Type := list (string * V).

Fixpoint get {V} (m : t V) (k : string) : option V :=
  match m with
  | [] => None
  | (k', v) :: rest => if String.eqb k' k then Some v else get rest k
  end.

Definition has {V} (m : t V) (k : string) : bool :=
  match get m k with Some _ => true | None => false end.

(** [m.set(k, v)]: an existing key keeps its place, a new one goes last. *)
Fixpoint set {V} (m : t V) (k : string) (v : V) : t V :=
  match m with
  | [] => [(k, v)]
  | (k', v') :: rest =>
      if String.eqb k' k then (k, v) :: rest else (k', v') :: set rest k v
  end.

Definition keys {V} (m : t V) : list string := map fst m.
Definition values {V} (m : t V) : list V := map snd m.
Definition size {V} (m : t V) : nat := length m.

End JsMap.

Module JsMapFacts.
Import JsMap.

Lemma get_set_eq {V} (m : t V) k v : get (set m k v) k = Some v.
Proof.
  induction m as [|[k' v'] m IH]; simpl.
  - by rewrite String.eqb_refl.
  - destruct (String.eqb k' k) eqn:E; simpl.
    + by rewrite String.eqb_refl.
    + by rewrite E.
Qed.

Lemma get_set_ne {V} (m : t V) k k' v :
  k <> k' -> get (set m k v) k' = get m k'.
Proof.
  intros Hne. induction m as [|[k0 v0] m IH]; simpl.
  - apply String.eqb_neq in Hne. by rewrite Hne.
  - destruct (String.eqb k0 k) eqn:E; simpl.
    + apply String.eqb_eq in E as ->.
      apply String.eqb_neq in Hne. by rewrite Hne.
    + by rewrite IH.
Qed.

Lemma has_true_iff {V} (m : t V) k : has m k = true <-> In k (keys m).
Proof.
  unfold has. induction m as [|[k' v'] m IH]; simpl.
  - split; [discriminate|tauto].
  - destruct (String.eqb k' k) eqn:E.
    + apply String.eqb_eq in E. tauto.
    + apply String.eqb_neq in E. rewrite IH. tauto.
Qed.

Lemma has_false_iff {V} (m : t V) k : has m k = false <-> ~ In k (keys m).
Proof.
  rewrite <- has_true_iff. by destruct (has m k).
Qed.

Lemma get_None_iff {V} (m : t V) k : get m k = None <-> ~ In k (keys m).
Proof.
  rewrite <- has_false_iff. unfold has. by destruct (get m k).
Qed.

(** Setting an absent key appends; setting a present key keeps the keys. *)
Lemma set_absent {V} (m : t V) k v :
  ~ In k (keys m) -> set m k v = m ++ [(k, v)].
Proof.
  induction m as [|[k' v'] m IH]; simpl; intros Hnin; [done|].
  destruct (String.eqb k' k) eqn:E.
  - apply String.eqb_eq in E. tauto.
  - rewrite IH; tauto.
Qed.

Lemma keys_set_present {V} (m : t V) k v :
  In k (keys m) -> keys (set m k v) = keys m.
Proof.
  induction m as [|[k' v'] m IH]; simpl; intros Hin; [done|].
  destruct (String.eqb k' k) eqn:E; simpl.
  - apply String.eqb_eq in E. by subst.
  - apply String.eqb_neq in E. f_equal. apply IH. tauto.
Qed.

Lemma keys_set {V} (m : t V) k v :
  keys (set m k v) = if has m k then keys m else keys m ++ [k].
Proof.
  destruct (has m k) eqn:E.
  - apply keys_set_present. by apply has_true_iff.
  - apply has_false_iff in E. rewrite set_absent by done.
    unfold keys. by rewrite map_app.
Qed.

End JsMapFacts.

(** ** Plain objects used as maps *)

(** A [Map] takes every string as a key.  An object literal does not: it
    inherits the accessor [__proto__] of [Object.prototype], so the
    assignment [obj['__proto__'] = v] creates no property of [obj] (it
    replaces the prototype when [v] is an object and does nothing when [v]
    is a string), and neither [Object.keys], [Object.values] nor
    [JSON.stringify] shows anything of it.  Every other key is created or
    overwritten as in a [Map]. *)
Module JsObject.

Definition protoName : string := "__proto__".

(** [obj[k] = v] on an object made by [{}], as far as its own properties
    go. *)
Definition assign {V} (obj : JsMap.t V) (k : string) (v : V) : JsMap.t V :=
  if String.eqb k protoName then obj else JsMap.set obj k v.

(** The members every object inherits from [Object.prototype]. *)
Definition inheritedNames : list string :=
  ["constructor"; "__defineGetter__"; "__defineSetter__"; "hasOwnProperty";
   "__lookupGetter__"; "__lookupSetter__"; "isPrototypeOf";
   "propertyIsEnumerable"; "toString"; "valueOf"; "__proto__";
   "toLocaleString"].

(** [obj[k]] on an object that [JSON.parse] built, whose own properties may
    bear any name: the property of its own, else the inherited member, else
    [undefined]. *)
Inductive Read (V : Type) :=
| Own (v : V)
| Inherited
| Undefined.
Arguments Own {V} v.
Arguments Inherited {V}.
Arguments Undefined {V}.

Definition read {V} (obj : JsMap.t V) (k : string) : Read V :=
  match JsMap.get obj k with
  | Some v => Own v
  | None =>
      if existsb (String.eqb k) inheritedNames then Inherited else Undefined
  end.

End JsObject.

Module JsObjectFacts.
Import JsMap JsMapFacts JsObject.

Lemma assign_proto {V} (obj : JsMap.t V) v : assign obj protoName v = obj.
Proof. done. Qed.

Lemma assign_other {V} (obj : JsMap.t V) k v :
  k <> protoName -> assign obj k v = set obj k v.
Proof.
  intros Hne. unfold assign. apply String.eqb_neq in Hne. by rewrite Hne.
Qed.

Lemma get_assign_eq {V} (obj : JsMap.t V) k v :
  k <> protoName -> get (assign obj k v) k = Some v.
Proof. intros Hne. rewrite assign_other by done. apply get_set_eq. Qed.

Lemma get_assign_ne {V} (obj : JsMap.t V) k k' v :
  k <> k' -> get (assign obj k v) k' = get obj k'.
Proof.
  intros Hne. unfold assign. destruct (String.eqb k protoName); [done|].
  by apply get_set_ne.
Qed.

(** No assignment gives the object a property named [__proto__]. *)
Lemma get_assign_proto {V} (obj : JsMap.t V) k v :
  get obj protoName = None -> get (assign obj k v) protoName = None.
Proof.
  intros Hnone. unfold assign. destruct (String.eqb k protoName) eqn:E; [done|].
  apply String.eqb_neq in E. by rewrite get_set_ne.
Qed.

End JsObjectFacts.

(** ** GraphConverter (slimConvert.ts) *)

Module Graph.

Inductive Role := User | Assistant | System | Tool.

Inductive MediaType := Image | Audio | Video | File.

Inductive Block :=
| Markdown (text : string)
| Code (lang text : string)
| Asset (asset_pointer : string) (mediaType : MediaType) (alt : option string)
| Transcript (text : string).

(** [a ?? b]. *)
Definition nullish {A} (a b : option A) : option A :=
  match a with Some _ => a | None => b end.

(** A string in a boolean position: [undefined], [null] and [''] are falsy. *)
Definition truthy (s : option string) : option string :=
  match s with
  | Some v => if String.eqb v EmptyString then None else Some v
  | None => None
  end.

Definition normalizeMs (value : option Z) : Z :=
  match value with
  | None => 0
  | Some v =>
      if v =? 0 then 0
      else if v >? 10000000000 then v
      else v * 1000
  end.

Definition normalizeOptionalMs (value : option Z) : option Z :=
  match value with
  | None => None
  | Some v => if v =? 0 then None else Some (normalizeMs (Some v))
  end.

(** [Array.from(new Set(xs))]: first occurrences, in order. *)
Fixpoint dedupeFrom (seen xs : list string) : list string :=
  match xs with
  | [] => []
  | x :: rest =>
      if existsb (String.eqb x) seen then dedupeFrom seen rest
      else x :: dedupeFrom (x :: seen) rest
  end.

Definition dedupe (xs : list string) : list string := dedupeFrom [] xs.

(** The ContentSegmenter ([convertParts], [buildDetails], [buildSnippet]) is a
    parameter of the graph walk: message content, message metadata and the
    asset index are opaque to it.  [convertParts] never reads the asset map
    it fills, so it is taken to return the blocks together with the
    assignments [assetsMap[pointer] = assetKey] it runs, in order. *)
Section Converter.
Context {Content Metadata Details AssetsIndex : Type}.

Record RawMessage := {
  rm_id : option string;
  rm_author_role : option string;
  rm_create_time : option Z;
  rm_update_time : option Z;
  rm_recipient : option string;
  rm_content : option Content;
  rm_metadata : option Metadata;
}.

Record RawNode := {
  node_id : string;
  node_parent : option string;
  node_children : option (list string);
  node_message : option RawMessage;
}.

Record RawConversation := {
  conversation_id : option string;
  raw_title : option string;
  current_node : option string;
  mapping : option (gmap string RawNode);
  raw_create_time : option Z;
  raw_update_time : option Z;
}.

Record MessageVariant := {
  var_id : string;
  var_time : option Z;
  var_blocks : list Block;
  var_details : option Details;
}.

Record Message := {
  msg_id : string;
  msg_role : Role;
  msg_time : option Z;
  msg_recipient : option string;
  msg_blocks : list Block;
  msg_details : option Details;
  msg_variants : option (list MessageVariant);
}.

Record Conversation := {
  conv_id : string;
  conv_title : string;
  conv_create_time : option Z;
  conv_update_time : option Z;
  last_message_time : Z;
  conv_assetsMap : option (JsMap.t string);
  messages : list Message;
}.

Record SlimConversionResult := {
  conversation : Conversation;
  snippet : string;
  mappingNodeCount : nat;
  assetKeys : list string;
}.

Variable convertParts :
  option Content -> AssetsIndex -> list Block * list (string * string).
Variable buildDetails : RawMessage -> option Details.
Variable buildSnippet : string -> string.

(** The asset map is an object literal: the assignments are those of
    [JsObject.assign]. *)
Definition recordAssets (assetsMap : JsMap.t string)
    (writes : list (string * string)) : JsMap.t string :=
  fold_left (fun m (w : string * string) => JsObject.assign m (fst w) (snd w))
    writes assetsMap.

Definition roleOf (role : option string) : Role :=
  match role with
  | None => User
  | Some r =>
      if String.eqb r "assistant" then Assistant
      else if String.eqb r "system" then System
      else if String.eqb r "tool" then Tool
      else User
  end.

Definition isAssistantNode (n : RawNode) : bool :=
  match node_message n with
  | Some m =>
      match rm_author_role m with
      | Some r => String.eqb r "assistant"
      | None => false
      end
  | None => false
  end.

Definition collectAssistantVariants (node : RawNode)
    (nodes : gmap string RawNode) : list RawNode :=
  match truthy (node_parent node) with
  | None => []
  | Some p =>
      match nodes !! p with
      | None => []
      | Some parent =>
          match node_children parent with
          | None => []
          | Some children =>
              List.filter
                (fun child =>
                   negb (String.eqb (node_id child) (node_id node))
                   && isAssistantNode child)
                (omap (fun childId => nodes !! childId) children)
          end
      end
  end.

Definition messageTime (raw : RawMessage) : option Z :=
  normalizeOptionalMs (nullish (rm_create_time raw) (rm_update_time raw)).

Definition messageId (raw : RawMessage) (fallback : string) : string :=
  match truthy (rm_id raw) with Some i => i | None => fallback end.

(** One variant record and the assignments to the asset map its blocks
    run. *)
Definition variantOf (assetsJson : AssetsIndex) (variant : RawNode)
    : MessageVariant * list (string * string) :=
  match node_message variant with
  | Some vm =>
      let converted := convertParts (rm_content vm) assetsJson in
      ({| var_id := messageId vm (node_id variant);
          var_time := messageTime vm;
          var_blocks := fst converted;
          var_details := buildDetails vm |}, snd converted)
  | None =>
      let converted := convertParts None assetsJson in
      ({| var_id := node_id variant; var_time := None;
          var_blocks := fst converted; var_details := None |}, snd converted)
  end.

(** [transformMessage]: [None] when the node carries no message; otherwise
    the slim message and the asset map after the assignments of its blocks
    and of its variants' blocks. *)
Definition transformMessage (node : RawNode) (nodes : gmap string RawNode)
    (assetsJson : AssetsIndex) (assetsMap : JsMap.t string)
    : option (Message * JsMap.t string) :=
  match node_message node with
  | None => None
  | Some raw =>
      let role := roleOf (rm_author_role raw) in
      let converted := convertParts (rm_content raw) assetsJson in
      let variantNodes :=
        match role with
        | Assistant => collectAssistantVariants node nodes
        | _ => []
        end in
      let variants := map (variantOf assetsJson) variantNodes in
      Some
        ({| msg_id := messageId raw (node_id node);
            msg_role := role;
            msg_time := messageTime raw;
            msg_recipient := rm_recipient raw;
            msg_blocks := fst converted;
            msg_details := buildDetails raw;
            msg_variants :=
              match variants with
              | [] => None
              | _ => Some (map fst variants)
              end |},
         recordAssets assetsMap
           (snd converted ++ concat (map snd variants)))
  end.

(** The first markdown block with a non-empty text, as
    [blocks.find(b => b.type === 'markdown')] followed by the test of
    [firstBlock?.text] reads it. *)
Fixpoint firstMarkdown (blocks : list Block) : option string :=
  match blocks with
  | [] => None
  | Markdown text :: _ =>
      if String.eqb text EmptyString then None else Some text
  | _ :: rest => firstMarkdown rest
  end.

Definition isUser (r : Role) : bool :=
  match r with User => true | _ => false end.

Definition buildTitleFromMessages (msgs : list Message) : string :=
  match List.find (fun m => isUser (msg_role m)) msgs with
  | None => "Conversation"
  | Some firstUser =>
      match firstMarkdown (msg_blocks firstUser) with
      | None => "Conversation"
      | Some text => buildSnippet text
      end
  end.

(** The parent of a node, as [cursor.parent ? nodes[cursor.parent] :
    undefined] reads it. *)
Definition parentOf (nodes : gmap string RawNode) (node : RawNode)
    : option RawNode :=
  match truthy (node_parent node) with
  | Some p => nodes !! p
  | None => None
  end.

(** The [while (cursor && !visited.has(cursor.id))] loop.  Each unit of
    [fuel] pays for one turn of the body; [None] means the fuel ran out
    first. *)
Fixpoint collectPath (fuel : nat) (nodes : gmap string RawNode)
    (visited : gset string) (cursor : option RawNode) (path : list RawNode)
    : option (list RawNode) :=
  match cursor with
  | None => Some path
  | Some node =>
      if decide (node_id node ∈ visited) then Some path
      else
        match fuel with
        | O => None
        | S fuel' =>
            collectPath fuel' nodes ({[node_id node]} ∪ visited)
              (parentOf nodes node) (path ++ [node])
        end
  end.

(** The variables of the [for (const node of path)] loop. *)
Record LoopState := {
  st_messages : list Message;
  st_assetsMap : JsMap.t string;
  st_snippet : string;
  st_lastMessageTs : Z;
}.

Definition loopStep (nodes : gmap string RawNode) (assetsJson : AssetsIndex)
    (st : LoopState) (node : RawNode) : LoopState :=
  match transformMessage node nodes assetsJson (st_assetsMap st) with
  | None => st
  | Some (msg, assetsMap') =>
      {| st_messages := st_messages st ++ [msg];
         st_assetsMap := assetsMap';
         st_snippet :=
           if String.eqb (st_snippet st) EmptyString && isUser (msg_role msg)
           then match firstMarkdown (msg_blocks msg) with
                | Some text => buildSnippet text
                | None => st_snippet st
                end
           else st_snippet st;
         st_lastMessageTs :=
           match msg_time msg with
           | Some t =>
               if negb (t =? 0) && (t >? st_lastMessageTs st) then t
               else st_lastMessageTs st
           | None => st_lastMessageTs st
           end |}
  end.

Definition initialState (raw : RawConversation) : LoopState :=
  {| st_messages := [];
     st_assetsMap := [];
     st_snippet := EmptyString;
     st_lastMessageTs :=
       match nullish (raw_update_time raw) (raw_create_time raw) with
       | Some t => t
       | None => 0
       end |}.

(** What is built once the loop is over; [None] is the [null] returned for a
    conversation without messages. *)
Definition finish (raw : RawConversation) (nodes : gmap string RawNode)
    (st : LoopState) : option SlimConversionResult :=
  match st_messages st with
  | [] => None
  | first :: _ =>
      Some
        {| conversation :=
             {| conv_id :=
                  match conversation_id raw with
                  | Some i => i
                  | None => msg_id first
                  end;
                conv_title :=
                  match truthy (raw_title raw) with
                  | Some t => t
                  | None => buildTitleFromMessages (st_messages st)
                  end;
                conv_create_time := normalizeOptionalMs (raw_create_time raw);
                conv_update_time := normalizeOptionalMs (raw_update_time raw);
                last_message_time := normalizeMs (Some (st_lastMessageTs st));
                conv_assetsMap :=
                  match st_assetsMap st with
                  | [] => None
                  | m => Some m
                  end;
                messages := st_messages st |};
           snippet := st_snippet st;
           mappingNodeCount := size nodes;
           assetKeys := dedupe (JsMap.values (st_assetsMap st)) |}
  end.

(** [convertRawConversation].  The outer [None] would be a walk that did not
    come to an end within [size nodes] turns; the inner one is [null]. *)
Definition convertRawConversation (raw : RawConversation)
    (assetsJson : AssetsIndex) : option (option SlimConversionResult) :=
  match mapping raw, truthy (current_node raw) with
  | Some nodes, Some cur =>
      match collectPath (size nodes) nodes ∅ (nodes !! cur) [] with
      | None => None
      | Some path =>
          Some (finish raw nodes
                  (fold_left (loopStep nodes assetsJson) (rev path)
                     (initialState raw)))
      end
  | _, _ => Some None
  end.

End Converter.

End Graph.

(** ** Facts about the graph converter *)

Module GraphFacts.
Import Graph.

Section Walk.
Context {Content Metadata : Type}.
Implicit Types (nodes : gmap string (@RawNode Content Metadata)).
Implicit Types (node parent : @RawNode Content Metadata).
Implicit Types (path rest walked : list (@RawNode Content Metadata)).
Implicit Types (cursor start : option (@RawNode Content Metadata)).

(** The ids of the nodes of a path, in order. *)
Definition idsOf path : list string := node_id <$> path.

(** [path] follows parent links, starting from [cursor]. *)
Inductive follows nodes :
  option (@RawNode Content Metadata) -> list (@RawNode Content Metadata) -> Prop :=
| follows_nil cursor : follows nodes cursor []
| follows_cons node rest :
    follows nodes (parentOf nodes node) rest ->
    follows nodes (Some node) (node :: rest).

(** Where the cursor stands once [path] has been walked. *)
Fixpoint cursorAfter nodes cursor path : option (@RawNode Content Metadata) :=
  match path with
  | [] => cursor
  | node :: rest => cursorAfter nodes (parentOf nodes node) rest
  end.

(** The parent chain of the specification: from the node stored under [key]
    up to a node without parent, every parent reference being present. *)
Inductive parentChain nodes :
  string -> list (@RawNode Content Metadata) -> Prop :=
| chain_root key node :
    nodes !! key = Some node ->
    truthy (node_parent node) = None ->
    parentChain nodes key [node]
| chain_step key node parentKey rest :
    nodes !! key = Some node ->
    truthy (node_parent node) = Some parentKey ->
    parentChain nodes parentKey rest ->
    parentChain nodes key (node :: rest).

(** A node that is stored in the mapping (under some key). *)
Definition stored nodes node : Prop := exists key, nodes !! key = Some node.

Lemma parentOf_stored nodes node parent :
  parentOf nodes node = Some parent -> stored nodes parent.
Proof.
  unfold parentOf, stored. destruct (truthy (node_parent node)); [eauto|done].
Qed.

(** Pigeonhole: stored nodes with pairwise distinct ids are no more than the
    mapping has entries. *)
Lemma distinct_ids_bounded nodes path :
  Forall (stored nodes) path -> NoDup (idsOf path) ->
  (length path <= size nodes)%nat.
Proof.
  intros Hst Hnd. apply NoDup_fmap_1 in Hnd.
  rewrite <- (length_map_to_list nodes), <- (length_fmap snd (map_to_list nodes)).
  apply submseteq_length, NoDup_submseteq; [done|].
  intros node Hin. rewrite Forall_forall in Hst.
  destruct (Hst node Hin) as [key Hkey].
  apply list_elem_of_fmap. exists (key, node). split; [done|].
  by apply elem_of_map_to_list.
Qed.

Lemma cursorAfter_app nodes cursor path node :
  cursorAfter nodes cursor path = Some node ->
  cursorAfter nodes cursor (path ++ [node]) = parentOf nodes node.
Proof.
  revert cursor. induction path as [|n path IH]; intros cursor H; simpl in *.
  - done.
  - by apply IH.
Qed.

Lemma follows_app nodes cursor path node :
  follows nodes cursor path -> cursorAfter nodes cursor path = Some node ->
  follows nodes cursor (path ++ [node]).
Proof.
  induction 1 as [cursor|n rest Hf IH]; simpl; intros H.
  - subst. repeat constructor.
  - constructor. by apply IH.
Qed.

(** The walk, from any state the loop can be in: [walked] is what has been
    pushed so far, [start] where the walk began. *)
Lemma collectPath_invariant nodes start fuel visited cursor walked :
  follows nodes start walked ->
  cursorAfter nodes start walked = cursor ->
  (forall i, i ∈ visited <-> i ∈ idsOf walked) ->
  NoDup (idsOf walked) ->
  Forall (stored nodes) walked ->
  (forall node, cursor = Some node -> stored nodes node) ->
  (size nodes <= length walked + fuel)%nat ->
  exists path,
    collectPath fuel nodes visited cursor walked = Some path /\
    follows nodes start path /\
    NoDup (idsOf path) /\
    Forall (stored nodes) path /\
    match cursorAfter nodes start path with
    | None => True
    | Some node => node_id node ∈ idsOf path
    end.
Proof.
  revert visited cursor walked.
  induction fuel as [|fuel IH]; intros visited cursor walked
    Hfol Hcur Hvis Hnd Hst Hcst Hfuel.
  - destruct cursor as [node|]; simpl.
    + destruct (decide (node_id node ∈ visited)) as [Hin|Hnin].
      * exists walked. rewrite Hcur. repeat split; try done. by apply Hvis.
      * exfalso.
        assert (length (walked ++ [node]) <= size nodes)%nat as Hle.
        { apply distinct_ids_bounded.
          - apply Forall_app. split; [done|]. constructor; [eauto|done].
          - unfold idsOf. rewrite fmap_app. apply NoDup_app.
            split; [done|]. split; [|apply NoDup_singleton].
            intros i Hi Hi'. apply list_elem_of_singleton in Hi'. subst.
            apply Hnin. by apply Hvis. }
        rewrite length_app in Hle. simpl in Hle. lia.
    + exists walked. rewrite Hcur. by repeat split.
  - destruct cursor as [node|]; simpl.
    + destruct (decide (node_id node ∈ visited)) as [Hin|Hnin].
      * exists walked. rewrite Hcur. repeat split; try done. by apply Hvis.
      * apply IH.
        -- by apply follows_app.
        -- by apply cursorAfter_app.
        -- intros i. unfold idsOf. rewrite fmap_app. simpl.
           rewrite elem_of_union, elem_of_singleton, elem_of_app,
             list_elem_of_singleton, Hvis. tauto.
        -- unfold idsOf. rewrite fmap_app. apply NoDup_app.
           split; [done|]. split; [|apply NoDup_singleton].
           intros i Hi Hi'. apply list_elem_of_singleton in Hi'. subst.
           apply Hnin. by apply Hvis.
        -- apply Forall_app. split; [done|]. constructor; [eauto|done].
        -- intros parent Hp. by eapply parentOf_stored.
        -- rewrite length_app. simpl. lia.
    + exists walked. rewrite Hcur. by repeat split.
Qed.


(** On a valid parent chain without repeated ids the walk returns the chain
    itself, leaf first. *)
Lemma collectPath_chain nodes key chain :
  parentChain nodes key chain ->
  forall fuel visited walked,
    (forall i, i ∈ visited <-> i ∈ idsOf walked) ->
    NoDup (idsOf (walked ++ chain)) ->
    (length chain <= fuel)%nat ->
    collectPath fuel nodes visited (nodes !! key) walked = Some (walked ++ chain).
Proof.
  induction 1 as [key node Hkey Hroot|key node parentKey rest Hkey Hpar Hch IH];
    intros fuel visited walked Hvis Hnd Hfuel; rewrite Hkey;
    (destruct fuel as [|fuel]; [simpl in Hfuel; lia|]);
    (assert (node_id node ∉ visited) as Hnin
      by (intros Hin; unfold idsOf in Hnd; rewrite fmap_app in Hnd;
          apply NoDup_app in Hnd as (_ & Hdisj & _);
          apply (Hdisj (node_id node)); [by apply Hvis|simpl; left]));
    simpl; rewrite decide_False by done.
  - replace (parentOf nodes node) with (@None (@RawNode Content Metadata))
      by (unfold parentOf; by rewrite Hroot).
    by destruct fuel.
  - replace (parentOf nodes node) with (nodes !! parentKey)
      by (unfold parentOf; by rewrite Hpar).
    rewrite (IH fuel ({[node_id node]} ∪ visited) (walked ++ [node])).
    + by rewrite <- app_assoc.
    + intros i. unfold idsOf. rewrite fmap_app. simpl.
      rewrite elem_of_union, elem_of_singleton, elem_of_app,
        list_elem_of_singleton, Hvis. tauto.
    + by rewrite <- app_assoc.
    + simpl in Hfuel. lia.
Qed.

Lemma parentChain_stored nodes key chain :
  parentChain nodes key chain -> Forall (stored nodes) chain.
Proof.
  induction 1; constructor; unfold stored; eauto.
Qed.

End Walk.

Section Conversion.
Context {Content Metadata Details AssetsIndex : Type}.
Variable convertParts :
  option Content -> AssetsIndex -> list Block * list (string * string).
Variable buildDetails : @RawMessage Content Metadata -> option Details.
Variable buildSnippet : string -> string.
Implicit Types (nodes : gmap string (@RawNode Content Metadata)).
Implicit Types (node : @RawNode Content Metadata).
Implicit Types (raw : @RawConversation Content Metadata).
Implicit Types (st : @LoopState Details).

(** What [transformMessage] makes of a node.  The asset map it is handed
    only receives assignments and has no part in the message. *)
Definition slimMessage nodes (assetsJson : AssetsIndex) node
    : option (@Message Details) :=
  fst <$> transformMessage convertParts buildDetails node nodes assetsJson [].

Lemma transformMessage_message nodes assetsJson node assetsMap :
  fst <$> transformMessage convertParts buildDetails node nodes assetsJson
            assetsMap
  = slimMessage nodes assetsJson node.
Proof.
  unfold slimMessage, transformMessage.
  by destruct (node_message node) as [raw|].
Qed.

Lemma slimMessage_is_Some nodes assetsJson node :
  is_Some (slimMessage nodes assetsJson node) <-> is_Some (node_message node).
Proof.
  unfold slimMessage, transformMessage.
  destruct (node_message node) as [raw|]; simpl.
  - split; eauto.
  - split; intros [? ?]; done.
Qed.

Lemma loopStep_messages nodes assetsJson st node :
  st_messages (loopStep convertParts buildDetails buildSnippet nodes
                 assetsJson st node)
  = st_messages st
    ++ match slimMessage nodes assetsJson node with
       | Some m => [m]
       | None => []
       end.
Proof.
  unfold loopStep.
  rewrite <- (transformMessage_message nodes assetsJson node (st_assetsMap st)).
  destruct (transformMessage _ _ _ _ _ _) as [[m am]|]; simpl.
  - done.
  - by rewrite app_nil_r.
Qed.

Lemma loop_messages nodes assetsJson path st :
  st_messages (fold_left (loopStep convertParts buildDetails buildSnippet
                            nodes assetsJson) path st)
  = st_messages st ++ omap (slimMessage nodes assetsJson) path.
Proof.
  revert st. induction path as [|node path IH]; intros st; simpl.
  - by rewrite app_nil_r.
  - rewrite IH, loopStep_messages, <- app_assoc. f_equal.
    by destruct (slimMessage nodes assetsJson node).
Qed.

Lemma finish_messages raw nodes st :
  match finish buildSnippet raw nodes st with
  | Some r => messages (conversation r) = st_messages st /\ st_messages st <> []
  | None => st_messages st = []
  end.
Proof.
  unfold finish. by destruct (st_messages st).
Qed.


(** The walk of [convertRawConversation] never runs out of fuel. *)
Lemma collectPath_total nodes key :
  exists path,
    collectPath (size nodes) nodes ∅ (nodes !! key) [] = Some path /\
    follows nodes (nodes !! key) path /\
    NoDup (idsOf path) /\
    Forall (stored nodes) path /\
    match cursorAfter nodes (nodes !! key) path with
    | None => True
    | Some node => node_id node ∈ idsOf path
    end.
Proof.
  apply (collectPath_invariant nodes (nodes !! key)).
  - constructor.
  - done.
  - intros i. simpl. set_solver.
  - constructor.
  - constructor.
  - intros node H. by exists key.
  - simpl. lia.
Qed.

(** C9. Graph conversion comes to an end on every raw conversation graph,
    cyclic or dangling parent links included: [convertRawConversation]
    always returns (a result or [null]), and the walk from [current_node]
    returns a path that follows parent links, holds each node id at most
    once, is no longer than the mapping, and stops only where no node is
    left to visit (no parent, or a parent reference missing from the
    mapping) or where the next node's id is already on the path. *)
Theorem graph_conversion_terminates raw assetsJson nodes key :
  (exists result,
     convertRawConversation convertParts buildDetails buildSnippet raw
       assetsJson = Some result) /\
  (exists path,
     collectPath (size nodes) nodes ∅ (nodes !! key) [] = Some path /\
     follows nodes (nodes !! key) path /\
     NoDup (idsOf path) /\
     (length path <= size nodes)%nat /\
     match cursorAfter nodes (nodes !! key) path with
     | None => True
     | Some node => node_id node ∈ idsOf path
     end).
Proof.
  split.
  - unfold convertRawConversation.
    destruct (mapping raw) as [m|]; [|eauto].
    destruct (truthy (current_node raw)) as [cur|]; [|eauto].
    destruct (collectPath_total m cur) as (path & -> & _). eauto.
  - destruct (collectPath_total nodes key) as (path & H1 & H2 & H3 & H4 & H5).
    exists path. repeat split; try done. by apply distinct_ids_bounded.
Qed.

(** Whether a node carries a message. *)
Definition hasMessage node : bool :=
  match node_message node with Some _ => true | None => false end.

(** A raw timestamp as a slim message shows it: missing or zero is no time,
    a value above 10^10 is in milliseconds already, any other is in
    seconds. *)
Definition stamp (value : option Z) : option Z :=
  match value with
  | Some v =>
      if v =? 0 then None
      else Some (if v >? 10000000000 then v else v * 1000)
  | None => None
  end.

(** The role a raw author role stands for. *)
Inductive roleNamed : option string -> Role -> Prop :=
| named_assistant : roleNamed (Some "assistant") Assistant
| named_system : roleNamed (Some "system") System
| named_tool : roleNamed (Some "tool") Tool
| named_user role :
    role <> Some "assistant" -> role <> Some "system" ->
    role <> Some "tool" -> roleNamed role User.

(** [m] is the message carried by [node]: the node has a raw message, and
    [m] has its id (the node's id when the raw message has none), its
    author's role, its creation time (its update time when it has no
    creation time), its recipient, the blocks of its content and its
    details; an assistant message lists the other assistant children of the
    node's parent as its variants. *)
Definition carriedBy nodes (assetsJson : AssetsIndex) node
    (m : @Message Details) : Prop :=
  exists rm,
    node_message node = Some rm /\
    msg_id m = match rm_id rm with
               | Some i => if String.eqb i EmptyString then node_id node else i
               | None => node_id node
               end /\
    roleNamed (rm_author_role rm) (msg_role m) /\
    msg_time m = stamp match rm_create_time rm with
                       | Some t => Some t
                       | None => rm_update_time rm
                       end /\
    msg_recipient m = rm_recipient rm /\
    msg_blocks m = fst (convertParts (rm_content rm) assetsJson) /\
    msg_details m = buildDetails rm /\
    msg_variants m =
      match msg_role m, collectAssistantVariants node nodes with
      | Assistant, v :: vs =>
          Some (map (fun variant =>
                       fst (variantOf convertParts buildDetails assetsJson
                              variant)) (v :: vs))
      | _, _ => None
      end.

Lemma roleOf_named role : roleNamed role (roleOf role).
Proof.
  unfold roleOf. destruct role as [r|]; [|by constructor].
  destruct (String.eqb r "assistant") eqn:Ha.
  { apply String.eqb_eq in Ha. subst. constructor. }
  destruct (String.eqb r "system") eqn:Hs.
  { apply String.eqb_eq in Hs. subst. constructor. }
  destruct (String.eqb r "tool") eqn:Ht.
  { apply String.eqb_eq in Ht. subst. constructor. }
  apply String.eqb_neq in Ha, Hs, Ht. constructor; congruence.
Qed.

Lemma slimMessage_carried nodes assetsJson node m :
  slimMessage nodes assetsJson node = Some m ->
  carriedBy nodes assetsJson node m.
Proof.
  unfold slimMessage, transformMessage, carriedBy.
  destruct (node_message node) as [rm|]; [|done].
  simpl. intros [= <-]. exists rm. simpl.
  split; [done|]. split.
  { unfold messageId, truthy. destruct (rm_id rm) as [i|]; [|done].
    by destruct (String.eqb i EmptyString). }
  split; [apply roleOf_named|]. split.
  { unfold messageTime, normalizeOptionalMs, normalizeMs, nullish, stamp.
    destruct (rm_create_time rm) as [t|]; [|destruct (rm_update_time rm) as [t|]];
      try done; by destruct (t =? 0). }
  split; [done|]. split; [done|]. split; [done|].
  destruct (roleOf (rm_author_role rm)); try done.
  destruct (collectAssistantVariants node nodes) as [|v vs]; [done|].
  simpl. by rewrite map_map.
Qed.

Lemma messages_carried nodes assetsJson path :
  Forall2 (carriedBy nodes assetsJson)
    (List.filter hasMessage path)
    (omap (slimMessage nodes assetsJson) path).
Proof.
  induction path as [|node path IH]; simpl; [constructor|].
  unfold hasMessage at 1.
  destruct (slimMessage nodes assetsJson node) as [m|] eqn:Hm.
  - destruct (proj1 (slimMessage_is_Some nodes assetsJson node)) as [rm Hrm];
      [eauto|].
    rewrite Hrm. constructor; [by apply slimMessage_carried|done].
  - destruct (node_message node) as [rm|] eqn:Hrm; [|done].
    destruct (proj2 (slimMessage_is_Some nodes assetsJson node)) as [m' Hm'];
      [rewrite Hrm; eauto|congruence].
Qed.

(** C4 (with the precondition the guard set needs). On a graph whose parent
    chain from [current_node] reaches the root with every parent reference
    present and no node id repeated, the conversion returns a conversation
    whose messages are, one for one and in this order, the messages carried
    by the nodes of the chain that carry one, root first and leaf last; it
    returns [null] exactly when no node of the chain carries a message. *)
Theorem converted_messages_follow_chain raw assetsJson nodes cur chain :
  mapping raw = Some nodes ->
  truthy (current_node raw) = Some cur ->
  parentChain nodes cur chain ->
  NoDup (idsOf chain) ->
  match convertRawConversation convertParts buildDetails buildSnippet raw
          assetsJson with
  | Some (Some r) =>
      Forall2 (carriedBy nodes assetsJson)
        (List.filter hasMessage (rev chain))
        (messages (conversation r)) /\
      Exists (fun node => hasMessage node = true) chain
  | Some None => Forall (fun node => hasMessage node = false) chain
  | None => False
  end.
Proof.
  intros Hmap Hcur Hchain Hnd. unfold convertRawConversation.
  rewrite Hmap, Hcur.
  rewrite (collectPath_chain nodes cur chain Hchain (size nodes) ∅ []);
    [|set_solver|done|].
  2:{ apply distinct_ids_bounded; [by eapply parentChain_stored|done]. }
  simpl.
  set (st := fold_left _ _ _).
  pose proof (finish_messages raw nodes st) as Hfin.
  assert (st_messages st = omap (slimMessage nodes assetsJson) (rev chain))
    as Hmsgs by (subst st; by rewrite loop_messages).
  pose proof (messages_carried nodes assetsJson (rev chain)) as Hcarried.
  rewrite <- Hmsgs in Hcarried.
  destruct (finish buildSnippet raw nodes st) as [r|].
  - destruct Hfin as [-> Hne]. split; [done|].
    apply Exists_exists.
    destruct (List.filter hasMessage (rev chain)) as [|node rest] eqn:E.
    { apply Forall2_nil_inv_l in Hcarried. by rewrite Hcarried in Hne. }
    assert (In node (List.filter hasMessage (rev chain))) as Hin
      by (rewrite E; left; done).
    apply List.filter_In in Hin as [Hin Hhas].
    exists node. split; [|done].
    apply list_elem_of_In. by apply in_rev.
  - rewrite Hfin in Hcarried. apply Forall_forall. intros node Hin.
    destruct (hasMessage node) eqn:Hhas; [|done]. exfalso.
    assert (In node (List.filter hasMessage (rev chain))) as Hin'.
    { apply List.filter_In. split; [|done].
      apply -> in_rev. by apply list_elem_of_In. }
    apply Forall2_nil_inv_r in Hcarried. rewrite Hcarried in Hin'. done.
Qed.


(** *** Timestamps *)

(** The specification's reading of a raw timestamp: a value above 10^10 is
    in milliseconds already, any other is in seconds. *)
Definition toMillis (v : Z) : Z :=
  if v >? 10000000000 then v else v * 1000.

(** The specification's [last_message_time]: the maximum, in milliseconds,
    of the graph's stated time and of the message timestamps observed. *)
Definition claimedLastMessageTime (graphTime : Z) (messageTimes : list Z) : Z :=
  fold_right Z.max (toMillis graphTime) (map toMillis messageTimes).

(** A conversation last updated at 1700000000 s whose only message was
    written at 1600000000 s. *)
Definition staleMessage : @RawMessage Content Metadata :=
  {| rm_id := Some "m1"; rm_author_role := Some "user";
     rm_create_time := Some 1600000000; rm_update_time := None;
     rm_recipient := None; rm_content := None; rm_metadata := None |}.

Definition staleNode : @RawNode Content Metadata :=
  {| node_id := "n1"; node_parent := None; node_children := None;
     node_message := Some staleMessage |}.

Definition staleGraph : @RawConversation Content Metadata :=
  {| conversation_id := Some "c1"; raw_title := Some "Stale";
     current_node := Some "n1"; mapping := Some {[ "n1" := staleNode ]};
     raw_create_time := Some 1500000000;
     raw_update_time := Some 1700000000 |}.

(** What the loop leaves in [lastMessageTs]: the stated time of the graph,
    unconverted, overtaken by any message time, converted. *)
Lemma loop_lastMessageTs nodes assetsJson path st :
  st_lastMessageTs
    (fold_left (loopStep convertParts buildDetails buildSnippet nodes
                  assetsJson) path st)
  = fold_left
      (fun acc (m : @Message Details) =>
         match msg_time m with
         | Some t => if negb (t =? 0) && (t >? acc) then t else acc
         | None => acc
         end)
      (omap (slimMessage nodes assetsJson) path) (st_lastMessageTs st).
Proof.
  revert st. induction path as [|node path IH]; intros st; simpl; [done|].
  rewrite IH. unfold loopStep.
  rewrite <- (transformMessage_message nodes assetsJson node (st_assetsMap st)).
  by destruct (transformMessage _ _ _ _ _ _) as [[m am]|].
Qed.

(** C7 (the code departs from the claim). On [staleGraph] the conversion
    compares the message time, already in milliseconds, with the graph's
    update time, still in seconds: the message wins and
    [last_message_time] is 1600000000000, whereas the maximum of the two
    times in milliseconds is 1700000000000. *)
Theorem last_message_time_mixes_units assetsJson :
  (exists r,
     convertRawConversation convertParts buildDetails buildSnippet staleGraph
       assetsJson = Some (Some r) /\
     last_message_time (conversation r) = 1600000000000) /\
  claimedLastMessageTime 1700000000 [1600000000] = 1700000000000.
Proof.
  split; [|reflexivity].
  eexists. split; [vm_compute; reflexivity|reflexivity].
Qed.

End Conversion.
End GraphFacts.

Module GraphSample.
Import Graph GraphFacts.

(** A two-node conversation over plain-text content: a user question and the
    assistant's answer. *)
Definition textParts (content : option string) (_ : unit)
    : list Block * list (string * string) :=
  (match content with Some text => [Markdown text] | None => [] end, []).

Definition noDetails (_ : @RawMessage string unit) : option unit := None.

Definition question : @RawNode string unit :=
  {| node_id := "n1"; node_parent := None; node_children := Some ["n2"];
     node_message :=
       Some {| rm_id := Some "m1"; rm_author_role := Some "user";
               rm_create_time := Some 1700000000; rm_update_time := None;
               rm_recipient := None; rm_content := Some "hi";
               rm_metadata := None |} |}.

Definition answer : @RawNode string unit :=
  {| node_id := "n2"; node_parent := Some "n1"; node_children := None;
     node_message :=
       Some {| rm_id := Some "m2"; rm_author_role := Some "assistant";
               rm_create_time := Some 1700000005; rm_update_time := None;
               rm_recipient := None; rm_content := Some "hello";
               rm_metadata := None |} |}.

Definition sampleNodes : gmap string (@RawNode string unit) :=
  <["n2" := answer]> {[ "n1" := question ]}.

Definition sampleGraph : @RawConversation string unit :=
  {| conversation_id := Some "c1"; raw_title := None;
     current_node := Some "n2"; mapping := Some sampleNodes;
     raw_create_time := Some 1700000000; raw_update_time := None |}.

Example sample_messages :
  option_map (fun r => map msg_id (messages (conversation r)))
    (mjoin (convertRawConversation textParts noDetails id sampleGraph tt))
  = Some ["m1"; "m2"].
Proof. vm_compute. reflexivity. Qed.

Lemma converted_messages_follow_chain_witness :
  match convertRawConversation textParts noDetails id sampleGraph tt with
  | Some (Some r) =>
      Forall2 (carriedBy textParts noDetails sampleNodes tt)
        (List.filter hasMessage (rev [answer; question]))
        (messages (conversation r)) /\
      Exists (fun node => hasMessage node = true) [answer; question]
  | Some None => Forall (fun node => hasMessage node = false) [answer; question]
  | None => False
  end.
Proof.
  apply (converted_messages_follow_chain textParts noDetails id sampleGraph tt
           sampleNodes "n2" [answer; question]).
  - reflexivity.
  - reflexivity.
  - eapply chain_step; [reflexivity|reflexivity|].
    apply chain_root; reflexivity.
  - unfold idsOf. simpl. repeat constructor.
    + intros H. apply list_elem_of_singleton in H. discriminate.
    + intros H. by apply elem_of_nil in H.
Defined.

(** A mapping whose two nodes are stored under the keys [leaf] and [root]
    and both state the id [x]. *)
Definition twinRoot : @RawNode string unit :=
  {| node_id := "x"; node_parent := None; node_children := Some ["leaf"];
     node_message :=
       Some {| rm_id := Some "m1"; rm_author_role := Some "user";
               rm_create_time := Some 1700000000; rm_update_time := None;
               rm_recipient := None; rm_content := Some "hi";
               rm_metadata := None |} |}.

Definition twinLeaf : @RawNode string unit :=
  {| node_id := "x"; node_parent := Some "root"; node_children := None;
     node_message :=
       Some {| rm_id := Some "m2"; rm_author_role := Some "user";
               rm_create_time := Some 1700000005; rm_update_time := None;
               rm_recipient := None; rm_content := Some "again";
               rm_metadata := None |} |}.

Definition twinNodes : gmap string (@RawNode string unit) :=
  <["leaf" := twinLeaf]> {[ "root" := twinRoot ]}.

Definition twinGraph : @RawConversation string unit :=
  {| conversation_id := Some "c2"; raw_title := None;
     current_node := Some "leaf"; mapping := Some twinNodes;
     raw_create_time := Some 1700000000; raw_update_time := None |}.

(** C4 (where the claim fails). In [twinGraph] the parent chain from
    [current_node] reaches the root through two nodes, stored under
    different keys, every parent reference being present, and both nodes
    carry a message; the guard set holds the ids the nodes state, which are
    equal, so the walk stops after the leaf and the conversation holds the
    leaf's message only. *)
Theorem repeated_node_id_cuts_chain :
  parentChain twinNodes "leaf" [twinLeaf; twinRoot] /\
  Forall (fun node => hasMessage node = true) [twinLeaf; twinRoot] /\
  option_map (fun r => map msg_id (messages (conversation r)))
    (mjoin (convertRawConversation textParts noDetails id twinGraph tt))
  = Some ["m2"].
Proof.
  split; [|split].
  - eapply chain_step; [reflexivity|reflexivity|].
    apply chain_root; reflexivity.
  - by repeat constructor.
  - vm_compute. reflexivity.
Qed.

End GraphSample.

(** ** Merge precedence (slimConvert.ts, AppDataContext.tsx) *)

Module Merge.

(** [ComparisonPayload]: what [shouldReplace] looks at. *)
Record ComparisonPayload := {
  cp_last_message_time : Z;
  cp_mappingNodeCount : option Z;
  cp_importOrder : Z;
}.

(** [count ?? 0]. *)
Definition orZero (count : option Z) : Z :=
  match count with Some c => c | None => 0 end.

Definition shouldReplace (current incoming : ComparisonPayload) : bool :=
  if cp_last_message_time incoming >? cp_last_message_time current then true
  else if cp_last_message_time incoming <? cp_last_message_time current then false
  else if orZero (cp_mappingNodeCount incoming)
            >? orZero (cp_mappingNodeCount current) then true
  else if orZero (cp_mappingNodeCount incoming)
            <? orZero (cp_mappingNodeCount current) then false
  else cp_importOrder incoming >? cp_importOrder current.

Record ConversationSummary := {
  cs_id : string;
  cs_title : string;
  cs_snippet : string;
  cs_last_message_time : Z;
  cs_create_time : option Z;
  cs_update_time : option Z;
  cs_mapping_node_count : option Z;
  cs_source : string;
  cs_pinned : option bool;
}.

(** The browser's test against the persisted local index. *)
Definition isNewerSummary (incoming : ConversationSummary)
    (existing : option ConversationSummary) : bool :=
  match existing with
  | None => true
  | Some existing =>
      if cs_last_message_time incoming >? cs_last_message_time existing then true
      else if (cs_last_message_time incoming =? cs_last_message_time existing)
              && (orZero (cs_mapping_node_count incoming)
                    >? orZero (cs_mapping_node_count existing))
      then true
      else false
  end.

(** The merge step shared by [importDatasets] (modes upsert and replace) and
    [parseExportZips]:
    [if (!existing || shouldReplace(existing, payload)) merged.set(id, payload)]. *)
Definition mergeInto {P : Type} (rank : P -> ComparisonPayload)
    (merged : JsMap.t P) (id : string) (payload : P) : JsMap.t P :=
  match JsMap.get merged id with
  | None => JsMap.set merged id payload
  | Some existing =>
      if shouldReplace (rank existing) (rank payload)
      then JsMap.set merged id payload
      else merged
  end.

(** The order of the specification on (last_message_time, node count,
    ingestion order): lexicographic, greater wins. *)
Definition strictlyNewer (a b : ComparisonPayload) : Prop :=
  cp_last_message_time a > cp_last_message_time b \/
  (cp_last_message_time a = cp_last_message_time b /\
   (orZero (cp_mappingNodeCount a) > orZero (cp_mappingNodeCount b) \/
    (orZero (cp_mappingNodeCount a) = orZero (cp_mappingNodeCount b) /\
     cp_importOrder a > cp_importOrder b))).

(** How a summary ranks once it is given an ingestion order. *)
Definition rankOfSummary (s : ConversationSummary) (order : Z)
    : ComparisonPayload :=
  {| cp_last_message_time := cs_last_message_time s;
     cp_mappingNodeCount := cs_mapping_node_count s;
     cp_importOrder := order |}.

(** The order [isNewerSummary] decides: the same without its last
    component. *)
Definition newerIgnoringOrder (a b : ConversationSummary) : Prop :=
  cs_last_message_time a > cs_last_message_time b \/
  (cs_last_message_time a = cs_last_message_time b /\
   orZero (cs_mapping_node_count a) > orZero (cs_mapping_node_count b)).

End Merge.

Module MergeFacts.
Import Merge.

Lemma shouldReplace_spec current incoming :
  shouldReplace current incoming = true <-> strictlyNewer incoming current.
Proof.
  unfold shouldReplace, strictlyNewer. rewrite !Z.gtb_ltb.
  repeat match goal with
         | |- context [?a <? ?b] =>
             destruct (Z.ltb_spec a b); [split; (done || discriminate || lia)|]
         end.
  split; [discriminate|lia].
Qed.

Lemma strictlyNewer_irrefl a : ~ strictlyNewer a a.
Proof. unfold strictlyNewer. lia. Qed.

Lemma strictlyNewer_trans a b c :
  strictlyNewer a b -> strictlyNewer b c -> strictlyNewer a c.
Proof. unfold strictlyNewer. lia. Qed.

Lemma strictlyNewer_asym a b : strictlyNewer a b -> ~ strictlyNewer b a.
Proof. unfold strictlyNewer. lia. Qed.

(** Two payloads of different ingestion order are always comparable. *)
Lemma strictlyNewer_total a b :
  cp_importOrder a <> cp_importOrder b ->
  strictlyNewer a b \/ strictlyNewer b a.
Proof. unfold strictlyNewer. lia. Qed.

Lemma isNewerSummary_spec incoming existing :
  isNewerSummary incoming (Some existing) = true
  <-> newerIgnoringOrder incoming existing.
Proof.
  unfold isNewerSummary, newerIgnoringOrder. rewrite !Z.gtb_ltb.
  destruct (Z.ltb_spec (cs_last_message_time existing)
              (cs_last_message_time incoming)); [split; [lia|done]|].
  destruct (Z.eqb_spec (cs_last_message_time incoming)
              (cs_last_message_time existing)); simpl.
  - destruct (Z.ltb_spec (orZero (cs_mapping_node_count existing))
                (orZero (cs_mapping_node_count incoming))).
    + split; [lia|done].
    + split; [discriminate|lia].
  - split; [discriminate|lia].
Qed.

Example precedence_node_count :
  shouldReplace
    {| cp_last_message_time := 200; cp_mappingNodeCount := Some 5;
       cp_importOrder := 0 |}
    {| cp_last_message_time := 200; cp_mappingNodeCount := Some 7;
       cp_importOrder := 1 |} = true.
Proof. reflexivity. Qed.

Example precedence_time :
  shouldReplace
    {| cp_last_message_time := 300; cp_mappingNodeCount := None;
       cp_importOrder := 0 |}
    {| cp_last_message_time := 200; cp_mappingNodeCount := Some 99;
       cp_importOrder := 1 |} = false.
Proof. reflexivity. Qed.

(** A summary with [last_message_time = 200] and five nodes, imported a
    second time. *)
Definition tieSummary : ConversationSummary :=
  {| cs_id := "c1"; cs_title := "Tie"; cs_snippet := "Tie";
     cs_last_message_time := 200; cs_create_time := None;
     cs_update_time := None; cs_mapping_node_count := Some 5;
     cs_source := "local"; cs_pinned := None |}.

(** C1 as stated fails in the browser: on equal time and node count the
    later import is the newer one under the stated order, and
    [isNewerSummary] does not let it replace the stored record. *)
Lemma browser_upsert_ignores_ingestion_order :
  ~ (isNewerSummary tieSummary (Some tieSummary) = true
     <-> strictlyNewer (rankOfSummary tieSummary 1) (rankOfSummary tieSummary 0)).
Proof.
  intros [_ H]. enough (false = true) by discriminate.
  apply H. unfold strictlyNewer. simpl. lia.
Qed.

(** C1, amended. [shouldReplace] (the headless importer, and the merge of a
    batch in the browser) lets the incoming payload replace the existing
    one of the same id exactly when it is strictly newer under the
    lexicographic order on (last_message_time, node count, ingestion
    order); [isNewerSummary] (the browser's reconciliation with its
    persisted index) does so exactly when the incoming summary is strictly
    newer under (last_message_time, node count) and keeps the stored record
    on a full tie; a conversation whose id has no match is always added. *)
Theorem upsert_precedence {P : Type} (rank : P -> ComparisonPayload)
    (merged : JsMap.t P) (id : string) (payload : P)
    (current incoming : ComparisonPayload)
    (newSummary oldSummary : ConversationSummary) :
  (shouldReplace current incoming = true <-> strictlyNewer incoming current) /\
  match JsMap.get merged id with
  | None => JsMap.get (mergeInto rank merged id payload) id = Some payload
  | Some existing =>
      (strictlyNewer (rank payload) (rank existing) /\
       JsMap.get (mergeInto rank merged id payload) id = Some payload) \/
      (~ strictlyNewer (rank payload) (rank existing) /\
       JsMap.get (mergeInto rank merged id payload) id = Some existing)
  end /\
  (isNewerSummary newSummary (Some oldSummary) = true
   <-> newerIgnoringOrder newSummary oldSummary) /\
  isNewerSummary newSummary None = true.
Proof.
  split; [apply shouldReplace_spec|].
  split; [|split; [apply isNewerSummary_spec|done]].
  unfold mergeInto. destruct (JsMap.get merged id) as [existing|] eqn:Hget.
  - destruct (shouldReplace (rank existing) (rank payload)) eqn:Hs.
    + left. split; [by apply shouldReplace_spec|apply JsMapFacts.get_set_eq].
    + right. split; [|done]. intros Hn. apply shouldReplace_spec in Hn.
      congruence.
  - apply JsMapFacts.get_set_eq.
Qed.

End MergeFacts.

(** ** Import payloads (importer.ts, datasetImporter.ts) *)

Module Dataset.

Record SearchLocation := {
  loc_conversationId : string;
  loc_messageId : string;
  loc_blockIndex : nat;
  loc_lineNo : nat;
}.

Record SearchLine := {
  line_loc : SearchLocation;
  line_text : string;
}.

Section Payloads.
Context {Details : Type}.

(** [ServerConversationPayload] and [ImportConversationPayload]: the two
    interfaces have the same fields. *)
Record Payload := {
  p_summary : Merge.ConversationSummary;
  p_conversation : @Graph.Conversation Details;
  p_searchLines : list SearchLine;
  p_grams : list string;
  p_assetKeys : list string;
  p_mappingNodeCount : option Z;
  p_importOrder : Z;
}.

Definition payloadId (p : Payload) : string :=
  Graph.conv_id (p_conversation p).

Definition rank (p : Payload) : Merge.ComparisonPayload :=
  {| Merge.cp_last_message_time := Merge.cs_last_message_time (p_summary p);
     Merge.cp_mappingNodeCount := p_mappingNodeCount p;
     Merge.cp_importOrder := p_importOrder p |}.

Definition withImportOrder (p : Payload) (order : Z) : Payload :=
  {| p_summary := p_summary p; p_conversation := p_conversation p;
     p_searchLines := p_searchLines p; p_grams := p_grams p;
     p_assetKeys := p_assetKeys p;
     p_mappingNodeCount := p_mappingNodeCount p; p_importOrder := order |}.

Definition summaryWithId (s : Merge.ConversationSummary) (newId : string)
    : Merge.ConversationSummary :=
  {| Merge.cs_id := newId; Merge.cs_title := Merge.cs_title s;
     Merge.cs_snippet := Merge.cs_snippet s;
     Merge.cs_last_message_time := Merge.cs_last_message_time s;
     Merge.cs_create_time := Merge.cs_create_time s;
     Merge.cs_update_time := Merge.cs_update_time s;
     Merge.cs_mapping_node_count := Merge.cs_mapping_node_count s;
     Merge.cs_source := Merge.cs_source s;
     Merge.cs_pinned := Merge.cs_pinned s |}.

Definition conversationWithId (c : @Graph.Conversation Details)
    (newId : string) : @Graph.Conversation Details :=
  {| Graph.conv_id := newId; Graph.conv_title := Graph.conv_title c;
     Graph.conv_create_time := Graph.conv_create_time c;
     Graph.conv_update_time := Graph.conv_update_time c;
     Graph.last_message_time := Graph.last_message_time c;
     Graph.conv_assetsMap := Graph.conv_assetsMap c;
     Graph.messages := Graph.messages c |}.

Definition lineWithId (newId : string) (line : SearchLine) : SearchLine :=
  {| line_loc :=
       {| loc_conversationId := newId;
          loc_messageId := loc_messageId (line_loc line);
          loc_blockIndex := loc_blockIndex (line_loc line);
          loc_lineNo := loc_lineNo (line_loc line) |};
     line_text := line_text line |}.

(** [clonePayloadWithId] / [cloneImportPayloadWithId]. *)
Definition clonePayloadWithId (p : Payload) (newId : string) : Payload :=
  {| p_summary := summaryWithId (p_summary p) newId;
     p_conversation := conversationWithId (p_conversation p) newId;
     p_searchLines := map (lineWithId newId) (p_searchLines p);
     p_grams := p_grams p; p_assetKeys := p_assetKeys p;
     p_mappingNodeCount := p_mappingNodeCount p;
     p_importOrder := p_importOrder p |}.

End Payloads.

End Dataset.

(** ** Clone identifiers (datasetImporter.ts, AppDataContext.tsx) *)

Module Clone.
Import Js Dataset.

(** The decimal numeral of a natural number: [String(n)] for an array
    index. *)
Definition decimal (n : N) : string := NilEmpty.string_of_uint (N.to_uint n).

(** *** Suffixes are JavaScript numbers

    The suffixes are double-precision floats.  Those that arise are
    non-negative integers and [Infinity]; a finite one is held as the
    integer it is, and [infinity], which lies above every finite double,
    stands for [Infinity]. *)
Definition infinity : N := 2 ^ 1024.

(** The double nearest to an integer, a tie going to the even mantissa and
    an overflow to [Infinity]: integers below 2^53 are doubles, and from
    there on a double has 53 significant bits. *)
Definition roundToDouble (n : N) : N :=
  if (n <? 2 ^ 53)%N then n
  else
    let e := (N.log2 n - 52)%N in
    let q := (n / 2 ^ e)%N in
    let r := (n mod 2 ^ e)%N in
    let half := (2 ^ (e - 1))%N in
    let q' := if (half <? r)%N || ((r =? half)%N && N.odd q)
              then (q + 1)%N else q in
    let v := (q' * 2 ^ e)%N in
    if (infinity <=? v)%N then infinity else v.

(** [n + 1]. *)
Definition plusOne (n : N) : N := roundToDouble (n + 1).

(** [Number(digits)] for the digits matched by [(\d+)]: the whole string is
    one or more digits. *)
Definition parseDigits (s : string) : option N :=
  match s with
  | EmptyString => None
  | _ =>
      option_map (fun d => roundToDouble (N.of_uint d))
        (NilEmpty.uint_of_string s)
  end.

(** The integer with the fewest significant digits that reads back as the
    double [v]: with [j] zeros at its end, the candidates are the two
    multiples of 10^j around [v]; when both read back as [v] the nearer one
    is taken, and of two equally near the one with the even digits.  [j]
    goes down to 0, where [v] itself is a candidate. *)
Fixpoint shortestDigits (fuel : nat) (v j : N) : N :=
  let scale := (10 ^ j)%N in
  let lo := (v / scale * scale)%N in
  let hi := (lo + scale)%N in
  let loReads := (roundToDouble lo =? v)%N in
  let hiReads := (roundToDouble hi =? v)%N in
  let found :=
    if loReads && hiReads then
      if (v - lo <? hi - v)%N then Some lo
      else if (hi - v <? v - lo)%N then Some hi
      else if N.even (v / scale) then Some lo else Some hi
    else if loReads then Some lo
    else if hiReads then Some hi
    else None in
  match found, fuel with
  | Some c, _ => c
  | None, S fuel' => shortestDigits fuel' v (j - 1)
  | None, O => v
  end.

(** A numeral without the zeros at its end. *)
Fixpoint stripZeros (s : string) : string :=
  match s with
  | EmptyString => EmptyString
  | String a rest =>
      match stripZeros rest with
      | EmptyString =>
          if Ascii.eqb a "0"%char then EmptyString else String a EmptyString
      | kept => String a kept
      end
  end.

(** [String(v)], as a template literal prints a number: [Infinity]; up to 21
    digits, the shortest digits that read back as [v] followed by zeros;
    beyond, the same digits in exponent form. *)
Definition numberToString (v : N) : string :=
  if (infinity <=? v)%N then "Infinity"
  else
    let count := String.length (decimal v) in
    let shortest := shortestDigits (count - 1) v (N.of_nat (count - 1)) in
    let numeral := decimal shortest in
    let n := String.length numeral in
    if (n <=? 21)%nat then numeral
    else
      match stripZeros numeral with
      | EmptyString => numeral
      | String first EmptyString =>
          String first ("e+" +:+ decimal (N.of_nat (n - 1)))
      | String first more =>
          String first ("." +:+ more +:+ "e+" +:+ decimal (N.of_nat (n - 1)))
      end.

(** [_v(\d+)$] at the very start of [s]. *)
Definition matchSuffix (s : string) : option N :=
  match s with
  | String a (String b digits) =>
      if Ascii.eqb a "_"%char && Ascii.eqb b "v"%char then parseDigits digits
      else None
  | _ => None
  end.

(** [id.match] on the pattern [^( .* )_v( \d+ )$] (written here with
    spaces): the greedy prefix may hold any character but
    a line terminator; what follows it is [_v] and digits up to the end.
    The recursion tries the longer prefixes first, as backtracking does. *)
Fixpoint matchClone (s : string) : option (string * N) :=
  match s with
  | EmptyString => None
  | String a rest =>
      if isLineTerminator a then None
      else
        match matchClone rest with
        | Some (base, n) => Some (String a base, n)
        | None =>
            match matchSuffix s with
            | Some n => Some (EmptyString, n)
            | None => None
            end
        end
  end.

(** [splitCloneId] / [splitCloneIdentifier]. *)
Definition splitCloneId (id : string) : string * N :=
  match matchClone id with
  | Some r => r
  | None => (id, 1%N)
  end.

(** [tracker.get(base) ?? fallback]. *)
Definition trackerGet (tracker : gmap string N) (base : string) (fallback : N) : N :=
  match tracker !! base with Some n => n | None => fallback end.

(** One turn of [buildCloneTracker], also the bookkeeping done for an id
    that is not taken. *)
Definition trackSuffix (tracker : gmap string N) (id : string) : gmap string N :=
  let split := splitCloneId id in
  if (trackerGet tracker (fst split) 0 <? snd split)%N
  then <[fst split := snd split]> tracker
  else tracker.

Definition buildCloneTracker (ids : list string) : gmap string N :=
  fold_left trackSuffix ids ∅.

(** [`${base}_v${n}`]. *)
Definition candidateId (base : string) (n : N) : string :=
  base +:+ "_v" +:+ numberToString n.

(** [while (has(candidate)) nextSuffix += 1]; one unit of [fuel] per turn,
    [None] when the loop is still running once the fuel is spent. *)
Fixpoint nextFree (fuel : nat) (has : string -> bool) (base : string) (n : N)
    : option N :=
  if has (candidateId base n) then
    match fuel with
    | O => None
    | S fuel' => nextFree fuel' has base (plusOne n)
    end
  else Some n.

(** The body shared by [ensureClonePayloadId] and
    [ensureClonePayloadIdForLocal], which differ in the collection asked for
    taken ids.  Outer [None]: out of fuel.  Inner [None]: the id is free and
    is kept; inner [Some]: the id given instead. *)
Definition chooseCloneId (has : string -> bool) (fuel : nat)
    (tracker : gmap string N) (originalId : string)
    : option (option string * gmap string N) :=
  let split := splitCloneId originalId in
  if negb (has originalId) then Some (None, trackSuffix tracker originalId)
  else
    let start :=
      plusOne (N.max (trackerGet tracker (fst split) (snd split)) (snd split)) in
    match nextFree fuel has (fst split) start with
    | None => None
    | Some n => Some (Some (candidateId (fst split) n), <[fst split := n]> tracker)
    end.

Section WithDetails.
Context {Details : Type}.

(** datasetImporter.ts.  The loop is given one turn per id of the dataset:
    as long as the suffix grows, each turn finds another id taken. *)
Definition ensureClonePayloadId (payload : @Payload Details)
    (merged : JsMap.t (@Payload Details)) (tracker : gmap string N)
    : option (@Payload Details * gmap string N) :=
  match chooseCloneId (JsMap.has merged) (JsMap.size merged) tracker
          (payloadId payload) with
  | None => None
  | Some (None, tracker') => Some (payload, tracker')
  | Some (Some newId, tracker') => Some (clonePayloadWithId payload newId, tracker')
  end.

(** The clone branch of the loop of [importDatasets]:
    [payload = ensureClonePayloadId(payload, merged, cloneTracker);
     merged.set(payload.conversation.id, payload)]. *)
Definition cloneInto (state : JsMap.t (@Payload Details) * gmap string N)
    (payload : @Payload Details)
    : option (JsMap.t (@Payload Details) * gmap string N) :=
  match ensureClonePayloadId payload (fst state) (snd state) with
  | None => None
  | Some (payload', tracker') =>
      Some (JsMap.set (fst state) (payloadId payload') payload', tracker')
  end.

(** AppDataContext.tsx: [usedIds] is a [Set], here the list of its elements
    in insertion order; the id handed out is added to it. *)
Definition setHas (usedIds : list string) (id : string) : bool :=
  existsb (String.eqb id) usedIds.

Definition ensureClonePayloadIdForLocal (payload : @Payload Details)
    (usedIds : list string) (tracker : gmap string N)
    : option (@Payload Details * list string * gmap string N) :=
  match chooseCloneId (setHas usedIds) (length usedIds) tracker
          (payloadId payload) with
  | None => None
  | Some (None, tracker') =>
      Some (payload, usedIds ++ [payloadId payload], tracker')
  | Some (Some newId, tracker') =>
      Some (clonePayloadWithId payload newId, usedIds ++ [newId], tracker')
  end.

End WithDetails.

End Clone.

Module CloneExamples.
Import Js Clone.

Example split_plain : splitCloneId "abc" = ("abc", 1%N).
Proof. reflexivity. Qed.

Example split_suffixed : splitCloneId "abc_v12" = ("abc", 12%N).
Proof. reflexivity. Qed.

Example split_greedy : splitCloneId "a_v2_v03" = ("a_v2", 3%N).
Proof. reflexivity. Qed.

Example split_no_digits : splitCloneId "abc_v" = ("abc_v", 1%N).
Proof. reflexivity. Qed.

Example candidate_plain : candidateId "abc" 2 = "abc_v2".
Proof. vm_compute. reflexivity. Qed.

Example choose_taken :
  option_map fst
    (chooseCloneId (fun id => String.eqb id "abc") 1
       (buildCloneTracker ["abc"]) "abc")
  = Some (Some "abc_v2").
Proof. vm_compute. reflexivity. Qed.

(** Rounding: 2^53 + 1 is no double and goes to the even neighbour. *)
Example round_safe : roundToDouble 9007199254740991 = 9007199254740991%N.
Proof. vm_compute. reflexivity. Qed.

Example round_tie_down : roundToDouble 9007199254740993 = 9007199254740992%N.
Proof. vm_compute. reflexivity. Qed.

Example round_tie_up : roundToDouble 9007199254740995 = 9007199254740996%N.
Proof. vm_compute. reflexivity. Qed.

Example round_overflow : roundToDouble (2 ^ 1024 - 2 ^ 970) = infinity.
Proof. vm_compute. reflexivity. Qed.

Example round_largest :
  roundToDouble (2 ^ 1024 - 2 ^ 970 - 1) = (2 ^ 1024 - 2 ^ 971)%N.
Proof. vm_compute. reflexivity. Qed.

Example parse_rounds : parseDigits "9007199254740993" = Some 9007199254740992%N.
Proof. vm_compute. reflexivity. Qed.

Example parse_leading_zeros : parseDigits "007" = Some 7%N.
Proof. vm_compute. reflexivity. Qed.

(** Printing. *)
Example print_small : numberToString 120 = "120".
Proof. vm_compute. reflexivity. Qed.

Example print_two_53 : numberToString (2 ^ 53) = "9007199254740992".
Proof. vm_compute. reflexivity. Qed.

Example print_two_63 : numberToString (2 ^ 63) = "9223372036854776000".
Proof. vm_compute. reflexivity. Qed.

Example print_two_64 : numberToString (2 ^ 64) = "18446744073709552000".
Proof. vm_compute. reflexivity. Qed.

Example print_ten_21 : numberToString (10 ^ 21) = "1e+21".
Proof. vm_compute. reflexivity. Qed.

Example print_two_70 : numberToString (2 ^ 70) = "1.1805916207174113e+21".
Proof. vm_compute. reflexivity. Qed.

Example print_ten_23 :
  option_map numberToString (parseDigits "100000000000000000000000")
  = Some "1e+23".
Proof. vm_compute. reflexivity. Qed.

Example print_largest :
  numberToString (2 ^ 1024 - 2 ^ 971) = "1.7976931348623157e+308".
Proof. vm_compute. reflexivity. Qed.

Example print_infinity : numberToString infinity = "Infinity".
Proof. vm_compute. reflexivity. Qed.

End CloneExamples.

(** ** Facts about clone identifiers *)

Module CloneFacts.
Import Js JsFacts Dataset Clone.
#[local] Arguments Ascii.eqb : simpl never.

(** *** The search for a free suffix *)

(** Where the loop stops, the candidate is free. *)
Lemma nextFree_free (has : string -> bool) base fuel start n :
  nextFree fuel has base start = Some n ->
  has (candidateId base n) = false.
Proof.
  revert start. induction fuel as [|fuel IH]; intros start; simpl;
    destruct (has (candidateId base start)) eqn:E; try done.
  - by intros [= <-].
  - apply IH.
  - by intros [= <-].
Qed.

(** A taken candidate whose suffix [+= 1] leaves as it is keeps the loop
    running for good. *)
Lemma nextFree_stuck (has : string -> bool) base n :
  has (candidateId base n) = true ->
  plusOne n = n ->
  forall fuel, nextFree fuel has base n = None.
Proof.
  intros Htaken Hfix. induction fuel as [|fuel IH]; simpl; rewrite Htaken.
  - done.
  - by rewrite Hfix.
Qed.

(** *** Choosing the id of a clone *)

Lemma chooseCloneId_free has fuel tracker id :
  has id = false ->
  chooseCloneId has fuel tracker id = Some (None, trackSuffix tracker id).
Proof. intros H. unfold chooseCloneId. by rewrite H. Qed.

(** When the choice for a taken id comes to an end, the id given is
    [<base>_v<n>] and is free. *)
Lemma chooseCloneId_taken has fuel tracker id choice tracker' :
  has id = true ->
  chooseCloneId has fuel tracker id = Some (choice, tracker') ->
  exists n,
    choice = Some (candidateId (fst (splitCloneId id)) n) /\
    tracker' = <[fst (splitCloneId id) := n]> tracker /\
    has (candidateId (fst (splitCloneId id)) n) = false.
Proof.
  intros Hid. unfold chooseCloneId. rewrite Hid. simpl.
  destruct (nextFree _ _ _ _) as [n|] eqn:Hn; [|done].
  intros [= <- <-]. exists n. split; [done|]. split; [done|].
  by eapply nextFree_free.
Qed.

Lemma chooseCloneId_stuck has tracker id :
  has id = true ->
  let base := fst (splitCloneId id) in
  let suffix := snd (splitCloneId id) in
  let start := plusOne (N.max (trackerGet tracker base suffix) suffix) in
  has (candidateId base start) = true ->
  plusOne start = start ->
  forall fuel, chooseCloneId has fuel tracker id = None.
Proof.
  intros Hid base suffix start Htaken Hfix fuel.
  unfold chooseCloneId. rewrite Hid. simpl. fold base suffix start.
  by rewrite (nextFree_stuck has base start Htaken Hfix).
Qed.

Section WithDetails.
Context {Details : Type}.
Implicit Types (payload : @Payload Details).
Implicit Types (merged existing : JsMap.t (@Payload Details)).

Lemma payloadId_clone payload newId :
  payloadId (clonePayloadWithId payload newId) = newId.
Proof. done. Qed.

Lemma cloneInto_free merged tracker payload :
  ~ In (payloadId payload) (JsMap.keys merged) ->
  cloneInto (merged, tracker) payload
  = Some (merged ++ [(payloadId payload, payload)],
          trackSuffix tracker (payloadId payload)).
Proof.
  intros Hnin. unfold cloneInto, ensureClonePayloadId. simpl.
  rewrite chooseCloneId_free by by apply JsMapFacts.has_false_iff.
  by rewrite JsMapFacts.set_absent.
Qed.

(** A clone of a taken id, when the choice of its id comes to an end, is
    added at the end under [<base>_v<n>], which no record had; every record
    stays as it is. *)
Lemma cloneInto_taken merged tracker payload state' :
  In (payloadId payload) (JsMap.keys merged) ->
  cloneInto (merged, tracker) payload = Some state' ->
  let base := fst (splitCloneId (payloadId payload)) in
  exists n,
    state'
    = (merged ++ [(candidateId base n,
                   clonePayloadWithId payload (candidateId base n))],
       <[base := n]> tracker) /\
    ~ In (candidateId base n) (JsMap.keys merged).
Proof.
  intros Hin Hstep base. unfold cloneInto, ensureClonePayloadId in Hstep.
  simpl in Hstep.
  destruct (chooseCloneId _ _ _ _) as [[choice tracker']|] eqn:Hchoice;
    [|done].
  apply chooseCloneId_taken in Hchoice
      as (n & -> & -> & Hfree); [|by apply JsMapFacts.has_true_iff].
  apply JsMapFacts.has_false_iff in Hfree. fold base in Hfree, Hstep.
  exists n. split; [|done].
  injection Hstep as <-. rewrite payloadId_clone.
  by rewrite JsMapFacts.set_absent.
Qed.

(** The states a clone run of [importDatasets] goes through: the persisted
    dataset with the tracker built from its ids, then one [cloneInto] per
    incoming conversation. *)
Inductive cloneRun existing :
  JsMap.t (@Payload Details) * gmap string N -> Prop :=
| run_start :
    cloneRun existing (existing, buildCloneTracker (JsMap.keys existing))
| run_step state payload state' :
    cloneRun existing state ->
    cloneInto state payload = Some state' ->
    cloneRun existing state'.

(** Along a run nothing is overwritten and the ids stay pairwise
    distinct. *)
Lemma cloneRun_invariant existing state :
  cloneRun existing state ->
  (exists added, fst state = existing ++ added) /\
  (NoDup (JsMap.keys existing) -> NoDup (JsMap.keys (fst state))).
Proof.
  induction 1 as [|[merged tracker] payload state' Hrun [[added IHa] IHn] Hstep].
  - split; [|done]. exists []. by rewrite app_nil_r.
  - simpl in *.
    destruct (JsMap.has merged (payloadId payload)) eqn:Hhas.
    + apply JsMapFacts.has_true_iff in Hhas.
      destruct (cloneInto_taken merged tracker payload state' Hhas Hstep)
        as (n & -> & Hfree). simpl. split.
      * eexists. by rewrite IHa, <- app_assoc.
      * unfold JsMap.keys. rewrite map_app. simpl.
        intros Hnd. apply NoDup_app. split; [by apply IHn|].
        split; [|apply NoDup_singleton].
        intros x Hx Hx'. apply list_elem_of_singleton in Hx'. subst.
        by apply Hfree, list_elem_of_In.
    + apply JsMapFacts.has_false_iff in Hhas.
      rewrite cloneInto_free in Hstep by done. injection Hstep as <-. simpl.
      split.
      * eexists. by rewrite IHa, <- app_assoc.
      * unfold JsMap.keys. rewrite map_app. simpl.
        intros Hnd. apply NoDup_app. split; [by apply IHn|].
        split; [|apply NoDup_singleton].
        intros x Hx Hx'. apply list_elem_of_singleton in Hx'. subst.
        by apply Hhas, list_elem_of_In.
Qed.

End WithDetails.

(** *** Sample datasets *)

Definition samplePayload (id : string) : @Payload unit :=
  {| p_summary :=
       {| Merge.cs_id := id; Merge.cs_title := "Sample";
          Merge.cs_snippet := "Sample"; Merge.cs_last_message_time := 200;
          Merge.cs_create_time := None; Merge.cs_update_time := None;
          Merge.cs_mapping_node_count := Some 5;
          Merge.cs_source := "server"; Merge.cs_pinned := Some false |};
     p_conversation :=
       {| Graph.conv_id := id; Graph.conv_title := "Sample";
          Graph.conv_create_time := None; Graph.conv_update_time := None;
          Graph.last_message_time := 200; Graph.conv_assetsMap := None;
          Graph.messages := [] |};
     p_searchLines := []; p_grams := []; p_assetKeys := [];
     p_mappingNodeCount := Some 5; p_importOrder := 0 |}.

Definition datasetOf (ids : list string) : JsMap.t (@Payload unit) :=
  map (fun id => (id, samplePayload id)) ids.

(** The ordinary case: the clone of [abc] in a dataset that holds [abc] and
    [abc_v2] becomes [abc_v3]. *)
Example clone_of_plain_id :
  option_map (fun state => JsMap.keys (fst state))
    (cloneInto (datasetOf ["abc"; "abc_v2"],
                buildCloneTracker ["abc"; "abc_v2"]) (samplePayload "abc"))
  = Some ["abc"; "abc_v2"; "abc_v3"].
Proof. vm_compute. reflexivity. Qed.

(** An id with a line feed in it: [x], LF, [y]. *)
Definition lineFeedId : string := String "x" (String (ascii_of_N 10) "y").

Definition gapDataset : JsMap.t (@Payload unit) :=
  datasetOf [lineFeedId; lineFeedId +:+ "_v2"; lineFeedId +:+ "_v5"].

(** C2 (the code departs from the claim). The dataset holds the id [x LF y]
    and its clones [x LF y_v2] and [x LF y_v5].  The pattern of
    [splitCloneId] does not match across the line feed, so each of the three
    ids is read as a base of its own with suffix 1 and the counter of
    [x LF y] stays at 1; the next clone of [x LF y] is tried at [_v2], which
    is taken, and is given [_v3]: not one greater than the highest suffix
    seen for that base, which is 5.  Nothing is overwritten. *)
Theorem clone_suffix_not_highest_plus_one :
  JsMap.keys gapDataset
  = [lineFeedId; lineFeedId +:+ "_v2"; lineFeedId +:+ "_v5"] /\
  map splitCloneId (JsMap.keys gapDataset)
  = [(lineFeedId, 1%N); (lineFeedId +:+ "_v2", 1%N);
     (lineFeedId +:+ "_v5", 1%N)] /\
  cloneInto (gapDataset, buildCloneTracker (JsMap.keys gapDataset))
    (samplePayload lineFeedId)
  = Some (gapDataset
            ++ [(lineFeedId +:+ "_v3",
                 clonePayloadWithId (samplePayload lineFeedId)
                   (lineFeedId +:+ "_v3"))],
          <[lineFeedId := 3%N]> (buildCloneTracker (JsMap.keys gapDataset))).
Proof.
  split; [vm_compute; reflexivity|].
  split; [vm_compute; reflexivity|].
  vm_compute. reflexivity.
Qed.

(** *** The end of the exact integers *)

Definition twoTo53 : N := 9007199254740992.

Definition saturatedDataset : JsMap.t (@Payload unit) :=
  datasetOf ["a"; "a_v9007199254740992"].

(** In a dataset that holds [a] and [a_v9007199254740992] a further clone of
    [a] is never given an id: the counter of [a] is 2^53, adding 1 to it
    gives 2^53 again, and [a_v9007199254740992] is taken, so the loop of
    [ensureClonePayloadId] has no last turn. *)
Lemma clone_loop_without_end :
  trackerGet (buildCloneTracker (JsMap.keys saturatedDataset)) "a" 0 = twoTo53 /\
  plusOne twoTo53 = twoTo53 /\
  candidateId "a" twoTo53 = "a_v9007199254740992" /\
  forall fuel,
    chooseCloneId (JsMap.has saturatedDataset) fuel
      (buildCloneTracker (JsMap.keys saturatedDataset)) "a"
    = None.
Proof.
  split; [vm_compute; reflexivity|].
  split; [vm_compute; reflexivity|].
  split; [vm_compute; reflexivity|].
  apply chooseCloneId_stuck; vm_compute; reflexivity.
Qed.

End CloneFacts.

(** ** SearchIndexer: text.ts and searchWorker.ts *)

Module Search.
Import Js Dataset.

(** [\s] and the characters [trim] strips, within the 8-bit alphabet: TAB,
    LF, VT, FF, CR, space and the no-break space. *)
Definition isSpace (a : ascii) : bool :=
  let n := N_of_ascii a in
  ((9 <=? n) && (n <=? 13) || (n =? 32) || (n =? 160))%N.

(** [s.replace(/\s+/g, ' ')]; [inRun] tells that the previous character was
    white space already. *)
Fixpoint collapseSpaces (inRun : bool) (s : string) : string :=
  match s with
  | EmptyString => EmptyString
  | String a r =>
      if isSpace a then
        if inRun then collapseSpaces true r
        else String " "%char (collapseSpaces true r)
      else String a (collapseSpaces false r)
  end.

Fixpoint trimStart (s : string) : string :=
  match s with
  | String a r => if isSpace a then trimStart r else s
  | EmptyString => EmptyString
  end.

Fixpoint trimEnd (s : string) : string :=
  match s with
  | EmptyString => EmptyString
  | String a r =>
      match trimEnd r with
      | EmptyString => if isSpace a then EmptyString else String a EmptyString
      | r' => String a r'
      end
  end.

Definition trim (s : string) : string := trimEnd (trimStart s).

(** [s.slice(0, n)]. *)
Fixpoint takeChars (n : nat) (s : string) : string :=
  match n, s with
  | S n', String a r => String a (takeChars n' r)
  | _, _ => EmptyString
  end.

(** [hay.indexOf(needle)]; [None] is -1. *)
Fixpoint indexOf (needle hay : string) : option nat :=
  if startsWith needle hay then Some O
  else match hay with
       | EmptyString => None
       | String _ r => option_map S (indexOf needle r)
       end.

(** Every 3-character window of [s], left to right. *)
Fixpoint windows3 (s : string) : list string :=
  match s with
  | String a r =>
      match r with
      | String b (String c _) =>
          String a (String b (String c EmptyString)) :: windows3 r
      | _ => []
      end
  | EmptyString => []
  end.

(** [new Set(a)] for an array of strings: first occurrences, in order. *)
Definition toSet (xs : list string) : list string := Graph.dedupe xs.

Definition setHas (s : list string) (x : string) : bool :=
  existsb (String.eqb x) s.

Record SummaryInfo := {
  si_title : string;
  si_last_message_time : Z;
}.

Record SearchBundle := {
  sb_grams : JsMap.t (list string);
  sb_linesByConversation : JsMap.t (list SearchLine);
  sb_summaryMap : JsMap.t SummaryInfo;
}.

Record Snippet := {
  sn_before : string;
  sn_match : string;
  sn_after : string;
  sn_contextBefore : list string;
  sn_contextAfter : list string;
}.

Record SearchHit := {
  hit_conversationId : string;
  hit_conversationTitle : string;
  hit_conversationTime : option Z;
  hit_messageId : string;
  hit_blockIndex : nat;
  hit_lineNo : nat;
  hit_snippet : Snippet;
}.

(** The module-level variables of the worker. *)
Record WorkerState := {
  searchData : option SearchBundle;
  postings : JsMap.t (list string);
  lineBuckets : JsMap.t (list SearchLine);
  blockBuckets : JsMap.t (list SearchLine);
}.

Definition lineNo (line : SearchLine) : nat := loc_lineNo (line_loc line).

(** [lines.sort((a, b) => a.loc.lineNo - b.loc.lineNo)], a stable sort. *)
Fixpoint insertLine (x : SearchLine) (sorted : list SearchLine) : list SearchLine :=
  match sorted with
  | [] => [x]
  | y :: rest =>
      if (lineNo x <? lineNo y)%nat then x :: y :: rest
      else y :: insertLine x rest
  end.

Definition sortLines (lines : list SearchLine) : list SearchLine :=
  fold_left (fun sorted x => insertLine x sorted) lines [].

Definition blockKey (line : SearchLine) : string :=
  loc_conversationId (line_loc line) +:+ "|" +:+
  loc_messageId (line_loc line) +:+ "|" +:+
  Clone.decimal (N.of_nat (loc_blockIndex (line_loc line))).

Definition pushToBucket (buckets : JsMap.t (list SearchLine))
    (line : SearchLine) : JsMap.t (list SearchLine) :=
  let key := blockKey line in
  match JsMap.get buckets key with
  | Some bucket => JsMap.set buckets key (bucket ++ [line])
  | None => JsMap.set buckets key [line]
  end.

Definition buildIndexes (bundle : SearchBundle) : WorkerState :=
  let buckets :=
    fold_left
      (fun acc (entry : string * list SearchLine) =>
         let sorted := sortLines (snd entry) in
         (JsMap.set (fst acc) (fst entry) sorted,
          fold_left pushToBucket sorted (snd acc)))
      (sb_linesByConversation bundle) ([], []) in
  {| searchData := Some bundle;
     postings :=
       fold_left
         (fun acc (entry : string * list string) =>
            JsMap.set acc (fst entry) (toSet (snd entry)))
         (sb_grams bundle) [];
     lineBuckets := fst buckets;
     blockBuckets := map (fun kv => (fst kv, sortLines (snd kv))) (snd buckets) |}.

(** [intersectSets]: the elements of the smaller set that the larger one
    has, in the order of the smaller. *)
Definition intersectSets (a b : list string) : list string :=
  let smaller := if (length a <? length b)%nat then a else b in
  let larger := if (length a <? length b)%nat then b else a in
  List.filter (setHas larger) smaller.

(** The [for (const gram of grams)] loop of [performSearch].  Outer [None]:
    one of its [return []] was taken; otherwise the value of
    [candidateIds] after the loop. *)
Fixpoint intersectPostings (posting : JsMap.t (list string))
    (grams : list string) (candidateIds : option (list string))
    : option (option (list string)) :=
  match grams with
  | [] => Some candidateIds
  | gram :: rest =>
      match JsMap.get posting gram with
      | None => None
      | Some ids =>
          let next :=
            match candidateIds with
            | Some current => intersectSets current ids
            | None => ids
            end in
          match next with
          | [] => None
          | _ => intersectPostings posting rest (Some next)
          end
      end
  end.

(** [Array.prototype.findIndex]. *)
Fixpoint findIndex {A} (f : A -> bool) (l : list A) : option nat :=
  match l with
  | [] => None
  | x :: rest => if f x then Some O else option_map S (findIndex f rest)
  end.

(** [block.slice(from, to)] for non-negative bounds. *)
Definition sliceList {A} (from to : nat) (l : list A) : list A :=
  firstn (to - from) (skipn from l).

Definition buildSnippet (state : WorkerState) (line : SearchLine)
    (start length : nat) : Snippet :=
  let block :=
    match JsMap.get (blockBuckets state) (blockKey line) with
    | Some b => b
    | None => []
    end in
  let index := findIndex (fun entry => (lineNo entry =? lineNo line)%nat) block in
  {| sn_before := takeChars start (line_text line);
     sn_match := takeChars length (dropChars start (line_text line));
     sn_after := dropChars (start + length) (line_text line);
     sn_contextBefore :=
       match index with
       | Some (S i) => map line_text (sliceList (S i - 2) (S i) block)
       | _ => []
       end;
     sn_contextAfter :=
       match index with
       | Some i => map line_text (sliceList (i + 1) (i + 3) block)
       | None => map line_text (sliceList 0 2 block)
       end |}.

(** [String.prototype.normalize('NFKC')] and [toLocaleLowerCase] belong to
    the JavaScript runtime: they are parameters. *)
Section WithRuntime.
Variable nfkc : string -> string.
Variable toLocaleLowerCase : string -> string.

Definition normalizeSearchText (input : string) : string :=
  trim (collapseSpaces false (toLocaleLowerCase (nfkc input))).

Definition buildTrigrams (input : string) : list string :=
  let normalized := normalizeSearchText input in
  if (String.length normalized <? 3)%nat then [] else windows3 normalized.

(** The scan of one conversation's lines; stops adding at [limit] hits. *)
Definition scanLines (state : WorkerState) (data : SearchBundle)
    (conversationId rawNeedle loweredNeedle : string) (limit : nat)
    (hits : list SearchHit) (lines : list SearchLine) : list SearchHit :=
  fold_left
    (fun hits line =>
       if (limit <=? length hits)%nat then hits
       else
         match indexOf loweredNeedle (toLocaleLowerCase (line_text line)) with
         | None => hits
         | Some idx =>
             let info := JsMap.get (sb_summaryMap data) conversationId in
             hits ++
             [{| hit_conversationId := conversationId;
                 hit_conversationTitle :=
                   match info with
                   | Some i => si_title i
                   | None => "Conversation"
                   end;
                 hit_conversationTime := option_map si_last_message_time info;
                 hit_messageId := loc_messageId (line_loc line);
                 hit_blockIndex := loc_blockIndex (line_loc line);
                 hit_lineNo := lineNo line;
                 hit_snippet :=
                   buildSnippet state line idx (String.length rawNeedle) |}]
         end)
    lines hits.

Definition scanCandidates (state : WorkerState) (data : SearchBundle)
    (query : string) (limit : nat) (candidateIds : list string)
    : list SearchHit :=
  let rawNeedle := trim query in
  let loweredNeedle := toLocaleLowerCase rawNeedle in
  fold_left
    (fun hits conversationId =>
       if (limit <=? length hits)%nat then hits
       else
         scanLines state data conversationId rawNeedle loweredNeedle limit hits
           (match JsMap.get (lineBuckets state) conversationId with
            | Some lines => lines
            | None => []
            end))
    candidateIds [].

Definition performSearch (state : WorkerState) (query : string) (limit : nat)
    : list SearchHit :=
  match searchData state with
  | None => []
  | Some data =>
      let normalized := normalizeSearchText query in
      if (String.length normalized <? 3)%nat then []
      else
        match buildTrigrams query with
        | [] => []
        | grams =>
            match intersectPostings (postings state) grams None with
            | None => []
            | Some None => []
            | Some (Some candidateIds) =>
                firstn limit (scanCandidates state data query limit candidateIds)
            end
        end
  end.

End WithRuntime.

End Search.

(** ** Facts about the search worker *)

Module SearchFacts.
Import Js Dataset Search.

Lemma setHas_true_iff s x : setHas s x = true <-> In x s.
Proof.
  unfold setHas. rewrite existsb_exists. split.
  - intros (y & Hy & Heq). apply String.eqb_eq in Heq. by subst.
  - intros Hx. exists x. split; [done|apply String.eqb_refl].
Qed.

(** [intersectSets] is the intersection, whichever set is the smaller. *)
Lemma intersectSets_spec a b x :
  In x (intersectSets a b) <-> In x a /\ In x b.
Proof.
  unfold intersectSets. rewrite filter_In, setHas_true_iff.
  destruct (length a <? length b)%nat; tauto.
Qed.

(** The conversation [id] is in the posting set of [gram]. *)
Definition inPosting (posting : JsMap.t (list string)) (gram id : string) : Prop :=
  exists ids, JsMap.get posting gram = Some ids /\ In id ids.

Definition inCurrent (candidateIds : option (list string)) (id : string) : Prop :=
  match candidateIds with
  | Some current => In id current
  | None => True
  end.

(** What the loop over the grams computes, from any value of
    [candidateIds]. *)
Lemma intersectPostings_spec posting grams candidateIds :
  match intersectPostings posting grams candidateIds with
  | Some result =>
      (forall gram, In gram grams -> JsMap.get posting gram <> None) /\
      (forall id,
         inCurrent result id <->
         inCurrent candidateIds id /\
         forall gram, In gram grams -> inPosting posting gram id) /\
      (result = None -> grams = [] /\ candidateIds = None)
  | None =>
      (exists gram, In gram grams /\ JsMap.get posting gram = None) \/
      ~ exists id,
          inCurrent candidateIds id /\
          forall gram, In gram grams -> inPosting posting gram id
  end.
Proof.
  revert candidateIds. induction grams as [|gram rest IH]; intros candidateIds.
  - simpl. split; [tauto|]. split; [|tauto]. intros id. tauto.
  - simpl. destruct (JsMap.get posting gram) as [ids|] eqn:Hget.
    2:{ left. exists gram. auto. }
    set (next := match candidateIds with
                 | Some current => intersectSets current ids
                 | None => ids
                 end).
    assert (forall id, In id next <-> inCurrent candidateIds id /\ In id ids)
      as Hnext.
    { intros id. subst next. destruct candidateIds as [current|]; simpl.
      - apply intersectSets_spec.
      - tauto. }
    destruct next as [|x next'] eqn:Enext.
    + right. intros (id & Hcur & Hall).
      destruct (Hall gram (or_introl eq_refl)) as (ids' & Hids' & Hin).
      rewrite Hget in Hids'. injection Hids' as <-.
      by apply (proj2 (Hnext id)).
    + specialize (IH (Some (x :: next'))).
      destruct (intersectPostings posting rest (Some (x :: next')))
        as [result|].
      * destruct IH as (Hall & Hiff & Hnone). split; [|split].
        -- intros g [<-|Hg]; [congruence|by apply Hall].
        -- intros id. rewrite Hiff.
           change (inCurrent (Some (x :: next')) id) with (In id (x :: next')).
           rewrite Hnext. split.
           ++ intros [[Hcur Hin] Hrest]. split; [done|].
              intros g [<-|Hg]; [by exists ids|by apply Hrest].
           ++ intros [Hcur Hgrams]. split; [split; [done|]|].
              ** destruct (Hgrams gram (or_introl eq_refl))
                   as (ids' & Hids' & Hin). congruence.
              ** intros g Hg. apply Hgrams. by right.
        -- intros ->. by destruct (Hnone eq_refl).
      * destruct IH as [(g & Hg & Hnone)|Hempty].
        -- left. exists g. split; [by right|done].
        -- right. intros (id & Hcur & Hgrams). apply Hempty. exists id. split.
           ++ change (In id (x :: next')). apply Hnext. split; [done|].
              destruct (Hgrams gram (or_introl eq_refl))
                as (ids' & Hids' & Hin). congruence.
           ++ intros g Hg. apply Hgrams. by right.
Qed.

Section WithRuntime.
Variable nfkc : string -> string.
Variable toLocaleLowerCase : string -> string.

Lemma buildTrigrams_short query :
  (String.length (normalizeSearchText nfkc toLocaleLowerCase query) < 3)%nat ->
  buildTrigrams nfkc toLocaleLowerCase query = [].
Proof.
  intros H. unfold buildTrigrams. apply Nat.ltb_lt in H. by rewrite H.
Qed.

(** C5. For a worker holding a search index and any query: when the
    normalised query is shorter than 3 the search returns no hit; when one
    of its trigrams has no posting entry the search returns no hit;
    otherwise the candidate ids the scan is run on are exactly the ids
    that lie in the posting set of every trigram of the query (and the
    search returns no hit when there is none). *)
Theorem search_candidates_are_posting_intersection state data query limit :
  searchData state = Some data ->
  let normalized := normalizeSearchText nfkc toLocaleLowerCase query in
  let grams := buildTrigrams nfkc toLocaleLowerCase query in
  let result := performSearch nfkc toLocaleLowerCase state query limit in
  ((String.length normalized < 3)%nat -> result = []) /\
  ((exists gram, In gram grams /\ JsMap.get (postings state) gram = None) ->
   result = []) /\
  ((3 <= String.length normalized)%nat ->
   (forall gram, In gram grams -> JsMap.get (postings state) gram <> None) ->
   exists candidateIds,
     (forall id,
        In id candidateIds <->
        forall gram, In gram grams -> inPosting (postings state) gram id) /\
     result
     = firstn limit
         (scanCandidates toLocaleLowerCase state data query limit candidateIds)).
Proof.
  intros Hdata normalized grams result.
  subst result. unfold performSearch. rewrite Hdata. fold normalized.
  split; [|split].
  - intros H. apply Nat.ltb_lt in H. by rewrite H.
  - intros (gram & Hin & Hnone).
    destruct (String.length normalized <? 3)%nat; [done|]. fold grams.
    destruct grams as [|g rest] eqn:Eg; [done|].
    pose proof (intersectPostings_spec (postings state) (g :: rest) None) as Hs.
    destruct (intersectPostings (postings state) (g :: rest) None)
      as [[candidateIds|]|]; [|done|done].
    destruct Hs as (Hall & _). by destruct (Hall gram Hin).
  - intros Hlen Hall. apply Nat.ltb_ge in Hlen. rewrite Hlen. fold grams.
    pose proof (intersectPostings_spec (postings state) grams None) as Hs.
    destruct grams as [|g rest] eqn:Eg.
    { exfalso. subst grams. unfold buildTrigrams in Eg.
      fold normalized in Eg. rewrite Hlen in Eg.
      destruct normalized as [|a [|b [|c r]]]; simpl in *; try done. }
    destruct (intersectPostings (postings state) (g :: rest) None)
      as [[candidateIds|]|].
    + destruct Hs as (_ & Hiff & _). exists candidateIds. split; [|done].
      intros id. rewrite (Hiff id). simpl. tauto.
    + destruct Hs as (_ & _ & Hnone). by destruct (Hnone eq_refl).
    + exists []. split; [|by destruct limit].
      intros id. split; [done|]. intros Hin. exfalso.
      destruct Hs as [(gram & Hg & Hnone)|Hempty].
      * by destruct (Hall gram Hg).
      * apply Hempty. exists id. split; [done|]. done.
Qed.

End WithRuntime.

(** *** A sample index *)

(** [toLocaleLowerCase] on the ASCII letters. *)
Fixpoint asciiLower (s : string) : string :=
  match s with
  | EmptyString => EmptyString
  | String a r =>
      let n := N_of_ascii a in
      String (if ((65 <=? n) && (n <=? 90))%N then ascii_of_N (n + 32) else a)
        (asciiLower r)
  end.

Definition sampleLine : SearchLine :=
  {| line_loc :=
       {| loc_conversationId := "c1"; loc_messageId := "m1";
          loc_blockIndex := 0; loc_lineNo := 0 |};
     line_text := "The quick brown fox jumps" |}.

Definition sampleBundle : SearchBundle :=
  {| sb_grams :=
       map (fun gram => (gram, ["c1"]))
         (Graph.dedupe (buildTrigrams id asciiLower (line_text sampleLine)));
     sb_linesByConversation := [("c1", [sampleLine])];
     sb_summaryMap :=
       [("c1", {| si_title := "Fox"; si_last_message_time := 200 |})] |}.

Example search_quick_brown :
  performSearch id asciiLower (buildIndexes sampleBundle) " Quick BROWN" 40
  = [{| hit_conversationId := "c1"; hit_conversationTitle := "Fox";
        hit_conversationTime := Some 200; hit_messageId := "m1";
        hit_blockIndex := 0; hit_lineNo := 0;
        hit_snippet :=
          {| sn_before := "The "; sn_match := "quick brown";
             sn_after := " fox jumps"; sn_contextBefore := [];
             sn_contextAfter := [] |} |}].
Proof. vm_compute. reflexivity. Qed.

(** The needle of the scan is the trimmed query, not the normalised one: a
    doubled space finds the candidate and then no line. *)
Example search_doubled_space :
  performSearch id asciiLower (buildIndexes sampleBundle) "quick  brown" 40 = [].
Proof. vm_compute. reflexivity. Qed.

Example search_too_short :
  performSearch id asciiLower (buildIndexes sampleBundle) " qu " 40 = [].
Proof. vm_compute. reflexivity. Qed.

Lemma search_candidates_are_posting_intersection_witness :
  performSearch id asciiLower (buildIndexes sampleBundle) "qu" 40 = [] /\
  performSearch id asciiLower (buildIndexes sampleBundle) "quick zebra" 40 = [] /\
  exists candidateIds,
    (forall id',
       In id' candidateIds <->
       forall gram,
         In gram (buildTrigrams id asciiLower "quick brown") ->
         inPosting (postings (buildIndexes sampleBundle)) gram id') /\
    performSearch id asciiLower (buildIndexes sampleBundle) "quick brown" 40
    = firstn 40
        (scanCandidates asciiLower (buildIndexes sampleBundle) sampleBundle
           "quick brown" 40 candidateIds).
Proof.
  split; [|split].
  - destruct (search_candidates_are_posting_intersection id asciiLower
                (buildIndexes sampleBundle) sampleBundle "qu" 40 eq_refl)
      as (Hshort & _ & _).
    apply Hshort. vm_compute. lia.
  - destruct (search_candidates_are_posting_intersection id asciiLower
                (buildIndexes sampleBundle) sampleBundle "quick zebra" 40 eq_refl)
      as (_ & Hmissing & _).
    apply Hmissing. exists "k z". split; [vm_compute; tauto|reflexivity].
  - destruct (search_candidates_are_posting_intersection id asciiLower
                (buildIndexes sampleBundle) sampleBundle "quick brown" 40 eq_refl)
      as (_ & _ & Hall).
    apply Hall.
    + vm_compute. lia.
    + intros gram Hin. vm_compute in Hin.
      repeat (destruct Hin as [<-|Hin]; [vm_compute; discriminate|]).
      destruct Hin.
Defined.

End SearchFacts.

(** ** ArchiveIngestor and DatasetReconciler (importer.ts, datasetImporter.ts) *)

Module Ingest.
Import Js AssetPath Dataset.

(** What [console.warn] is called for. *)
Inductive Warning :=
| UnzipFailed (archiveName : string)
| MissingConversationData
| UnsafeConversationId (id : string)
| UnsafeAssetKey (assetKey : string)
| MissingAssetData (assetKey : string)
| ChatParseFailed
| JsonParseFailed
| AssetsParseFailed
| ExtraParseFailed (key : string)
| UnsafeGeneratedAssetPath (path : string)
| MissingGeneratedAssetPayload (path : string).

(** What [importDatasets] throws: its own errors, and the [TypeError]s of
    the runtime for a list of conversations that cannot be iterated and for
    a conversation that is [null]. *)
Inductive ImportError :=
| NoExportsFound
| ZipUnreadable (filePath : string)
| ArchiveMissingConversations (filePath : string)
| DirectoryMissingConversations (dirPath : string)
| ConversationsNotIterable
| NullConversation.

Inductive ImportMode := Upsert | Replace | CloneMode.

(** The suffix of [s] that begins at the first occurrence of [needle]:
    [s.slice(s.indexOf(needle))], [None] when [indexOf] is -1. *)
Fixpoint suffixFrom (needle s : string) : option string :=
  if startsWith needle s then Some s
  else match s with
       | EmptyString => None
       | String _ r => suffixFrom needle r
       end.

(** The depth-counting loops of [extractConversationsFromChat] and
    [extractAssetsJson], run on the text that begins at the opening
    bracket: the slice up to the point where the loop stops, and the depth
    there. *)
Fixpoint scanBalanced (opening closing : ascii) (depth : Z) (s : string)
    : string * Z :=
  match s with
  | EmptyString => (EmptyString, depth)
  | String a r =>
      let depth1 := if Ascii.eqb a opening then depth + 1 else depth in
      if Ascii.eqb a closing then
        if depth1 - 1 =? 0 then (String a EmptyString, 0)
        else
          let scanned := scanBalanced opening closing (depth1 - 1) r in
          (String a (fst scanned), snd scanned)
      else
        let scanned := scanBalanced opening closing depth1 r in
        (String a (fst scanned), snd scanned)
  end.

Definition isSafeConversationId (id : string) : bool :=
  negb (String.eqb id EmptyString)
  && negb (includesChar slash id)
  && negb (includesChar backslash id)
  && negb (includesChar nul id)
  && match Search.indexOf ".." id with None => true | Some _ => false end.

(** [key.endsWith(suffix)] over the entries of a map, first hit
    ([findEntry]). *)
Definition findEntry {V} (entries : JsMap.t V) (filename : string) : option V :=
  option_map snd (List.find (fun kv => endsWith filename (fst kv)) entries).

(** [s.replace(/^assets\//, '')]. *)
Definition stripAssetsPrefix (s : string) : string :=
  if startsWith "assets/" s then dropChars 7 s else s.

Definition findAssetEntry {V} (entries : JsMap.t V) (assetKey : string)
    : option V :=
  let normalized := normalizePath assetKey in
  let trimmed := stripAssetsPrefix normalized in
  match JsMap.get entries normalized with
  | Some direct => Some direct
  | None =>
      match (if String.eqb trimmed normalized then None
             else JsMap.get entries trimmed) with
      | Some alt => Some alt
      | None =>
          match JsMap.get entries ("assets/" +:+ normalized) with
          | Some prefixed => Some prefixed
          | None =>
              option_map snd
                (List.find
                   (fun kv =>
                      negb (String.eqb (fst kv) normalized
                            || String.eqb (fst kv) trimmed)
                      && (endsWith (String slash normalized) (fst kv)
                          || endsWith (String slash trimmed) (fst kv)))
                   entries)
          end
      end
  end.

(** A fold that stops at the first [None]. *)
Fixpoint foldOption {S A} (step : S -> A -> option S) (xs : list A) (s : S)
    : option S :=
  match xs with
  | [] => Some s
  | x :: rest =>
      match step s x with
      | None => None
      | Some s' => foldOption step rest s'
      end
  end.

(** [extractConversationsFromChat], for [JSON.parse] at whatever type
    ([None] when it throws): the text after the first [var jsonData], from
    its first opening bracket to the bracket that closes it, parsed; [null]
    when the marker or the bracket is missing, when the brackets do not
    balance and when the text does not parse. *)
Definition extractConversationsFromChat {R}
    (parseConversations : string -> option R) (html : string) : option R :=
  match suffixFrom "var jsonData" html with
  | None => None
  | Some afterMarker =>
      match suffixFrom "[" afterMarker with
      | None => None
      | Some fromBracket =>
          let scanned := scanBalanced "["%char "]"%char 0 fromBracket in
          if snd scanned =? 0 then parseConversations (fst scanned) else None
      end
  end.

(** The warning of [extractConversationsFromChat]: for a text that was
    handed to [JSON.parse] and did not parse. *)
Definition chatParseWarnings {R}
    (parseConversations : string -> option R) (html : string) : list Warning :=
  match suffixFrom "var jsonData" html with
  | None => []
  | Some afterMarker =>
      match suffixFrom "[" afterMarker with
      | None => []
      | Some fromBracket =>
          let scanned := scanBalanced "["%char "]"%char 0 fromBracket in
          if snd scanned =? 0
          then match parseConversations (fst scanned) with
               | Some _ => []
               | None => [ChatParseFailed]
               end
          else []
      end
  end.

(** The runtime and the parts of the repository the ingestion only calls:
    [unzipSync] and [strFromU8] (fflate), [JSON.parse] at the two types it is
    used at ([None] when it throws), the ContentSegmenter, and
    [buildSearchData].  The sidecar metadata (extras, generated assets) and
    the progress notifications are left out of the model of the headless
    importer. *)
Section WithRuntime.
Context {Content Metadata Details AssetsIndex Bytes : Type}.

(** What [JSON.parse] hands back is used as a list of conversations without
    any check.  An item of the list is [null], on which
    [convertRawConversation] throws when it reads [raw.mapping]; or a
    number, a string or a boolean, which has no [mapping] and converts to
    [null]; or an object, read through the members of [RawConversation]. *)
Inductive RawItem :=
| NullItem
| ScalarItem
| ObjectItem (raw : @Graph.RawConversation Content Metadata).

(** The value itself is an array; or a string, whose items are its
    characters; or another object, with a [length] member that is truthy or
    not; or [null], a boolean or a number. *)
Inductive Parsed :=
| ParsedArray (items : list RawItem)
| ParsedString (text : string)
| ParsedObject (lengthIsTruthy : bool)
| ParsedOther.

Variable convertParts :
  option Content -> AssetsIndex -> list Graph.Block * list (string * string).
Variable buildDetails : @Graph.RawMessage Content Metadata -> option Details.
Variable buildSnippet : string -> string.
Variable buildSearchData :
  @Graph.Conversation Details -> list SearchLine * list string.
Variable unzipSync : Bytes -> option (list (string * Bytes)).
Variable strFromU8 : Bytes -> string.
Variable parseConversations : string -> option Parsed.
Variable parseAssets : string -> option AssetsIndex.
Variable emptyAssets : AssetsIndex.

(** [value && value.length] as a condition. *)
Definition hasLength (parsed : Parsed) : bool :=
  match parsed with
  | ParsedArray items => match items with [] => false | _ => true end
  | ParsedString text => negb (String.eqb text EmptyString)
  | ParsedObject lengthIsTruthy => lengthIsTruthy
  | ParsedOther => false
  end.

Definition hasItems (parsed : option Parsed) : bool :=
  match parsed with Some p => hasLength p | None => false end.

(** What [for (const raw of items)] with [convertRawConversation(raw, ...)]
    as its first statement gets to: the objects it converts, and the
    [TypeError] that ends it when it meets [null]. *)
Fixpoint reached (items : list RawItem)
    : list (@Graph.RawConversation Content Metadata) * option ImportError :=
  match items with
  | [] => ([], None)
  | NullItem :: _ => ([], Some NullConversation)
  | ScalarItem :: rest => reached rest
  | ObjectItem raw :: rest =>
      let later := reached rest in (raw :: fst later, snd later)
  end.

(** The same for any value: the characters of a string convert to [null],
    and what is neither an array nor a string cannot be iterated. *)
Definition loopOver (parsed : Parsed)
    : list (@Graph.RawConversation Content Metadata) * option ImportError :=
  match parsed with
  | ParsedArray items => reached items
  | ParsedString _ => ([], None)
  | ParsedObject _ | ParsedOther => ([], Some ConversationsNotIterable)
  end.

Definition extractAssetsJson (html : string) : AssetsIndex :=
  match suffixFrom "var assetsJson" html with
  | None => emptyAssets
  | Some afterMarker =>
      match suffixFrom "{" afterMarker with
      | None => emptyAssets
      | Some fromBrace =>
          match parseAssets (fst (scanBalanced "{"%char "}"%char 0 fromBrace)) with
          | Some index => index
          | None => emptyAssets
          end
      end
  end.

Definition assetsParseWarnings (html : string) : list Warning :=
  match suffixFrom "var assetsJson" html with
  | None => []
  | Some afterMarker =>
      match suffixFrom "{" afterMarker with
      | None => []
      | Some fromBrace =>
          match parseAssets (fst (scanBalanced "{"%char "}"%char 0 fromBrace)) with
          | Some _ => []
          | None => [AssetsParseFailed]
          end
      end
  end.

(** [safeJsonParse<RawConversation[]>(input, [])], with its warning. *)
Definition safeParseConversations (input : string) : Parsed * list Warning :=
  match parseConversations input with
  | Some parsed => (parsed, [])
  | None => (ParsedArray [], [JsonParseFailed])
  end.

(** What the [Object.entries(entries).forEach] of both importers gathers. *)
Record Scanned := {
  sc_conversationsJson : string;
  sc_chatHtml : string;
  sc_entries : JsMap.t Bytes;
}.

Definition scanEntry (skipEmpty : bool) (acc : Scanned)
    (entry : string * Bytes) : Scanned :=
  let normalized := normalizePath (fst entry) in
  if skipEmpty && String.eqb normalized EmptyString then acc
  else
    {| sc_entries := JsMap.set (sc_entries acc) normalized (snd entry);
       sc_conversationsJson :=
         if endsWith "conversations.json" normalized then strFromU8 (snd entry)
         else sc_conversationsJson acc;
       sc_chatHtml :=
         if endsWith "conversations.json" normalized then sc_chatHtml acc
         else if endsWith "chat.html" normalized then strFromU8 (snd entry)
         else sc_chatHtml acc |}.

Definition scanEntries (skipEmpty : bool) (entries : list (string * Bytes))
    : Scanned :=
  fold_left (scanEntry skipEmpty) entries
    {| sc_conversationsJson := EmptyString; sc_chatHtml := EmptyString;
       sc_entries := [] |}.

(** [chatHtml ? extractConversationsFromChat(chatHtml) : null], with the
    warning. *)
Definition conversationsFromChat (chatHtml : string)
    : option Parsed * list Warning :=
  if String.eqb chatHtml EmptyString then (None, [])
  else (extractConversationsFromChat parseConversations chatHtml,
        chatParseWarnings parseConversations chatHtml).

(** [chatHtml ? extractAssetsJson(chatHtml) : {}], and its warning. *)
Definition assetsJsonOf (chatHtml : string) : AssetsIndex :=
  if String.eqb chatHtml EmptyString then emptyAssets
  else extractAssetsJson chatHtml.

Definition assetsWarningsOf (chatHtml : string) : list Warning :=
  if String.eqb chatHtml EmptyString then []
  else assetsParseWarnings chatHtml.

(** The payload built from a converted conversation. *)
Definition makePayload (source : string) (pinned : option bool)
    (converted : @Graph.SlimConversionResult Details) (order : Z)
    : @Payload Details :=
  let conversation := Graph.conversation converted in
  let search := buildSearchData conversation in
  let count := Some (Z.of_nat (Graph.mappingNodeCount converted)) in
  {| p_summary :=
       {| Merge.cs_id := Graph.conv_id conversation;
          Merge.cs_title :=
            if String.eqb (Graph.conv_title conversation) EmptyString
            then "Untitled" else Graph.conv_title conversation;
          Merge.cs_snippet := Graph.snippet converted;
          Merge.cs_last_message_time := Graph.last_message_time conversation;
          Merge.cs_create_time := Graph.conv_create_time conversation;
          Merge.cs_update_time := Graph.conv_update_time conversation;
          Merge.cs_mapping_node_count := count;
          Merge.cs_source := source;
          Merge.cs_pinned := pinned |};
     p_conversation := conversation;
     p_searchLines := fst search;
     p_grams := snd search;
     p_assetKeys := Graph.assetKeys converted;
     p_mappingNodeCount := count;
     p_importOrder := order |}.

(** [convertRawConversation] followed by the test of the id: the converted
    conversation to import, or the warning to emit, or nothing.  (The walk
    never runs out of fuel, see [graph_conversion_terminates].) *)
Definition convertForImport
    (raw : @Graph.RawConversation Content Metadata) (assetsJson : AssetsIndex)
    : option (@Graph.SlimConversionResult Details + Warning) :=
  match Graph.convertRawConversation convertParts buildDetails buildSnippet
          raw assetsJson with
  | Some (Some converted) =>
      let id := Graph.conv_id (Graph.conversation converted) in
      if isSafeConversationId id then Some (inl converted)
      else Some (inr (UnsafeConversationId id))
  | _ => None
  end.

(** The [assetKeys.forEach] of the headless importer: the asset store and
    the warnings after the keys of one conversation. *)
Definition collectAssetKeys (entries : JsMap.t Bytes)
    (acc : JsMap.t Bytes * list Warning) (assetKeys : list string)
    : JsMap.t Bytes * list Warning :=
  fold_left
    (fun acc assetKey =>
       if negb (isSafeRelativePath assetKey)
       then (fst acc, snd acc ++ [UnsafeAssetKey assetKey])
       else if JsMap.has (fst acc) assetKey then acc
       else
         match findAssetEntry entries assetKey with
         | None => (fst acc, snd acc ++ [MissingAssetData assetKey])
         | Some data => (JsMap.set (fst acc) assetKey data, snd acc)
         end)
    assetKeys acc.

(** *** The headless importer: [importDatasets] *)

Inductive Source :=
| ZipSource (filePath : string) (bytes : Bytes)
| DirSource (dirPath : string) (files : list (string * Bytes)).

(** [ArchiveData], with the warnings emitted while it was loaded. *)
Record ArchiveData := {
  ad_parsed : Parsed;
  ad_assetsJson : AssetsIndex;
  ad_entries : JsMap.t Bytes;
  ad_warnings : list Warning;
}.

(** The conversations the loop over [archive.conversations] converts, and
    the error that ends it, if any. *)
Definition ad_conversations (archive : ArchiveData)
    : list (@Graph.RawConversation Content Metadata) :=
  fst (loopOver (ad_parsed archive)).

Definition ad_ending (archive : ArchiveData) : option ImportError :=
  snd (loopOver (ad_parsed archive)).

Definition loadZipArchive (filePath : string) (bytes : Bytes)
    : ImportError + ArchiveData :=
  match unzipSync bytes with
  | None => inl (ZipUnreadable filePath)
  | Some entries =>
      let scanned := scanEntries false entries in
      let fromChat := conversationsFromChat (sc_chatHtml scanned) in
      let fallback := safeParseConversations (sc_conversationsJson scanned) in
      let conversations :=
        if hasItems (fst fromChat) then (fst fromChat, snd fromChat)
        else if String.eqb (sc_conversationsJson scanned) EmptyString
             then (None, snd fromChat)
             else (Some (fst fallback), snd fromChat ++ snd fallback) in
      match fst conversations with
      | Some parsed =>
          if hasLength parsed then
            inr {| ad_parsed := parsed;
                   ad_assetsJson := assetsJsonOf (sc_chatHtml scanned);
                   ad_entries := sc_entries scanned;
                   ad_warnings :=
                     snd conversations
                     ++ assetsWarningsOf (sc_chatHtml scanned) |}
          else inl (ArchiveMissingConversations filePath)
      | None => inl (ArchiveMissingConversations filePath)
      end
  end.

Definition loadDirectoryArchive (dirPath : string)
    (files : list (string * Bytes)) : ImportError + ArchiveData :=
  let entries :=
    fold_left (fun m (f : string * Bytes) => JsMap.set m (normalizePath (fst f)) (snd f))
      files [] in
  let chatHtml :=
    match findEntry entries "chat.html" with
    | Some data => strFromU8 data
    | None => EmptyString
    end in
  let fromChat := conversationsFromChat chatHtml in
  match (if hasItems (fst fromChat) then fst fromChat else None) with
  | Some parsed =>
      inr {| ad_parsed := parsed; ad_assetsJson := assetsJsonOf chatHtml;
             ad_entries := entries;
             ad_warnings := snd fromChat ++ assetsWarningsOf chatHtml |}
  | None =>
      match findEntry entries "conversations.json" with
      | None => inl (DirectoryMissingConversations dirPath)
      | Some data =>
          let fallback := safeParseConversations (strFromU8 data) in
          inr {| ad_parsed := fst fallback;
                 ad_assetsJson := assetsJsonOf chatHtml;
                 ad_entries := entries;
                 ad_warnings :=
                   snd fromChat ++ snd fallback ++ assetsWarningsOf chatHtml |}
      end
  end.

Definition loadSource (source : Source) : ImportError + ArchiveData :=
  match source with
  | ZipSource filePath bytes => loadZipArchive filePath bytes
  | DirSource dirPath files => loadDirectoryArchive dirPath files
  end.

Record ServerState := {
  ss_merged : JsMap.t (@Payload Details);
  ss_tracker : gmap string N;
  ss_assets : JsMap.t Bytes;
  ss_order : Z;
  ss_log : list Warning;
}.

Definition logged (state : ServerState) (warnings : list Warning)
    : ServerState :=
  {| ss_merged := ss_merged state; ss_tracker := ss_tracker state;
     ss_assets := ss_assets state; ss_order := ss_order state;
     ss_log := ss_log state ++ warnings |}.

(** The body of [for (const raw of archive.conversations)] for an object.
    [None]: the loop of [ensureClonePayloadId] is still running when its
    fuel is spent. *)
Definition serverConvert (mode : ImportMode) (archive : ArchiveData)
    (state : ServerState) (raw : @Graph.RawConversation Content Metadata)
    : option ServerState :=
  match convertForImport raw (ad_assetsJson archive) with
  | None => Some state
  | Some (inr warning) =>
      Some {| ss_merged := ss_merged state; ss_tracker := ss_tracker state;
              ss_assets := ss_assets state; ss_order := ss_order state;
              ss_log := ss_log state ++ [warning] |}
  | Some (inl converted) =>
      let payload :=
        makePayload "server" (Some false) converted (ss_order state) in
      let reconciled :=
        match mode with
        | CloneMode =>
            Clone.cloneInto (ss_merged state, ss_tracker state) payload
        | _ =>
            Some (Merge.mergeInto rank (ss_merged state) (payloadId payload)
                    payload, ss_tracker state)
        end in
      match reconciled with
      | None => None
      | Some (merged, tracker) =>
          let collected :=
            collectAssetKeys (ad_entries archive)
              (ss_assets state, ss_log state) (Graph.assetKeys converted) in
          Some {| ss_merged := merged; ss_tracker := tracker;
                  ss_assets := fst collected; ss_order := ss_order state + 1;
                  ss_log := snd collected |}
      end
  end.

(** The loop over the sources: the first archive that fails to load, or
    whose conversations cannot all be gone through, aborts the import. *)
Fixpoint importSources (mode : ImportMode) (sources : list Source)
    (state : ServerState) : option (ImportError + ServerState) :=
  match sources with
  | [] => Some (inr state)
  | source :: rest =>
      match loadSource source with
      | inl error => Some (inl error)
      | inr archive =>
          match foldOption (serverConvert mode archive)
                  (ad_conversations archive)
                  (logged state (ad_warnings archive)) with
          | None => None
          | Some state' =>
              match ad_ending archive with
              | Some error => Some (inl error)
              | None => importSources mode rest state'
              end
          end
      end
  end.

(** The state [importDatasets] starts from: in the modes upsert and clone
    the persisted payloads, numbered in the order they were loaded, and the
    persisted assets; nothing in the mode replace. *)
Definition initialState (mode : ImportMode)
    (existing : list (@Payload Details)) (existingAssets : JsMap.t Bytes)
    : ServerState :=
  match mode with
  | Replace =>
      {| ss_merged := []; ss_tracker := ∅; ss_assets := []; ss_order := 0;
         ss_log := [] |}
  | _ =>
      let loaded :=
        fold_left
          (fun acc (payload : @Payload Details) =>
             (JsMap.set (fst acc) (payloadId payload)
                (withImportOrder payload (snd acc)), snd acc + 1))
          existing ([], 0) in
      {| ss_merged := fst loaded;
         ss_tracker :=
           match mode with
           | CloneMode => Clone.buildCloneTracker (JsMap.keys (fst loaded))
           | _ => ∅
           end;
         ss_assets :=
           fold_left
             (fun m (kv : string * Bytes) =>
                if JsMap.has m (fst kv) then m else JsMap.set m (fst kv) (snd kv))
             existingAssets [];
         ss_order := snd loaded;
         ss_log := [] |}
  end.

(** [importDatasets], from the sources found and the dataset loaded, up to
    the call of [writeDataset]: the payloads and assets to write, or the
    error thrown.  Outer [None]: a loop of [ensureClonePayloadId] that is
    still running when its fuel is spent. *)
Definition importDatasets (mode : ImportMode)
    (existing : list (@Payload Details)) (existingAssets : JsMap.t Bytes)
    (sources : list Source) : option (ImportError + ServerState) :=
  match sources with
  | [] => Some (inl NoExportsFound)
  | _ => importSources mode sources (initialState mode existing existingAssets)
  end.

(** *** The dataset directory *)

(** What [writeDataset] leaves of the conversations: [conversations.json],
    one [conversation.json] per id that passes [isSafeConversationId], and
    the search index, whose [linesByConversation] and [grams] are object
    literals filled by assignment.  A conversation file is kept under the id
    that names its directory. *)
Record Disk := {
  d_summaries : list Merge.ConversationSummary;
  d_conversations : JsMap.t (@Graph.Conversation Details);
  d_lines : JsMap.t (list SearchLine);
  d_grams : JsMap.t (list string);
}.

Definition addToSet (members : list string) (x : string) : list string :=
  if existsb (String.eqb x) members then members else members ++ [x].

(** The gram index of [buildSearchBundle], a [Map]: gram to the ids that
    hold it. *)
Definition gramIndexOf (payloads : list (@Payload Details))
    : JsMap.t (list string) :=
  fold_left
    (fun index (payload : @Payload Details) =>
       fold_left
         (fun index gram =>
            JsMap.set index gram
              (addToSet (match JsMap.get index gram with
                         | Some ids => ids
                         | None => []
                         end) (payloadId payload)))
         (p_grams payload) index)
    payloads [].

(** [gramIndex.forEach((ids, gram) => { grams[gram] = Array.from(ids) })]. *)
Definition gramsObject (index : JsMap.t (list string)) : JsMap.t (list string) :=
  fold_left
    (fun grams (entry : string * list string) =>
       JsObject.assign grams (fst entry) (snd entry))
    index [].

Definition writeDataset (merged : JsMap.t (@Payload Details)) : Disk :=
  let payloads := JsMap.values merged in
  {| d_summaries := map p_summary payloads;
     d_conversations :=
       fold_left
         (fun files (payload : @Payload Details) =>
            if isSafeConversationId (payloadId payload)
            then JsMap.set files (payloadId payload) (p_conversation payload)
            else files)
         payloads [];
     d_lines :=
       fold_left
         (fun lines (payload : @Payload Details) =>
            JsObject.assign lines (payloadId payload) (p_searchLines payload))
         payloads [];
     d_grams := gramsObject (gramIndexOf payloads) |}.

(** [buildGramMembership]: id to the grams it is listed under. *)
Definition gramMembership (grams : JsMap.t (list string))
    : JsMap.t (list string) :=
  fold_left
    (fun membership (entry : string * list string) =>
       fold_left
         (fun membership id =>
            JsMap.set membership id
              (addToSet (match JsMap.get membership id with
                         | Some gs => gs
                         | None => []
                         end) (fst entry)))
         (snd entry) membership)
    grams [].

(** The payload [loadExistingDataset] builds for a summary, its conversation
    and the search lines read for it. *)
Definition loadedPayload (membership : JsMap.t (list string))
    (summary : Merge.ConversationSummary)
    (conversation : @Graph.Conversation Details) (lines : list SearchLine)
    : @Payload Details :=
  {| p_summary := summary;
     p_conversation := conversation;
     p_searchLines := lines;
     p_grams :=
       match JsMap.get membership (Merge.cs_id summary) with
       | Some gs => gs
       | None => []
       end;
     p_assetKeys :=
       List.filter
         (fun key => negb (String.eqb key EmptyString))
         (Graph.dedupe
            (match Graph.conv_assetsMap conversation with
             | Some m => JsMap.values m
             | None => []
             end));
     p_mappingNodeCount :=
       Some (Merge.orZero (Merge.cs_mapping_node_count summary));
     p_importOrder := 0 |}.

(** One turn of the loop of [loadExistingDataset] over the summaries: the
    summaries whose [conversation.json] is missing are passed over (the
    file is looked up by the summary's id, which is its directory name as
    long as the id is safe).  The search lines are
    [linesByConversation[summary.id] ?? []]; [None] stands for a dataset in
    which this reads a member of [Object.prototype], the payload then
    carrying a value that is no list of lines. *)
Definition loadSummary (disk : Disk) (membership : JsMap.t (list string))
    (payloads : JsMap.t (@Payload Details))
    (summary : Merge.ConversationSummary)
    : option (JsMap.t (@Payload Details)) :=
  match JsMap.get (d_conversations disk) (Merge.cs_id summary) with
  | None => Some payloads
  | Some conversation =>
      match JsObject.read (d_lines disk) (Merge.cs_id summary) with
      | JsObject.Inherited => None
      | JsObject.Own lines =>
          Some (JsMap.set payloads (Merge.cs_id summary)
                  (loadedPayload membership summary conversation lines))
      | JsObject.Undefined =>
          Some (JsMap.set payloads (Merge.cs_id summary)
                  (loadedPayload membership summary conversation []))
      end
  end.

(** [loadExistingDataset], for the conversations. *)
Definition loadExistingDataset (disk : Disk) : option (list (@Payload Details)) :=
  option_map JsMap.values
    (foldOption (loadSummary disk (gramMembership (d_grams disk)))
       (d_summaries disk) []).

End WithRuntime.

End Ingest.

(** ** Facts about ingestion and reconciliation *)

Module IngestFacts.
Import Js AssetPath Dataset Ingest.

(** *** Key lists *)

Lemma addToSet_In members x y :
  In y (addToSet members x) <-> In y members \/ y = x.
Proof.
  unfold addToSet. destruct (existsb (String.eqb x) members) eqn:E.
  - apply existsb_exists in E as (z & Hz & Heq).
    apply String.eqb_eq in Heq. subst. split; [tauto|]. by intros [?| ->].
  - rewrite in_app_iff. simpl. split; [intros [?|[?|[]]]|]; auto.
    intros [?| ->]; auto.
Qed.

Lemma addToSet_present members x : In x members -> addToSet members x = members.
Proof.
  intros Hin. unfold addToSet.
  replace (existsb (String.eqb x) members) with true; [done|].
  symmetry. apply existsb_exists. exists x. split; [done|apply String.eqb_refl].
Qed.

Lemma addToSet_absent members x :
  ~ In x members -> addToSet members x = members ++ [x].
Proof.
  intros Hnin. unfold addToSet.
  destruct (existsb (String.eqb x) members) eqn:E; [|done].
  apply existsb_exists in E as (z & Hz & Heq).
  apply String.eqb_eq in Heq. by subst.
Qed.





Lemma keys_set_addToSet {V} (m : JsMap.t V) k v :
  JsMap.keys (JsMap.set m k v) = addToSet (JsMap.keys m) k.
Proof.
  rewrite JsMapFacts.keys_set. destruct (JsMap.has m k) eqn:E.
  - apply JsMapFacts.has_true_iff in E. by rewrite addToSet_present.
  - apply JsMapFacts.has_false_iff in E. by rewrite addToSet_absent.
Qed.

Lemma keys_mergeInto {P} (rank : P -> Merge.ComparisonPayload) m id p :
  JsMap.keys (Merge.mergeInto rank m id p) = addToSet (JsMap.keys m) id.
Proof.
  unfold Merge.mergeInto. destruct (JsMap.get m id) as [e|] eqn:Hget.
  - assert (In id (JsMap.keys m)) as Hin.
    { apply JsMapFacts.has_true_iff. unfold JsMap.has. by rewrite Hget. }
    rewrite (addToSet_present _ _ Hin).
    destruct (Merge.shouldReplace _ _); [|done].
    by rewrite keys_set_addToSet, addToSet_present.
  - apply keys_set_addToSet.
Qed.

Lemma NoDup_snoc (l : list string) k :
  NoDup l -> ~ In k l -> NoDup (l ++ [k]).
Proof.
  intros Hnd Hnin. apply NoDup_app. split; [done|].
  split; [|apply NoDup_singleton].
  intros x Hx Hx'. apply list_elem_of_singleton in Hx'. subst.
  by apply Hnin, list_elem_of_In.
Qed.

Lemma addToSet_NoDup members x :
  NoDup members -> NoDup (addToSet members x).
Proof.
  intros Hnd. unfold addToSet.
  destruct (existsb (String.eqb x) members) eqn:E; [done|].
  apply NoDup_snoc; [done|]. intros Hin.
  assert (existsb (String.eqb x) members = true); [|congruence].
  apply existsb_exists. exists x. split; [done|apply String.eqb_refl].
Qed.

Lemma Forall_set {V} (Q : string * V -> Prop) (m : JsMap.t V) k v :
  Forall Q m -> Q (k, v) -> Forall Q (JsMap.set m k v).
Proof.
  intros Hm Hq. induction m as [|[k' v'] m IH]; simpl.
  - by constructor.
  - inversion Hm; subst. destruct (String.eqb k' k); constructor; auto.
Qed.

Section WithRuntime.
Context {Content Metadata Details AssetsIndex Bytes : Type}.
Variable convertParts :
  option Content -> AssetsIndex -> list Graph.Block * list (string * string).
Variable buildDetails : @Graph.RawMessage Content Metadata -> option Details.
Variable buildSnippet : string -> string.
Variable buildSearchData :
  @Graph.Conversation Details -> list SearchLine * list string.
Variable unzipSync : Bytes -> option (list (string * Bytes)).
Variable strFromU8 : Bytes -> string.
Variable parseConversations : string -> option (@Parsed Content Metadata).
Variable parseAssets : string -> option AssetsIndex.
Variable emptyAssets : AssetsIndex.

Implicit Types (merged : JsMap.t (@Payload Details)).
Implicit Types (payload : @Payload Details).
Implicit Types (existing : list (@Payload Details)).
Implicit Types (archive : @ArchiveData Content Metadata AssetsIndex Bytes).
Implicit Types (state : @ServerState Details Bytes).
Implicit Types (source : @Source Bytes).
Implicit Types (raw : @Graph.RawConversation Content Metadata).

#[local] Abbreviation convertForImport := (convertForImport convertParts buildDetails buildSnippet).
#[local] Abbreviation serverConvert :=
  (serverConvert convertParts buildDetails buildSnippet buildSearchData).
#[local] Abbreviation loadSource :=
  (loadSource unzipSync strFromU8 parseConversations parseAssets emptyAssets).
#[local] Abbreviation importSources :=
  (importSources convertParts buildDetails buildSnippet buildSearchData
     unzipSync strFromU8 parseConversations parseAssets emptyAssets).
#[local] Abbreviation importDatasets :=
  (importDatasets convertParts buildDetails buildSnippet buildSearchData
     unzipSync strFromU8 parseConversations parseAssets emptyAssets).
#[local] Abbreviation makePayload := (makePayload buildSearchData).

(** *** Dataset states *)

(** A payload whose summary and conversation carry the same id, and an id
    the importer accepts. *)
Definition wellFormedPayload payload : Prop :=
  Merge.cs_id (p_summary payload) = payloadId payload /\
  isSafeConversationId (payloadId payload) = true.


(** The payload map of a run: every payload under its own id, ids pairwise
    distinct. *)
Definition sound merged : Prop :=
  Forall (fun kv => fst kv = payloadId (snd kv) /\ wellFormedPayload (snd kv))
    merged /\
  NoDup (JsMap.keys merged).

Lemma sound_nil : sound [].
Proof. split; [constructor|constructor]. Qed.

Lemma sound_set merged payload :
  sound merged -> wellFormedPayload payload ->
  sound (JsMap.set merged (payloadId payload) payload).
Proof.
  intros [Hall Hnd] Hwf. split.
  - by apply Forall_set.
  - rewrite keys_set_addToSet. by apply addToSet_NoDup.
Qed.

Lemma sound_mergeInto merged payload :
  sound merged -> wellFormedPayload payload ->
  sound (Merge.mergeInto rank merged (payloadId payload) payload).
Proof.
  intros Hs Hwf. unfold Merge.mergeInto.
  destruct (JsMap.get merged (payloadId payload)); [|by apply sound_set].
  destruct (Merge.shouldReplace _ _); [by apply sound_set|done].
Qed.

Lemma sound_ids merged :
  sound merged -> map payloadId (JsMap.values merged) = JsMap.keys merged.
Proof.
  intros [Hall _]. unfold JsMap.values, JsMap.keys.
  induction Hall as [|[k p] m [Hk _] _ IH]; simpl in *; [done|].
  by rewrite IH, Hk.
Qed.

(** The id under which a raw conversation is imported, if it is. *)
Definition acceptedId raw (assetsJson : AssetsIndex) : option string :=
  match convertForImport raw assetsJson with
  | Some (inl converted) => Some (Graph.conv_id (Graph.conversation converted))
  | _ => None
  end.

Definition acceptedIds archive : list string :=
  omap (fun raw => acceptedId raw (ad_assetsJson archive))
    (ad_conversations archive).

(** The ids a batch brings, archive after archive. *)
Definition sourceIds (sources : list (@Source Bytes)) : list string :=
  flat_map
    (fun source =>
       match loadSource source with
       | inr archive => acceptedIds archive
       | inl _ => []
       end)
    sources.

Lemma makePayload_wellFormed origin pinned converted order raw assetsJson :
  convertForImport raw assetsJson = Some (inl converted) ->
  wellFormedPayload (makePayload origin pinned converted order).
Proof.
  unfold Ingest.convertForImport. intros H.
  destruct (Graph.convertRawConversation _ _ _ _ _) as [[c|]|]; try done.
  destruct (isSafeConversationId _) eqn:Hsafe; [|done].
  injection H as <-. by split.
Qed.

(** One conversation in the mode upsert: never out of fuel; the ids grow by
    the accepted id, if any. *)
Lemma serverConvert_upsert archive state raw :
  exists state',
    serverConvert Upsert archive state raw = Some state' /\
    JsMap.keys (ss_merged state')
    = match acceptedId raw (ad_assetsJson archive) with
      | Some id => addToSet (JsMap.keys (ss_merged state)) id
      | None => JsMap.keys (ss_merged state)
      end /\
    (sound (ss_merged state) -> sound (ss_merged state')).
Proof.
  unfold Ingest.serverConvert, acceptedId.
  destruct (convertForImport raw (ad_assetsJson archive))
    as [[converted|warning]|] eqn:Hc.
  - eexists. split; [done|]. simpl. split.
    + apply keys_mergeInto.
    + intros Hs. apply sound_mergeInto; [done|].
      by eapply makePayload_wellFormed.
  - eexists. by split.
  - eexists. by split.
Qed.

Lemma foldOption_upsert archive raws state :
  exists state',
    foldOption (serverConvert Upsert archive) raws state = Some state' /\
    JsMap.keys (ss_merged state')
    = fold_left addToSet
        (omap (fun raw => acceptedId raw (ad_assetsJson archive)) raws)
        (JsMap.keys (ss_merged state)) /\
    (sound (ss_merged state) -> sound (ss_merged state')).
Proof.
  revert state. induction raws as [|raw raws IH]; intros state; simpl.
  - eauto.
  - destruct (serverConvert_upsert archive state raw) as (s1 & -> & Hk1 & Hs1).
    destruct (IH s1) as (s2 & -> & Hk2 & Hs2).
    exists s2. split; [done|]. split; [|auto].
    rewrite Hk2, Hk1.
    by destruct (acceptedId raw (ad_assetsJson archive)).
Qed.

Lemma importSources_cons mode source sources state :
  importSources mode (source :: sources) state
  = match loadSource source with
    | inl error => Some (inl error)
    | inr archive =>
        match foldOption (serverConvert mode archive)
                (ad_conversations archive)
                (logged state (ad_warnings archive)) with
        | None => None
        | Some state' =>
            match ad_ending archive with
            | Some error => Some (inl error)
            | None => importSources mode sources state'
            end
        end
    end.
Proof. done. Qed.

(** A source that the loop over the sources gets through: it loads, and the
    loop over its conversations meets no [null]. *)
Definition passes source : Prop :=
  exists archive, loadSource source = inr archive /\ ad_ending archive = None.

(** A source at which the import stops with an error. *)
Definition failsWith source (error : ImportError) : Prop :=
  loadSource source = inl error \/
  exists archive, loadSource source = inr archive /\
                  ad_ending archive = Some error.

(** The ids of sources that pass are those of the conversations converted. *)
Lemma sourceIds_cons source sources :
  sourceIds (source :: sources)
  = match loadSource source with
    | inr archive => acceptedIds archive
    | inl _ => []
    end ++ sourceIds sources.
Proof. done. Qed.

(** The loop over the sources in the mode upsert: it ends; it fails exactly
    at a source that fails; otherwise the ids are those it started with,
    then the ids of the batch in order. *)
Lemma importSources_upsert sources state :
  match importSources Upsert sources state with
  | Some (inr state') =>
      Forall passes sources /\
      JsMap.keys (ss_merged state')
      = fold_left addToSet (sourceIds sources) (JsMap.keys (ss_merged state)) /\
      (sound (ss_merged state) -> sound (ss_merged state'))
  | Some (inl error) => Exists (fun source => failsWith source error) sources
  | None => False
  end.
Proof.
  revert state. induction sources as [|source sources IH]; intros state.
  - simpl. split; [constructor|split; [done|auto]].
  - rewrite importSources_cons, sourceIds_cons.
    destruct (loadSource source) as [error|archive] eqn:Hload.
    + left. by left.
    + destruct (foldOption_upsert archive (ad_conversations archive)
                  (logged state (ad_warnings archive)))
        as (s1 & -> & Hk1 & Hs1).
      destruct (ad_ending archive) as [error|] eqn:Hend.
      { left. right. eauto. }
      specialize (IH s1).
      destruct (importSources Upsert sources s1) as [[error|s2]|]; [|..|done].
      * by right.
      * destruct IH as (Hall & Hk2 & Hs2). split; [|split; [|auto]].
        -- constructor; [|done]. by exists archive.
        -- rewrite fold_left_app. by rewrite Hk2, Hk1.
Qed.

(** *** Loading and persisting *)









(** *** Archives the headless importer refuses *)

#[local] Abbreviation loadZipArchive :=
  (loadZipArchive unzipSync strFromU8 parseConversations parseAssets emptyAssets).
#[local] Abbreviation scanEntries := (scanEntries strFromU8).
#[local] Abbreviation scanEntry := (scanEntry strFromU8).




End WithRuntime.

(** *** A sample runtime *)

(** Archives are strings: [corrupt] does not decompress, any other unpacks
    to a single [conversations.json] with that text; the text [one] parses
    to the two-node conversation of [GraphSample], [null] to a list that
    holds [null], and no other text parses. *)
Definition sampleUnzip (bytes : string) : option (list (string * string)) :=
  if String.eqb bytes "corrupt" then None
  else Some [("conversations.json", bytes)].

Definition sampleParse (json : string) : option (@Parsed string unit) :=
  if String.eqb json "one"
  then Some (ParsedArray [ObjectItem GraphSample.sampleGraph])
  else if String.eqb json "null" then Some (ParsedArray [NullItem])
  else None.

Definition sampleSearchData (_ : @Graph.Conversation unit)
    : list SearchLine * list string := ([], []).

Definition sampleImport :=
  importDatasets GraphSample.textParts GraphSample.noDetails id sampleSearchData
    sampleUnzip id sampleParse (fun _ => None) tt.


(** A list of conversations that holds [null] ends the import with a
    [TypeError]. *)
Example headless_batch_fails_on_null_conversation :
  sampleImport Upsert [] [] [ZipSource "null.zip" "null"]
  = Some (inl NullConversation).
Proof. vm_compute. reflexivity. Qed.






End IngestFacts.

(** ** Further facts about ingestion: asset lookup, the three modes, the
    dataset directory *)

Module IngestExtras.
Import Js AssetPath Dataset Ingest IngestFacts.

(** *** [findAssetEntry] *)

(** The keys of an archive [findAssetEntry] accepts for an asset key: the
    normalised key, the same without or with a leading [assets/], or any
    entry that ends with a slash and one of the first two. *)
Definition answersTo (assetKey key : string) : Prop :=
  let normalized := normalizePath assetKey in
  let trimmed := stripAssetsPrefix normalized in
  key = normalized \/ key = trimmed \/ key = "assets/" +:+ normalized \/
  endsWith (String slash normalized) key = true \/
  endsWith (String slash trimmed) key = true.

Lemma get_Some_In {V} (m : JsMap.t V) k v :
  JsMap.get m k = Some v -> In (k, v) m.
Proof.
  induction m as [|[k' v'] m IH]; simpl; [done|].
  destruct (String.eqb_spec k' k) as [->|Hne].
  - intros [= ->]. by left.
  - intros H. right. by apply IH.
Qed.

Lemma In_get_is_Some {V} (m : JsMap.t V) k v :
  In (k, v) m -> is_Some (JsMap.get m k).
Proof.
  intros Hin. destruct (JsMap.get m k) eqn:E; [eauto|].
  apply JsMapFacts.get_None_iff in E. exfalso. apply E.
  unfold JsMap.keys. apply in_map_iff. by exists (k, v).
Qed.

(** X1. [findAssetEntry] answers with the data of an entry whose key it
    accepts for the asset key, and answers [null] exactly when the archive
    has no such entry. *)
Theorem findAssetEntry_finds_accepted_entry {V} (entries : JsMap.t V)
    (assetKey : string) :
  match findAssetEntry entries assetKey with
  | Some data => exists key, In (key, data) entries /\ answersTo assetKey key
  | None => forall key data, In (key, data) entries -> ~ answersTo assetKey key
  end.
Proof.
  unfold findAssetEntry, answersTo.
  set (normalized := normalizePath assetKey).
  set (trimmed := stripAssetsPrefix normalized).
  destruct (JsMap.get entries normalized) as [direct|] eqn:Hdirect.
  { exists normalized. split; [by apply get_Some_In|by left]. }
  destruct (String.eqb_spec trimmed normalized) as [Heq|Hne].
  - destruct (JsMap.get entries ("assets/" +:+ normalized)) as [p|] eqn:Hp.
    { exists ("assets/" +:+ normalized). split; [by apply get_Some_In|auto]. }
    destruct (find _ entries) as [[key data]|] eqn:Hfind; simpl.
    + apply find_some in Hfind as [Hin Htest]. simpl in Htest.
      apply andb_prop in Htest as [_ Htest]. apply orb_prop in Htest.
      exists key. split; [done|]. tauto.
    + intros key data Hin Hans.
      pose proof (find_none _ _ Hfind (key, data) Hin) as Htest. simpl in Htest.
      destruct Hans as [->|[->|[->|Hends]]].
      * apply In_get_is_Some in Hin. rewrite Hdirect in Hin. by destruct Hin.
      * rewrite Heq in Hin. apply In_get_is_Some in Hin.
        rewrite Hdirect in Hin. by destruct Hin.
      * apply In_get_is_Some in Hin. rewrite Hp in Hin. by destruct Hin.
      * apply andb_false_iff in Htest as [Htest|Htest].
        -- apply negb_false_iff, orb_prop in Htest.
           destruct Htest as [Htest|Htest]; apply String.eqb_eq in Htest; subst key.
           ++ apply In_get_is_Some in Hin. rewrite Hdirect in Hin. by destruct Hin.
           ++ rewrite Heq in Hin. apply In_get_is_Some in Hin.
              rewrite Hdirect in Hin. by destruct Hin.
        -- apply orb_false_iff in Htest as [H1 H2]. destruct Hends; congruence.
  - destruct (JsMap.get entries trimmed) as [alt|] eqn:Halt.
    { exists trimmed. split; [by apply get_Some_In|auto]. }
    destruct (JsMap.get entries ("assets/" +:+ normalized)) as [p|] eqn:Hp.
    { exists ("assets/" +:+ normalized). split; [by apply get_Some_In|auto]. }
    destruct (find _ entries) as [[key data]|] eqn:Hfind; simpl.
    + apply find_some in Hfind as [Hin Htest]. simpl in Htest.
      apply andb_prop in Htest as [_ Htest]. apply orb_prop in Htest.
      exists key. split; [done|]. tauto.
    + intros key data Hin Hans.
      pose proof (find_none _ _ Hfind (key, data) Hin) as Htest. simpl in Htest.
      destruct Hans as [->|[->|[->|Hends]]].
      * apply In_get_is_Some in Hin. rewrite Hdirect in Hin. by destruct Hin.
      * apply In_get_is_Some in Hin. rewrite Halt in Hin. by destruct Hin.
      * apply In_get_is_Some in Hin. rewrite Hp in Hin. by destruct Hin.
      * apply andb_false_iff in Htest as [Htest|Htest].
        -- apply negb_false_iff, orb_prop in Htest.
           destruct Htest as [Htest|Htest]; apply String.eqb_eq in Htest; subst key.
           ++ apply In_get_is_Some in Hin. rewrite Hdirect in Hin. by destruct Hin.
           ++ apply In_get_is_Some in Hin. rewrite Halt in Hin. by destruct Hin.
        -- apply orb_false_iff in Htest as [H1 H2]. destruct Hends; congruence.
Qed.


(** *** The three modes of [importDatasets] *)

Lemma foldOption_ext {S A} (f g : S -> A -> option S) xs s :
  (forall s x, f s x = g s x) -> foldOption f xs s = foldOption g xs s.
Proof.
  intros H. revert s. induction xs as [|x xs IH]; intros s; simpl; [done|].
  rewrite H. destruct (g s x); [apply IH|done].
Qed.

(** What [merged.get(id)] gives after the merge step, for an id that was
    there: the payload it held, or a strictly newer one. *)
Definition keptOrNewer {Details} (kept stored : @Payload Details) : Prop :=
  kept = stored \/ Merge.strictlyNewer (rank kept) (rank stored).

Lemma keptOrNewer_trans {Details} (a b c : @Payload Details) :
  keptOrNewer a b -> keptOrNewer b c -> keptOrNewer a c.
Proof.
  unfold keptOrNewer. intros [->|H1] [->|H2]; auto.
  right. by eapply MergeFacts.strictlyNewer_trans.
Qed.

Lemma mergeInto_keptOrNewer {Details} (m : JsMap.t (@Payload Details)) id p k q :
  JsMap.get m k = Some q ->
  exists q', JsMap.get (Merge.mergeInto rank m id p) k = Some q' /\ keptOrNewer q' q.
Proof.
  intros Hq. unfold Merge.mergeInto.
  destruct (String.eqb_spec id k) as [->|Hne].
  - rewrite Hq. destruct (Merge.shouldReplace (rank q) (rank p)) eqn:Hs.
    + exists p. split; [apply JsMapFacts.get_set_eq|].
      right. by apply MergeFacts.shouldReplace_spec.
    + exists q. split; [done|by left].
  - exists q. split; [|by left].
    destruct (JsMap.get m id) as [e|]; [destruct (Merge.shouldReplace _ _)|];
      by rewrite ?JsMapFacts.get_set_ne.
Qed.

Lemma get_app_l {V} (m m' : JsMap.t V) k v :
  JsMap.get m k = Some v -> JsMap.get (m ++ m') k = Some v.
Proof.
  induction m as [|[k0 v0] m IH]; simpl; [done|].
  by destruct (String.eqb k0 k).
Qed.

Section WithRuntime.
Context {Content Metadata Details AssetsIndex Bytes : Type}.
Variable convertParts :
  option Content -> AssetsIndex -> list Graph.Block * list (string * string).
Variable buildDetails : @Graph.RawMessage Content Metadata -> option Details.
Variable buildSnippet : string -> string.
Variable buildSearchData :
  @Graph.Conversation Details -> list SearchLine * list string.
Variable unzipSync : Bytes -> option (list (string * Bytes)).
Variable strFromU8 : Bytes -> string.
Variable parseConversations : string -> option (@Parsed Content Metadata).
Variable parseAssets : string -> option AssetsIndex.
Variable emptyAssets : AssetsIndex.

Implicit Types (archive : @ArchiveData Content Metadata AssetsIndex Bytes).
Implicit Types (state final : @ServerState Details Bytes).
Implicit Types (raw : @Graph.RawConversation Content Metadata).
Implicit Types (existing : list (@Payload Details)).

#[local] Abbreviation convertForImport :=
  (convertForImport convertParts buildDetails buildSnippet).
#[local] Abbreviation serverConvert :=
  (serverConvert convertParts buildDetails buildSnippet buildSearchData).
#[local] Abbreviation loadSource :=
  (loadSource unzipSync strFromU8 parseConversations parseAssets emptyAssets).
#[local] Abbreviation importSources :=
  (importSources convertParts buildDetails buildSnippet buildSearchData
     unzipSync strFromU8 parseConversations parseAssets emptyAssets).
#[local] Abbreviation importDatasets :=
  (importDatasets convertParts buildDetails buildSnippet buildSearchData
     unzipSync strFromU8 parseConversations parseAssets emptyAssets).
#[local] Abbreviation acceptedId :=
  (acceptedId convertParts buildDetails buildSnippet).
#[local] Abbreviation acceptedIds :=
  (@acceptedIds _ _ Details _ Bytes convertParts buildDetails buildSnippet).
#[local] Abbreviation sourceIds :=
  (@sourceIds _ _ Details _ _ convertParts buildDetails buildSnippet unzipSync
     strFromU8 parseConversations parseAssets emptyAssets).

(** The loop over the sources, seen from its end: the state after the
    archives, when all of them load. *)
Lemma importSources_inr mode sources state final
    (Q : @ServerState Details Bytes -> @ServerState Details Bytes -> Prop) :
  (forall s, Q s s) ->
  (forall a b c, Q a b -> Q b c -> Q a c) ->
  (forall s warnings, Q s (logged s warnings)) ->
  (forall archive s raw s',
      serverConvert mode archive s raw = Some s' -> Q s s') ->
  importSources mode sources state = Some (inr final) ->
  Q state final.
Proof.
  intros Hrefl Htrans Hlog Hstep. revert state.
  induction sources as [|source sources IH]; intros state.
  - simpl. by intros [= ->].
  - rewrite importSources_cons.
    destruct (loadSource source) as [e|archive]; [done|].
    assert (forall raws s s',
              foldOption (serverConvert mode archive) raws s = Some s' -> Q s s')
      as Hfold.
    { induction raws as [|raw raws IHr]; intros s s'; simpl.
      - by intros [= ->].
      - destruct (serverConvert mode archive s raw) as [s1|] eqn:E; [|done].
        intros H. eapply Htrans; [by eapply Hstep|by apply IHr]. }
    destruct (foldOption _ _ _) as [s1|] eqn:E; [|done].
    destruct (ad_ending archive); [done|].
    intros H. eapply Htrans; [apply Hlog|].
    eapply Htrans; [by eapply Hfold|by apply IH].
Qed.

(** A batch that is imported is imported part by part. *)
Lemma importSources_app mode before after state final :
  importSources mode (before ++ after) state = Some (inr final) ->
  exists middle,
    importSources mode before state = Some (inr middle) /\
    importSources mode after middle = Some (inr final).
Proof.
  revert state. induction before as [|source before IH]; intros state.
  - simpl. eauto.
  - rewrite <- app_comm_cons, !importSources_cons.
    destruct (loadSource source) as [e|archive]; [done|].
    destruct (foldOption _ _ _) as [s1|]; [|done].
    destruct (ad_ending archive); [done|]. apply IH.
Qed.

(** One conversation in the mode clone: the payloads already there stay as
    they are, in their places, and the accepted conversation is added at the
    end. *)
Lemma serverConvert_clone archive state raw state' :
  serverConvert CloneMode archive state raw = Some state' ->
  exists added,
    ss_merged state' = ss_merged state ++ added /\
    length added
    = length (option_list (acceptedId raw (ad_assetsJson archive))).
Proof.
  unfold Ingest.serverConvert, IngestFacts.acceptedId.
  destruct (convertForImport raw (ad_assetsJson archive)) as [[c|w]|].
  - set (payload := makePayload buildSearchData "server" (Some false) c (ss_order state)).
    destruct (JsMap.has (ss_merged state) (payloadId payload)) eqn:Hhas.
    + apply JsMapFacts.has_true_iff in Hhas.
      destruct (Clone.cloneInto (ss_merged state, ss_tracker state) payload)
        as [next|] eqn:Hclone; [|done].
      destruct (CloneFacts.cloneInto_taken (ss_merged state) (ss_tracker state)
                  payload next Hhas Hclone) as (n & -> & _).
      intros [= <-]. simpl. eauto.
    + apply JsMapFacts.has_false_iff in Hhas.
      rewrite CloneFacts.cloneInto_free by done.
      intros [= <-]. simpl. eauto.
  - intros [= <-]. exists []. by rewrite app_nil_r.
  - intros [= <-]. exists []. by rewrite app_nil_r.
Qed.

Lemma foldOption_clone archive raws state state' :
  foldOption (serverConvert CloneMode archive) raws state = Some state' ->
  exists added,
    ss_merged state' = ss_merged state ++ added /\
    length added
    = length (omap (fun raw => acceptedId raw (ad_assetsJson archive)) raws).
Proof.
  revert state. induction raws as [|raw raws IH]; intros state; simpl.
  - intros [= <-]. exists []. by rewrite app_nil_r.
  - destruct (serverConvert CloneMode archive state raw) as [s1|] eqn:E; [|done].
    intros H. apply serverConvert_clone in E as (a1 & Ha1 & Hl1).
    apply IH in H as (a2 & Ha2 & Hl2).
    exists (a1 ++ a2). split; [by rewrite Ha2, Ha1, app_assoc|].
    rewrite length_app, Hl1, Hl2.
    by destruct (acceptedId raw (ad_assetsJson archive)).
Qed.

Lemma importSources_clone sources state final :
  importSources CloneMode sources state = Some (inr final) ->
  exists added,
    ss_merged final = ss_merged state ++ added /\
    length added = length (sourceIds sources).
Proof.
  revert state. induction sources as [|source sources IH]; intros state.
  - simpl. intros [= <-]. exists []. by rewrite app_nil_r.
  - rewrite importSources_cons, sourceIds_cons.
    destruct (loadSource source) as [e|archive]; [done|].
    destruct (foldOption _ _ _) as [s1|] eqn:E; [|done].
    destruct (ad_ending archive); [done|].
    intros H. apply foldOption_clone in E as (a1 & Ha1 & Hl1).
    apply IH in H as (a2 & Ha2 & Hl2).
    exists (a1 ++ a2). split; [by rewrite Ha2, Ha1, app_assoc|].
    by rewrite !length_app, Hl1, Hl2.
Qed.

(** X2. A successful import in the mode clone only appends: the payloads it
    started with are all there at the end, unchanged and in their places,
    followed by one payload
    for each conversation of the batch that converts to a conversation with
    a safe id: the count grows by the number of conversations imported. *)
Theorem clone_import_only_appends existing (assets : JsMap.t Bytes)
    (sources : list (@Source Bytes)) final :
  importDatasets CloneMode existing assets sources = Some (inr final) ->
  exists added,
    ss_merged final
    = ss_merged (initialState CloneMode existing assets) ++ added /\
    length added = length (sourceIds sources) /\
    JsMap.size (ss_merged final)
    = (JsMap.size (ss_merged (initialState CloneMode existing assets))
       + length (sourceIds sources))%nat.
Proof.
  unfold Ingest.importDatasets. destruct sources as [|source sources]; [done|].
  intros H. apply importSources_clone in H as (added & Hm & Hl).
  exists added. split; [done|]. split; [done|].
  unfold JsMap.size. by rewrite Hm, length_app, Hl.
Qed.

(** From any state on, the modes upsert and replace keep every id, with the
    payload it has or a strictly newer one. *)
Lemma importSources_keeps mode sources state final id stored :
  mode <> CloneMode ->
  importSources mode sources state = Some (inr final) ->
  JsMap.get (ss_merged state) id = Some stored ->
  exists kept,
    JsMap.get (ss_merged final) id = Some kept /\ keptOrNewer kept stored.
Proof.
  intros Hmode Hrun. revert id stored.
  apply (importSources_inr mode sources _ final
           (fun s s' =>
              forall id stored,
                JsMap.get (ss_merged s) id = Some stored ->
                exists kept, JsMap.get (ss_merged s') id = Some kept /\
                             keptOrNewer kept stored)); [| | | |done].
  - intros s k q Hq. exists q. split; [done|by left].
  - intros a b c Hab Hbc k q Hq.
    destruct (Hab k q Hq) as (q1 & Hq1 & H1).
    destruct (Hbc k q1 Hq1) as (q2 & Hq2 & H2).
    exists q2. split; [done|]. by eapply keptOrNewer_trans.
  - intros s warnings k q Hq. exists q. split; [done|by left].
  - intros archive s raw s' Hstep k q Hq.
    unfold Ingest.serverConvert in Hstep.
    destruct (convertForImport raw (ad_assetsJson archive)) as [[c|w]|].
    + destruct mode; [| |done]; injection Hstep as <-; simpl;
        by apply mergeInto_keptOrNewer.
    + injection Hstep as <-. exists q. split; [done|by left].
    + injection Hstep as <-. exists q. split; [done|by left].
Qed.

(** X3. In the modes upsert and replace a successful import never loses a
    conversation and never puts an older one in its place.  An id the run
    started with is still there at the end, with the payload it had or with
    one that is strictly newer in the order of [shouldReplace]; and so is
    every id that is there once a first part of the batch is imported. *)
Theorem import_never_downgrades mode existing (assets : JsMap.t Bytes)
    (before after : list (@Source Bytes)) final id :
  mode <> CloneMode ->
  importDatasets mode existing assets (before ++ after) = Some (inr final) ->
  (forall stored,
     JsMap.get (ss_merged (initialState mode existing assets)) id = Some stored ->
     exists kept,
       JsMap.get (ss_merged final) id = Some kept /\
       (kept = stored \/ Merge.strictlyNewer (rank kept) (rank stored))) /\
  (before <> [] ->
   exists middle,
     importDatasets mode existing assets before = Some (inr middle) /\
     forall stored,
       JsMap.get (ss_merged middle) id = Some stored ->
       exists kept,
         JsMap.get (ss_merged final) id = Some kept /\
         (kept = stored \/ Merge.strictlyNewer (rank kept) (rank stored))).
Proof.
  intros Hmode. unfold Ingest.importDatasets.
  destruct (before ++ after) as [|source sources] eqn:Hbatch; [done|].
  rewrite <- Hbatch. intros Hrun. split.
  - intros stored. by apply (importSources_keeps mode (before ++ after)).
  - intros Hne. destruct before as [|b before]; [done|].
    apply importSources_app in Hrun as (middle & Hfirst & Hrest).
    exists middle. split; [done|].
    intros stored. by apply (importSources_keeps mode after).
Qed.

Lemma importSources_replace sources state :
  importSources Replace sources state = importSources Upsert sources state.
Proof.
  revert state. induction sources as [|source sources IH]; intros state; [done|].
  rewrite !importSources_cons. destruct (loadSource source) as [e|archive]; [done|].
  rewrite (foldOption_ext (serverConvert Replace archive)
             (serverConvert Upsert archive)) by done.
  destruct (foldOption _ _ _); [|done].
  destruct (ad_ending archive); [done|apply IH].
Qed.

(** X4. The mode replace does not look at the dataset that is there: a
    successful run ends in the state an import into an empty directory ends
    in, and the dataset then holds the ids of the batch, each once, in the
    order they first come. *)
Theorem replace_discards_existing existing (assets : JsMap.t Bytes)
    (sources : list (@Source Bytes)) final :
  importDatasets Replace existing assets sources = Some (inr final) ->
  importDatasets Replace [] [] sources = Some (inr final) /\
  JsMap.keys (ss_merged final) = fold_left addToSet (sourceIds sources) [] /\
  NoDup (JsMap.keys (ss_merged final)).
Proof.
  intros H. split; [exact H|]. revert H. unfold Ingest.importDatasets.
  destruct sources as [|source sources]; [done|].
  rewrite importSources_replace. intros H.
  pose proof (importSources_upsert convertParts buildDetails buildSnippet
                buildSearchData unzipSync strFromU8 parseConversations
                parseAssets emptyAssets (source :: sources)
                (initialState Replace existing assets)) as Hup.
  rewrite H in Hup. destruct Hup as (_ & Hkeys & Hsound).
  split; [exact Hkeys|]. by apply Hsound, sound_nil.
Qed.

(** *** Assets *)





End WithRuntime.

(** *** The sample runtime of [IngestFacts], once more *)

Definition goodZip : @Source string := ZipSource "good.zip" "one".

Lemma clone_import_only_appends_witness :
  exists final,
    sampleImport CloneMode [] [] [goodZip; goodZip] = Some (inr final) /\
    JsMap.size (ss_merged final) = 2%nat.
Proof.
  destruct (sampleImport CloneMode [] [] [goodZip; goodZip])
    as [[error|final]|] eqn:Hrun.
  - vm_compute in Hrun. discriminate Hrun.
  - destruct (clone_import_only_appends
                GraphSample.textParts GraphSample.noDetails id sampleSearchData
                sampleUnzip id sampleParse (fun _ => None) tt
                [] [] [goodZip; goodZip] final Hrun)
      as (added & _ & _ & Hsize).
    exists final. split; [reflexivity|exact Hsize].
  - vm_compute in Hrun. discriminate Hrun.
Defined.




Lemma import_never_downgrades_witness :
  exists final middle kept,
    sampleImport Replace [CloneFacts.samplePayload "old"] []
      ([goodZip] ++ [goodZip])
    = Some (inr final) /\
    sampleImport Replace [CloneFacts.samplePayload "old"] [] [goodZip]
    = Some (inr middle) /\
    is_Some (JsMap.get (ss_merged middle) "c1") /\
    JsMap.get (ss_merged final) "c1" = Some kept.
Proof.
  destruct (sampleImport Replace [CloneFacts.samplePayload "old"] []
              ([goodZip] ++ [goodZip]))
    as [[error|final]|] eqn:Hrun.
  - vm_compute in Hrun. discriminate Hrun.
  - destruct (import_never_downgrades
                GraphSample.textParts GraphSample.noDetails id sampleSearchData
                sampleUnzip id sampleParse (fun _ => None) tt
                Replace [CloneFacts.samplePayload "old"] [] [goodZip] [goodZip]
                final "c1")
      as [_ Hmiddle].
    + discriminate.
    + exact Hrun.
    + destruct Hmiddle as (middle & Hfirst & Hkept); [discriminate|].
      assert (is_Some (JsMap.get (ss_merged middle) "c1")) as [stored Hstored].
      { vm_compute in Hfirst. injection Hfirst as <-. vm_compute. eauto. }
      destruct (Hkept stored Hstored) as (kept & Hget & _).
      exists final, middle, kept.
      split; [reflexivity|]. split; [exact Hfirst|].
      split; [rewrite Hstored; eauto|exact Hget].
  - vm_compute in Hrun. discriminate Hrun.
Defined.

Lemma replace_discards_existing_witness :
  exists final,
    sampleImport Replace [CloneFacts.samplePayload "old"] [] [goodZip]
    = Some (inr final) /\
    sampleImport Replace [] [] [goodZip] = Some (inr final) /\
    JsMap.keys (ss_merged final) = ["c1"].
Proof.
  destruct (sampleImport Replace [CloneFacts.samplePayload "old"] [] [goodZip])
    as [[error|final]|] eqn:Hrun.
  - vm_compute in Hrun. discriminate Hrun.
  - destruct (replace_discards_existing
                GraphSample.textParts GraphSample.noDetails id sampleSearchData
                sampleUnzip id sampleParse (fun _ => None) tt
                [CloneFacts.samplePayload "old"] [] [goodZip] final Hrun)
      as (Hempty & Hkeys & _).
    exists final. split; [reflexivity|]. split; [exact Hempty|exact Hkeys].
  - vm_compute in Hrun. discriminate Hrun.
Defined.



(** *** The dataset directory: what is written is what is read *)

(** [x] is listed under [k] in a map of lists. *)
Definition listed (m : JsMap.t (list string)) (k x : string) : Prop :=
  In x (match JsMap.get m k with Some l => l | None => [] end).

(** The step both [buildSearchBundle] and [buildGramMembership] repeat:
    [if (!m.has(k)) m.set(k, new Set()); m.get(k).add(x)]. *)
Definition listUnder (m : JsMap.t (list string)) (k x : string)
    : JsMap.t (list string) :=
  JsMap.set m k
    (addToSet (match JsMap.get m k with Some l => l | None => [] end) x).

Lemma listed_listUnder m k x k' x' :
  listed (listUnder m k x) k' x' <-> listed m k' x' \/ (k' = k /\ x' = x).
Proof.
  unfold listed, listUnder. destruct (String.eqb_spec k k') as [->|Hne].
  - rewrite JsMapFacts.get_set_eq, addToSet_In. split; [|intros [?|[_ ?]]]; auto.
    intros [?|?]; auto.
  - rewrite JsMapFacts.get_set_ne by done. split; [auto|].
    intros [?|[? _]]; [done|]. by subst.
Qed.

Lemma keys_listUnder_NoDup m k x :
  NoDup (JsMap.keys m) -> NoDup (JsMap.keys (listUnder m k x)).
Proof.
  intros H. unfold listUnder. rewrite keys_set_addToSet. by apply addToSet_NoDup.
Qed.

Lemma listed_fold_keys m ks x k' x' :
  listed (fold_left (fun m k => listUnder m k x) ks m) k' x'
  <-> listed m k' x' \/ (In k' ks /\ x' = x).
Proof.
  revert m. induction ks as [|k ks IH]; intros m; simpl.
  - split; [auto|]. by intros [?|[[] _]].
  - rewrite IH, listed_listUnder. split.
    + intros [[?|[-> ->]]|[? ->]]; auto.
    + intros [?|[[->|?] ->]]; auto.
Qed.

Lemma listed_fold_values m k xs k' x' :
  listed (fold_left (fun m x => listUnder m k x) xs m) k' x'
  <-> listed m k' x' \/ (k' = k /\ In x' xs).
Proof.
  revert m. induction xs as [|x xs IH]; intros m; simpl.
  - split; [auto|]. by intros [?|[_ []]].
  - rewrite IH, listed_listUnder. split.
    + intros [[?|[-> ->]]|[-> ?]]; auto.
    + intros [?|[-> [->|?]]]; auto.
Qed.

Lemma NoDup_fold_keys m ks x :
  NoDup (JsMap.keys m) ->
  NoDup (JsMap.keys (fold_left (fun m k => listUnder m k x) ks m)).
Proof.
  revert m. induction ks as [|k ks IH]; intros m H; simpl; [done|].
  by apply IH, keys_listUnder_NoDup.
Qed.

Lemma In_get_NoDup {V} (m : JsMap.t V) k v :
  NoDup (JsMap.keys m) -> In (k, v) m -> JsMap.get m k = Some v.
Proof.
  induction m as [|[k0 v0] m IH]; simpl; [done|].
  intros Hnd [[= -> ->]|Hin].
  - by rewrite String.eqb_refl.
  - apply NoDup_cons in Hnd as [Hnin Hnd].
    destruct (String.eqb_spec k0 k) as [->|Hne]; [|by apply IH].
    exfalso. apply Hnin, list_elem_of_In. unfold JsMap.keys.
    apply in_map_iff. by exists (k, v).
Qed.

Section WithDetails.
Context {Details : Type}.
Implicit Types (payload : @Payload Details).
Implicit Types (payloads : list (@Payload Details)).
Implicit Types (merged : JsMap.t (@Payload Details)).

Lemma gramIndexOf_fold payloads (index : JsMap.t (list string)) gram id :
  let index' :=
    fold_left
      (fun index payload =>
         fold_left (fun index gram => listUnder index gram (payloadId payload))
           (p_grams payload) index)
      payloads index in
  (listed index' gram id
   <-> listed index gram id \/
       exists payload, In payload payloads /\ payloadId payload = id /\
                       In gram (p_grams payload)) /\
  (NoDup (JsMap.keys index) -> NoDup (JsMap.keys index')).
Proof.
  revert index. induction payloads as [|p payloads IH]; intros index; simpl.
  - split; [|done]. split; [auto|]. by intros [?|(? & [] & _)].
  - destruct (IH (fold_left (fun index gram => listUnder index gram (payloadId p))
                    (p_grams p) index)) as [Hl Hn].
    split.
    + rewrite Hl, listed_fold_keys. split.
      * intros [[?|[? ->]]|(q & ? & ? & ?)]; eauto 7.
      * intros [?|(q & [<-|?] & <- & ?)]; eauto 7.
    + intros Hnd. by apply Hn, NoDup_fold_keys.
Qed.

Lemma gramIndexOf_listed payloads gram id :
  (listed (gramIndexOf payloads) gram id
   <-> exists payload, In payload payloads /\ payloadId payload = id /\
                       In gram (p_grams payload)) /\
  NoDup (JsMap.keys (gramIndexOf payloads)).
Proof.
  destruct (gramIndexOf_fold payloads [] gram id) as [Hl Hn].
  split; [|apply Hn; constructor].
  etransitivity; [exact Hl|]. unfold listed. simpl. tauto.
Qed.

Lemma gramMembership_fold (entries : JsMap.t (list string))
    (membership : JsMap.t (list string)) id gram :
  listed
    (fold_left
       (fun membership (entry : string * list string) =>
          fold_left (fun membership id => listUnder membership id (fst entry))
            (snd entry) membership)
       entries membership) id gram
  <-> listed membership id gram \/
      exists ids, In (gram, ids) entries /\ In id ids.
Proof.
  revert membership. induction entries as [|[g ids] entries IH];
    intros membership; simpl.
  - split; [auto|]. by intros [?|(? & [] & _)].
  - rewrite IH, listed_fold_keys. split.
    + intros [[?|[? ->]]|(ids' & ? & ?)]; eauto 6.
    + intros [?|(ids' & [[= <- <-]|?] & ?)]; eauto 6.
Qed.

Lemma membership_of_index payloads id gram :
  listed (gramMembership (gramIndexOf payloads)) id gram
  <-> exists payload, In payload payloads /\ payloadId payload = id /\
                      In gram (p_grams payload).
Proof.
  destruct (gramIndexOf_listed payloads gram id) as [Hl Hn].
  etransitivity; [exact (gramMembership_fold (gramIndexOf payloads) [] id gram)|].
  rewrite <- Hl. unfold listed. simpl. split.
  - intros [[]|(ids & Hin & Hid)]. by rewrite (In_get_NoDup _ _ _ Hn Hin).
  - intros Hin. right.
    destruct (JsMap.get (gramIndexOf payloads) gram) as [ids|] eqn:E; [|done].
    exists ids. split; [by apply get_Some_In|done].
Qed.

(** An object literal filled by assignment under pairwise distinct keys
    lists them in order, [__proto__] left out. *)
Lemma fold_assign_distinct {A V} (key : A -> string) (val : A -> V) xs
    (m : JsMap.t V) :
  NoDup (JsMap.keys m ++ map key xs) ->
  fold_left (fun m x => JsObject.assign m (key x) (val x)) xs m
  = m ++ map (fun x => (key x, val x))
         (List.filter (fun x => negb (String.eqb (key x) JsObject.protoName)) xs).
Proof.
  revert m. induction xs as [|x xs IH]; intros m Hnd; simpl.
  - by rewrite app_nil_r.
  - assert (~ In (key x) (JsMap.keys m)) as Hnin.
    { simpl in Hnd. apply NoDup_app in Hnd as (_ & Hdisj & _).
      intros Hin. apply (Hdisj (key x)); [by apply list_elem_of_In|left]. }
    unfold JsObject.assign at 2.
    destruct (String.eqb (key x) JsObject.protoName) eqn:E; simpl.
    + apply IH. simpl in Hnd. apply NoDup_app in Hnd as (Hm & Hdisj & Hxs).
      apply NoDup_app. split; [done|]. split.
      * intros k Hk Hk'. apply (Hdisj k Hk). by right.
      * by apply NoDup_cons in Hxs as [_ ?].
    + rewrite JsMapFacts.set_absent by done.
      rewrite IH.
      * by rewrite <- app_assoc.
      * unfold JsMap.keys in *. rewrite map_app. simpl.
        by rewrite <- app_assoc.
Qed.

Lemma gramsObject_entries (index : JsMap.t (list string)) gram ids :
  NoDup (JsMap.keys index) ->
  In (gram, ids) (gramsObject index)
  <-> In (gram, ids) index /\ gram <> JsObject.protoName.
Proof.
  intros Hnd. unfold gramsObject.
  rewrite (fold_assign_distinct fst snd index []) by (by rewrite app_nil_l).
  rewrite app_nil_l, in_map_iff. split.
  - intros ([g i] & [= -> ->] & Hin). apply List.filter_In in Hin as [Hin Hne].
    split; [done|]. simpl in Hne. apply negb_true_iff in Hne.
    by apply String.eqb_neq.
  - intros [Hin Hne]. exists (gram, ids). split; [done|].
    apply List.filter_In. split; [done|]. simpl.
    apply negb_true_iff. by apply String.eqb_neq.
Qed.

Lemma membership_of_written payloads id gram :
  listed (gramMembership (gramsObject (gramIndexOf payloads))) id gram
  <-> (exists payload, In payload payloads /\ payloadId payload = id /\
                       In gram (p_grams payload)) /\
      gram <> JsObject.protoName.
Proof.
  destruct (gramIndexOf_listed payloads gram id) as [Hl Hn].
  etransitivity;
    [exact (gramMembership_fold (gramsObject (gramIndexOf payloads)) [] id gram)|].
  rewrite <- Hl. unfold listed. simpl. split.
  - intros [[]|(ids & Hin & Hid)].
    apply gramsObject_entries in Hin as [Hin Hne]; [|done].
    split; [|done]. by rewrite (In_get_NoDup _ _ _ Hn Hin).
  - intros [Hin Hne]. right.
    destruct (JsMap.get (gramIndexOf payloads) gram) as [ids|] eqn:E; [|done].
    exists ids. split; [|done].
    apply gramsObject_entries; [done|]. split; [by apply get_Some_In|done].
Qed.

(** X6. The grams of a conversation survive the search index:
    [buildGramMembership] applied to the gram index of [buildSearchBundle]
    lists a gram under a conversation id exactly when a payload with that
    id carries the gram; applied to the [grams] object that is written, it
    does so for every gram but one named [__proto__], which the object
    does not keep. *)
Theorem gram_membership_inverts_gram_index payloads id gram :
  (listed (gramMembership (gramIndexOf payloads)) id gram
   <-> exists payload, In payload payloads /\ payloadId payload = id /\
                       In gram (p_grams payload)) /\
  (listed (gramMembership (gramsObject (gramIndexOf payloads))) id gram
   <-> (exists payload, In payload payloads /\ payloadId payload = id /\
                        In gram (p_grams payload)) /\
       gram <> JsObject.protoName).
Proof.
  split; [apply membership_of_index|apply membership_of_written].
Qed.

(** A map filled with values under pairwise distinct keys lists them in
    order. *)
Lemma fold_set_distinct {A V} (key : A -> string) (val : A -> V) xs
    (m : JsMap.t V) :
  NoDup (JsMap.keys m ++ map key xs) ->
  fold_left (fun m x => JsMap.set m (key x) (val x)) xs m
  = m ++ map (fun x => (key x, val x)) xs.
Proof.
  revert m. induction xs as [|x xs IH]; intros m Hnd; simpl.
  - by rewrite app_nil_r.
  - assert (~ In (key x) (JsMap.keys m)) as Hnin.
    { simpl in Hnd. apply NoDup_app in Hnd as (_ & Hdisj & _).
      intros Hin. apply (Hdisj (key x)); [by apply list_elem_of_In|left]. }
    rewrite JsMapFacts.set_absent by done.
    rewrite IH.
    + by rewrite <- app_assoc.
    + unfold JsMap.keys in *. rewrite map_app. simpl.
      by rewrite <- app_assoc.
Qed.

Lemma get_map_distinct {A V} (key : A -> string) (val : A -> V) xs x :
  NoDup (map key xs) -> In x xs ->
  JsMap.get (map (fun x => (key x, val x)) xs) (key x) = Some (val x).
Proof.
  intros Hnd Hin. apply In_get_NoDup.
  - unfold JsMap.keys. by rewrite map_map.
  - apply in_map_iff. by exists x.
Qed.

Lemma get_map_absent {A V} (key : A -> string) (val : A -> V) xs k :
  ~ In k (map key xs) ->
  JsMap.get (map (fun x => (key x, val x)) xs) k = None.
Proof.
  intros Hnin. apply JsMapFacts.get_None_iff.
  unfold JsMap.keys. by rewrite map_map.
Qed.

Lemma sound_values merged :
  sound merged ->
  NoDup (map payloadId (JsMap.values merged)) /\
  Forall wellFormedPayload (JsMap.values merged).
Proof.
  intros Hs. split.
  - rewrite (sound_ids merged Hs). by destruct Hs.
  - destruct Hs as [Hall _]. unfold JsMap.values. apply Forall_forall.
    intros p Hp. apply list_elem_of_In, in_map_iff in Hp as ([k q] & <- & Hin).
    rewrite Forall_forall in Hall.
    by destruct (Hall (k, q) (proj2 (list_elem_of_In _ _) Hin)) as (_ & ?).
Qed.

(** A loop that stops at a failing turn fails when it has such a turn. *)
Lemma foldOption_fails {S A} (step : S -> A -> option S) before x after s :
  (forall s', step s' x = None) ->
  foldOption step (before ++ x :: after) s = None.
Proof.
  intros Hx. revert s. induction before as [|y before IH]; intros s; simpl.
  - by rewrite Hx.
  - destruct (step s y); [apply IH|done].
Qed.

(** What [loadExistingDataset] makes of a payload that was written: the
    same summary, conversation and search lines; its grams but one named
    [__proto__]; the node count of the summary; the ingestion order 0. *)
Definition reloaded (loaded original : @Payload Details) : Prop :=
  p_summary loaded = p_summary original /\
  p_conversation loaded = p_conversation original /\
  p_searchLines loaded = p_searchLines original /\
  (forall gram,
     In gram (p_grams loaded)
     <-> In gram (p_grams original) /\ gram <> JsObject.protoName) /\
  p_mappingNodeCount loaded
  = Some (Merge.orZero (Merge.cs_mapping_node_count (p_summary original))) /\
  p_importOrder loaded = 0.

(** X7. What [writeDataset] wrote is read back whole, but for the name
    [__proto__].  For payloads under pairwise distinct, safe ids (each the
    id of its summary), none of them [__proto__], [loadExistingDataset]
    returns one payload for each payload written, in the same order, with
    the same summary, conversation and search lines, and the same grams as
    a set, a gram named [__proto__] left out; the ingestion order is reset
    to 0.  When one of the ids is [__proto__], its search lines are not
    written and what is read in their place is no list of lines. *)
Theorem dataset_survives_write_and_load merged :
  sound merged ->
  (~ In JsObject.protoName (JsMap.keys merged) ->
   exists loaded,
     loadExistingDataset (writeDataset merged) = Some loaded /\
     Forall2 reloaded loaded (JsMap.values merged)) /\
  (In JsObject.protoName (JsMap.keys merged) ->
   JsMap.get (d_lines (writeDataset merged)) JsObject.protoName = None /\
   loadExistingDataset (writeDataset merged) = None).
Proof.
  intros Hs. destruct (sound_values merged Hs) as [Hnd Hwf].
  pose proof (sound_ids merged Hs) as Hkeys.
  set (payloads := JsMap.values merged) in *.
  assert (map (fun p => Merge.cs_id (p_summary p)) payloads
          = map payloadId payloads) as Hids.
  { apply map_ext_in. intros p Hp. rewrite Forall_forall in Hwf.
    by destruct (Hwf p (proj2 (list_elem_of_In _ _) Hp)). }
  unfold loadExistingDataset.
  set (disk := writeDataset merged).
  assert (d_conversations disk
          = map (fun p => (payloadId p, p_conversation p)) payloads) as Hconv.
  { transitivity
      (fold_left (fun m p => JsMap.set m (payloadId p) (p_conversation p))
         payloads []).
    - subst disk. unfold writeDataset. simpl. fold payloads.
      generalize (@nil (string * @Graph.Conversation Details)).
      clear Hnd Hids Hkeys. induction Hwf as [|p ps [_ Hsafe] _ IH];
        intros files; simpl.
      + done.
      + rewrite Hsafe. apply IH.
    - by rewrite fold_set_distinct by (by rewrite app_nil_l). }
  assert (d_lines disk
          = map (fun p => (payloadId p, p_searchLines p))
              (List.filter
                 (fun p => negb (String.eqb (payloadId p) JsObject.protoName))
                 payloads)) as Hlines.
  { subst disk. unfold writeDataset. simpl. fold payloads.
    by rewrite (fold_assign_distinct payloadId p_searchLines payloads [])
      by (by rewrite app_nil_l). }
  assert (d_summaries disk = map p_summary payloads) as Hsum by done.
  assert (d_grams disk = gramsObject (gramIndexOf payloads)) as Hgrams by done.
  clearbody disk. rewrite Hsum, Hgrams.
  set (membership := gramMembership (gramsObject (gramIndexOf payloads))).
  split.
  - intros Hproto. rewrite <- Hkeys in Hproto.
    assert (List.filter
              (fun p => negb (String.eqb (payloadId p) JsObject.protoName))
              payloads = payloads) as Hall.
    { clear -Hproto. induction payloads as [|p ps IH]; simpl; [done|].
      destruct (String.eqb_spec (payloadId p) JsObject.protoName) as [Heq|Hne];
        simpl.
      - exfalso. apply Hproto. left. done.
      - f_equal. apply IH. intros Hin. apply Hproto. by right. }
    rewrite Hall in Hlines.
    set (build := fun p : @Payload Details =>
           loadedPayload membership (p_summary p) (p_conversation p)
             (p_searchLines p)).
    assert (forall (walked todo : list (@Payload Details)) acc,
              payloads = walked ++ todo ->
              acc = map (fun p => (payloadId p, build p)) walked ->
              foldOption (loadSummary disk membership) (map p_summary todo) acc
              = Some (map (fun p => (payloadId p, build p)) payloads)) as Hfold.
    { intros walked todo. revert walked.
      induction todo as [|p todo IH]; intros walked acc Hsplit ->; simpl.
      - by rewrite Hsplit, app_nil_r.
      - assert (In p payloads) as Hp
          by (rewrite Hsplit; apply in_app_iff; right; by left).
        assert (Merge.cs_id (p_summary p) = payloadId p) as Hid.
        { rewrite Forall_forall in Hwf.
          by destruct (Hwf p (proj2 (list_elem_of_In _ _) Hp)). }
        unfold loadSummary at 1. unfold JsObject.read. rewrite Hid.
        replace (JsMap.get (d_conversations disk) (payloadId p))
          with (Some (p_conversation p))
          by (by rewrite Hconv,
                (get_map_distinct payloadId p_conversation payloads p Hnd Hp)).
        replace (JsMap.get (d_lines disk) (payloadId p))
          with (Some (p_searchLines p))
          by (by rewrite Hlines,
                (get_map_distinct payloadId p_searchLines payloads p Hnd Hp)).
        apply (IH (walked ++ [p])).
        + by rewrite <- app_assoc.
        + rewrite JsMapFacts.set_absent.
          * by rewrite map_app.
          * unfold JsMap.keys. rewrite map_map. simpl.
            rewrite Hsplit, map_app in Hnd. simpl in Hnd.
            apply NoDup_app in Hnd as (_ & Hdisj & _).
            intros Hin. apply (Hdisj (payloadId p)); [by apply list_elem_of_In|left]. }
    rewrite (Hfold [] payloads []) by done.
    eexists. split; [done|].
    unfold JsMap.values. rewrite map_map. simpl.
    assert (forall p, In p payloads -> reloaded (build p) p) as Hre.
    { intros p Hp.
      assert (Merge.cs_id (p_summary p) = payloadId p) as Hid.
      { rewrite Forall_forall in Hwf.
        by destruct (Hwf p (proj2 (list_elem_of_In _ _) Hp)). }
      assert (forall gram,
                In gram (p_grams (build p))
                <-> listed membership (payloadId p) gram) as Hlisted.
      { intros gram. subst build. unfold loadedPayload, listed. simpl.
        by rewrite Hid. }
      split; [done|]. split; [done|]. split; [done|]. split; [|done].
      intros gram. rewrite Hlisted. subst membership.
      rewrite (membership_of_written payloads (payloadId p) gram). split.
      - intros [(q & Hq & Hqid & Hgram) Hne]. split; [|done].
        assert (q = p) as ->; [|done].
        clear -Hnd Hq Hp Hqid. induction payloads as [|r rs IH]; [done|].
        simpl in Hnd. apply NoDup_cons in Hnd as [Hnin Hnd].
        destruct Hq as [->|Hq], Hp as [->|Hp]; auto.
        + exfalso. apply Hnin, list_elem_of_In, in_map_iff. eauto.
        + exfalso. apply Hnin, list_elem_of_In, in_map_iff. eauto.
      - intros [Hin Hne]. split; [eauto|done]. }
    enough (forall l, (forall p, In p l -> reloaded (build p) p) ->
                      Forall2 reloaded (map (fun p => build p) l) l) as Hall'
      by by apply Hall'.
    induction l as [|p ps IH]; intros Hl; simpl; constructor.
    + apply Hl. by left.
    + apply IH. intros q Hq. apply Hl. by right.
  - intros Hproto. rewrite <- Hkeys in Hproto.
    assert (JsMap.get (d_lines disk) JsObject.protoName = None) as Hnone.
    { rewrite Hlines. apply get_map_absent. intros Hin.
      apply in_map_iff in Hin as (p & Hp & Hin).
      apply List.filter_In in Hin as [_ Hne].
      rewrite Hp in Hne. discriminate Hne. }
    split; [done|].
    apply in_map_iff in Hproto as (p & Hp & Hin).
    apply in_split in Hin as (before & after & Hsplit).
    rewrite Hsplit, map_app. simpl.
    rewrite foldOption_fails; [done|].
    intros acc. unfold loadSummary, JsObject.read.
    assert (Merge.cs_id (p_summary p) = payloadId p) as Hid.
    { rewrite Forall_forall in Hwf.
      assert (In p payloads) as Hin
        by (rewrite Hsplit; apply in_app_iff; right; by left).
      by destruct (Hwf p (proj2 (list_elem_of_In _ _) Hin)). }
    rewrite Hid, Hp, Hnone.
    assert (In p payloads) as Hin
      by (rewrite Hsplit; apply in_app_iff; right; by left).
    replace (JsMap.get (d_conversations disk) JsObject.protoName)
      with (Some (p_conversation p)); [done|].
    rewrite Hconv, <- Hp.
    by rewrite (get_map_distinct payloadId p_conversation payloads p Hnd Hin).
Qed.

End WithDetails.

(** A dataset of two conversations with search lines and grams. *)
Definition indexedPayload (id word : string) : @Payload unit :=
  {| p_summary := p_summary (CloneFacts.samplePayload id);
     p_conversation := p_conversation (CloneFacts.samplePayload id);
     p_searchLines :=
       [{| line_loc :=
             {| loc_conversationId := id; loc_messageId := "m1";
                loc_blockIndex := 0; loc_lineNo := 0 |};
           line_text := word |}];
     p_grams := [word; "__proto__"];
     p_assetKeys := []; p_mappingNodeCount := Some 5; p_importOrder := 7 |}.

Definition indexedDataset : JsMap.t (@Payload unit) :=
  [("a", indexedPayload "a" "abc"); ("b", indexedPayload "b" "bcd")].

Example indexed_dataset_reloaded :
  option_map (map (fun p => (payloadId p, map line_text (p_searchLines p), p_grams p)))
    (loadExistingDataset (writeDataset indexedDataset))
  = Some [("a", ["abc"], ["abc"]); ("b", ["bcd"], ["bcd"])].
Proof. vm_compute. reflexivity. Qed.

(** The same dataset with a third conversation, named [__proto__]. *)
Example proto_dataset_not_reloaded :
  loadExistingDataset
    (writeDataset
       (indexedDataset ++ [("__proto__", indexedPayload "__proto__" "cde")]))
  = None.
Proof. vm_compute. reflexivity. Qed.

Lemma dataset_survives_write_and_load_witness :
  exists loaded,
    loadExistingDataset (writeDataset indexedDataset) = Some loaded /\
    Forall2 reloaded loaded (JsMap.values indexedDataset).
Proof.
  destruct (dataset_survives_write_and_load indexedDataset) as [Hloads _].
  - split.
    + repeat constructor.
    + simpl. apply NoDup_cons. split; [|apply NoDup_singleton].
      intros H. apply list_elem_of_singleton in H. discriminate H.
  - apply Hloads. simpl. intros [H|[H|[]]]; discriminate H.
Defined.

(** *** The conversations embedded in [chat.html] *)

(** The bracket depth the loop of [extractConversationsFromChat] has after
    the characters of [s], from depth [d]. *)
Fixpoint depthAfter (opening closing : ascii) (d : Z) (s : string) : Z :=
  match s with
  | EmptyString => d
  | String a r =>
      let d1 := if Ascii.eqb a opening then d + 1 else d in
      depthAfter opening closing (if Ascii.eqb a closing then d1 - 1 else d1) r
  end.

Lemma suffixFrom_Some needle s t :
  suffixFrom needle s = Some t ->
  startsWith needle t = true /\ exists pre, s = pre +:+ t.
Proof.
  induction s as [|a s IH]; simpl.
  - destruct (startsWith needle EmptyString) eqn:E; [|done].
    intros [= <-]. split; [done|]. by exists EmptyString.
  - destruct (startsWith needle (String a s)) eqn:E.
    + intros [= <-]. split; [done|]. by exists EmptyString.
    + intros H. destruct (IH H) as [Hs [pre ->]]. split; [done|].
      by exists (String a pre).
Qed.

(** The occurrence found is the first one. *)
Lemma suffixFrom_first needle s t :
  suffixFrom needle s = Some t ->
  exists pre,
    s = pre +:+ t /\ startsWith needle t = true /\
    forall p q, s = p +:+ q -> startsWith needle q = true ->
                (String.length pre <= String.length p)%nat.
Proof.
  induction s as [|a s IH]; simpl.
  - destruct (startsWith needle EmptyString) eqn:E; [|done].
    intros [= <-]. exists EmptyString. split; [done|]. split; [done|].
    intros p q _ _. simpl. lia.
  - destruct (startsWith needle (String a s)) eqn:E.
    + intros [= <-]. exists EmptyString. split; [done|]. split; [done|].
      intros p q _ _. simpl. lia.
    + intros H. destruct (IH H) as (pre & -> & Hs & Hfirst).
      exists (String a pre). split; [done|]. split; [done|].
      intros [|b p] q Hpq Hq.
      * change (EmptyString +:+ q) with q in Hpq. rewrite <- Hpq in Hq.
        congruence.
      * change (String b p +:+ q) with (String b (p +:+ q)) in Hpq.
        injection Hpq as _ Hpq. simpl. specialize (Hfirst p q Hpq Hq). lia.
Qed.

Lemma suffixFrom_char c s t :
  suffixFrom (String c EmptyString) s = Some t ->
  exists pre rest,
    s = pre +:+ t /\ t = String c rest /\ includesChar c pre = false.
Proof.
  induction s as [|a s IH]; simpl; [done|].
  destruct (Ascii.eqb_spec c a) as [->|Hne]; simpl.
  - intros [= <-]. by exists EmptyString, s.
  - intros H. destruct (IH H) as (pre & rest & -> & -> & Hpre).
    exists (String a pre), rest. split; [done|]. split; [done|].
    cbn [includesChar]. destruct (Ascii.eqb_spec a c) as [->|_]; [done|].
    exact Hpre.
Qed.

(** The scan from a depth of at least 1: it returns a prefix of the text
    and the depth after it; the depth stays at least 1 before the last
    character of the prefix, and is 0 at the end only when the prefix ends
    with a closing bracket. *)
Lemma scanBalanced_spec opening closing s d :
  1 <= d ->
  let scanned := scanBalanced opening closing d s in
  (exists post, s = fst scanned +:+ post) /\
  snd scanned = depthAfter opening closing d (fst scanned) /\
  (forall p q, fst scanned = p +:+ q -> q <> EmptyString ->
               1 <= depthAfter opening closing d p) /\
  (snd scanned = 0 \/ 1 <= snd scanned) /\
  (snd scanned = 0 ->
   exists inner, fst scanned = inner +:+ String closing EmptyString).
Proof.
  revert d. induction s as [|a s IH]; intros d Hd; simpl.
  - split; [by exists EmptyString|]. split; [done|].
    split; [|split; [by right|lia]].
    intros [|x p] q Hpq Hq; simpl in *; [done|discriminate].
  - set (d1 := if Ascii.eqb a opening then d + 1 else d).
    assert (1 <= d1) as Hd1 by (subst d1; destruct (Ascii.eqb a opening); lia).
    destruct (Ascii.eqb_spec a closing) as [->|Hne].
    + destruct (Z.eqb_spec (d1 - 1) 0) as [Hz|Hnz]; simpl.
      * split; [by exists s|]. rewrite Ascii.eqb_refl. fold d1.
        split; [lia|]. split; [|split; [by left|]].
        -- intros [|x p] q Hpq Hq; simpl in *; [done|].
           injection Hpq as -> Hpq. by destruct p, q.
        -- intros _. by exists EmptyString.
      * destruct (IH (d1 - 1)) as ([post Hpost] & Hdepth & Hinner & Hsign & Hend);
          [lia|].
        split; [exists post; exact (f_equal (String _) Hpost)|].
        rewrite Ascii.eqb_refl. fold d1. split; [done|].
        split; [|split; [done|]].
        -- intros [|x p] q Hpq Hq; simpl in *; [done|].
           injection Hpq as -> Hpq. rewrite Ascii.eqb_refl. fold d1.
           by apply (Hinner p q).
        -- intros Hz. destruct (Hend Hz) as [inner Hi].
           exists (String closing inner). simpl. by rewrite Hi.
    + destruct (IH d1 Hd1) as ([post Hpost] & Hdepth & Hinner & Hsign & Hend).
      split; [exists post; exact (f_equal (String _) Hpost)|]. simpl.
      destruct (Ascii.eqb_spec a closing) as [|_]; [done|]. fold d1.
      split; [done|]. split; [|split; [done|]].
      * intros [|x p] q Hpq Hq; simpl in *; [done|].
        injection Hpq as <- Hpq.
        destruct (Ascii.eqb_spec a closing) as [|_]; [done|]. fold d1.
        by apply (Hinner p q).
      * intros Hz. destruct (Hend Hz) as [inner Hi].
        exists (String a inner). simpl. by rewrite Hi.
Qed.

Section Embedded.
Context {Content Metadata : Type}.
Variable parseConversations :
  string -> option (list (@Graph.RawConversation Content Metadata)).

(** X8. When [extractConversationsFromChat] returns conversations, the text
    it handed to [JSON.parse] is a slice of the document: it lies after the
    first [var jsonData], begins at the first opening bracket from there
    and ends at the closing bracket that brings the bracket depth back to
    0, the depth being at least 1 everywhere inside.  The marker it starts
    from is the first in the document. *)
Theorem embedded_conversations_come_from_balanced_slice html conversations :
  extractConversationsFromChat parseConversations html = Some conversations ->
  exists before gap body post,
    html = before +:+ gap +:+ body +:+ post /\
    startsWith "var jsonData" (gap +:+ body +:+ post) = true /\
    includesChar "["%char gap = false /\
    startsWith "[" body = true /\ endsWith "]" body = true /\
    depthAfter "["%char "]"%char 0 body = 0 /\
    (forall p q, body = p +:+ q -> p <> EmptyString -> q <> EmptyString ->
                 1 <= depthAfter "["%char "]"%char 0 p) /\
    parseConversations body = Some conversations /\
    (forall p q, html = p +:+ q -> startsWith "var jsonData" q = true ->
                 (String.length before <= String.length p)%nat).
Proof.
  unfold extractConversationsFromChat.
  destruct (suffixFrom "var jsonData" html) as [afterMarker|] eqn:Hmarker; [|done].
  destruct (suffixFrom "[" afterMarker) as [fromBracket|] eqn:Hbracket; [|done].
  apply suffixFrom_first in Hmarker as (before & -> & Hstarts & Hfirst).
  apply suffixFrom_char in Hbracket as (gap & rest & -> & -> & Hgap).
  replace (scanBalanced "["%char "]"%char 0 (String "["%char rest))
    with (String "["%char (fst (scanBalanced "["%char "]"%char 1 rest)),
          snd (scanBalanced "["%char "]"%char 1 rest)) by reflexivity.
  cbn [fst snd].
  destruct (scanBalanced_spec "["%char "]"%char rest 1)
    as ([post Hpost] & Hdepth & Hinner & _ & Hend); [lia|].
  set (scanned := scanBalanced "["%char "]"%char 1 rest) in *.
  destruct (Z.eqb_spec (snd scanned) 0) as [Hz|]; [|done].
  intros Hparse. destruct (Hend Hz) as [inner Hi].
  assert (String "["%char rest = String "["%char (fst scanned) +:+ post) as Hbody
    by exact (f_equal (String _) Hpost).
  exists before, gap, (String "["%char (fst scanned)), post.
  rewrite <- Hbody.
  split; [done|]. split; [done|]. split; [done|]. split; [reflexivity|]. split.
  { rewrite Hi. clear. unfold endsWith.
    assert (forall t : string,
              String.length (t +:+ "]") = S (String.length t)) as Hlen.
    { induction t as [|x t IH]; [done|]. cbn [String.length].
      change (String x t +:+ "]") with (String x (t +:+ "]")).
      cbn [String.length]. by rewrite IH. }
    cbn [String.length]. rewrite Hlen.
    replace (S (S (String.length inner)) - 1)%nat with (S (String.length inner))
      by lia.
    apply andb_true_intro. split; [by apply Nat.leb_le; lia|].
    cbn [dropChars]. induction inner as [|x inner IH]; [done|].
    exact IH. }
  split.
  { change (depthAfter "["%char "]"%char 0 (String "["%char (fst scanned)))
      with (depthAfter "["%char "]"%char 1 (fst scanned)).
    by rewrite <- Hdepth. }
  split; [|split; [done|]].
  - intros [|x p] q Hpq Hp Hq; [done|].
    change (String x p +:+ q) with (String x (p +:+ q)) in Hpq.
    injection Hpq as <- Hpq.
    change (depthAfter "["%char "]"%char 0 (String "["%char p))
      with (depthAfter "["%char "]"%char 1 p).
    by apply (Hinner p q).
  - intros p q Hpq Hq. by apply (Hfirst p q).
Qed.

End Embedded.

(** A parser that knows one text. *)
Definition sampleArrayParse (json : string)
    : option (list (@Graph.RawConversation string unit)) :=
  if String.eqb json "[[]]" then Some [] else None.

Lemma embedded_conversations_come_from_balanced_slice_witness :
  exists before gap body post,
    "<script>var jsonData = [[]];</script>"
    = before +:+ gap +:+ body +:+ post /\
    sampleArrayParse body = Some [].
Proof.
  destruct (embedded_conversations_come_from_balanced_slice sampleArrayParse
              "<script>var jsonData = [[]];</script>" [])
    as (before & gap & body & post & Hhtml & _ & _ & _ & _ & _ & _ & Hparse & _).
  - reflexivity.
  - exists before, gap, body, post. split; [exact Hhtml|exact Hparse].
Defined.

End IngestExtras.

(** ** Further facts about the search worker: what a hit is *)

Module SearchExtras.
Import Js Dataset Search SearchFacts.

Lemma takeChars_dropChars n s : takeChars n s +:+ dropChars n s = s.
Proof.
  revert s. induction n as [|n IH]; intros [|a s]; try done.
  change (String a (takeChars n s +:+ dropChars n s) = String a s).
  by rewrite IH.
Qed.

Lemma dropChars_add a b s : dropChars (a + b) s = dropChars b (dropChars a s).
Proof.
  revert s. induction a as [|a IH]; intros s; [done|].
  destruct s as [|x s]; simpl; [by destruct b|apply IH].
Qed.

(** The three parts of a snippet put the line together again, whatever the
    position and the length of the match. *)
Lemma snippet_parts state line start len :
  sn_before (buildSnippet state line start len)
  +:+ sn_match (buildSnippet state line start len)
  +:+ sn_after (buildSnippet state line start len)
  = line_text line.
Proof.
  unfold buildSnippet. cbn [sn_before sn_match sn_after].
  rewrite dropChars_add, takeChars_dropChars. apply takeChars_dropChars.
Qed.

Section WithRuntime.
Variable nfkc : string -> string.
Variable toLocaleLowerCase : string -> string.

(** A hit made from [line], found in the bucket of [conversationId]. *)
Definition hitOf (state : WorkerState) (query : string)
    (conversationId : string) (line : SearchLine) (hit : SearchHit) : Prop :=
  hit_conversationId hit = conversationId /\
  hit_messageId hit = loc_messageId (line_loc line) /\
  hit_blockIndex hit = loc_blockIndex (line_loc line) /\
  hit_lineNo hit = lineNo line /\
  (exists idx,
     indexOf (toLocaleLowerCase (trim query))
       (toLocaleLowerCase (line_text line)) = Some idx /\
     hit_snippet hit
     = buildSnippet state line idx (String.length (trim query))) /\
  sn_before (hit_snippet hit) +:+ sn_match (hit_snippet hit)
  +:+ sn_after (hit_snippet hit) = line_text line.

Lemma scanLines_spec state data conversationId query limit hits lines :
  let result :=
    scanLines toLocaleLowerCase state data conversationId (trim query)
      (toLocaleLowerCase (trim query)) limit hits lines in
  (forall hit, In hit result ->
     In hit hits \/
     exists line, In line lines /\ hitOf state query conversationId line hit) /\
  ((length hits <= limit)%nat -> (length result <= limit)%nat).
Proof.
  unfold scanLines. revert hits.
  induction lines as [|line lines IH]; intros hits; simpl.
  - split; [auto|done].
  - destruct (Nat.leb_spec limit (length hits)) as [Hfull|Hroom].
    + destruct (IH hits) as [Hin Hlen]. split; [|done].
      intros hit Hhit. destruct (Hin hit Hhit) as [?|(l & ? & ?)]; eauto.
    + destruct (indexOf _ _) as [idx|] eqn:Hidx.
      * match goal with |- context [hits ++ [?h]] => set (new := h) end.
        destruct (IH (hits ++ [new])) as [Hin Hlen]. split.
        -- intros hit Hhit. destruct (Hin hit Hhit) as [Hold|(l & ? & ?)]; [|eauto].
           apply in_app_iff in Hold as [?|[<-|[]]]; [by left|].
           right. exists line. split; [by left|].
           subst new. unfold hitOf.
           cbn [hit_conversationId hit_messageId hit_blockIndex hit_lineNo
                hit_snippet].
           repeat split; try done; [by exists idx|apply snippet_parts].
        -- intros _. apply Hlen. rewrite length_app. simpl. lia.
      * destruct (IH hits) as [Hin Hlen]. split; [|done].
        intros hit Hhit. destruct (Hin hit Hhit) as [?|(l & ? & ?)]; eauto.
Qed.

Lemma scanCandidates_spec state data query limit candidateIds :
  let result := scanCandidates toLocaleLowerCase state data query limit candidateIds in
  (forall hit, In hit result ->
     exists lines line,
       In (hit_conversationId hit) candidateIds /\
       JsMap.get (lineBuckets state) (hit_conversationId hit) = Some lines /\
       In line lines /\ hitOf state query (hit_conversationId hit) line hit) /\
  (length result <= limit)%nat.
Proof.
  unfold scanCandidates.
  enough (forall hits,
            let result :=
              fold_left
                (fun hits conversationId =>
                   if (limit <=? length hits)%nat then hits
                   else
                     scanLines toLocaleLowerCase state data conversationId
                       (trim query) (toLocaleLowerCase (trim query)) limit hits
                       (match JsMap.get (lineBuckets state) conversationId with
                        | Some lines => lines
                        | None => []
                        end))
                candidateIds hits in
            (forall hit, In hit result ->
               In hit hits \/
               exists lines line,
                 In (hit_conversationId hit) candidateIds /\
                 JsMap.get (lineBuckets state) (hit_conversationId hit) = Some lines /\
                 In line lines /\ hitOf state query (hit_conversationId hit) line hit) /\
            ((length hits <= limit)%nat -> (length result <= limit)%nat)) as H.
  { destruct (H []) as [Hin Hlen]. split; [|apply Hlen; simpl; lia].
    intros hit Hhit. by destruct (Hin hit Hhit) as [[]|?]. }
  induction candidateIds as [|id ids IH]; intros hits; simpl.
  - split; [auto|done].
  - destruct (Nat.leb_spec limit (length hits)) as [Hfull|Hroom].
    + destruct (IH hits) as [Hin Hlen]. split; [|done].
      intros hit Hhit.
      destruct (Hin hit Hhit) as [?|(ls & l & ? & ? & ? & ?)]; [by left|].
      right. exists ls, l. auto.
    + destruct (scanLines_spec state data id query limit hits
                  (match JsMap.get (lineBuckets state) id with
                   | Some lines => lines
                   | None => []
                   end)) as [Hscan Hbound].
      match goal with |- context [fold_left _ ids ?h] => set (hits1 := h) in * end.
      destruct (IH hits1) as [Hin Hlen]. split.
      * intros hit Hhit.
        destruct (Hin hit Hhit) as [Hold|(ls & l & ? & ? & ? & ?)].
        -- destruct (Hscan hit Hold) as [?|(line & Hline & Hhit')]; [by left|].
           right. pose proof Hhit' as (Hid & _). rewrite Hid.
           destruct (JsMap.get (lineBuckets state) id) as [lines|] eqn:E; [|done].
           exists lines, line.
           split; [by left|]. split; [done|]. split; [done|exact Hhit'].
        -- right. exists ls, l. auto.
      * intros Hle. apply Hlen, Hbound. lia.
Qed.

(** X9. Every hit [performSearch] returns is made from a line stored under
    the hit's conversation in the line buckets: the lower-cased line text
    contains the lower-cased trimmed query at the position the snippet was
    cut at, the hit carries the line's message id, block index and line
    number, and the three parts of its snippet put together are the text
    of the line.  There are never more hits than the limit. *)
Theorem search_hits_are_matching_lines state query limit hit :
  In hit (performSearch nfkc toLocaleLowerCase state query limit) ->
  (exists lines line,
     JsMap.get (lineBuckets state) (hit_conversationId hit) = Some lines /\
     In line lines /\ hitOf state query (hit_conversationId hit) line hit) /\
  (length (performSearch nfkc toLocaleLowerCase state query limit) <= limit)%nat.
Proof.
  unfold performSearch.
  destruct (searchData state) as [data|]; [|done].
  destruct (_ <? 3)%nat; [done|].
  destruct (buildTrigrams _ _ _) as [|g grams]; [done|].
  destruct (intersectPostings _ _ _) as [[candidateIds|]|]; [|done|done].
  destruct (scanCandidates_spec state data query limit candidateIds)
    as [Hin Hlen].
  rewrite firstn_all2 by exact Hlen. intros Hhit. split; [|exact Hlen].
  destruct (Hin hit Hhit) as (lines & line & _ & ? & ? & ?). eauto.
Qed.

End WithRuntime.

Lemma search_hits_are_matching_lines_witness :
  exists hit,
    performSearch id asciiLower (buildIndexes sampleBundle) " Quick BROWN" 40
    = [hit] /\
    sn_before (hit_snippet hit) +:+ sn_match (hit_snippet hit)
    +:+ sn_after (hit_snippet hit) = "The quick brown fox jumps".
Proof.
  destruct (performSearch id asciiLower (buildIndexes sampleBundle)
              " Quick BROWN" 40) as [|hit [|hit' rest]] eqn:Hrun.
  - vm_compute in Hrun. discriminate Hrun.
  - exists hit. split; [reflexivity|].
    destruct (search_hits_are_matching_lines id asciiLower
                (buildIndexes sampleBundle) " Quick BROWN" 40 hit)
      as [(lines & line & Hget & Hline & _ & _ & _ & _ & _ & Hparts) _].
    + rewrite Hrun. left. reflexivity.
    + rewrite Hparts. vm_compute in Hrun. injection Hrun as <-.
      vm_compute in Hget. injection Hget as <-.
      destruct Hline as [<-|[]]. reflexivity.
  - vm_compute in Hrun. discriminate Hrun.
Defined.

End SearchExtras.

(** ** SearchIndexer: building the index (searchBuilder.ts, systemPayload.ts,
    text.ts) *)

Module SearchBuilder.
Import Js Graph Dataset Search.

Definition lineFeed : ascii := ascii_of_N 10.
Definition carriageReturn : ascii := ascii_of_N 13.

(** What [split] does with the character in front of the first piece. *)
Definition consFirst (a : ascii) (pieces : list string) : list string :=
  match pieces with
  | [] => [String a EmptyString]
  | first :: rest => String a first :: rest
  end.

(** [text.split(/\r?\n/)]: never the empty list. *)
Fixpoint linesFromText (text : string) : list string :=
  match text with
  | EmptyString => [EmptyString]
  | String a r =>
      if Ascii.eqb a lineFeed then EmptyString :: linesFromText r
      else
        match r with
        | String b r' =>
            if Ascii.eqb a carriageReturn && Ascii.eqb b lineFeed
            then EmptyString :: linesFromText r'
            else consFirst a (linesFromText r)
        | EmptyString => [String a EmptyString]
        end
  end.

Definition shouldIndexMessage {Details} (message : @Message Details) : bool :=
  match msg_role message with
  | User => true
  | Assistant =>
      match truthy (msg_recipient message) with
      | Some recipient => String.eqb recipient "all"
      | None => true
      end
  | _ => false
  end.

(** [JSON.parse] is a parameter: [jsonParses text] tells that it returns
    (rather than throws) on [text]. *)
Section WithRuntime.
Variable jsonParses : string -> bool.
Variable nfkc : string -> string.
Variable toLocaleLowerCase : string -> string.

(** [tryParseJsonText(value) !== null]: a text that starts with a brace or
    a bracket parses to an object or an array, never to [null]. *)
Definition tryParseJsonText (value : string) : bool :=
  let trimmed := trim value in
  negb (String.eqb trimmed EmptyString)
  && (startsWith "{" trimmed || startsWith "[" trimmed)
  && (endsWith "}" trimmed || endsWith "]" trimmed)
  && jsonParses trimmed.

Definition isStructuredJsonBlock (block : Block) : bool :=
  match block with
  | Markdown text => tryParseJsonText text
  | _ => false
  end.

(** The text [buildSearchData] indexes a block under, if it does. *)
Definition indexedText (block : Block) : option string :=
  match block with
  | Markdown text => if tryParseJsonText text then None else Some text
  | Code _ text => Some text
  | Transcript text => Some text
  | Asset _ _ _ => None
  end.

(** [blockLines.forEach((line, lineNo) => lines.push(...))]. *)
Fixpoint linesAt (conversationId messageId : string) (blockIndex lineNo : nat)
    (texts : list string) : list SearchLine :=
  match texts with
  | [] => []
  | text :: rest =>
      {| line_loc :=
           {| loc_conversationId := conversationId; loc_messageId := messageId;
              loc_blockIndex := blockIndex; loc_lineNo := lineNo |};
         line_text := text |}
      :: linesAt conversationId messageId blockIndex (S lineNo) rest
  end.

(** [message.blocks.forEach((block, blockIndex) => ...)]: the lines and
    the gram sources the blocks from [blockIndex] on add. *)
Fixpoint indexBlocks (conversationId messageId : string) (blockIndex : nat)
    (blocks : list Block) : list SearchLine * list string :=
  match blocks with
  | [] => ([], [])
  | block :: rest =>
      let later := indexBlocks conversationId messageId (S blockIndex) rest in
      match indexedText block with
      | None => later
      | Some text =>
          (linesAt conversationId messageId blockIndex 0 (linesFromText text)
           ++ fst later, text :: snd later)
      end
  end.

Fixpoint indexMessages {Details} (conversationId : string)
    (msgs : list (@Message Details)) : list SearchLine * list string :=
  match msgs with
  | [] => ([], [])
  | message :: rest =>
      let later := indexMessages conversationId rest in
      if shouldIndexMessage message then
        let here := indexBlocks conversationId (msg_id message) 0
                      (msg_blocks message) in
        (fst here ++ fst later, snd here ++ snd later)
      else later
  end.

(** The text the grams are taken from: [gramSource.join('\n')]. *)
Definition gramText {Details} (conversation : @Conversation Details) : string :=
  join lineFeed (snd (indexMessages (conv_id conversation) (messages conversation))).

Definition buildSearchData {Details} (conversation : @Conversation Details)
    : list SearchLine * list string :=
  (fst (indexMessages (conv_id conversation) (messages conversation)),
   toSet (buildTrigrams nfkc toLocaleLowerCase (gramText conversation))).

End WithRuntime.

(** [buildSearchBundle] (datasetImporter.ts): the gram index is
    [Ingest.gramIndexOf]. *)
Definition buildSearchBundle {Details} (payloads : list (@Payload Details))
    : SearchBundle :=
  {| sb_grams := Ingest.gramIndexOf payloads;
     sb_linesByConversation :=
       fold_left
         (fun lines (payload : @Payload Details) =>
            JsMap.set lines (payloadId payload) (p_searchLines payload))
         payloads [];
     sb_summaryMap :=
       fold_left
         (fun summaries (payload : @Payload Details) =>
            JsMap.set summaries (payloadId payload)
              {| si_title := Merge.cs_title (p_summary payload);
                 si_last_message_time :=
                   Merge.cs_last_message_time (p_summary payload) |})
         payloads [] |}.

End SearchBuilder.

Module SearchBuilderFacts.
Import Js Graph Dataset Search SearchFacts SearchBuilder.

#[local] Arguments Ascii.eqb : simpl never.

Lemma append_cons a (s t : string) : String a s +:+ t = String a (s +:+ t).
Proof. reflexivity. Qed.

Lemma append_nil_r (s : string) : s +:+ EmptyString = s.
Proof. induction s as [|a s IH]; [done|]. by rewrite append_cons, IH. Qed.

Lemma append_assoc (a b c : string) : (a +:+ b) +:+ c = a +:+ (b +:+ c).
Proof. induction a as [|x a IH]; [done|]. by rewrite !append_cons, IH. Qed.

(** *** Lines *)

Lemma linesFromText_no_lineFeed text line :
  In line (linesFromText text) -> includesChar lineFeed line = false.
Proof.
  revert line.
  assert (forall n text, (String.length text <= n)%nat ->
            forall line, In line (linesFromText text) ->
                         includesChar lineFeed line = false) as H.
  { induction n as [|n IH]; intros [|a r] Hlen line; simpl in *; try lia.
    - by intros [<-|[]].
    - by intros [<-|[]].
    - destruct (Ascii.eqb_spec a lineFeed) as [->|Hne].
      + intros [<-|Hin]; [done|]. apply (IH r); [lia|done].
      + destruct r as [|b r'].
        * intros [<-|[]]. simpl.
          by destruct (Ascii.eqb_spec a lineFeed).
        * destruct (Ascii.eqb a carriageReturn && Ascii.eqb b lineFeed).
          -- intros [<-|Hin]; [done|]. apply (IH r'); [simpl in *; lia|done].
          -- pose proof (IH (String b r') ltac:(simpl in *; lia)) as IHr.
             destruct (linesFromText (String b r')) as [|first rest]; simpl.
             ++ intros [<-|[]]. simpl. by destruct (Ascii.eqb_spec a lineFeed).
             ++ intros [<-|Hin].
                ** simpl. destruct (Ascii.eqb_spec a lineFeed); [done|].
                   apply IHr. by left.
                ** apply IHr. by right. }
  intros line. by apply (H (String.length text)).
Qed.

(** *** Grams *)

Definition isSubstring (needle text : string) : Prop :=
  exists before after, text = before +:+ needle +:+ after.

Lemma dedupeFrom_In seen xs x :
  In x (dedupeFrom seen xs) <-> In x xs /\ ~ In x seen.
Proof.
  revert seen. induction xs as [|y xs IH]; intros seen; simpl; [tauto|].
  destruct (existsb (String.eqb y) seen) eqn:E.
  - apply existsb_exists in E as (z & Hz & Heq). apply String.eqb_eq in Heq.
    subst z. rewrite IH. split; [tauto|]. intros [[->|?] ?]; tauto.
  - assert (~ In y seen) as Hy.
    { intros Hin. assert (existsb (String.eqb y) seen = true); [|congruence].
      apply existsb_exists. exists y. split; [done|apply String.eqb_refl]. }
    simpl. rewrite IH. simpl. split.
    + intros [->|[? ?]]; [tauto|]. split; [tauto|]. tauto.
    + intros [[->|?] ?]; [tauto|].
      destruct (String.eqb_spec y x) as [->|Hne]; [tauto|]. right. tauto.
Qed.

Lemma dedupe_In xs x : In x (dedupe xs) <-> In x xs.
Proof. unfold dedupe. rewrite dedupeFrom_In. simpl. tauto. Qed.

Lemma dedupeFrom_NoDup seen xs : NoDup (dedupeFrom seen xs).
Proof.
  revert seen. induction xs as [|y xs IH]; intros seen; simpl; [constructor|].
  destruct (existsb (String.eqb y) seen); [apply IH|].
  apply NoDup_cons. split; [|apply IH].
  intros Hin. apply list_elem_of_In, dedupeFrom_In in Hin as [_ Hin].
  apply Hin. by left.
Qed.

Lemma windows3_spec s gram :
  In gram (windows3 s) -> String.length gram = 3%nat /\ isSubstring gram s.
Proof.
  induction s as [|a s IH]; simpl; [done|].
  destruct s as [|b [|c r]]; try done.
  intros [<-|Hin].
  - split; [done|]. by exists EmptyString, r.
  - destruct (IH Hin) as [Hlen (before & after & Heq)]. split; [done|].
    exists (String a before), after. by rewrite append_cons, <- Heq.
Qed.

Lemma windows3_cons a s gram : In gram (windows3 s) -> In gram (windows3 (String a s)).
Proof.
  intros Hin. simpl. destruct s as [|b [|c r]]; try done. by right.
Qed.

Lemma windows3_app_r before s gram :
  In gram (windows3 s) -> In gram (windows3 (before +:+ s)).
Proof.
  induction before as [|a before IH]; [done|].
  intros Hin. rewrite append_cons. by apply windows3_cons, IH.
Qed.

Lemma windows3_app_l s after gram :
  In gram (windows3 s) -> In gram (windows3 (s +:+ after)).
Proof.
  revert gram. induction s as [|a s IH]; intros gram; [done|].
  rewrite append_cons. simpl. destruct s as [|b [|c r]]; try done.
  rewrite !append_cons. intros [<-|Hin]; [by left|].
  right. apply (IH gram Hin).
Qed.

(** The trigrams of a piece of a text are trigrams of the text. *)
Lemma windows3_substring needle text gram :
  isSubstring needle text -> In gram (windows3 needle) -> In gram (windows3 text).
Proof.
  intros (before & after & ->) Hin. by apply windows3_app_r, windows3_app_l.
Qed.

Section WithRuntime.
Variable jsonParses : string -> bool.
Variable nfkc : string -> string.
Variable toLocaleLowerCase : string -> string.

#[local] Abbreviation indexedText := (indexedText jsonParses).
#[local] Abbreviation indexBlocks := (indexBlocks jsonParses).
#[local] Abbreviation buildSearchData :=
  (buildSearchData jsonParses nfkc toLocaleLowerCase).

Lemma linesAt_In conversationId messageId blockIndex lineNo texts line :
  In line (linesAt conversationId messageId blockIndex lineNo texts) ->
  exists i,
    nth_error texts i = Some (line_text line) /\
    line_loc line
    = {| loc_conversationId := conversationId; loc_messageId := messageId;
         loc_blockIndex := blockIndex; loc_lineNo := (lineNo + i)%nat |}.
Proof.
  revert lineNo. induction texts as [|text texts IH]; intros lineNo; simpl; [done|].
  intros [<-|Hin].
  - exists O. split; [done|]. simpl. by rewrite Nat.add_0_r.
  - destruct (IH (S lineNo) Hin) as (i & Hi & Hloc).
    exists (S i). split; [done|]. rewrite Hloc. f_equal. lia.
Qed.

Lemma indexBlocks_In conversationId messageId blockIndex blocks line :
  In line (fst (indexBlocks conversationId messageId blockIndex blocks)) ->
  exists i block text lineNo,
    nth_error blocks i = Some block /\
    indexedText block = Some text /\
    nth_error (linesFromText text) lineNo = Some (line_text line) /\
    line_loc line
    = {| loc_conversationId := conversationId; loc_messageId := messageId;
         loc_blockIndex := (blockIndex + i)%nat; loc_lineNo := lineNo |}.
Proof.
  revert blockIndex. induction blocks as [|block blocks IH]; intros blockIndex;
    simpl; [done|].
  assert (In line (fst (indexBlocks conversationId messageId (S blockIndex) blocks)) ->
          exists i b text lineNo,
            nth_error (block :: blocks) i = Some b /\
            indexedText b = Some text /\
            nth_error (linesFromText text) lineNo = Some (line_text line) /\
            line_loc line
            = {| loc_conversationId := conversationId; loc_messageId := messageId;
                 loc_blockIndex := (blockIndex + i)%nat; loc_lineNo := lineNo |})
    as Hlater.
  { intros Hin. destruct (IH (S blockIndex) Hin) as (i & b & text & n & ? & ? & ? & Hloc).
    exists (S i), b, text, n. repeat split; try done.
    rewrite Hloc. f_equal. lia. }
  destruct (indexedText block) as [text|] eqn:Htext; [|done].
  simpl. intros Hin. apply in_app_iff in Hin as [Hin|Hin]; [|by apply Hlater].
  apply linesAt_In in Hin as (n & Hn & Hloc).
  exists O, block, text, n. repeat split; try done.
  rewrite Hloc. f_equal. lia.
Qed.

(** X10. What [buildSearchData] indexes: every search line comes from a
    block of a message of the conversation that is a user message or an
    assistant message addressed to nobody or to [all]; the block is a
    markdown block that is not a JSON payload, a code block or a
    transcript, never an asset; the line carries the conversation's id,
    the message's id, the block's index and its own number among the lines
    of the block's text, and holds no line feed. *)
Theorem search_lines_come_from_indexable_blocks {Details}
    (conversation : @Conversation Details) line :
  In line (fst (buildSearchData conversation)) ->
  exists message block text,
    In message (messages conversation) /\
    shouldIndexMessage message = true /\
    nth_error (msg_blocks message) (loc_blockIndex (line_loc line)) = Some block /\
    indexedText block = Some text /\
    isStructuredJsonBlock jsonParses block = false /\
    nth_error (linesFromText text) (loc_lineNo (line_loc line))
    = Some (line_text line) /\
    loc_conversationId (line_loc line) = conv_id conversation /\
    loc_messageId (line_loc line) = msg_id message /\
    includesChar lineFeed (line_text line) = false.
Proof.
  unfold SearchBuilder.buildSearchData. cbn [fst].
  generalize (conv_id conversation) as conversationId.
  intros conversationId.
  induction (messages conversation) as [|message msgs IH]; simpl; [done|].
  assert (In line (fst (indexMessages jsonParses conversationId msgs)) ->
          exists m block text,
            (message = m \/ In m msgs) /\ shouldIndexMessage m = true /\
            nth_error (msg_blocks m) (loc_blockIndex (line_loc line)) = Some block /\
            indexedText block = Some text /\
            isStructuredJsonBlock jsonParses block = false /\
            nth_error (linesFromText text) (loc_lineNo (line_loc line))
            = Some (line_text line) /\
            loc_conversationId (line_loc line) = conversationId /\
            loc_messageId (line_loc line) = msg_id m /\
            includesChar lineFeed (line_text line) = false) as Hlater.
  { intros Hin. destruct (IH Hin) as (m & b & t & ? & ?). exists m, b, t. auto. }
  destruct (shouldIndexMessage message) eqn:Hindex; [|done].
  simpl. intros Hin. apply in_app_iff in Hin as [Hin|Hin]; [|by apply Hlater].
  apply indexBlocks_In in Hin as (i & block & text & n & Hblock & Htext & Hline & Hloc).
  exists message, block, text. rewrite Hloc. simpl.
  repeat split; try done; [by left| |].
  - destruct block; simpl in *; try done.
    by destruct (tryParseJsonText jsonParses text0).
  - apply (linesFromText_no_lineFeed text). by eapply nth_error_In.
Qed.

(** *** Grams of a conversation *)

Lemma buildTrigrams_windows input :
  buildTrigrams nfkc toLocaleLowerCase input
  = windows3 (normalizeSearchText nfkc toLocaleLowerCase input).
Proof.
  unfold buildTrigrams.
  destruct (Nat.ltb_spec (String.length (normalizeSearchText nfkc toLocaleLowerCase input)) 3)
    as [Hshort|]; [|done].
  by destruct (normalizeSearchText nfkc toLocaleLowerCase input) as [|a [|b [|c r]]];
    simpl in *; try lia.
Qed.

(** X11. The grams [buildSearchData] stores for a conversation are pairwise
    distinct, each is three characters long, and they are exactly the
    three-character pieces of the normalised text of the indexed blocks
    (joined by line feeds). *)
Theorem grams_are_the_trigrams_of_the_indexed_text {Details}
    (conversation : @Conversation Details) :
  let grams := snd (buildSearchData conversation) in
  let text :=
    normalizeSearchText nfkc toLocaleLowerCase (gramText jsonParses conversation) in
  NoDup grams /\
  Forall (fun gram => String.length gram = 3%nat) grams /\
  forall gram,
    In gram grams <-> String.length gram = 3%nat /\ isSubstring gram text.
Proof.
  unfold SearchBuilder.buildSearchData. cbn [snd]. unfold toSet.
  split; [apply dedupeFrom_NoDup|]. split.
  - apply Forall_forall. intros gram Hin.
    apply list_elem_of_In in Hin. rewrite dedupe_In, buildTrigrams_windows in Hin.
    by destruct (windows3_spec _ _ Hin).
  - intros gram. rewrite dedupe_In, buildTrigrams_windows. split.
    + apply windows3_spec.
    + intros [Hlen Hsub]. apply (windows3_substring gram); [done|].
      destruct gram as [|a [|b [|c [|d r]]]]; simpl in *; try lia. by left.
Qed.

(** *** From the index to the candidates *)

Lemma postings_get {Details} (payloads : list (@Payload Details)) gram :
  JsMap.get (postings (buildIndexes (buildSearchBundle payloads))) gram
  = option_map toSet (JsMap.get (Ingest.gramIndexOf payloads) gram).
Proof.
  unfold buildIndexes, buildSearchBundle. cbn [postings sb_grams].
  destruct (IngestExtras.gramIndexOf_listed payloads gram EmptyString) as [_ Hnd].
  rewrite (IngestExtras.fold_set_distinct fst (fun entry => toSet (snd entry))
             (Ingest.gramIndexOf payloads) []).
  2:{ rewrite app_nil_l. exact Hnd. }
  rewrite app_nil_l. revert Hnd.
  induction (Ingest.gramIndexOf payloads) as [|[g ids] index IH]; [done|].
  intros Hnd. simpl. destruct (String.eqb g gram); [done|].
  apply IH. by apply NoDup_cons in Hnd as [_ ?].
Qed.

(** X12. The trigram filter loses no conversation: when the normalised
    query, at least three characters long, is a piece of the normalised
    indexed text of a conversation whose grams are those of
    [buildSearchData], the conversation is among the candidates that
    [performSearch] scans, on the index [buildSearchBundle] makes of any
    list of payloads that holds it. *)
Theorem trigram_filter_keeps_containing_conversations {Details}
    (payloads : list (@Payload Details)) payload query limit :
  In payload payloads ->
  p_grams payload = snd (buildSearchData (p_conversation payload)) ->
  (3 <= String.length (normalizeSearchText nfkc toLocaleLowerCase query))%nat ->
  isSubstring (normalizeSearchText nfkc toLocaleLowerCase query)
    (normalizeSearchText nfkc toLocaleLowerCase
       (gramText jsonParses (p_conversation payload))) ->
  let state := buildIndexes (buildSearchBundle payloads) in
  exists candidateIds,
    In (payloadId payload) candidateIds /\
    performSearch nfkc toLocaleLowerCase state query limit
    = firstn limit
        (scanCandidates toLocaleLowerCase state (buildSearchBundle payloads)
           query limit candidateIds).
Proof.
  intros Hin Hgrams Hlen Hsub state.
  assert (forall gram,
            In gram (buildTrigrams nfkc toLocaleLowerCase query) ->
            inPosting (postings state) gram (payloadId payload)) as Hposting.
  { intros gram Hgram. unfold inPosting. subst state. rewrite postings_get.
    assert (IngestExtras.listed (Ingest.gramIndexOf payloads) gram (payloadId payload))
      as Hlisted.
    { apply IngestExtras.gramIndexOf_listed. exists payload.
      split; [done|]. split; [done|]. rewrite Hgrams.
      destruct (grams_are_the_trigrams_of_the_indexed_text (p_conversation payload))
        as (_ & _ & Hiff).
      rewrite buildTrigrams_windows in Hgram. apply Hiff.
      split; [by destruct (windows3_spec _ _ Hgram)|].
      apply windows3_spec in Hgram as [_ (b1 & a1 & Hq)].
      destruct Hsub as (b2 & a2 & Ht).
      exists (b2 +:+ b1), (a1 +:+ a2). by rewrite Ht, Hq, !append_assoc. }
    unfold IngestExtras.listed in Hlisted.
    destruct (JsMap.get (Ingest.gramIndexOf payloads) gram) as [ids|]; [|done].
    exists (toSet ids). split; [done|]. by apply dedupe_In. }
  unfold performSearch. subst state. cbn [searchData buildIndexes].
  apply Nat.ltb_ge in Hlen. rewrite Hlen.
  pose proof (intersectPostings_spec
                (postings (buildIndexes (buildSearchBundle payloads)))
                (buildTrigrams nfkc toLocaleLowerCase query) None) as Hspec.
  destruct (buildTrigrams nfkc toLocaleLowerCase query) as [|g grams] eqn:Eg.
  { exfalso. rewrite buildTrigrams_windows in Eg. apply Nat.ltb_ge in Hlen.
    by destruct (normalizeSearchText nfkc toLocaleLowerCase query)
      as [|a [|b [|c r]]]; simpl in *; try lia. }
  destruct (intersectPostings _ (g :: grams) None) as [[candidateIds|]|].
  - destruct Hspec as (_ & Hiff & _). exists candidateIds. split; [|done].
    apply (Hiff (payloadId payload)). split; [done|exact Hposting].
  - destruct Hspec as (_ & _ & Hnone). by destruct (Hnone eq_refl).
  - exfalso. destruct Hspec as [(gram & Hgram & Hmissing)|Hempty].
    + destruct (Hposting gram Hgram) as (ids & Hids & _). congruence.
    + apply Hempty. exists (payloadId payload). split; [done|exact Hposting].
Qed.

End WithRuntime.

(** *** A sample conversation *)

Definition sampleMessage : @Message unit :=
  {| msg_id := "m1"; msg_role := User; msg_time := None;
     msg_recipient := None;
     msg_blocks :=
       [Asset "file-1" Image None;
        Markdown ("Hello" +:+ String lineFeed "World")];
     msg_details := None; msg_variants := None |}.

Definition sampleConversation : @Conversation unit :=
  {| conv_id := "c1"; conv_title := "Greeting"; conv_create_time := None;
     conv_update_time := None; last_message_time := 200;
     conv_assetsMap := None; messages := [sampleMessage] |}.

Definition noJson (_ : string) : bool := false.

Definition samplePayload : @Payload unit :=
  {| p_summary :=
       {| Merge.cs_id := "c1"; Merge.cs_title := "Greeting";
          Merge.cs_snippet := "Hello"; Merge.cs_last_message_time := 200;
          Merge.cs_create_time := None; Merge.cs_update_time := None;
          Merge.cs_mapping_node_count := Some 1;
          Merge.cs_source := "server"; Merge.cs_pinned := Some false |};
     p_conversation := sampleConversation;
     p_searchLines := fst (buildSearchData noJson id asciiLower sampleConversation);
     p_grams := snd (buildSearchData noJson id asciiLower sampleConversation);
     p_assetKeys := []; p_mappingNodeCount := Some 1; p_importOrder := 0 |}.

Definition worldLine : SearchLine :=
  {| line_loc :=
       {| loc_conversationId := "c1"; loc_messageId := "m1";
          loc_blockIndex := 1; loc_lineNo := 1 |};
     line_text := "World" |}.

Lemma search_lines_come_from_indexable_blocks_witness :
  exists message block text,
    In message (messages sampleConversation) /\
    shouldIndexMessage message = true /\
    nth_error (msg_blocks message) 1 = Some block /\
    indexedText noJson block = Some text /\
    isStructuredJsonBlock noJson block = false /\
    nth_error (linesFromText text) 1 = Some "World" /\
    "c1" = conv_id sampleConversation /\
    "m1" = msg_id message /\
    includesChar lineFeed "World" = false.
Proof.
  apply (search_lines_come_from_indexable_blocks noJson id asciiLower
           sampleConversation worldLine).
  right. left. reflexivity.
Defined.

Lemma trigram_filter_keeps_containing_conversations_witness :
  exists candidateIds,
    In "c1" candidateIds /\
    performSearch id asciiLower (buildIndexes (buildSearchBundle [samplePayload]))
      "hello world" 40
    = firstn 40
        (scanCandidates asciiLower (buildIndexes (buildSearchBundle [samplePayload]))
           (buildSearchBundle [samplePayload]) "hello world" 40 candidateIds).
Proof.
  apply (trigram_filter_keeps_containing_conversations noJson id asciiLower
           [samplePayload] samplePayload "hello world" 40).
  - left. reflexivity.
  - reflexivity.
  - vm_compute. lia.
  - exists EmptyString, EmptyString. reflexivity.
Defined.

End SearchBuilderFacts.

(** ** The merged index of the viewer (merge.ts) *)

Module Summaries.
Import Merge.

(** [new Map(list.map((summary) => [summary.id, summary]))]. *)
Definition indexById (summaries : list ConversationSummary)
    : JsMap.t ConversationSummary :=
  fold_left (fun m summary => JsMap.set m (cs_id summary) summary) summaries [].

Definition shouldUseLocal (serverEntry localEntry : option ConversationSummary)
    : bool :=
  match localEntry, serverEntry with
  | Some _, None => true
  | None, _ => false
  | Some l, Some s =>
      if cs_last_message_time l >? cs_last_message_time s then true
      else if cs_last_message_time l <? cs_last_message_time s then false
      else true
  end.

Definition chooseWinner (serverEntry localEntry : option ConversationSummary)
    : option ConversationSummary :=
  match serverEntry, localEntry with
  | None, None => None
  | _, _ => if shouldUseLocal serverEntry localEntry then localEntry else serverEntry
  end.

(** [{ ...winner, pinned }]. *)
Definition withPinned (s : ConversationSummary) (pinned : bool)
    : ConversationSummary :=
  {| cs_id := cs_id s; cs_title := cs_title s; cs_snippet := cs_snippet s;
     cs_last_message_time := cs_last_message_time s;
     cs_create_time := cs_create_time s; cs_update_time := cs_update_time s;
     cs_mapping_node_count := cs_mapping_node_count s;
     cs_source := cs_source s; cs_pinned := Some pinned |}.

(** A [pinned?: boolean] in a boolean position. *)
Definition isPinned (s : ConversationSummary) : bool :=
  match cs_pinned s with Some b => b | None => false end.

(** [entries.sort((a, b) => b.last_message_time - a.last_message_time)], a
    stable sort: newest first, entries of equal time in their order. *)
Fixpoint insertSummary (x : ConversationSummary) (sorted : list ConversationSummary)
    : list ConversationSummary :=
  match sorted with
  | [] => [x]
  | y :: rest =>
      if cs_last_message_time y <? cs_last_message_time x then x :: y :: rest
      else y :: insertSummary x rest
  end.

Definition sortNewestFirst (entries : list ConversationSummary)
    : list ConversationSummary :=
  fold_left (fun sorted x => insertSummary x sorted) entries [].

Definition sortSummaries (entries : list ConversationSummary)
    : list ConversationSummary :=
  sortNewestFirst (List.filter isPinned entries)
  ++ sortNewestFirst (List.filter (fun entry => negb (isPinned entry)) entries).

(** The entry [mergeSummaries] pushes for an id, if any. *)
Definition mergedEntry (serverMap localMap : JsMap.t ConversationSummary)
    (pinnedIds : option (list string)) (id : string)
    : option ConversationSummary :=
  let serverEntry := JsMap.get serverMap id in
  let localEntry := JsMap.get localMap id in
  match chooseWinner serverEntry localEntry with
  | None => None
  | Some winner =>
      Some
        (withPinned winner
           (match pinnedIds with
            | Some ids => existsb (String.eqb (cs_id winner)) ids
            | None => false
            end
            || match localEntry with Some l => isPinned l | None => false end
            || isPinned winner))
  end.

Definition mergeSummaries (server local : list ConversationSummary)
    (pinnedIds : option (list string)) : list ConversationSummary :=
  let serverMap := indexById server in
  let localMap := indexById local in
  let ids := Graph.dedupe (JsMap.keys serverMap ++ JsMap.keys localMap) in
  sortSummaries (omap (mergedEntry serverMap localMap pinnedIds) ids).

End Summaries.

Module SummariesFacts.
Import Merge Summaries.

(** *** The sort *)

Lemma insertSummary_perm x sorted : insertSummary x sorted ≡ₚ x :: sorted.
Proof.
  induction sorted as [|y rest IH]; simpl; [done|].
  destruct (_ <? _); [done|]. rewrite IH. apply Permutation_swap.
Qed.

Lemma sortNewestFirst_perm entries : sortNewestFirst entries ≡ₚ entries.
Proof.
  unfold sortNewestFirst.
  enough (forall acc, fold_left (fun sorted x => insertSummary x sorted) entries acc
                      ≡ₚ acc ++ entries) as H by apply (H []).
  induction entries as [|x entries IH]; intros acc; simpl.
  - by rewrite app_nil_r.
  - rewrite IH, insertSummary_perm. simpl. apply Permutation_middle.
Qed.

(** Newest first. *)
Definition newestFirst (entries : list ConversationSummary) : Prop :=
  Sorted (fun a b => cs_last_message_time b <= cs_last_message_time a) entries.

Lemma insertSummary_sorted x sorted :
  newestFirst sorted -> newestFirst (insertSummary x sorted).
Proof.
  unfold newestFirst. induction sorted as [|y rest IH]; simpl; intros Hs.
  - repeat constructor.
  - destruct (Z.ltb_spec (cs_last_message_time y) (cs_last_message_time x)).
    + constructor; [done|]. constructor. lia.
    + apply Sorted_inv in Hs as [Hrest Hhd].
      constructor; [by apply IH|].
      destruct rest as [|z rest]; simpl.
      * constructor. lia.
      * destruct (Z.ltb_spec (cs_last_message_time z) (cs_last_message_time x)).
        -- constructor. lia.
        -- constructor. by apply HdRel_inv in Hhd.
Qed.

Lemma sortNewestFirst_sorted entries : newestFirst (sortNewestFirst entries).
Proof.
  unfold sortNewestFirst.
  enough (forall acc, newestFirst acc ->
            newestFirst (fold_left (fun sorted x => insertSummary x sorted) entries acc))
    as H by (apply H; constructor).
  induction entries as [|x entries IH]; intros acc Hacc; simpl; [done|].
  by apply IH, insertSummary_sorted.
Qed.

(** *** The two maps *)

Lemma indexById_keys summaries id :
  In id (JsMap.keys (indexById summaries)) <-> In id (map cs_id summaries).
Proof.
  unfold indexById.
  enough (forall m, In id (JsMap.keys (fold_left
                      (fun m summary => JsMap.set m (cs_id summary) summary)
                      summaries m))
                    <-> In id (JsMap.keys m) \/ In id (map cs_id summaries)) as H.
  { rewrite H. simpl. tauto. }
  induction summaries as [|s summaries IH]; intros m; simpl; [tauto|].
  rewrite IH, IngestFacts.keys_set_addToSet, IngestFacts.addToSet_In. split.
  - intros [[?| ->]|?]; auto.
  - intros [?|[<-|?]]; auto.
Qed.

Lemma indexById_fold (P : ConversationSummary -> Prop) summaries
    (m : JsMap.t ConversationSummary) id entry :
  (forall k e, JsMap.get m k = Some e -> cs_id e = k /\ P e) ->
  (forall s, In s summaries -> P s) ->
  JsMap.get (fold_left (fun m summary => JsMap.set m (cs_id summary) summary)
               summaries m) id = Some entry ->
  cs_id entry = id /\ P entry.
Proof.
  revert m. induction summaries as [|s summaries IH]; intros m Hm HP; simpl.
  - apply Hm.
  - apply IH; [|intros x Hx; apply HP; by right].
    intros k e. destruct (String.eqb_spec (cs_id s) k) as [<-|Hne].
    + rewrite JsMapFacts.get_set_eq. intros [= <-]. split; [done|].
      apply HP. by left.
    + rewrite JsMapFacts.get_set_ne by done. apply Hm.
Qed.

(** Every value of the map is stored under its own id. *)
Lemma indexById_get summaries id entry :
  JsMap.get (indexById summaries) id = Some entry ->
  cs_id entry = id /\ In entry summaries.
Proof.
  apply (indexById_fold (fun e => In e summaries)); [done|auto].
Qed.

Lemma get_is_Some_keys {V} (m : JsMap.t V) k :
  is_Some (JsMap.get m k) <-> In k (JsMap.keys m).
Proof.
  rewrite <- JsMapFacts.has_true_iff. unfold JsMap.has.
  destruct (JsMap.get m k); split; eauto; try done; try by intros [? ?].
Qed.

Lemma chooseWinner_Some serverEntry localEntry :
  is_Some serverEntry \/ is_Some localEntry ->
  is_Some (chooseWinner serverEntry localEntry).
Proof.
  unfold chooseWinner, shouldUseLocal.
  destruct serverEntry as [s|], localEntry as [l|]; simpl; intros [[? ?]|[? ?]];
    try done; eauto; by repeat case_match.
Qed.

Lemma mergedEntry_id serverMap localMap pinnedIds id entry :
  (forall k e, JsMap.get serverMap k = Some e -> cs_id e = k) ->
  (forall k e, JsMap.get localMap k = Some e -> cs_id e = k) ->
  mergedEntry serverMap localMap pinnedIds id = Some entry -> cs_id entry = id.
Proof.
  intros Hs Hl. unfold mergedEntry.
  destruct (chooseWinner _ _) as [winner|] eqn:Hw; [|done].
  intros [= <-]. simpl. unfold chooseWinner in Hw.
  destruct (JsMap.get serverMap id) as [s|] eqn:Es,
    (JsMap.get localMap id) as [l|] eqn:El; try done;
    destruct (shouldUseLocal _ _); simplify_eq; eauto.
Qed.

(** The entries before the sort: one for each id of either list. *)
Lemma merged_ids server local pinnedIds :
  map cs_id
    (omap (mergedEntry (indexById server) (indexById local) pinnedIds)
       (Graph.dedupe (JsMap.keys (indexById server) ++ JsMap.keys (indexById local))))
  = Graph.dedupe (JsMap.keys (indexById server) ++ JsMap.keys (indexById local)).
Proof.
  set (ids := Graph.dedupe _).
  assert (forall id, In id ids ->
            In id (JsMap.keys (indexById server)) \/
            In id (JsMap.keys (indexById local))) as Hids.
  { intros id Hin. subst ids. rewrite SearchBuilderFacts.dedupe_In in Hin.
    apply in_app_iff in Hin. exact Hin. }
  clearbody ids. induction ids as [|id ids IH]; simpl; [done|].
  destruct (mergedEntry (indexById server) (indexById local) pinnedIds id)
    as [entry|] eqn:E.
  - simpl. f_equal.
    + eapply mergedEntry_id; [| |exact E]; intros k e He;
        by destruct (indexById_get _ _ _ He).
    + apply IH. intros k Hk. apply Hids. by right.
  - exfalso. unfold mergedEntry in E.
    destruct (chooseWinner_Some (JsMap.get (indexById server) id)
                (JsMap.get (indexById local) id)) as [w Hw].
    + rewrite !get_is_Some_keys. apply Hids. by left.
    + by rewrite Hw in E.
Qed.

Lemma sortSummaries_perm entries : sortSummaries entries ≡ₚ entries.
Proof.
  unfold sortSummaries. rewrite !sortNewestFirst_perm.
  induction entries as [|x entries IH]; simpl; [done|].
  destruct (isPinned x); simpl.
  - by rewrite IH.
  - by rewrite <- Permutation_middle, IH.
Qed.

(** X13. [mergeSummaries] lists every conversation once: the ids of the
    merged index are pairwise distinct, and an id is in it exactly when the
    server index or the local index has it. *)
Theorem merged_index_lists_every_id_once server local pinnedIds :
  NoDup (map cs_id (mergeSummaries server local pinnedIds)) /\
  forall id,
    In id (map cs_id (mergeSummaries server local pinnedIds))
    <-> In id (map cs_id server) \/ In id (map cs_id local).
Proof.
  unfold mergeSummaries.
  set (ids := Graph.dedupe _).
  set (entries := omap _ ids).
  assert (map cs_id (sortSummaries entries) ≡ₚ ids) as Hperm.
  { rewrite (sortSummaries_perm entries). subst entries ids.
    by rewrite merged_ids. }
  split.
  - rewrite Hperm. subst ids. apply SearchBuilderFacts.dedupeFrom_NoDup.
  - intros id. rewrite <- !list_elem_of_In, Hperm, !list_elem_of_In. subst ids.
    by rewrite SearchBuilderFacts.dedupe_In, in_app_iff, !indexById_keys.
Qed.

(** X14. The merged index shows the pinned conversations first and, within
    the pinned ones and within the others, the newest first: it is a list
    of entries marked pinned, sorted by decreasing [last_message_time],
    followed by a list of entries marked not pinned, sorted the same
    way. *)
Theorem merged_index_is_pinned_then_newest_first server local pinnedIds :
  exists pinned others,
    mergeSummaries server local pinnedIds = pinned ++ others /\
    Forall (fun entry => cs_pinned entry = Some true) pinned /\
    Forall (fun entry => cs_pinned entry = Some false) others /\
    newestFirst pinned /\ newestFirst others.
Proof.
  unfold mergeSummaries, sortSummaries.
  set (entries := omap _ _).
  assert (Forall (fun entry => is_Some (cs_pinned entry)) entries) as Hflag.
  { subst entries. apply Forall_forall. intros entry Hin.
    apply list_elem_of_omap in Hin as (id & _ & Hentry).
    unfold mergedEntry in Hentry. destruct (chooseWinner _ _); [|done].
    injection Hentry as <-. simpl. eauto. }
  eexists _, _. split; [done|].
  split; [|split; [|split; apply sortNewestFirst_sorted]].
  - apply Forall_forall. intros entry Hin.
    rewrite sortNewestFirst_perm in Hin.
    apply list_elem_of_In, filter_In in Hin as [_ Hp].
    unfold isPinned in Hp. by destruct (cs_pinned entry) as [[]|].
  - apply Forall_forall. intros entry Hin.
    rewrite sortNewestFirst_perm in Hin.
    apply list_elem_of_In, filter_In in Hin as [Hin Hp].
    rewrite Forall_forall in Hflag.
    destruct (Hflag entry (proj2 (list_elem_of_In _ _) Hin)) as [b Hb].
    unfold isPinned in Hp. rewrite Hb in *. by destruct b.
Qed.

(** An entry of the merged index but for its pin. *)
Definition sameButPin (entry winner : ConversationSummary) : Prop :=
  entry = withPinned winner (isPinned entry).

(** X15. Which record wins: the entry the merged index shows for an id is
    the local record when there is one and the server has none or an older
    or equally recent one, and the server record otherwise, its pin
    apart; its [last_message_time] is the greater of the two; it is pinned
    exactly when its id is in the pinned set, or the local record or the
    winner is pinned. *)
Theorem merged_entry_is_the_newer_record server local pinnedIds entry :
  In entry (mergeSummaries server local pinnedIds) ->
  let serverEntry := JsMap.get (indexById server) (cs_id entry) in
  let localEntry := JsMap.get (indexById local) (cs_id entry) in
  exists winner,
    sameButPin entry winner /\
    match serverEntry, localEntry with
    | Some s, Some l =>
        winner = (if cs_last_message_time l <? cs_last_message_time s
                  then s else l) /\
        cs_last_message_time entry
        = Z.max (cs_last_message_time s) (cs_last_message_time l)
    | Some s, None => winner = s
    | None, Some l => winner = l
    | None, None => False
    end /\
    isPinned entry
    = (match pinnedIds with
       | Some ids => existsb (String.eqb (cs_id entry)) ids
       | None => false
       end
       || match localEntry with Some l => isPinned l | None => false end
       || isPinned winner).
Proof.
  intros Hin. apply list_elem_of_In in Hin.
  unfold mergeSummaries in Hin. rewrite sortSummaries_perm in Hin.
  apply list_elem_of_omap in Hin as (id & _ & Hentry).
  assert (cs_id entry = id) as Hid.
  { eapply mergedEntry_id; [| |exact Hentry]; intros k e He;
      by destruct (indexById_get _ _ _ He). }
  simpl. rewrite Hid. unfold mergedEntry in Hentry.
  destruct (chooseWinner _ _) as [winner|] eqn:Hw; [|done].
  injection Hentry as <-. exists winner.
  split; [done|]. simpl in Hid. rewrite Hid.
  split; [|done].
  unfold chooseWinner, shouldUseLocal in Hw.
  destruct (JsMap.get (indexById server) id) as [s|],
    (JsMap.get (indexById local) id) as [l|]; simpl in *; try congruence.
  rewrite Z.gtb_ltb in Hw.
  destruct (Z.ltb_spec (cs_last_message_time s) (cs_last_message_time l)),
    (Z.ltb_spec (cs_last_message_time l) (cs_last_message_time s));
    injection Hw as <-; split; try done; lia.
Qed.

Definition olderServer : ConversationSummary :=
  {| cs_id := "c1"; cs_title := "Server"; cs_snippet := "s";
     cs_last_message_time := 100; cs_create_time := None;
     cs_update_time := None; cs_mapping_node_count := None;
     cs_source := "server"; cs_pinned := Some false |}.

Definition newerLocal : ConversationSummary :=
  {| cs_id := "c1"; cs_title := "Local"; cs_snippet := "l";
     cs_last_message_time := 200; cs_create_time := None;
     cs_update_time := None; cs_mapping_node_count := None;
     cs_source := "local"; cs_pinned := None |}.

Lemma merged_entry_is_the_newer_record_witness :
  exists winner,
    sameButPin (withPinned newerLocal true) winner /\ winner = newerLocal.
Proof.
  destruct (merged_entry_is_the_newer_record [olderServer] [newerLocal]
              (Some ["c1"]) (withPinned newerLocal true))
    as (winner & Hsame & Hwinner & _).
  - left. reflexivity.
  - exists winner. split; [exact Hsame|]. apply Hwinner.
Defined.

End SummariesFacts.

(** ** Asset references and media types (slimConvert.ts) *)

Module Media.
Import Js AssetPath Graph.

(** What the flag [i] of a pattern without the flag [u] equates: the ASCII
    letters with their other case, nothing else. *)
Definition lowerAsciiChar (a : ascii) : ascii :=
  let n := N_of_ascii a in
  if ((65 <=? n) && (n <=? 90))%N then ascii_of_N (n + 32) else a.

Fixpoint lowerAscii (s : string) : string :=
  match s with
  | EmptyString => EmptyString
  | String a r => String (lowerAsciiChar a) (lowerAscii r)
  end.

(** [/\.ext$/i.test(path)], for an extension written in lower case. *)
Definition hasExtension (extension path : string) : bool :=
  endsWith extension (lowerAscii path).

Definition guessMimeByPath (path : string) : string :=
  if hasExtension ".png" path then "image/png"
  else if hasExtension ".jpg" path || hasExtension ".jpeg" path then "image/jpeg"
  else if hasExtension ".gif" path then "image/gif"
  else if hasExtension ".webp" path then "image/webp"
  else if hasExtension ".svg" path then "image/svg+xml"
  else if hasExtension ".mp3" path then "audio/mpeg"
  else if hasExtension ".wav" path then "audio/wav"
  else if hasExtension ".m4a" path then "audio/mp4"
  else if hasExtension ".mp4" path then "video/mp4"
  else if hasExtension ".webm" path then "video/webm"
  else if hasExtension ".json" path then "application/json"
  else if hasExtension ".txt" path then "text/plain"
  else if hasExtension ".dat" path then "application/octet-stream"
  else "application/octet-stream".

Definition detectMediaType (path : string) : MediaType :=
  if hasExtension ".png" path || hasExtension ".jpg" path
     || hasExtension ".jpeg" path || hasExtension ".gif" path
     || hasExtension ".webp" path || hasExtension ".svg" path then Image
  else if hasExtension ".mp3" path || hasExtension ".wav" path
          || hasExtension ".m4a" path || hasExtension ".ogg" path then Audio
  else if hasExtension ".mp4" path || hasExtension ".webm" path
          || hasExtension ".mov" path then Video
  else File.

(** [AssetReference]: a path, or a descriptor of which [resolveAssetKey]
    reads [file_path] and [download_url]. *)
Inductive AssetReference :=
| RefPath (path : string)
| RefDescriptor (file_path download_url : option string).

Definition safeKey (path : string) : option string :=
  if isSafeRelativePath path then Some (normalizePath path) else None.

Definition resolveAssetKey (pointer : string)
    (assetsJson : JsMap.t AssetReference) : option string :=
  match JsMap.get assetsJson pointer with
  | None => None
  | Some (RefPath path) =>
      if String.eqb path EmptyString then None else safeKey path
  | Some (RefDescriptor file_path download_url) =>
      match truthy file_path with
      | Some path => safeKey path
      | None =>
          match truthy download_url with
          | Some url => safeKey url
          | None => None
          end
      end
  end.

End Media.

Module MediaFacts.
Import Js JsFacts AssetPath AssetPathFacts Graph Media.

(** The type in front of the slash of a MIME type. *)
Definition mimeFamily (mime : string) : string :=
  match split slash mime with
  | family :: _ => family
  | [] => EmptyString
  end.

Lemma endsWith_same_length a b s :
  String.length a = String.length b ->
  endsWith a s = true -> endsWith b s = true -> a = b.
Proof.
  unfold endsWith. intros Hlen Ha Hb.
  apply andb_prop in Ha as [_ Ha]. apply andb_prop in Hb as [_ Hb].
  apply String.eqb_eq in Ha, Hb. rewrite Hlen in Ha. congruence.
Qed.

(** A text that ends with [a] ends with what is left of [a] without its
    first character. *)
Lemma endsWith_tail x a s :
  endsWith (String x a) s = true -> endsWith a s = true.
Proof.
  unfold endsWith. intros H. apply andb_prop in H as [Hlen H].
  apply Nat.leb_le in Hlen. apply String.eqb_eq in H. simpl in Hlen.
  apply andb_true_intro. split; [apply Nat.leb_le; lia|].
  apply String.eqb_eq.
  replace (String.length s - String.length a)%nat
    with ((String.length s - String.length (String x a)) + 1)%nat
    by (simpl; lia).
  by rewrite SearchExtras.dropChars_add, H.
Qed.

Lemma ogg_is_not_video path :
  hasExtension ".ogg" path = true ->
  hasExtension ".mp4" path = false /\ hasExtension ".webm" path = false.
Proof.
  unfold hasExtension. intros Hogg. split.
  - destruct (endsWith ".mp4" (lowerAscii path)) eqn:E; [|done].
    by pose proof (endsWith_same_length ".ogg" ".mp4" _ eq_refl Hogg E).
  - destruct (endsWith ".webm" (lowerAscii path)) eqn:E; [|done].
    apply endsWith_tail in E.
    by pose proof (endsWith_same_length ".ogg" "webm" _ eq_refl Hogg E).
Qed.

(** X16. The two readings of a file extension agree: [detectMediaType]
    says image exactly when [guessMimeByPath] gives an [image/] type; a path
    with an [audio/] type is audio and one with a [video/] type is video;
    and a path that is a plain file has one of the types
    [application/json], [text/plain] and [application/octet-stream]. *)
Theorem media_type_agrees_with_mime_type path :
  (detectMediaType path = Image <-> mimeFamily (guessMimeByPath path) = "image") /\
  (mimeFamily (guessMimeByPath path) = "audio" -> detectMediaType path = Audio) /\
  (mimeFamily (guessMimeByPath path) = "video" -> detectMediaType path = Video) /\
  (detectMediaType path = File ->
   mimeFamily (guessMimeByPath path) = "application" \/
   mimeFamily (guessMimeByPath path) = "text") /\
  (detectMediaType path = File ->
   guessMimeByPath path = "application/json" \/
   guessMimeByPath path = "text/plain" \/
   guessMimeByPath path = "application/octet-stream").
Proof.
  unfold detectMediaType, guessMimeByPath.
  destruct (hasExtension ".png" path); [by repeat split|].
  destruct (hasExtension ".jpg" path); [by repeat split|].
  destruct (hasExtension ".jpeg" path); [by repeat split|].
  destruct (hasExtension ".gif" path); [by repeat split|].
  destruct (hasExtension ".webp" path); [by repeat split|].
  destruct (hasExtension ".svg" path); [by repeat split|].
  destruct (hasExtension ".mp3" path); [by repeat split|].
  destruct (hasExtension ".wav" path); [by repeat split|].
  destruct (hasExtension ".m4a" path); [by repeat split|].
  destruct (hasExtension ".ogg" path) eqn:Hogg.
  { destruct (ogg_is_not_video path Hogg) as [-> ->].
    by repeat case_match; repeat split. }
  destruct (hasExtension ".mp4" path); [by repeat split|].
  destruct (hasExtension ".webm" path); [by repeat split|].
  by repeat case_match; repeat split; auto.
Qed.

(** X17. An asset key [resolveAssetKey] returns is the normal form of a
    path of the reference (the reference itself, else its [file_path],
    else its [download_url]) that [isSafeRelativePath] accepts; it is not
    empty, holds no backslash, does not begin with a slash, and none of
    its segments is empty, [.] or [..]. *)
Theorem resolved_asset_keys_are_normal_safe_paths pointer assetsJson key :
  resolveAssetKey pointer assetsJson = Some key ->
  (exists path,
     isSafeRelativePath path = true /\ key = normalizePath path /\
     match JsMap.get assetsJson pointer with
     | Some (RefPath p) => path = p
     | Some (RefDescriptor file_path download_url) =>
         truthy file_path = Some path \/
         (truthy file_path = None /\ truthy download_url = Some path)
     | None => False
     end) /\
  key <> EmptyString /\
  includesChar backslash key = false /\
  startsWith "/" key = false /\
  Forall cleanSegment (split slash key).
Proof.
  intros Hkey.
  assert (exists path,
            isSafeRelativePath path = true /\ key = normalizePath path /\
            match JsMap.get assetsJson pointer with
            | Some (RefPath p) => path = p
            | Some (RefDescriptor file_path download_url) =>
                truthy file_path = Some path \/
                (truthy file_path = None /\ truthy download_url = Some path)
            | None => False
            end) as (path & Hsafe & -> & Hfrom).
  { unfold resolveAssetKey, safeKey in Hkey.
    destruct (JsMap.get assetsJson pointer) as [[p|fp du]|]; [| |done].
    - destruct (String.eqb p EmptyString); [done|].
      destruct (isSafeRelativePath p) eqn:E; [|done].
      injection Hkey as <-. eauto.
    - destruct (truthy fp) as [p|] eqn:Efp.
      + destruct (isSafeRelativePath p) eqn:E; [|done].
        injection Hkey as <-. eauto.
      + destruct (truthy du) as [u|] eqn:Edu; [|done].
        destruct (isSafeRelativePath u) eqn:E; [|done].
        injection Hkey as <-. eauto 6. }
  split; [eauto|].
  destruct (isSafeRelativePath_normalizes path Hsafe) as [Hne Hsegs].
  destruct (normalizePath_output path) as (Hb & Hs & _).
  done.
Qed.

Lemma resolved_asset_keys_are_normal_safe_paths_witness :
  Forall cleanSegment (split slash "img/a.png").
Proof.
  destruct (resolved_asset_keys_are_normal_safe_paths "file-1"
              [("file-1", RefDescriptor (Some "./img//a.png") None)] "img/a.png")
    as (_ & _ & _ & _ & Hsegs).
  - reflexivity.
  - exact Hsegs.
Defined.

End MediaFacts.

(** ** Timestamps on the way in and on the way out (slimConvert.ts,
    serverData.ts) *)

Module ServerData.

(** A [number | string] timestamp of [conversations.json]. *)
Inductive Timestamp :=
| Seconds (value : Z)
| DateText (text : string).

(** [Date.parse] is a parameter: [None] is [NaN]. *)
Section WithRuntime.
Variable dateParse : string -> option Z.

Definition normalizeTimestamp (value : option Timestamp) : Z :=
  match value with
  | None => 0
  | Some (Seconds v) =>
      if v =? 0 then 0 else v * (if v <? 10000000000 then 1000 else 1)
  | Some (DateText text) =>
      if String.eqb text EmptyString then 0
      else match dateParse text with
           | Some parsed => parsed
           | None => 0
           end
  end.

End WithRuntime.

End ServerData.

Module ServerDataFacts.
Import Graph ServerData.

Section WithRuntime.
Variable dateParse : string -> option Z.

(** X18. The viewer's [normalizeTimestamp] and the importer's [normalizeMs]
    read a numeric timestamp the same way but for one value: they differ
    exactly at 10000000000, which the importer takes for seconds and the
    viewer for milliseconds. *)
Theorem timestamp_readings_differ_only_at_the_threshold (v : Z) :
  normalizeTimestamp dateParse (Some (Seconds v)) = normalizeMs (Some v)
  <-> v <> 10000000000.
Proof.
  unfold normalizeTimestamp, normalizeMs. rewrite Z.gtb_ltb.
  destruct (Z.eqb_spec v 0); [lia|].
  destruct (Z.ltb_spec v 10000000000), (Z.ltb_spec 10000000000 v); lia.
Qed.

(** X19. A [last_message_time] the importer wrote is read back unchanged by
    the viewer exactly when the time it was made from is 0 or at least
    10000000 (seconds, or milliseconds above the threshold): an earlier
    positive time, or a negative one, is multiplied by 1000 a second
    time. *)
Theorem written_time_is_read_back (v : Z) :
  normalizeTimestamp dateParse (Some (Seconds (normalizeMs (Some v))))
  = normalizeMs (Some v)
  <-> v = 0 \/ 10000000 <= v.
Proof.
  unfold normalizeTimestamp, normalizeMs. rewrite Z.gtb_ltb.
  destruct (Z.eqb_spec v 0) as [->|Hv]; [simpl; lia|].
  destruct (Z.ltb_spec 10000000000 v).
  - destruct (Z.eqb_spec v 0); [lia|].
    destruct (Z.ltb_spec v 10000000000); lia.
  - destruct (Z.eqb_spec (v * 1000) 0); [lia|].
    destruct (Z.ltb_spec (v * 1000) 10000000000); lia.
Qed.

End WithRuntime.

End ServerDataFacts.

(** ** The pipeline as a whole: from the archives to the search index *)

Module PipelineFacts.
Import Js AssetPath Graph Dataset Search Ingest IngestFacts IngestExtras.
Import SearchBuilder SearchBuilderFacts.

(** The search lines of a payload point to the conversation of the
    payload. *)
Definition linesPointHome {Details} (payload : @Payload Details) : Prop :=
  Forall (fun line => loc_conversationId (line_loc line) = payloadId payload)
    (p_searchLines payload).

Lemma linesPointHome_clone {Details} (payload : @Payload Details) newId :
  linesPointHome (clonePayloadWithId payload newId).
Proof.
  unfold linesPointHome. simpl. apply Forall_forall. intros line Hin.
  by apply list_elem_of_In, in_map_iff in Hin as (original & <- & _).
Qed.

Lemma Forall_values_set {V} (P : V -> Prop) (m : JsMap.t V) k v :
  Forall P (JsMap.values m) -> P v -> Forall P (JsMap.values (JsMap.set m k v)).
Proof.
  intros Hm Hv. induction m as [|[k' v'] m IH]; simpl.
  - by constructor.
  - unfold JsMap.values in *. simpl in Hm. inversion Hm; subst.
    destruct (String.eqb k' k); simpl; constructor; auto.
Qed.

Lemma Forall_values_mergeInto {P : Type} (Q : P -> Prop)
    (rank : P -> Merge.ComparisonPayload) (m : JsMap.t P) id p :
  Forall Q (JsMap.values m) -> Q p ->
  Forall Q (JsMap.values (Merge.mergeInto rank m id p)).
Proof.
  intros Hm Hp. unfold Merge.mergeInto.
  destruct (JsMap.get m id); [destruct (Merge.shouldReplace _ _)|];
    by try apply Forall_values_set.
Qed.

Section WithRuntime.
Context {Content Metadata Details AssetsIndex Bytes : Type}.
Variable convertParts :
  option Content -> AssetsIndex -> list Graph.Block * list (string * string).
Variable buildDetails : @Graph.RawMessage Content Metadata -> option Details.
Variable buildSnippet : string -> string.
Variable jsonParses : string -> bool.
Variable nfkc : string -> string.
Variable toLocaleLowerCase : string -> string.
Variable unzipSync : Bytes -> option (list (string * Bytes)).
Variable strFromU8 : Bytes -> string.
Variable parseConversations : string -> option (@Parsed Content Metadata).
Variable parseAssets : string -> option AssetsIndex.
Variable emptyAssets : AssetsIndex.

#[local] Abbreviation buildSearchData :=
  (@buildSearchData jsonParses nfkc toLocaleLowerCase Details).
#[local] Abbreviation importDatasets :=
  (importDatasets convertParts buildDetails buildSnippet buildSearchData
     unzipSync strFromU8 parseConversations parseAssets emptyAssets).
#[local] Abbreviation importSources :=
  (importSources convertParts buildDetails buildSnippet buildSearchData
     unzipSync strFromU8 parseConversations parseAssets emptyAssets).
#[local] Abbreviation serverConvert :=
  (serverConvert convertParts buildDetails buildSnippet buildSearchData).

Lemma makePayload_linesPointHome origin pinned
    (converted : @SlimConversionResult Details) order :
  linesPointHome (makePayload buildSearchData origin pinned converted order).
Proof.
  unfold linesPointHome, makePayload, payloadId. simpl.
  apply Forall_forall. intros line Hin. apply list_elem_of_In in Hin.
  by destruct (search_lines_come_from_indexable_blocks jsonParses nfkc
                 toLocaleLowerCase (conversation converted) line Hin)
    as (m & b & t & _ & _ & _ & _ & _ & _ & ? & _).
Qed.

Lemma serverConvert_linesPointHome mode
    (archive : @ArchiveData Content Metadata AssetsIndex Bytes)
    (state state' : @ServerState Details Bytes) raw :
  serverConvert mode archive state raw = Some state' ->
  Forall linesPointHome (JsMap.values (ss_merged state)) ->
  Forall linesPointHome (JsMap.values (ss_merged state')).
Proof.
  unfold Ingest.serverConvert.
  destruct (convertForImport _ _ _ raw (ad_assetsJson archive)) as [[c|w]|];
    [|by intros [= <-]|by intros [= <-]].
  set (payload := makePayload buildSearchData "server" (Some false) c (ss_order state)).
  assert (linesPointHome payload) as Hpayload by apply makePayload_linesPointHome.
  destruct mode.
  - intros [= <-] Hall. simpl. by apply Forall_values_mergeInto.
  - intros [= <-] Hall. simpl. by apply Forall_values_mergeInto.
  - destruct (JsMap.has (ss_merged state) (payloadId payload)) eqn:Hhas.
    + apply JsMapFacts.has_true_iff in Hhas.
      destruct (Clone.cloneInto (ss_merged state, ss_tracker state) payload)
        as [next|] eqn:Hclone; [|done].
      destruct (CloneFacts.cloneInto_taken (ss_merged state) (ss_tracker state)
                  payload next Hhas Hclone) as (n & -> & _).
      intros [= <-] Hall. simpl. unfold JsMap.values. rewrite map_app.
      apply Forall_app. split; [done|]. constructor; [|constructor].
      apply linesPointHome_clone.
    + apply JsMapFacts.has_false_iff in Hhas.
      rewrite CloneFacts.cloneInto_free by done.
      intros [= <-] Hall. simpl. unfold JsMap.values. rewrite map_app.
      apply Forall_app. split; [done|]. by constructor.
Qed.

Lemma initialState_linesPointHome mode (existing : list (@Payload Details))
    (assets : JsMap.t Bytes) :
  Forall linesPointHome existing ->
  Forall linesPointHome (JsMap.values (ss_merged (initialState mode existing assets))).
Proof.
  intros Hall.
  assert (forall acc : JsMap.t (@Payload Details) * Z,
            Forall linesPointHome (JsMap.values (fst acc)) ->
            Forall linesPointHome
              (JsMap.values
                 (fst (fold_left
                         (fun acc (payload : @Payload Details) =>
                            (JsMap.set (fst acc) (payloadId payload)
                               (withImportOrder payload (snd acc)), snd acc + 1))
                         existing acc)))) as Hfold.
  { induction Hall as [|p ps Hp _ IH]; intros acc Hacc; simpl; [done|].
    apply IH. simpl. by apply Forall_values_set. }
  destruct mode; simpl; try apply Hfold; constructor.
Qed.

(** X20. Search lines point home: if the search lines of every payload of
    the dataset on disk name the conversation of their payload, so do the
    search lines of every payload a successful import ends with, in every
    mode; the lines of a clone name the clone. *)
Theorem search_lines_point_to_their_conversation mode
    (existing : list (@Payload Details)) (assets : JsMap.t Bytes)
    (sources : list (@Source Bytes)) final :
  Forall linesPointHome existing ->
  importDatasets mode existing assets sources = Some (inr final) ->
  Forall linesPointHome (JsMap.values (ss_merged final)).
Proof.
  intros Hexisting. unfold Ingest.importDatasets.
  destruct sources as [|source sources]; [done|].
  intros Hrun.
  apply (importSources_inr convertParts buildDetails buildSnippet buildSearchData
           unzipSync strFromU8 parseConversations parseAssets emptyAssets
           mode (source :: sources) (initialState mode existing assets) final
           (fun s s' =>
              Forall linesPointHome (JsMap.values (ss_merged s)) ->
              Forall linesPointHome (JsMap.values (ss_merged s'))));
    [auto|auto|auto| |done|by apply initialState_linesPointHome].
  intros archive s raw s'. apply serverConvert_linesPointHome.
Qed.

End WithRuntime.

(** The sample runtime of [IngestFacts] with the search builder in it. *)
Definition sampleRun (mode : ImportMode) (sources : list (@Source string)) :=
  importDatasets GraphSample.textParts GraphSample.noDetails id
    (buildSearchData noJson id SearchFacts.asciiLower)
    sampleUnzip id sampleParse (fun _ => None) tt mode [] [] sources.

Lemma search_lines_point_to_their_conversation_witness :
  exists final,
    sampleRun CloneMode [goodZip; goodZip] = Some (inr final) /\
    Forall linesPointHome (JsMap.values (ss_merged final)).
Proof.
  destruct (sampleRun CloneMode [goodZip; goodZip]) as [[error|final]|] eqn:Hrun.
  - vm_compute in Hrun. discriminate Hrun.
  - exists final. split; [reflexivity|].
    apply (search_lines_point_to_their_conversation
             GraphSample.textParts GraphSample.noDetails id noJson id
             SearchFacts.asciiLower sampleUnzip id sampleParse (fun _ => None) tt
             CloneMode [] [] [goodZip; goodZip] final); [constructor|exact Hrun].
  - vm_compute in Hrun. discriminate Hrun.
Defined.

End PipelineFacts.

(** ** ContentSegmenter: from message content to blocks (slimConvert.ts) *)

Module Segmenter.
Import Js AssetPath Graph Search SearchBuilder Media.

(** A content part as [convertPart] reads it.  A field of an object part
    that the code reads with a test of its type is [Some] when the test
    succeeds: [content_type], [language], [text], [code], [asset_pointer]
    and [transcript] when they are strings, [parts] when it is an array,
    [metadataName] when [metadata] is an object whose [name] is a string,
    [ttsText] when [tts] is an object whose [text] is a string. *)
#[local] Unset Elimination Schemes.
Inductive Part :=
| PartNull
| PartString (text : string)
| PartOther
| PartObject (content_type : option string) (parts : option (list Part))
    (language text code asset_pointer metadataName transcript ttsText
       : option string).
#[local] Set Elimination Schemes.

(** A message content, read the same way; [None] is a content that is
    falsy or not an object. *)
Record RawContent := {
  c_parts : option (list Part);
  c_text : option string;
  c_transcript : option string;
}.

(** [line.match] on a fence, three backquotes and the rest of the line
    (the dot of the pattern stops at a line terminator, and the line must
    end there): the rest. *)
Definition fenceMatch (line : string) : option string :=
  if startsWith "```" line then
    let rest := dropChars 3 line in
    if includesChar lineFeed rest || includesChar carriageReturn rest then None
    else Some rest
  else None.

(** [x || 'text']. *)
Definition orText (lang : string) : string :=
  if String.eqb lang EmptyString then "text" else lang.

(** The variables of the loop of [splitMarkdownIntoBlocks]. *)
Record FenceState := {
  fs_blocks : list Block;
  fs_buffer : list string;
  fs_inFence : bool;
  fs_fenceLang : string;
  fs_fenceBuffer : list string;
}.

Definition fenceStep (st : FenceState) (line : string) : FenceState :=
  match fenceMatch line with
  | Some info =>
      if fs_inFence st then
        {| fs_blocks :=
             fs_blocks st
             ++ [Code (orText (fs_fenceLang st)) (join lineFeed (fs_fenceBuffer st))];
           fs_buffer := fs_buffer st; fs_inFence := false;
           fs_fenceLang := EmptyString; fs_fenceBuffer := [] |}
      else
        {| fs_blocks :=
             match fs_buffer st with
             | [] => fs_blocks st
             | buffer => fs_blocks st ++ [Markdown (join lineFeed buffer)]
             end;
           fs_buffer := []; fs_inFence := true; fs_fenceLang := trim info;
           fs_fenceBuffer := fs_fenceBuffer st |}
  | None =>
      if fs_inFence st then
        {| fs_blocks := fs_blocks st; fs_buffer := fs_buffer st;
           fs_inFence := true; fs_fenceLang := fs_fenceLang st;
           fs_fenceBuffer := fs_fenceBuffer st ++ [line] |}
      else
        {| fs_blocks := fs_blocks st; fs_buffer := fs_buffer st ++ [line];
           fs_inFence := false; fs_fenceLang := fs_fenceLang st;
           fs_fenceBuffer := fs_fenceBuffer st |}
  end.

(** [sanitizeRenderedMarkdown] removes characters of the private use area,
    which the 8-bit alphabet does not have, squeezes runs of line feeds
    and trims: it is a parameter. *)
Section WithRuntime.
Variable sanitizeRenderedMarkdown : string -> string.

Definition splitMarkdownIntoBlocks (text : string) : list Block :=
  let sanitizedText := sanitizeRenderedMarkdown text in
  if String.eqb sanitizedText EmptyString then []
  else
    let st :=
      fold_left fenceStep (linesFromText sanitizedText)
        {| fs_blocks := []; fs_buffer := []; fs_inFence := false;
           fs_fenceLang := EmptyString; fs_fenceBuffer := [] |} in
    let afterFence :=
      match fs_fenceBuffer st with
      | [] => fs_blocks st
      | fenceBuffer =>
          fs_blocks st ++ [Code (orText (fs_fenceLang st)) (join lineFeed fenceBuffer)]
      end in
    let afterBuffer :=
      match fs_buffer st with
      | [] => afterFence
      | buffer => afterFence ++ [Markdown (join lineFeed buffer)]
      end in
    match afterBuffer with
    | [] => [Markdown sanitizedText]
    | blocks => blocks
    end.

Definition isAssetContentType (contentType : option string) : bool :=
  match contentType with
  | Some t =>
      String.eqb t "image_file" || String.eqb t "asset_pointer"
      || String.eqb t "file" || String.eqb t "image_asset_pointer"
  | None => false
  end.

Definition isContentType (name : string) (contentType : option string) : bool :=
  match contentType with
  | Some t => String.eqb t name
  | None => false
  end.

(** [convertPart]: the blocks of a part and the assignments
    [assetsMap[pointer] = assetKey] it runs, in order.  What an assignment
    leaves in the asset map, an object literal, is for [Graph.recordAssets]
    to say: nothing when the pointer is [__proto__]. *)
Fixpoint convertPart (assetsJson : JsMap.t AssetReference) (part : Part)
    : list Block * list (string * string) :=
  match part with
  | PartNull => ([], [])
  | PartString text =>
      if String.eqb (trim text) EmptyString then ([], [])
      else (splitMarkdownIntoBlocks text, [])
  | PartOther => ([], [])
  | PartObject contentType nestedParts language text code asset_pointer
      metadataName transcript ttsText =>
      let nested :=
        match nestedParts with
        | Some inner =>
            let results := map (convertPart assetsJson) inner in
            (concat (map fst results), concat (map snd results))
        | None => ([], [])
        end in
      if match nestedParts with Some _ => true | None => false end
         && isContentType "multimodal_text" contentType
      then nested
      else if isContentType "code" contentType then
        let lang := match language with Some l => l | None => "text" end in
        let codeText :=
          match text with
          | Some t => t
          | None => match code with Some c => c | None => EmptyString end
          end in
        ([Code (orText lang) codeText], [])
      else if isAssetContentType contentType then
        match truthy asset_pointer with
        | Some pointer =>
            match truthy (resolveAssetKey pointer assetsJson) with
            | Some assetKey =>
                ([Asset pointer (detectMediaType assetKey) metadataName],
                 [(pointer, assetKey)])
            | None => ([], [])
            end
        | None => ([], [])
        end
      else if isContentType "transcript" contentType
              || match truthy transcript with Some _ => true | None => false end
      then
        ([Transcript (match transcript with Some t => t | None => EmptyString end)],
         [])
      else if match nestedParts with Some (_ :: _) => true | _ => false end
      then nested
      else
        let text :=
          match text with
          | Some t => t
          | None => match ttsText with Some t => t | None => EmptyString end
          end in
        if String.eqb text EmptyString then ([], [])
        else (splitMarkdownIntoBlocks text, [])
  end.

Definition convertParts (content : option RawContent)
    (assetsJson : JsMap.t AssetReference)
    : list Block * list (string * string) :=
  match content with
  | None => ([], [])
  | Some contentData =>
      match c_parts contentData with
      | Some parts =>
          let results := map (convertPart assetsJson) parts in
          (concat (map fst results), concat (map snd results))
      | None =>
          match truthy (match c_text contentData with
                        | Some t => Some t
                        | None => c_transcript contentData
                        end) with
          | Some textValue => (splitMarkdownIntoBlocks textValue, [])
          | None => ([], [])
          end
      end
  end.

End WithRuntime.

End Segmenter.

Module SegmenterFacts.
Import Js JsFacts AssetPath Graph Search SearchBuilder Media Segmenter.

Definition isFence (line : string) : bool :=
  match fenceMatch line with Some _ => true | None => false end.

Definition notFence (line : string) : bool := negb (isFence line).

(** The text a markdown or code block shows. *)
Definition blockText (b : Block) : string :=
  match b with
  | Markdown text => text
  | Code _ text => text
  | Transcript text => text
  | Asset _ _ _ => EmptyString
  end.

(** A markdown block, or a code block that names a language. *)
Definition proseOrCode (b : Block) : Prop :=
  match b with
  | Markdown _ => True
  | Code lang _ => lang <> EmptyString
  | _ => False
  end.

Definition pending (st : FenceState) : list string :=
  if fs_inFence st then fs_fenceBuffer st else fs_buffer st.

(** What the loop of [splitMarkdownIntoBlocks] keeps true after the lines
    [walked]. *)
Definition fenceInvariant (st : FenceState) (walked : list string) : Prop :=
  exists groups,
    map blockText (fs_blocks st) = map (join lineFeed) groups
    /\ concat groups ++ pending st = List.filter notFence walked
    /\ Forall proseOrCode (fs_blocks st)
    /\ (fs_inFence st = true -> fs_buffer st = [])
    /\ (fs_inFence st = false -> fs_fenceBuffer st = []).

Lemma orText_nonempty lang : orText lang <> EmptyString.
Proof.
  unfold orText. destruct (String.eqb lang EmptyString) eqn:E; [done|].
  by apply String.eqb_neq.
Qed.

Lemma fenceStep_invariant st walked line :
  fenceInvariant st walked -> fenceInvariant (fenceStep st line) (walked ++ [line]).
Proof.
  intros (groups & Htext & Hlines & Hkind & Hbuffer & Hfence).
  unfold fenceInvariant, fenceStep, pending in *.
  rewrite List.filter_app. cbn [List.filter]. unfold notFence at 2, isFence.
  destruct (fenceMatch line) as [info|]; cbn [negb];
    destruct (fs_inFence st) eqn:Hin; cbn [fs_blocks fs_buffer fs_inFence fs_fenceBuffer].
  - exists (groups ++ [fs_fenceBuffer st]). rewrite Hbuffer by done.
    rewrite !map_app, concat_app, Htext. simpl.
    rewrite !app_nil_r. repeat split; try done.
    apply Forall_app; split; [done|]. constructor; [|done].
    apply orText_nonempty.
  - rewrite Hfence by done. rewrite app_nil_r.
    destruct (fs_buffer st) as [|l buffer] eqn:Hbuf.
    + exists groups. rewrite app_nil_r in Hlines. by rewrite app_nil_r.
    + exists (groups ++ [l :: buffer]).
      rewrite !map_app, concat_app, Htext. simpl.
      rewrite !app_nil_r. repeat split; try done.
      apply Forall_app; split; [done|]. by constructor.
  - exists groups. rewrite app_assoc, Hlines. by repeat split.
  - exists groups. rewrite app_assoc, Hlines. by repeat split.
Qed.

Lemma fenceLoop_invariant lines st walked :
  fenceInvariant st walked ->
  fenceInvariant (fold_left fenceStep lines st) (walked ++ lines).
Proof.
  revert st walked. induction lines as [|line lines IH]; intros st walked Hinv.
  - by rewrite app_nil_r.
  - simpl. replace (walked ++ line :: lines) with ((walked ++ [line]) ++ lines)
      by by rewrite <- app_assoc.
    apply IH. by apply fenceStep_invariant.
Qed.

Lemma fenceLoop_plain lines st :
  Forall (fun line => isFence line = false) lines ->
  fs_inFence st = false ->
  fold_left fenceStep lines st
  = {| fs_blocks := fs_blocks st; fs_buffer := fs_buffer st ++ lines;
       fs_inFence := false; fs_fenceLang := fs_fenceLang st;
       fs_fenceBuffer := fs_fenceBuffer st |}.
Proof.
  revert st. induction lines as [|line lines IH]; intros st Hplain Hin.
  - rewrite app_nil_r. destruct st; simpl in *. by subst.
  - apply Forall_cons in Hplain as [Hline Hplain]. simpl.
    unfold isFence in Hline. unfold fenceStep at 2.
    destruct (fenceMatch line); [done|]. rewrite Hin.
    rewrite IH by done. simpl. by rewrite <- app_assoc.
Qed.

Lemma linesFromText_nonempty text : linesFromText text <> [].
Proof.
  destruct text as [|a r]; [done|]. simpl.
  destruct (Ascii.eqb a lineFeed); [done|].
  destruct r as [|b r']; [done|].
  destruct (Ascii.eqb a carriageReturn && Ascii.eqb b lineFeed); [done|].
  unfold consFirst. by destruct (linesFromText (String b r')).
Qed.

Lemma join_cons_cons c p q rest :
  join c (p :: q :: rest) = p +:+ String c (join c (q :: rest)).
Proof. done. Qed.

(** A text without carriage returns is the join of its lines. *)
Lemma join_linesFromText text :
  includesChar carriageReturn text = false ->
  join lineFeed (linesFromText text) = text.
Proof.
  induction text as [|a r IH]; [done|].
  intros Hcr. cbn [includesChar] in Hcr.
  apply orb_false_iff in Hcr as [Ha Hr]. specialize (IH Hr).
  cbn [linesFromText].
  destruct (Ascii.eqb a lineFeed) eqn:Hlf.
  - apply Ascii.eqb_eq in Hlf as ->.
    pose proof (linesFromText_nonempty r) as Hne.
    destruct (linesFromText r) as [|l ls] eqn:Hl; [done|].
    by rewrite join_cons_cons, IH.
  - destruct r as [|b r']; [done|].
    rewrite Ha. cbn [andb].
    pose proof (linesFromText_nonempty (String b r')) as Hne.
    destruct (linesFromText (String b r')) as [|l ls] eqn:Hl; [done|].
    cbn [consFirst]. destruct ls as [|l' ls'].
    + change (join lineFeed [l]) with l in IH.
      change (join lineFeed [String a l]) with (String a l). by rewrite IH.
    + rewrite join_cons_cons in *. rewrite <- IH. done.
Qed.

Section WithRuntime.
Variable sanitizeRenderedMarkdown : string -> string.

#[local] Abbreviation splitMarkdownIntoBlocks :=
  (Segmenter.splitMarkdownIntoBlocks sanitizeRenderedMarkdown).

Lemma split_invariant text :
  sanitizeRenderedMarkdown text <> EmptyString ->
  let lines := linesFromText (sanitizeRenderedMarkdown text) in
  Forall proseOrCode (splitMarkdownIntoBlocks text)
  /\ splitMarkdownIntoBlocks text <> []
  /\ ((List.filter notFence lines = []
       /\ splitMarkdownIntoBlocks text = [Markdown (sanitizeRenderedMarkdown text)])
      \/ exists groups,
           map blockText (splitMarkdownIntoBlocks text) = map (join lineFeed) groups
           /\ concat groups = List.filter notFence lines).
Proof.
  intros Hne lines. unfold Segmenter.splitMarkdownIntoBlocks.
  apply String.eqb_neq in Hne. rewrite Hne. fold lines.
  set (start := {| fs_blocks := []; fs_buffer := []; fs_inFence := false;
                  fs_fenceLang := EmptyString; fs_fenceBuffer := [] |}).
  assert (fenceInvariant (fold_left fenceStep lines start) lines) as Hinv.
  { apply (fenceLoop_invariant lines start []).
    exists []. by repeat split. }
  destruct Hinv as (groups & Htext & Hlines & Hkind & Hbuffer & Hfence).
  unfold pending in Hlines.
  set (st := fold_left fenceStep lines start) in *.
  cbv zeta.
  set (afterFence := match fs_fenceBuffer st with [] => fs_blocks st | _ => _ end).
  set (afterBuffer := match fs_buffer st with [] => afterFence | _ => _ end).
  assert (Forall proseOrCode afterBuffer
          /\ exists groups',
               map blockText afterBuffer = map (join lineFeed) groups'
               /\ concat groups' = List.filter notFence lines) as [Hkinds Hgroups].
  { subst afterBuffer afterFence.
    destruct (fs_inFence st) eqn:Hin.
    - rewrite Hbuffer by done.
      destruct (fs_fenceBuffer st) as [|l fenceBuffer] eqn:Hfb.
      + split; [done|]. exists groups. by rewrite app_nil_r in Hlines.
      + split.
        * apply Forall_app; split; [done|]. constructor; [|done].
          apply orText_nonempty.
        * exists (groups ++ [l :: fenceBuffer]).
          rewrite !map_app, concat_app, Htext. simpl.
          by rewrite app_nil_r.
    - rewrite Hfence by done.
      destruct (fs_buffer st) as [|l buffer] eqn:Hb.
      + split; [done|]. exists groups. by rewrite app_nil_r in Hlines.
      + split.
        * apply Forall_app; split; [done|]. by constructor.
        * exists (groups ++ [l :: buffer]).
          rewrite !map_app, concat_app, Htext. simpl.
          by rewrite app_nil_r. }
  destruct afterBuffer as [|b blocks] eqn:Hafter.
  - split; [by repeat constructor|]. split; [done|]. left. split; [|done].
    destruct Hgroups as (groups' & Hmap & Hconcat).
    destruct groups'; [|done]. by rewrite <- Hconcat.
  - split; [done|]. split; [done|]. by right.
Qed.

(** X21.  [splitMarkdownIntoBlocks] returns no block exactly when the
    sanitized text is empty; what it returns are markdown and code blocks
    only, and no code block has the empty language. *)
Theorem split_blocks_are_prose_or_named_code text :
  (splitMarkdownIntoBlocks text = [] <-> sanitizeRenderedMarkdown text = EmptyString)
  /\ Forall proseOrCode (splitMarkdownIntoBlocks text).
Proof.
  destruct (String.eqb (sanitizeRenderedMarkdown text) EmptyString) eqn:E.
  - unfold Segmenter.splitMarkdownIntoBlocks. rewrite E.
    apply String.eqb_eq in E. by repeat split.
  - apply String.eqb_neq in E.
    destruct (split_invariant text E) as (Hkind & Hne & _).
    split; [|done]. split; [done|]. intros Hempty. done.
Qed.

(** X22.  The blocks of a text partition its lines: either every line of
    the sanitized text is a fence line and the text is kept whole as one
    markdown block, or the lines that are not fence lines, in their order,
    are cut into groups and the text of each block is one group joined by
    line feeds: no line is lost, repeated or moved. *)
Theorem split_blocks_partition_the_lines text :
  sanitizeRenderedMarkdown text <> EmptyString ->
  let lines := linesFromText (sanitizeRenderedMarkdown text) in
  (List.filter notFence lines = []
   /\ splitMarkdownIntoBlocks text = [Markdown (sanitizeRenderedMarkdown text)])
  \/ exists groups,
       map blockText (splitMarkdownIntoBlocks text) = map (join lineFeed) groups
       /\ concat groups = List.filter notFence lines.
Proof.
  intros Hne. by destruct (split_invariant text Hne) as (_ & _ & H).
Qed.

(** X23.  A text in which no line is a fence line becomes exactly one
    markdown block: the lines of the sanitized text joined by line feeds,
    which is the sanitized text itself when it has no carriage return. *)
Theorem plain_text_is_one_markdown_block text :
  sanitizeRenderedMarkdown text <> EmptyString ->
  Forall (fun line => isFence line = false)
    (linesFromText (sanitizeRenderedMarkdown text)) ->
  splitMarkdownIntoBlocks text
  = [Markdown (join lineFeed (linesFromText (sanitizeRenderedMarkdown text)))]
  /\ (includesChar carriageReturn (sanitizeRenderedMarkdown text) = false ->
      splitMarkdownIntoBlocks text = [Markdown (sanitizeRenderedMarkdown text)]).
Proof.
  intros Hne Hplain.
  assert (splitMarkdownIntoBlocks text
          = [Markdown (join lineFeed (linesFromText (sanitizeRenderedMarkdown text)))])
    as Hsplit.
  { unfold Segmenter.splitMarkdownIntoBlocks.
    apply String.eqb_neq in Hne. rewrite Hne.
    rewrite fenceLoop_plain by done. simpl.
    pose proof (linesFromText_nonempty (sanitizeRenderedMarkdown text)).
    by destruct (linesFromText (sanitizeRenderedMarkdown text)). }
  split; [done|]. intros Hcr. by rewrite Hsplit, join_linesFromText.
Qed.

(** *** Asset blocks and the asset map *)

Section Assets.
Variable assetsJson : JsMap.t AssetReference.

#[local] Abbreviation convertPart :=
  (Segmenter.convertPart sanitizeRenderedMarkdown assetsJson).
#[local] Abbreviation convertParts :=
  (Segmenter.convertParts sanitizeRenderedMarkdown).

(** The key assigned to a pointer is the one [resolveAssetKey] gives. *)
Definition resolvedAssignment (w : string * string) : Prop :=
  resolveAssetKey (fst w) assetsJson = Some (snd w).

(** An asset block comes with an assignment among [writes] and shows the
    media type of the key assigned; a code block names a language. *)
Definition backedBlock (writes : list (string * string)) (b : Block) : Prop :=
  match b with
  | Asset pointer mediaType _ =>
      exists key, In (pointer, key) writes /\ mediaType = detectMediaType key
  | Code lang _ => lang <> EmptyString
  | _ => True
  end.

(** An assignment belongs to an asset block among [blocks]. *)
Definition shownAssignment (blocks : list Block) (w : string * string) : Prop :=
  exists alt, In (Asset (fst w) (detectMediaType (snd w)) alt) blocks.

Definition consistent (r : list Block * list (string * string)) : Prop :=
  Forall (backedBlock (snd r)) (fst r)
  /\ Forall resolvedAssignment (snd r)
  /\ Forall (shownAssignment (fst r)) (snd r).

Lemma backedBlock_mono b (w1 w2 : list (string * string)) :
  (forall x, In x w1 -> In x w2) -> backedBlock w1 b -> backedBlock w2 b.
Proof.
  intros Hsub. destruct b; simpl; try done.
  intros (key & Hin & Hmt). exists key. split; [by apply Hsub|done].
Qed.

Lemma shownAssignment_mono w (b1 b2 : list Block) :
  (forall x, In x b1 -> In x b2) -> shownAssignment b1 w -> shownAssignment b2 w.
Proof.
  intros Hsub (alt & Hin). exists alt. by apply Hsub.
Qed.

Lemma consistent_nil : consistent ([], []).
Proof. by repeat split. Qed.

Lemma consistent_prose blocks :
  Forall proseOrCode blocks -> consistent (blocks, []).
Proof.
  intros Hkind. split; [|by split]. simpl.
  eapply Forall_impl; [exact Hkind|]. by intros [].
Qed.

Lemma consistent_app r1 r2 :
  consistent r1 -> consistent r2 -> consistent (fst r1 ++ fst r2, snd r1 ++ snd r2).
Proof.
  intros (Hb1 & Hw1 & Hs1) (Hb2 & Hw2 & Hs2). unfold consistent. simpl.
  split; [|split].
  - apply Forall_app; split.
    + eapply Forall_impl; [exact Hb1|]. intros b. apply backedBlock_mono.
      intros x Hx. apply in_or_app. by left.
    + eapply Forall_impl; [exact Hb2|]. intros b. apply backedBlock_mono.
      intros x Hx. apply in_or_app. by right.
  - by apply Forall_app.
  - apply Forall_app; split.
    + eapply Forall_impl; [exact Hs1|]. intros w. apply shownAssignment_mono.
      intros x Hx. apply in_or_app. by left.
    + eapply Forall_impl; [exact Hs2|]. intros w. apply shownAssignment_mono.
      intros x Hx. apply in_or_app. by right.
Qed.

Lemma consistent_concat (results : list (list Block * list (string * string))) :
  Forall consistent results ->
  consistent (concat (map fst results), concat (map snd results)).
Proof.
  induction 1 as [|r results Hr _ IH]; [apply consistent_nil|].
  simpl. by apply (consistent_app r (_, _)).
Qed.

Lemma truthy_Some s v : truthy s = Some v -> s = Some v.
Proof.
  unfold truthy. destruct s as [x|]; [|done].
  by destruct (String.eqb x EmptyString).
Qed.

Lemma split_consistent text : consistent (splitMarkdownIntoBlocks text, []).
Proof.
  apply consistent_prose.
  destruct (String.eqb (sanitizeRenderedMarkdown text) EmptyString) eqn:E.
  - unfold Segmenter.splitMarkdownIntoBlocks. by rewrite E.
  - apply String.eqb_neq in E. by destruct (split_invariant text E).
Qed.

Lemma convertPart_consistent part : consistent (convertPart part).
Proof.
  revert part. fix IH 1. intros [|text| |contentType nestedParts language text
    code asset_pointer metadataName transcript ttsText].
  - apply consistent_nil.
  - simpl. destruct (String.eqb (trim text) EmptyString);
      [apply consistent_nil|apply split_consistent].
  - apply consistent_nil.
  - assert (forall inner,
              consistent (concat (map fst (map convertPart inner)),
                     concat (map snd (map convertPart inner)))) as Hnested.
    { intros inner. apply consistent_concat. revert inner. fix IHinner 1.
      intros [|p ps]; [constructor|].
      constructor; [apply IH|apply IHinner]. }
    clear IH. cbn [Segmenter.convertPart].
    destruct (_ && isContentType "multimodal_text" contentType).
    { destruct nestedParts; [apply Hnested|apply consistent_nil]. }
    destruct (isContentType "code" contentType).
    { split; [|by split]. constructor; [|done]. apply orText_nonempty. }
    destruct (isAssetContentType contentType).
    { destruct (truthy asset_pointer) as [pointer|]; [|apply consistent_nil].
      destruct (truthy (resolveAssetKey pointer assetsJson)) as [assetKey|] eqn:Hkey;
        [|apply consistent_nil].
      apply truthy_Some in Hkey. split; [|split].
      - constructor; [|done]. exists assetKey. split; [by left|done].
      - by constructor.
      - constructor; [|done]. exists metadataName. by left. }
    destruct (isContentType "transcript" contentType || _).
    { split; [|by split]. by constructor. }
    destruct (match nestedParts with Some (_ :: _) => true | _ => false end).
    { destruct nestedParts; [apply Hnested|apply consistent_nil]. }
    cbv zeta. destruct (String.eqb _ EmptyString);
      [apply consistent_nil|apply split_consistent].
Qed.

Lemma convertParts_consistent (content : option RawContent) :
  consistent (convertParts content assetsJson).
Proof.
  unfold Segmenter.convertParts. destruct content as [contentData|];
    [|apply consistent_nil].
  destruct (c_parts contentData) as [parts|].
  - apply consistent_concat. apply Forall_map, Forall_true.
    apply convertPart_consistent.
  - destruct (truthy _); [apply split_consistent|apply consistent_nil].
Qed.

(** Every key of the asset map is the one [resolveAssetKey] gives. *)
Definition mapSound (m : JsMap.t string) : Prop :=
  forall pointer key,
    JsMap.get m pointer = Some key -> resolveAssetKey pointer assetsJson = Some key.

Lemma recordAssets_snoc m writes k v :
  recordAssets m (writes ++ [(k, v)])
  = JsObject.assign (recordAssets m writes) k v.
Proof. unfold recordAssets. by rewrite fold_left_app. Qed.

(** A pointer that is bound stays bound. *)
Lemma recordAssets_keeps m writes pointer :
  is_Some (JsMap.get m pointer) ->
  is_Some (JsMap.get (recordAssets m writes) pointer).
Proof.
  induction writes as [|[k v] writes IH] using rev_ind; [done|].
  intros H. rewrite recordAssets_snoc.
  destruct (decide (k = pointer)) as [->|Hne].
  - destruct (decide (pointer = JsObject.protoName)) as [->|Hproto].
    + rewrite JsObjectFacts.assign_proto. auto.
    + by rewrite JsObjectFacts.get_assign_eq.
  - rewrite JsObjectFacts.get_assign_ne by done. auto.
Qed.

(** After an assignment to a pointer other than [__proto__] the pointer is
    bound, to the key of some assignment to it. *)
Lemma recordAssets_last m writes pointer key :
  pointer <> JsObject.protoName ->
  In (pointer, key) writes ->
  exists key',
    JsMap.get (recordAssets m writes) pointer = Some key'
    /\ In (pointer, key') writes.
Proof.
  intros Hproto.
  induction writes as [|[k v] writes IH] using rev_ind; [done|].
  intros Hin. rewrite recordAssets_snoc.
  destruct (decide (k = pointer)) as [->|Hne].
  - exists v. rewrite JsObjectFacts.get_assign_eq by done.
    split; [done|]. apply in_or_app. right. by left.
  - rewrite JsObjectFacts.get_assign_ne by done.
    apply in_app_or in Hin as [Hin|[[= Heq _]|[]]]; [|done].
    destruct (IH Hin) as (key' & Hget & Hin'). exists key'.
    split; [done|]. apply in_or_app. by left.
Qed.

(** What the map holds afterwards it held before or an assignment gave. *)
Lemma recordAssets_from m writes pointer key :
  JsMap.get (recordAssets m writes) pointer = Some key ->
  JsMap.get m pointer = Some key \/ In (pointer, key) writes.
Proof.
  unfold recordAssets. revert m.
  induction writes as [|[k v] writes IH]; intros m H; simpl in *; [by left|].
  destruct (IH _ H) as [Hget|Hin]; [|right; by right].
  destruct (decide (k = pointer)) as [->|Hne].
  - destruct (decide (pointer = JsObject.protoName)) as [->|Hproto].
    + rewrite JsObjectFacts.assign_proto in Hget. by left.
    + rewrite JsObjectFacts.get_assign_eq in Hget by done.
      injection Hget as <-. right. by left.
  - rewrite JsObjectFacts.get_assign_ne in Hget by done. by left.
Qed.

Lemma recordAssets_proto m writes :
  JsMap.get m JsObject.protoName = None ->
  JsMap.get (recordAssets m writes) JsObject.protoName = None.
Proof.
  unfold recordAssets. revert m.
  induction writes as [|[k v] writes IH]; intros m H; simpl; [done|].
  by apply IH, JsObjectFacts.get_assign_proto.
Qed.

Lemma recordAssets_sound m writes :
  mapSound m -> Forall resolvedAssignment writes -> mapSound (recordAssets m writes).
Proof.
  intros Hm Hwrites pointer key Hget.
  destruct (recordAssets_from m writes pointer key Hget) as [Hold|Hin].
  - by apply Hm.
  - rewrite Forall_forall in Hwrites.
    by apply list_elem_of_In, Hwrites in Hin.
Qed.

Lemma recordAssets_values (P : string -> Prop) m writes :
  Forall P (JsMap.values m) -> Forall (fun w => P (snd w)) writes ->
  Forall P (JsMap.values (recordAssets m writes)).
Proof.
  unfold recordAssets. revert m.
  induction writes as [|[k v] writes IH]; intros m Hm Hwrites; [done|].
  apply Forall_cons in Hwrites as [Hw Hwrites]. simpl. apply IH; [|done].
  unfold JsObject.assign. destruct (String.eqb k JsObject.protoName); [done|].
  by apply PipelineFacts.Forall_values_set.
Qed.

(** An asset block of [blocks]: its key, and its entry in the map after the
    assignments unless its pointer is [__proto__]. *)
Lemma bound_after_recording m writes blocks pointer mediaType alt :
  Forall (backedBlock writes) blocks ->
  Forall resolvedAssignment writes ->
  In (Asset pointer mediaType alt) blocks ->
  exists key,
    resolveAssetKey pointer assetsJson = Some key
    /\ mediaType = detectMediaType key
    /\ (pointer <> JsObject.protoName ->
        JsMap.get (recordAssets m writes) pointer = Some key).
Proof.
  intros Hblocks Hwrites Hin.
  rewrite Forall_forall in Hblocks. apply list_elem_of_In, Hblocks in Hin.
  destruct Hin as (key & Hkey & ->). exists key.
  rewrite Forall_forall in Hwrites.
  assert (resolveAssetKey pointer assetsJson = Some key) as Hresolved
    by by apply list_elem_of_In, Hwrites in Hkey.
  split; [done|]. split; [done|]. intros Hproto.
  destruct (recordAssets_last m writes pointer key Hproto Hkey)
    as (key' & Hget & Hin').
  rewrite Hget. f_equal.
  apply list_elem_of_In, Hwrites in Hin'. unfold resolvedAssignment in Hin'.
  simpl in Hin'. congruence.
Qed.

(** X24.  What [convertParts] returns and what it leaves in the asset map
    agree.  Every asset block has a pointer that [resolveAssetKey] resolves
    and shows the media type detected from the key; unless the pointer is
    [__proto__], the map binds the pointer to that key afterwards.  What the
    map holds afterwards it held before, or it is the key resolved for the
    pointer of an asset block returned.  The map never gets an entry under
    [__proto__]: the assignment to that name is lost on an object literal.
    No code block has the empty language. *)
Theorem asset_blocks_and_bindings_agree (content : option RawContent)
    (assetsMap : JsMap.t string) :
  let blocks := fst (convertParts content assetsJson) in
  let recorded := recordAssets assetsMap (snd (convertParts content assetsJson)) in
  (forall pointer mediaType alt,
     In (Asset pointer mediaType alt) blocks ->
     exists key,
       resolveAssetKey pointer assetsJson = Some key
       /\ mediaType = detectMediaType key
       /\ (pointer <> JsObject.protoName ->
           JsMap.get recorded pointer = Some key))
  /\ (forall pointer key,
        JsMap.get recorded pointer = Some key ->
        JsMap.get assetsMap pointer = Some key
        \/ (resolveAssetKey pointer assetsJson = Some key
            /\ exists alt, In (Asset pointer (detectMediaType key) alt) blocks))
  /\ (JsMap.get assetsMap JsObject.protoName = None ->
      JsMap.get recorded JsObject.protoName = None)
  /\ forall lang text, In (Code lang text) blocks -> lang <> EmptyString.
Proof.
  cbv zeta.
  destruct (convertParts_consistent content) as (Hblocks & Hwrites & Hshown).
  set (result := convertParts content assetsJson) in *.
  split; [|split; [|split]].
  - intros pointer mediaType alt Hin.
    by apply (bound_after_recording assetsMap (snd result) (fst result)
                pointer mediaType alt).
  - intros pointer key Hget.
    destruct (recordAssets_from _ _ _ _ Hget) as [Hold|Hin]; [by left|].
    right. rewrite Forall_forall in Hwrites, Hshown.
    split; [by apply list_elem_of_In, Hwrites in Hin|].
    by apply list_elem_of_In, Hshown in Hin.
  - apply recordAssets_proto.
  - intros lang text Hin. rewrite Forall_forall in Hblocks.
    by apply list_elem_of_In, Hblocks in Hin.
Qed.

(** *** The asset map of a converted conversation *)

Section Conversion.
Context {Metadata Details : Type}.
Variable buildDetails : @RawMessage RawContent Metadata -> option Details.
Variable buildSnippet : string -> string.

#[local] Abbreviation convertRawConversation :=
  (Graph.convertRawConversation convertParts buildDetails buildSnippet).
#[local] Abbreviation transformMessage :=
  (Graph.transformMessage convertParts buildDetails).
#[local] Abbreviation loopStep :=
  (Graph.loopStep convertParts buildDetails buildSnippet).
#[local] Abbreviation variantOf := (Graph.variantOf convertParts buildDetails).

(** The lists of blocks a message shows: its own and its variants'. *)
Definition blockLists (msg : @Message Details) : list (list Block) :=
  msg_blocks msg
  :: match msg_variants msg with
     | Some variants => map var_blocks variants
     | None => []
     end.

(** The asset blocks of a message show resolved keys and, unless their
    pointer is [__proto__], are bound in the asset map. *)
Definition assetsBound (m : JsMap.t string) (msg : @Message Details) : Prop :=
  forall blocks pointer mediaType alt,
    In blocks (blockLists msg) ->
    In (Asset pointer mediaType alt) blocks ->
    exists key,
      resolveAssetKey pointer assetsJson = Some key
      /\ mediaType = detectMediaType key
      /\ (pointer <> JsObject.protoName -> JsMap.get m pointer = Some key).

Lemma variantOf_consistent variant :
  consistent (var_blocks (fst (variantOf assetsJson variant)),
              snd (variantOf assetsJson variant)).
Proof.
  unfold Graph.variantOf. destruct (node_message variant) as [vm|]; simpl.
  - apply (convertParts_consistent (rm_content vm)).
  - apply consistent_nil.
Qed.

Lemma variants_consistent (variantNodes : list RawNode) :
  Forall resolvedAssignment
    (concat (map snd (map (variantOf assetsJson) variantNodes))).
Proof.
  induction variantNodes as [|v vs IH]; [constructor|].
  simpl. apply Forall_app. split; [|done].
  by destruct (variantOf_consistent v) as (_ & H & _).
Qed.

Lemma transformMessage_bound node nodes m msg m' :
  transformMessage node nodes assetsJson m = Some (msg, m') ->
  mapSound m ->
  mapSound m'
  /\ assetsBound m' msg
  /\ (forall pointer, is_Some (JsMap.get m pointer) -> is_Some (JsMap.get m' pointer))
  /\ (JsMap.get m JsObject.protoName = None -> JsMap.get m' JsObject.protoName = None)
  /\ forall P : string -> Prop,
       (forall pointer key, resolveAssetKey pointer assetsJson = Some key -> P key) ->
       Forall P (JsMap.values m) -> Forall P (JsMap.values m').
Proof.
  unfold Graph.transformMessage.
  destruct (node_message node) as [raw|]; [|done].
  set (variantNodes := match roleOf (rm_author_role raw) with
                       | Assistant => _ | _ => _ end).
  set (converted := convertParts (rm_content raw) assetsJson).
  set (writes := snd converted ++ _).
  intros [= <- <-] Hm.
  destruct (convertParts_consistent (rm_content raw)) as (Hblocks & Hbindings & _).
  fold converted in Hblocks, Hbindings.
  assert (Forall resolvedAssignment writes) as Hwrites.
  { apply Forall_app. split; [done|]. apply variants_consistent. }
  split; [by apply recordAssets_sound|]. split; [|split; [|split]].
  - intros blocks pointer mediaType alt Hlist Hin. unfold blockLists in Hlist.
    cbn [msg_blocks msg_variants] in Hlist.
    destruct Hlist as [<-|Hlist].
    + apply (bound_after_recording m writes (fst converted) pointer mediaType alt);
        try done.
      eapply Forall_impl; [exact Hblocks|]. intros b. apply backedBlock_mono.
      intros x Hx. apply in_or_app. by left.
    + assert (exists v, In v variantNodes
                /\ blocks = var_blocks (fst (variantOf assetsJson v)))
        as (v & Hv & ->).
      { destruct (map (variantOf assetsJson) variantNodes) eqn:Hmap; [done|].
        rewrite <- Hmap in Hlist. rewrite !in_map_iff in Hlist.
        destruct Hlist as (variant & <- & Hvariant).
        apply in_map_iff in Hvariant as (pair & <- & Hpair).
        apply in_map_iff in Hpair as (v & <- & Hv). by exists v. }
      apply (bound_after_recording m writes
               (var_blocks (fst (variantOf assetsJson v))) pointer mediaType alt);
        try done.
      destruct (variantOf_consistent v) as (Hvb & _ & _). simpl in Hvb.
      eapply Forall_impl; [exact Hvb|]. intros b. apply backedBlock_mono.
      intros x Hx. apply in_or_app. right.
      apply in_concat. exists (snd (variantOf assetsJson v)). split; [|done].
      apply in_map, in_map. done.
  - intros pointer Hsome. by apply recordAssets_keeps.
  - apply recordAssets_proto.
  - intros P HP Hvalues. apply recordAssets_values; [done|].
    eapply Forall_impl; [exact Hwrites|]. intros [pointer key] Hw. simpl.
    by apply (HP pointer).
Qed.

(** What the loop over the path keeps true. *)
Definition loopInvariant (st : @LoopState Details) : Prop :=
  mapSound (st_assetsMap st)
  /\ Forall (assetsBound (st_assetsMap st)) (st_messages st)
  /\ JsMap.get (st_assetsMap st) JsObject.protoName = None
  /\ Forall (fun key => exists pointer, resolveAssetKey pointer assetsJson = Some key)
       (JsMap.values (st_assetsMap st)).

Lemma loopStep_invariant nodes st node :
  loopInvariant st -> loopInvariant (loopStep nodes assetsJson st node).
Proof.
  intros (Hm & Hbound & Hproto & Hvalues). unfold Graph.loopStep.
  destruct (transformMessage node nodes assetsJson (st_assetsMap st))
    as [[msg m']|] eqn:Hstep; [|done].
  destruct (transformMessage_bound _ _ _ _ _ Hstep Hm)
    as (Hm' & Hmsg & Hkeeps & Hproto' & Hvals).
  split; [done|]. split; [|split]; cbn [st_assetsMap st_messages].
  - apply Forall_app. split; [|by constructor].
    eapply Forall_impl; [exact Hbound|].
    intros old Hold blocks pointer mediaType alt Hlist Hin.
    destruct (Hold blocks pointer mediaType alt Hlist Hin)
      as (key & Hresolved & -> & Hget).
    exists key. split; [done|]. split; [done|]. intros Hne.
    destruct (Hkeeps pointer) as [key' Hget']; [by rewrite Hget|].
    rewrite Hget'. f_equal. apply Hm' in Hget'. congruence.
  - by apply Hproto'.
  - apply Hvals; [|done]. intros pointer key Hkey. by exists pointer.
Qed.

Lemma loop_invariant nodes path st :
  loopInvariant st ->
  loopInvariant (fold_left (loopStep nodes assetsJson) path st).
Proof.
  revert st. induction path as [|node path IH]; intros st Hinv; [done|].
  simpl. apply IH. by apply loopStep_invariant.
Qed.

(** X25.  In a converted conversation every asset block of a message or of
    one of its variants shows the media type of the key that
    [resolveAssetKey] gives for its pointer; unless the pointer is
    [__proto__], the conversation's asset map binds the pointer to that key
    and the key is among the asset keys returned.  The asset map has no
    entry under [__proto__] (the assignment to that name is lost on an object
    literal), so an asset block with that pointer is shown without being
    bound.  Every asset key returned is the key resolved for some
    pointer. *)
Theorem converted_asset_blocks_are_bound raw r :
  convertRawConversation raw assetsJson = Some (Some r) ->
  (forall key, In key (assetKeys r) ->
     exists pointer, resolveAssetKey pointer assetsJson = Some key)
  /\ (forall m, conv_assetsMap (conversation r) = Some m ->
        JsMap.get m JsObject.protoName = None)
  /\ forall msg blocks pointer mediaType alt,
       In msg (messages (conversation r)) ->
       In blocks (blockLists msg) ->
       In (Asset pointer mediaType alt) blocks ->
       exists key,
         resolveAssetKey pointer assetsJson = Some key
         /\ mediaType = detectMediaType key
         /\ (pointer <> JsObject.protoName ->
             exists m,
               conv_assetsMap (conversation r) = Some m
               /\ JsMap.get m pointer = Some key
               /\ In key (assetKeys r)).
Proof.
  unfold Graph.convertRawConversation.
  destruct (mapping raw) as [nodes|]; [|done].
  destruct (truthy (current_node raw)) as [cur|]; [|done].
  destruct (collectPath _ _ _ _ _) as [path|]; [|done].
  set (st := fold_left _ _ _).
  assert (loopInvariant st) as (Hm & Hbound & Hproto & Hvalues).
  { apply loop_invariant. split; [done|]. split; [constructor|].
    split; [done|constructor]. }
  clearbody st. unfold Graph.finish.
  destruct (st_messages st) as [|first rest] eqn:Hmsgs; [done|].
  intros [= <-]. cbn [assetKeys conversation messages conv_assetsMap].
  split; [|split].
  - intros key Hkey. rewrite SearchBuilderFacts.dedupe_In in Hkey.
    rewrite Forall_forall in Hvalues. by apply list_elem_of_In, Hvalues in Hkey.
  - intros m Hsome. destruct (st_assetsMap st) eqn:E; [done|].
    by injection Hsome as <-.
  - intros msg blocks pointer mediaType alt Hmsg Hlist Hin.
    rewrite Forall_forall in Hbound. apply list_elem_of_In, Hbound in Hmsg.
    destruct (Hmsg blocks pointer mediaType alt Hlist Hin)
      as (key & Hresolved & -> & Hget).
    exists key. split; [done|]. split; [done|]. intros Hne.
    specialize (Hget Hne). exists (st_assetsMap st).
    split; [|split; [done|]].
    + destruct (st_assetsMap st); [done|done].
    + rewrite SearchBuilderFacts.dedupe_In.
      apply IngestExtras.get_Some_In in Hget.
      unfold JsMap.values. apply in_map_iff. by exists (pointer, key).
Qed.

End Conversion.

End Assets.

End WithRuntime.

(** The examples take a sanitizer that only trims. *)
Definition fencedText : string :=
  "intro" +:+ String lineFeed ("```js" +:+ String lineFeed
    ("let x" +:+ String lineFeed ("```" +:+ String lineFeed "outro"))).

Definition plainText : string := "one" +:+ String lineFeed "two".

Lemma split_blocks_partition_the_lines_witness :
  (List.filter notFence (linesFromText (trim fencedText)) = []
   /\ splitMarkdownIntoBlocks trim fencedText = [Markdown (trim fencedText)])
  \/ exists groups,
       map blockText (splitMarkdownIntoBlocks trim fencedText)
       = map (join lineFeed) groups
       /\ concat groups = List.filter notFence (linesFromText (trim fencedText)).
Proof.
  apply (split_blocks_partition_the_lines trim fencedText).
  vm_compute. discriminate.
Defined.

Lemma plain_text_is_one_markdown_block_witness :
  splitMarkdownIntoBlocks trim plainText
  = [Markdown (join lineFeed (linesFromText (trim plainText)))]
  /\ (includesChar carriageReturn (trim plainText) = false ->
      splitMarkdownIntoBlocks trim plainText = [Markdown (trim plainText)]).
Proof.
  apply (plain_text_is_one_markdown_block trim plainText).
  - vm_compute. discriminate.
  - vm_compute. repeat constructor.
Defined.

(** A conversation of one user message that shows two pictures; the
    pointer of the second is [__proto__], which the asset index holds as a
    property of its own. *)
Definition pictureAssets : JsMap.t AssetReference :=
  [("file-1", RefPath "./assets/a.png"); ("__proto__", RefPath "b.png")].

Definition picture : @RawNode RawContent unit :=
  {| node_id := "n1"; node_parent := None; node_children := None;
     node_message :=
       Some {| rm_id := Some "m1"; rm_author_role := Some "user";
               rm_create_time := Some 1700000000; rm_update_time := None;
               rm_recipient := None;
               rm_content :=
                 Some {| c_parts :=
                           Some [PartObject (Some "image_asset_pointer") None
                                   None None None (Some "file-1") None None None;
                                 PartObject (Some "image_asset_pointer") None
                                   None None None (Some "__proto__") None None
                                   None];
                         c_text := None; c_transcript := None |};
               rm_metadata := None |} |}.

Definition pictureGraph : @RawConversation RawContent unit :=
  {| conversation_id := Some "c1"; raw_title := None;
     current_node := Some "n1"; mapping := Some {[ "n1" := picture ]};
     raw_create_time := Some 1700000000; raw_update_time := None |}.

Definition convertPicture : option (option (@SlimConversionResult unit)) :=
  convertRawConversation (convertParts trim) (fun _ => None) id
    pictureGraph pictureAssets.

Lemma converted_asset_blocks_are_bound_witness :
  exists r,
    convertPicture = Some (Some r)
    /\ (forall key, In key (assetKeys r) ->
          exists pointer, resolveAssetKey pointer pictureAssets = Some key)
    /\ (forall m, conv_assetsMap (conversation r) = Some m ->
          JsMap.get m JsObject.protoName = None)
    /\ forall msg blocks pointer mediaType alt,
         In msg (messages (conversation r)) ->
         In blocks (blockLists msg) ->
         In (Asset pointer mediaType alt) blocks ->
         exists key,
           resolveAssetKey pointer pictureAssets = Some key
           /\ mediaType = detectMediaType key
           /\ (pointer <> JsObject.protoName ->
               exists m,
                 conv_assetsMap (conversation r) = Some m
                 /\ JsMap.get m pointer = Some key
                 /\ In key (assetKeys r)).
Proof.
  destruct convertPicture as [[r|]|] eqn:Hrun.
  - exists r. split; [reflexivity|].
    exact (converted_asset_blocks_are_bound trim pictureAssets (fun _ => None) id
             pictureGraph r Hrun).
  - vm_compute in Hrun. discriminate Hrun.
  - vm_compute in Hrun. discriminate Hrun.
Defined.

(** Both pictures are shown; only the first is bound and listed. *)
Example picture_is_bound :
  option_map
    (fun r => (assetKeys r, conv_assetsMap (conversation r),
               map (@msg_blocks unit) (messages (conversation r))))
    (mjoin convertPicture)
  = Some (["assets/a.png"], Some [("file-1", "assets/a.png")],
          [[Asset "file-1" Image None; Asset "__proto__" Image None]]).
Proof. vm_compute. reflexivity. Qed.

End SegmenterFacts.

(** ** SearchWorker: what the scan does not miss (searchWorker.ts) *)

Module SearchCompleteness.
Import Js Dataset Search SearchFacts SearchExtras.

Section WithRuntime.
Variable nfkc : string -> string.
Variable toLocaleLowerCase : string -> string.

(** The line holds the needle of the scan. *)
Definition matches (query : string) (line : SearchLine) : Prop :=
  is_Some (indexOf (toLocaleLowerCase (trim query))
             (toLocaleLowerCase (line_text line))).

Lemma scanLines_complete state data conversationId query limit hits lines :
  let result :=
    scanLines toLocaleLowerCase state data conversationId (trim query)
      (toLocaleLowerCase (trim query)) limit hits lines in
  (exists more, result = hits ++ more) /\
  ((length result < limit)%nat ->
   forall line, In line lines -> matches query line ->
     exists hit, In hit result
       /\ hitOf toLocaleLowerCase state query conversationId line hit).
Proof.
  unfold scanLines. revert hits.
  induction lines as [|line lines IH]; intros hits; simpl.
  - split; [exists []; by rewrite app_nil_r|]. by intros _ line [].
  - destruct (Nat.leb_spec limit (length hits)) as [Hfull|Hroom].
    + destruct (IH hits) as [[more Hmore] Hall]. split; [by exists more|].
      intros Hshort. exfalso. rewrite Hmore, length_app in Hshort. lia.
    + destruct (indexOf _ _) as [idx|] eqn:Hidx.
      * match goal with |- context [hits ++ [?h]] => set (new := h) end.
        destruct (IH (hits ++ [new])) as [[more Hmore] Hall]. split.
        { exists (new :: more). by rewrite Hmore, <- app_assoc. }
        intros Hshort other [<-|Hin] Hmatch; [|by apply Hall].
        exists new. split.
        { rewrite Hmore. apply in_or_app. left. apply in_or_app. right. by left. }
        subst new. unfold hitOf.
        cbn [hit_conversationId hit_messageId hit_blockIndex hit_lineNo
             hit_snippet].
        repeat split; try done; [by exists idx|apply snippet_parts].
      * destruct (IH hits) as [Hmore Hall]. split; [done|].
        intros Hshort other [<-|Hin] Hmatch; [|by apply Hall].
        unfold matches in Hmatch. rewrite Hidx in Hmatch. by destruct Hmatch.
Qed.

Lemma scanCandidates_complete state data query limit candidateIds :
  let result :=
    scanCandidates toLocaleLowerCase state data query limit candidateIds in
  (length result < limit)%nat ->
  forall conversationId lines line,
    In conversationId candidateIds ->
    JsMap.get (lineBuckets state) conversationId = Some lines ->
    In line lines -> matches query line ->
    exists hit, In hit result
      /\ hitOf toLocaleLowerCase state query conversationId line hit.
Proof.
  unfold scanCandidates.
  enough (forall hits,
            let result :=
              fold_left
                (fun hits conversationId =>
                   if (limit <=? length hits)%nat then hits
                   else
                     scanLines toLocaleLowerCase state data conversationId
                       (trim query) (toLocaleLowerCase (trim query)) limit hits
                       (match JsMap.get (lineBuckets state) conversationId with
                        | Some lines => lines
                        | None => []
                        end))
                candidateIds hits in
            (exists more, result = hits ++ more) /\
            ((length result < limit)%nat ->
             forall conversationId lines line,
               In conversationId candidateIds ->
               JsMap.get (lineBuckets state) conversationId = Some lines ->
               In line lines -> matches query line ->
               exists hit, In hit result
                 /\ hitOf toLocaleLowerCase state query conversationId line hit))
    as H.
  { destruct (H []) as [_ Hall]. exact Hall. }
  induction candidateIds as [|id ids IH]; intros hits; simpl.
  - split; [exists []; by rewrite app_nil_r|]. by intros _ ? ? ? [].
  - destruct (Nat.leb_spec limit (length hits)) as [Hfull|Hroom].
    + destruct (IH hits) as [[more Hmore] Hall]. split; [by exists more|].
      intros Hshort. exfalso. rewrite Hmore, length_app in Hshort. lia.
    + destruct (scanLines_complete state data id query limit hits
                  (match JsMap.get (lineBuckets state) id with
                   | Some lines => lines
                   | None => []
                   end)) as [[more1 Hmore1] Hscan].
      match goal with |- context [fold_left _ ids ?h] => set (hits1 := h) in * end.
      destruct (IH hits1) as [[more Hmore] Hall]. split.
      { exists (more1 ++ more). by rewrite Hmore, Hmore1, <- app_assoc. }
      intros Hshort conversationId lines line [<-|Hin] Hget Hline Hmatch.
      * rewrite Hget in Hscan.
        destruct (Hscan) with (line := line) as (hit & Hhit & Hof); try done.
        { rewrite Hmore, length_app in Hshort. lia. }
        exists hit. split; [|done]. rewrite Hmore. apply in_or_app. by left.
      * by apply (Hall Hshort conversationId lines line).
Qed.

(** X26.  Short of the limit the search misses nothing: when the trigram
    filter leaves the candidates [candidateIds] and [performSearch] returns
    fewer hits than the limit, it returns a hit for every line, stored under
    a candidate in the line buckets, whose lower-cased text contains the
    lower-cased trimmed query. *)
Theorem search_misses_no_line_below_the_limit state data query limit
    candidateIds conversationId lines line :
  searchData state = Some data ->
  intersectPostings (postings state) (buildTrigrams nfkc toLocaleLowerCase query)
    None = Some (Some candidateIds) ->
  (length (performSearch nfkc toLocaleLowerCase state query limit) < limit)%nat ->
  In conversationId candidateIds ->
  JsMap.get (lineBuckets state) conversationId = Some lines ->
  In line lines ->
  matches query line ->
  exists hit,
    In hit (performSearch nfkc toLocaleLowerCase state query limit)
    /\ hitOf toLocaleLowerCase state query conversationId line hit.
Proof.
  intros Hdata Hfilter. unfold performSearch. rewrite Hdata.
  unfold buildTrigrams in *.
  destruct (_ <? 3)%nat; [done|].
  destruct (windows3 _) as [|g grams]; [done|].
  rewrite Hfilter.
  destruct (scanCandidates_spec toLocaleLowerCase state data query limit
              candidateIds) as [_ Hlen].
  rewrite firstn_all2 by exact Hlen.
  intros Hshort Hid Hget Hline Hmatch.
  by apply (scanCandidates_complete state data query limit candidateIds Hshort
              conversationId lines line).
Qed.

End WithRuntime.

Lemma search_misses_no_line_below_the_limit_witness :
  exists hit,
    In hit (performSearch id asciiLower (buildIndexes sampleBundle) "Quick" 40)
    /\ hitOf asciiLower (buildIndexes sampleBundle) "Quick" "c1" sampleLine hit.
Proof.
  apply (search_misses_no_line_below_the_limit id asciiLower
           (buildIndexes sampleBundle) sampleBundle "Quick" 40 ["c1"] "c1"
           [sampleLine] sampleLine).
  - reflexivity.
  - vm_compute. reflexivity.
  - vm_compute. lia.
  - by left.
  - vm_compute. reflexivity.
  - by left.
  - vm_compute. by eexists.
Defined.

End SearchCompleteness.

(** ** The search stores of the browser database (db.ts) *)

Module SearchStore.
Import Js Graph Dataset Search.

(** The three object stores that hold the search data, each keyed by a
    string: the lines of a conversation, the conversation ids of a gram,
    the grams of a conversation. *)
Record SearchDb := {
  searchLines : gmap string (list SearchLine);
  searchIndex : gmap string (list string);
  searchMembership : gmap string (list string);
}.

(** One turn of [addConversationToSearchIndex]: the ids of the gram's
    record, or none, go through a [Set] that also gets the conversation
    id, and the record is put back. *)
Definition addToIndex (conversationId : string)
    (index : gmap string (list string)) (gram : string)
    : gmap string (list string) :=
  <[gram := dedupe (default [] (index !! gram) ++ [conversationId])]> index.

(** The grams are made unique first, so every turn reads and writes a
    record of its own: the turns are taken one after the other. *)
Definition addConversationToSearchIndex (db : SearchDb)
    (conversationId : string) (grams : list string) : SearchDb :=
  {| searchLines := searchLines db;
     searchIndex :=
       fold_left (addToIndex conversationId) (dedupe grams) (searchIndex db);
     searchMembership := searchMembership db |}.

Definition saveSearchData (db : SearchDb) (conversationId : string)
    (lines : list SearchLine) (grams : list string) : SearchDb :=
  addConversationToSearchIndex
    {| searchLines := <[conversationId := lines]> (searchLines db);
       searchIndex := searchIndex db;
       searchMembership := <[conversationId := grams]> (searchMembership db) |}
    conversationId grams.

Definition isNot (conversationId other : string) : bool :=
  negb (String.eqb other conversationId).

(** One turn of the removal: a gram without a record is passed over; the
    record that loses its last id is deleted. *)
Definition removeFromIndex (conversationId : string)
    (index : gmap string (list string)) (gram : string)
    : gmap string (list string) :=
  match index !! gram with
  | None => index
  | Some ids =>
      match List.filter (isNot conversationId) ids with
      | [] => delete gram index
      | kept => <[gram := kept]> index
      end
  end.

Definition removeSearchData (db : SearchDb) (conversationId : string)
    : SearchDb :=
  let grams := default [] (searchMembership db !! conversationId) in
  {| searchLines := delete conversationId (searchLines db);
     searchIndex := fold_left (removeFromIndex conversationId) grams (searchIndex db);
     searchMembership := delete conversationId (searchMembership db) |}.

End SearchStore.

Module SearchStoreFacts.
Import Js Graph Dataset Search SearchStore.

(** No record of the index is empty or lists an id twice. *)
Definition tidy (index : gmap string (list string)) : Prop :=
  forall gram ids, index !! gram = Some ids -> ids <> [] /\ NoDup ids.

(** The index lists the conversation under no gram. *)
Definition unlisted (conversationId : string)
    (index : gmap string (list string)) : Prop :=
  forall gram ids, index !! gram = Some ids -> ~ In conversationId ids.

(** What the removal leaves of a record. *)
Definition without (conversationId : string) (entry : option (list string))
    : option (list string) :=
  match entry with
  | None => None
  | Some ids =>
      match List.filter (isNot conversationId) ids with
      | [] => None
      | kept => Some kept
      end
  end.

Lemma dedupeFrom_id seen xs :
  NoDup xs -> (forall x, In x xs -> ~ In x seen) -> dedupeFrom seen xs = xs.
Proof.
  revert seen. induction xs as [|x xs IH]; intros seen Hnd Hseen; [done|].
  apply NoDup_cons in Hnd as [Hx Hnd]. simpl.
  destruct (existsb (String.eqb x) seen) eqn:E.
  { apply existsb_exists in E as (y & Hy & Hxy).
    apply String.eqb_eq in Hxy as <-. destruct (Hseen x); [by left|done]. }
  f_equal. apply IH; [done|]. intros y Hy [<-|Hin].
  - apply Hx. by apply list_elem_of_In.
  - apply (Hseen y); [by right|done].
Qed.

Lemma dedupe_id xs : NoDup xs -> dedupe xs = xs.
Proof. intros Hnd. apply dedupeFrom_id; [done|]. by intros x _ []. Qed.

Lemma filter_isNot_id conversationId ids :
  ~ In conversationId ids -> List.filter (isNot conversationId) ids = ids.
Proof.
  induction ids as [|i ids IH]; [done|]. intros Hnin. simpl. unfold isNot at 1.
  destruct (String.eqb i conversationId) eqn:E.
  - apply String.eqb_eq in E. destruct Hnin. by left.
  - simpl. f_equal. apply IH. intros Hin. apply Hnin. by right.
Qed.

Lemma filter_isNot_out conversationId ids :
  ~ In conversationId (List.filter (isNot conversationId) ids).
Proof.
  intros Hin. apply filter_In in Hin as [_ Hnot]. unfold isNot in Hnot.
  by rewrite String.eqb_refl in Hnot.
Qed.

Lemma filter_isNot_idem conversationId ids :
  List.filter (isNot conversationId) (List.filter (isNot conversationId) ids)
  = List.filter (isNot conversationId) ids.
Proof. apply filter_isNot_id, filter_isNot_out. Qed.

Lemma without_idem conversationId entry :
  without conversationId (without conversationId entry)
  = without conversationId entry.
Proof.
  destruct entry as [ids|]; [|done]. simpl.
  destruct (List.filter (isNot conversationId) ids) as [|k kept] eqn:E; [done|].
  cbn [without]. rewrite <- E, filter_isNot_idem. by rewrite E.
Qed.

Lemma removeFromIndex_lookup conversationId index gram g :
  removeFromIndex conversationId index gram !! g
  = if decide (g = gram) then without conversationId (index !! g) else index !! g.
Proof.
  unfold removeFromIndex. destruct (decide (g = gram)) as [->|Hne].
  - destruct (index !! gram) as [ids|] eqn:E; simpl; [|by rewrite E].
    destruct (List.filter (isNot conversationId) ids).
    + by rewrite lookup_delete_eq.
    + by rewrite lookup_insert_eq.
  - destruct (index !! gram) as [ids|] eqn:E; [|done].
    destruct (List.filter (isNot conversationId) ids).
    + by rewrite lookup_delete_ne.
    + by rewrite lookup_insert_ne.
Qed.

Lemma remove_lookup conversationId grams index g :
  fold_left (removeFromIndex conversationId) grams index !! g
  = if decide (g ∈ grams) then without conversationId (index !! g)
    else index !! g.
Proof.
  revert index. induction grams as [|gram grams IH]; intros index; simpl.
  - destruct (decide (g ∈ [])) as [H|_]; [by apply elem_of_nil in H|done].
  - rewrite IH, removeFromIndex_lookup.
    destruct (decide (g ∈ grams)) as [Hin|Hnin];
      destruct (decide (g = gram)) as [->|Hne];
      destruct (decide (_ ∈ _ :: _)) as [Hor|Hnor]; try done.
    + by rewrite without_idem.
    + destruct Hnor. by apply list_elem_of_further.
    + destruct Hnor. by apply list_elem_of_further.
    + destruct Hnor. apply list_elem_of_here.
    + apply elem_of_cons in Hor as [?|?]; [by subst|done].
Qed.

Lemma add_lookup conversationId grams index g :
  NoDup grams ->
  fold_left (addToIndex conversationId) grams index !! g
  = if decide (g ∈ grams)
    then Some (dedupe (default [] (index !! g) ++ [conversationId]))
    else index !! g.
Proof.
  revert index. induction grams as [|gram grams IH]; intros index Hnd; simpl.
  - destruct (decide (g ∈ [])) as [H|_]; [by apply elem_of_nil in H|done].
  - apply NoDup_cons in Hnd as [Hgram Hnd]. rewrite IH by done.
    unfold addToIndex.
    destruct (decide (g ∈ grams)) as [Hin|Hnin];
      destruct (decide (_ ∈ _ :: _)) as [Hor|Hnor].
    + assert (gram <> g) by (by intros ->). by rewrite lookup_insert_ne.
    + destruct Hnor. by apply list_elem_of_further.
    + apply elem_of_cons in Hor as [->|?]; [|done]. by rewrite lookup_insert_eq.
    + rewrite lookup_insert_ne; [done|]. intros ->. destruct Hnor.
      apply list_elem_of_here.
Qed.

Lemma save_lookup db conversationId lines grams g :
  searchIndex (saveSearchData db conversationId lines grams) !! g
  = if decide (g ∈ grams)
    then Some (dedupe (default [] (searchIndex db !! g) ++ [conversationId]))
    else searchIndex db !! g.
Proof.
  unfold saveSearchData, addConversationToSearchIndex. cbn [searchIndex].
  rewrite add_lookup by apply SearchBuilderFacts.dedupeFrom_NoDup.
  destruct (decide (g ∈ dedupe grams)) as [Hin|Hnin];
    destruct (decide (g ∈ grams)) as [Hin'|Hnin']; try done.
  - destruct Hnin'. by apply list_elem_of_In, SearchBuilderFacts.dedupe_In,
      list_elem_of_In.
  - destruct Hnin. by apply list_elem_of_In, SearchBuilderFacts.dedupe_In,
      list_elem_of_In.
Qed.

Lemma dedupe_NoDup_In xs :
  NoDup (dedupe xs) /\ forall x, In x (dedupe xs) <-> In x xs.
Proof.
  split; [apply SearchBuilderFacts.dedupeFrom_NoDup|].
  intros x. apply SearchBuilderFacts.dedupe_In.
Qed.

(** X27.  After [saveSearchData] the lines and the grams are stored under
    the conversation; under each of its grams the index lists the
    conversation, once, together with every id listed there before; the
    records of all other grams are as they were. *)
Theorem saved_conversation_is_listed_under_its_grams db conversationId lines grams :
  let saved := saveSearchData db conversationId lines grams in
  searchLines saved !! conversationId = Some lines
  /\ searchMembership saved !! conversationId = Some grams
  /\ (forall gram, In gram grams ->
        exists ids,
          searchIndex saved !! gram = Some ids
          /\ NoDup ids
          /\ forall id, In id ids <->
               id = conversationId
               \/ In id (default [] (searchIndex db !! gram)))
  /\ (forall gram, ~ In gram grams ->
        searchIndex saved !! gram = searchIndex db !! gram).
Proof.
  cbv zeta. split; [|split; [|split]].
  - unfold saveSearchData. cbn [searchLines addConversationToSearchIndex].
    by rewrite lookup_insert_eq.
  - unfold saveSearchData. cbn [searchMembership addConversationToSearchIndex].
    by rewrite lookup_insert_eq.
  - intros gram Hgram. rewrite save_lookup.
    apply list_elem_of_In in Hgram.
    destruct (decide (gram ∈ grams)); [|done].
    eexists. split; [done|].
    destruct (dedupe_NoDup_In
                (default [] (searchIndex db !! gram) ++ [conversationId]))
      as [Hnd Hin].
    split; [done|]. intros id. rewrite Hin, in_app_iff. simpl. intuition.
  - intros gram Hgram. rewrite save_lookup.
    rewrite <- list_elem_of_In in Hgram.
    by destruct (decide (gram ∈ grams)).
Qed.

(** X28.  Saving the search data of a conversation that the stores do not
    know yet and removing it again gives the stores back as they were,
    when no record of the index was empty or listed an id twice. *)
Theorem removing_a_saved_conversation_restores_the_stores
    db conversationId lines grams :
  searchLines db !! conversationId = None ->
  searchMembership db !! conversationId = None ->
  unlisted conversationId (searchIndex db) ->
  tidy (searchIndex db) ->
  removeSearchData (saveSearchData db conversationId lines grams) conversationId
  = db.
Proof.
  intros Hlines Hmembership Hunlisted Htidy.
  destruct db as [storedLines index membership]. simpl in *.
  unfold removeSearchData, saveSearchData.
  cbn [searchLines searchMembership searchIndex addConversationToSearchIndex].
  rewrite lookup_insert_eq. change (default [] (Some grams)) with grams.
  rewrite !delete_insert_id by done. f_equal.
  apply map_eq. intros g. rewrite remove_lookup.
  rewrite add_lookup by apply SearchBuilderFacts.dedupeFrom_NoDup.
  destruct (decide (g ∈ grams)) as [Hin|Hnin];
    destruct (decide (g ∈ dedupe grams)) as [Hin'|Hnin']; try done.
  - destruct (index !! g) as [ids|] eqn:E; cbn [default].
    + destruct (Htidy g ids E) as [Hne Hnd].
      pose proof (Hunlisted g ids E) as Hout.
      rewrite dedupe_id.
      2:{ apply NoDup_app. split; [done|]. split; [|apply NoDup_singleton].
          intros x Hx Hx'. apply list_elem_of_singleton in Hx' as ->.
          by apply list_elem_of_In in Hx. }
      cbn [without]. rewrite List.filter_app, filter_isNot_id by done.
      simpl. unfold isNot. rewrite String.eqb_refl. simpl.
      rewrite app_nil_r. by destruct ids.
    + simpl. unfold isNot. by rewrite String.eqb_refl.
  - destruct Hnin'. by apply list_elem_of_In, SearchBuilderFacts.dedupe_In,
      list_elem_of_In.
  - destruct Hnin. by apply list_elem_of_In, SearchBuilderFacts.dedupe_In,
      list_elem_of_In.
Qed.

Lemma tidy_step_add conversationId index gram :
  tidy index -> tidy (addToIndex conversationId index gram).
Proof.
  intros Htidy g ids. unfold addToIndex.
  destruct (decide (gram = g)) as [->|Hne].
  - rewrite lookup_insert_eq. intros [= <-].
    destruct (dedupe_NoDup_In (default [] (index !! g) ++ [conversationId]))
      as [Hnd Hin].
    split; [|done]. intros Hempty.
    assert (In conversationId
              (dedupe (default [] (index !! g) ++ [conversationId]))) as H.
    { apply Hin, in_or_app. right. by left. }
    by rewrite Hempty in H.
  - rewrite lookup_insert_ne by done. apply Htidy.
Qed.

Lemma NoDup_filter_isNot conversationId (ids : list string) :
  NoDup ids -> NoDup (List.filter (isNot conversationId) ids).
Proof.
  induction 1 as [|i ids Hi Hnd IH]; [constructor|]. simpl.
  destruct (isNot conversationId i); [|done].
  constructor; [|done]. rewrite list_elem_of_In, filter_In.
  rewrite list_elem_of_In in Hi. tauto.
Qed.

Lemma tidy_step_remove conversationId index gram :
  tidy index -> tidy (removeFromIndex conversationId index gram).
Proof.
  intros Htidy g ids. rewrite removeFromIndex_lookup.
  destruct (decide (g = gram)) as [->|Hne]; [|apply Htidy].
  destruct (index !! gram) as [old|] eqn:E; [|done]. cbn [without].
  destruct (List.filter (isNot conversationId) old) as [|k kept] eqn:Ef; [done|].
  intros [= <-]. split; [done|]. rewrite <- Ef.
  apply NoDup_filter_isNot. by destruct (Htidy gram old E).
Qed.

Lemma tidy_fold (step : gmap string (list string) -> string -> gmap string (list string))
    grams index :
  (forall index gram, tidy index -> tidy (step index gram)) ->
  tidy index -> tidy (fold_left step grams index).
Proof.
  intros Hstep. revert index.
  induction grams as [|gram grams IH]; intros index Htidy; [done|].
  simpl. by apply IH, Hstep.
Qed.

(** The index lists the conversation only under grams of its membership
    record. *)
Definition listedByMembership (db : SearchDb) (conversationId : string) : Prop :=
  forall gram ids,
    searchIndex db !! gram = Some ids -> In conversationId ids ->
    In gram (default [] (searchMembership db !! conversationId)).

(** X29.  [saveSearchData] and [removeSearchData] keep the index tidy: no
    record is empty, none lists an id twice.  When the index lists a
    conversation only under the grams of its membership record, the removal
    leaves the conversation listed nowhere, without lines and without a
    membership record, and takes no other id out of any record. *)
Theorem index_stays_tidy_and_removal_is_complete db conversationId :
  tidy (searchIndex db) ->
  (forall lines grams,
     tidy (searchIndex (saveSearchData db conversationId lines grams)))
  /\ tidy (searchIndex (removeSearchData db conversationId))
  /\ (forall gram ids other,
        searchIndex db !! gram = Some ids -> In other ids ->
        other <> conversationId ->
        exists kept,
          searchIndex (removeSearchData db conversationId) !! gram = Some kept
          /\ In other kept)
  /\ (listedByMembership db conversationId ->
      unlisted conversationId (searchIndex (removeSearchData db conversationId))
      /\ searchLines (removeSearchData db conversationId) !! conversationId = None
      /\ searchMembership (removeSearchData db conversationId) !! conversationId
         = None).
Proof.
  intros Htidy. split; [|split; [|split]].
  - intros lines grams. unfold saveSearchData, addConversationToSearchIndex.
    cbn [searchIndex]. apply tidy_fold; [|done].
    intros index gram. apply tidy_step_add.
  - unfold removeSearchData. cbn [searchIndex]. apply tidy_fold; [|done].
    intros index gram. apply tidy_step_remove.
  - intros gram ids other Hget Hin Hne. unfold removeSearchData.
    cbn [searchIndex]. rewrite remove_lookup, Hget.
    destruct (decide (gram ∈ _)); [|by exists ids].
    cbn [without].
    assert (In other (List.filter (isNot conversationId) ids)) as Hkept.
    { apply filter_In. split; [done|]. unfold isNot.
      apply String.eqb_neq in Hne. by rewrite Hne. }
    destruct (List.filter (isNot conversationId) ids) as [|k kept]; [done|].
    by eexists.
  - intros Hlisted. unfold removeSearchData.
    cbn [searchIndex searchLines searchMembership].
    rewrite !lookup_delete_eq. split; [|done].
    intros gram ids. rewrite remove_lookup.
    destruct (decide (gram ∈ _)) as [Hin|Hnin].
    + destruct (searchIndex db !! gram) as [old|]; [|done]. cbn [without].
      destruct (List.filter (isNot conversationId) old) as [|k kept] eqn:Ef;
        [done|].
      intros [= <-]. rewrite <- Ef. apply filter_isNot_out.
    + intros Hget Hid. apply Hnin, list_elem_of_In. by apply (Hlisted gram ids).
Qed.

(** A store that knows one conversation, and the search data of another. *)
Definition sampleDb : SearchDb :=
  saveSearchData
    {| searchLines := ∅; searchIndex := ∅; searchMembership := ∅ |}
    "c1" [] ["the"; "he "; "the"].

Lemma sampleDb_tidy : tidy (searchIndex sampleDb).
Proof.
  intros gram ids. unfold sampleDb. rewrite save_lookup. cbn [searchIndex].
  destruct (decide (gram ∈ _)); [|by rewrite lookup_empty].
  rewrite lookup_empty. intros [= <-]. vm_compute.
  split; [done|]. repeat constructor. by intros H%elem_of_nil.
Qed.

Lemma sampleDb_unlisted : unlisted "c2" (searchIndex sampleDb).
Proof.
  intros gram ids. unfold sampleDb. rewrite save_lookup. cbn [searchIndex].
  destruct (decide (gram ∈ _)); [|by rewrite lookup_empty].
  rewrite lookup_empty. intros [= <-]. vm_compute. by intros [|[]].
Qed.

Lemma removing_a_saved_conversation_restores_the_stores_witness :
  removeSearchData (saveSearchData sampleDb "c2" [] ["the"; "cat"]) "c2"
  = sampleDb.
Proof.
  apply removing_a_saved_conversation_restores_the_stores.
  - reflexivity.
  - reflexivity.
  - exact sampleDb_unlisted.
  - exact sampleDb_tidy.
Defined.

Lemma index_stays_tidy_and_removal_is_complete_witness :
  tidy (searchIndex (removeSearchData sampleDb "c1")).
Proof.
  exact (proj1 (proj2 (index_stays_tidy_and_removal_is_complete sampleDb "c1"
                         sampleDb_tidy))).
Defined.

End SearchStoreFacts.

(** ** The list of generated assets (datasetImporter.ts) *)

Module GeneratedAssets.
Import Js Graph.

(** [GeneratedAsset]; a size that is [undefined] or [null] is [None]. *)
Record GeneratedAsset := {
  ga_path : string;
  ga_fileName : string;
  ga_size : option nat;
  ga_mime : option string;
  ga_pointers : option (list string);
}.

(** [mergePointerLists]: [undefined] when both lists are missing, else the
    items of the first and then of the second as a [Set] keeps them. *)
Definition mergePointerLists (a b : option (list string)) : option (list string) :=
  match a, b with
  | None, None => None
  | _, _ => Some (dedupe (default [] a ++ default [] b))
  end.

(** What the body of [mergeGeneratedAssets] makes of a stored asset. *)
Definition mergeInto (existing asset : GeneratedAsset) : GeneratedAsset :=
  {| ga_path := ga_path existing;
     ga_fileName := ga_fileName existing;
     ga_size :=
       match ga_size existing, ga_size asset with
       | None, Some size => Some size
       | _, _ => ga_size existing
       end;
     ga_mime :=
       match truthy (ga_mime existing), truthy (ga_mime asset) with
       | None, Some _ => ga_mime asset
       | _, _ => ga_mime existing
       end;
     ga_pointers := mergePointerLists (ga_pointers existing) (ga_pointers asset) |}.

Definition mergeStep (store : JsMap.t GeneratedAsset) (asset : GeneratedAsset)
    : JsMap.t GeneratedAsset :=
  match JsMap.get store (ga_path asset) with
  | Some existing => JsMap.set store (ga_path asset) (mergeInto existing asset)
  | None => JsMap.set store (ga_path asset) asset
  end.

Definition mergeGeneratedAssets (store : JsMap.t GeneratedAsset)
    (incoming : list GeneratedAsset) : JsMap.t GeneratedAsset :=
  fold_left mergeStep incoming store.

End GeneratedAssets.

Module GeneratedAssetsFacts.
Import Js Graph JsMap JsMapFacts GeneratedAssets.

Definition pointersOf (asset : GeneratedAsset) : list string :=
  default [] (ga_pointers asset).

(** [merged] has what [old] knew: its path and file name, its size when it
    had one, its MIME type when it had a non-empty one, and its pointers. *)
Definition keeps (old merged : GeneratedAsset) : Prop :=
  ga_path merged = ga_path old
  /\ ga_fileName merged = ga_fileName old
  /\ (forall size, ga_size old = Some size -> ga_size merged = Some size)
  /\ (forall mime, truthy (ga_mime old) = Some mime -> ga_mime merged = Some mime)
  /\ forall pointer, In pointer (pointersOf old) -> In pointer (pointersOf merged).

Lemma truthy_Some_eq s v : truthy s = Some v -> s = Some v.
Proof.
  unfold truthy. destruct s as [x|]; [|done].
  by destruct (String.eqb x EmptyString).
Qed.

Lemma keeps_refl asset : keeps asset asset.
Proof. repeat split; auto using truthy_Some_eq. Qed.

Lemma keeps_trans a b c : keeps a b -> keeps b c -> keeps a c.
Proof.
  intros (Hp1 & Hf1 & Hs1 & Hm1 & Hq1) (Hp2 & Hf2 & Hs2 & Hm2 & Hq2).
  repeat split; try congruence; auto.
  intros mime Hmime. apply Hm2. specialize (Hm1 mime Hmime).
  rewrite Hm1. unfold truthy in *. destruct (ga_mime a) as [m|]; [|done].
  destruct (String.eqb m EmptyString) eqn:E; [done|].
  injection Hmime as <-. by rewrite E.
Qed.

Lemma mergePointerLists_In a b pointer :
  In pointer (default [] (mergePointerLists a b))
  <-> In pointer (default [] a) \/ In pointer (default [] b).
Proof.
  unfold mergePointerLists. destruct a as [a|], b as [b|]; simpl;
    rewrite ?SearchBuilderFacts.dedupe_In, ?in_app_iff; simpl; tauto.
Qed.

Lemma mergePointerLists_NoDup a b pointers :
  mergePointerLists a b = Some pointers -> NoDup pointers.
Proof.
  unfold mergePointerLists.
  destruct a, b; intros [= <-]; apply SearchBuilderFacts.dedupeFrom_NoDup.
Qed.

Lemma mergeInto_keeps existing asset : keeps existing (mergeInto existing asset).
Proof.
  unfold keeps, mergeInto, pointersOf. cbn.
  repeat split.
  - intros size ->. by destruct (ga_size asset).
  - intros mime Hmime. rewrite Hmime. by apply truthy_Some_eq.
  - intros pointer Hin. apply mergePointerLists_In. by left.
Qed.

Lemma mergeInto_pointers existing asset pointer :
  In pointer (pointersOf (mergeInto existing asset))
  <-> In pointer (pointersOf existing) \/ In pointer (pointersOf asset).
Proof. apply mergePointerLists_In. Qed.

Lemma mergeStep_get store asset path :
  JsMap.get (mergeStep store asset) path
  = if String.eqb (ga_path asset) path
    then Some (match JsMap.get store path with
               | Some existing => mergeInto existing asset
               | None => asset
               end)
    else JsMap.get store path.
Proof.
  unfold mergeStep. destruct (String.eqb (ga_path asset) path) eqn:E.
  - apply String.eqb_eq in E as <-.
    destruct (JsMap.get store (ga_path asset)); by rewrite get_set_eq.
  - apply String.eqb_neq in E.
    destruct (JsMap.get store (ga_path asset)); by rewrite get_set_ne.
Qed.

(** What the merge makes of the record of [path]. *)
Lemma merge_get store incoming path :
  match JsMap.get (mergeGeneratedAssets store incoming) path with
  | Some merged =>
      (forall old, JsMap.get store path = Some old -> keeps old merged)
      /\ (forall asset, In asset incoming -> ga_path asset = path ->
            forall pointer, In pointer (pointersOf asset) ->
              In pointer (pointersOf merged))
      /\ (forall pointer, In pointer (pointersOf merged) ->
            (exists old, JsMap.get store path = Some old
                         /\ In pointer (pointersOf old))
            \/ exists asset, In asset incoming /\ ga_path asset = path
                             /\ In pointer (pointersOf asset))
      /\ (JsMap.get store path = None ->
          exists first, In first incoming /\ ga_path first = path
                        /\ keeps first merged
                        /\ List.find (fun a => String.eqb (ga_path a) path)
                             incoming = Some first)
  | None =>
      JsMap.get store path = None
      /\ forall asset, In asset incoming -> ga_path asset <> path
  end.
Proof.
  unfold mergeGeneratedAssets. revert store.
  induction incoming as [|asset incoming IH]; intros store; simpl.
  - destruct (JsMap.get store path) as [old|] eqn:E; [|by split].
    split; [intros ? [= <-]; apply keeps_refl|].
    split; [by intros ? []|]. split; [|done].
    intros pointer Hin. left. by exists old.
  - specialize (IH (mergeStep store asset)).
    rewrite mergeStep_get in IH.
    destruct (JsMap.get (fold_left mergeStep incoming (mergeStep store asset)) path)
      as [merged|].
    + destruct IH as (Hkeeps & Hnew & Hfrom & Hfirst).
      destruct (String.eqb (ga_path asset) path) eqn:E.
      * apply String.eqb_eq in E.
        specialize (Hkeeps _ eq_refl).
        split; [|split; [|split]].
        -- intros old Hold. rewrite Hold in Hkeeps.
           eapply keeps_trans; [apply mergeInto_keeps|exact Hkeeps].
        -- intros a [<-|Hin] Hpath pointer Hp; [|by apply (Hnew a)].
           destruct Hkeeps as (_ & _ & _ & _ & Hq). apply Hq.
           destruct (JsMap.get store path); [|done].
           apply mergeInto_pointers. by right.
        -- intros pointer Hp. destruct (Hfrom pointer Hp)
             as [(old & [= <-] & Hold)|(a & Ha & Hpath & Hpa)].
           ++ destruct (JsMap.get store path) as [existing|].
              ** apply mergeInto_pointers in Hold as [Hold|Hold].
                 --- left. by exists existing.
                 --- right. exists asset. split; [by left|done].
              ** right. exists asset. split; [by left|done].
           ++ right. exists a. split; [by right|done].
        -- intros Hnone. rewrite Hnone in Hkeeps. exists asset.
           split; [by left|done].
      * split; [done|]. split; [|split].
        -- intros a [<-|Hin] Hpath; [|by apply (Hnew a)].
           apply String.eqb_neq in E. done.
        -- intros pointer Hp. destruct (Hfrom pointer Hp)
             as [?|(a & Ha & Hpath & Hpa)]; [by left|].
           right. exists a. split; [by right|done].
        -- intros Hnone.
           destruct (Hfirst Hnone) as (first & Hin & Hpath & Hk & Hfind).
           exists first. split; [by right|done].
    + destruct IH as [Hnone Hother].
      destruct (String.eqb (ga_path asset) path) eqn:E; [done|].
      split; [done|]. intros a [<-|Hin]; [by apply String.eqb_neq|by apply Hother].
Qed.

(** X30.  [mergeGeneratedAssets] loses nothing.  A path has a record
    afterwards exactly when it had one or an incoming asset names it.  The
    record of a path keeps what the stored record knew (file name, size,
    non-empty MIME type, pointers), or, when there was none, what the first
    incoming asset of that path knew; its pointers are those of the stored
    record and of the incoming assets of that path, and no others. *)
Theorem merging_generated_assets_loses_nothing store incoming path :
  let result := mergeGeneratedAssets store incoming in
  (is_Some (JsMap.get result path)
   <-> is_Some (JsMap.get store path)
       \/ exists asset, In asset incoming /\ ga_path asset = path)
  /\ forall merged, JsMap.get result path = Some merged ->
       (forall old, JsMap.get store path = Some old -> keeps old merged)
       /\ (JsMap.get store path = None ->
           exists first, In first incoming /\ ga_path first = path
                         /\ keeps first merged
                         /\ List.find (fun a => String.eqb (ga_path a) path)
                              incoming = Some first)
       /\ forall pointer,
            In pointer (pointersOf merged)
            <-> (exists old, JsMap.get store path = Some old
                             /\ In pointer (pointersOf old))
                \/ exists asset, In asset incoming /\ ga_path asset = path
                                 /\ In pointer (pointersOf asset).
Proof.
  cbv zeta. pose proof (merge_get store incoming path) as H.
  destruct (JsMap.get (mergeGeneratedAssets store incoming) path) as [merged|].
  - destruct H as (Hkeeps & Hnew & Hfrom & Hfirst). split.
    + split; [|done]. intros _.
      destruct (JsMap.get store path) as [old|] eqn:E; [by left|].
      right. destruct (Hfirst eq_refl) as (first & Hin & Hpath & _).
      by exists first.
    + intros ? [= <-]. split; [done|]. split; [done|].
      intros pointer. split; [apply Hfrom|].
      intros [(old & Hold & Hp)|(asset & Hin & Hpath & Hp)].
      * destruct (Hkeeps old Hold) as (_ & _ & _ & _ & Hq). by apply Hq.
      * by apply (Hnew asset).
  - destruct H as [Hnone Hother]. split; [|done]. split.
    + by intros [? ?].
    + intros [Hsome|(asset & Hin & Hpath)].
      * rewrite Hnone in Hsome. by destruct Hsome.
      * by destruct (Hother asset Hin).
Qed.

End GeneratedAssetsFacts.

(** ** The browser importer: [parseExportZips] (importer.ts) *)

Module BrowserImport.
Import Js AssetPath Dataset Ingest GeneratedAssets.

(** [ExportExtraData] without its generated assets, which the importer
    keeps in a map of their own until the end. *)
Record Extras {Json : Type} := {
  ex_user : option Json;
  ex_messageFeedback : option Json;
  ex_groupChats : option Json;
  ex_shopping : option Json;
  ex_basisPoints : option Json;
  ex_sora : option Json;
}.
Arguments Extras Json : clear implicits.

Definition noExtras {Json} : Extras Json :=
  {| ex_user := None; ex_messageFeedback := None; ex_groupChats := None;
     ex_shopping := None; ex_basisPoints := None; ex_sora := None |}.

(** [new Blob([data], { type })]. *)
Record Blob {Bytes : Type} := {
  blob_data : Bytes;
  blob_type : string;
}.
Arguments Blob Bytes : clear implicits.

Record File {Bytes : Type} := {
  file_name : string;
  file_bytes : Bytes;
}.
Arguments File Bytes : clear implicits.

(** The runtime of [Ingest], and with it: [JSON.parse] on a sidecar file
    ([None] when it throws), the truthiness of what it returns, and its
    member [id] ([None] when the value or the member is [undefined] or
    [null]); the [type] a [Blob] reports for the type it was made with;
    and [collectGeneratedAssets] of exportExtras.ts, which is called once
    the archive is known to have conversations ([None] when it throws, as
    it does on a user id that is no string). *)
Section WithRuntime.
Context {Content Metadata Details AssetsIndex Bytes Json UserId : Type}.
Variable convertParts :
  option Content -> AssetsIndex -> list Graph.Block * list (string * string).
Variable buildDetails : @Graph.RawMessage Content Metadata -> option Details.
Variable buildSnippet : string -> string.
Variable buildSearchData :
  @Graph.Conversation Details -> list SearchLine * list string.
Variable unzipSync : Bytes -> option (list (string * Bytes)).
Variable strFromU8 : Bytes -> string.
Variable parseConversations : string -> option (@Parsed Content Metadata).
Variable parseAssets : string -> option AssetsIndex.
Variable emptyAssets : AssetsIndex.
Variable parseJson : string -> option Json.
Variable truthyJson : Json -> bool.
Variable userIdOf : Json -> option UserId.
Variable blobType : string -> string.
Variable collectGeneratedAssets :
  JsMap.t Bytes -> AssetsIndex -> option UserId -> option (list GeneratedAsset).

(** [readJson] of exportExtras.ts. *)
Definition readJson (entries : JsMap.t Bytes) (key : string)
    : option Json * list Warning :=
  match JsMap.get entries key with
  | None => (None, [])
  | Some payload =>
      match parseJson (strFromU8 payload) with
      | Some value => (Some value, [])
      | None => (None, [ExtraParseFailed key])
      end
  end.

(** [extractExtraData] of exportExtras.ts, with its warnings. *)
Definition extractExtraData (entries : JsMap.t Bytes)
    : Extras Json * list Warning :=
  let user := readJson entries "tmp/user.json" in
  let messageFeedback := readJson entries "tmp/message_feedback.json" in
  let groupChats := readJson entries "tmp/group_chats.json" in
  let shopping := readJson entries "tmp/shopping.json" in
  let basisPoints := readJson entries "tmp/basispoints.json" in
  let sora := readJson entries "tmp/sora.json" in
  ({| ex_user := fst user; ex_messageFeedback := fst messageFeedback;
      ex_groupChats := fst groupChats; ex_shopping := fst shopping;
      ex_basisPoints := fst basisPoints; ex_sora := fst sora |},
   snd user ++ snd messageFeedback ++ snd groupChats ++ snd shopping
   ++ snd basisPoints ++ snd sora).

(** [if (incoming.x) target.x = incoming.x]. *)
Definition mergeField (target incoming : option Json) : option Json :=
  match incoming with
  | Some value => if truthyJson value then incoming else target
  | None => target
  end.

Definition mergeExtras (target incoming : Extras Json) : Extras Json :=
  {| ex_user := mergeField (ex_user target) (ex_user incoming);
     ex_messageFeedback :=
       mergeField (ex_messageFeedback target) (ex_messageFeedback incoming);
     ex_groupChats := mergeField (ex_groupChats target) (ex_groupChats incoming);
     ex_shopping := mergeField (ex_shopping target) (ex_shopping incoming);
     ex_basisPoints :=
       mergeField (ex_basisPoints target) (ex_basisPoints incoming);
     ex_sora := mergeField (ex_sora target) (ex_sora incoming) |}.

(** [extractedExtras.user?.id ?? extras.user?.id]. *)
Definition userIdFor (extracted extras : Extras Json) : option UserId :=
  match ex_user extracted ≫= userIdOf with
  | Some id => Some id
  | None => ex_user extras ≫= userIdOf
  end.

(** The variables of [parseExportZips]. *)
Record BrowserState := {
  bs_merged : JsMap.t (@Payload Details);
  bs_assets : JsMap.t (Blob Bytes);
  bs_assetMime : JsMap.t string;
  bs_extras : Extras Json;
  bs_generated : JsMap.t GeneratedAsset;
  bs_order : Z;
}.

Definition initialState : BrowserState :=
  {| bs_merged := []; bs_assets := []; bs_assetMime := [];
     bs_extras := noExtras; bs_generated := []; bs_order := 0 |}.

Definition withExtras (state : BrowserState) (extras : Extras Json)
    : BrowserState :=
  {| bs_merged := bs_merged state; bs_assets := bs_assets state;
     bs_assetMime := bs_assetMime state; bs_extras := extras;
     bs_generated := bs_generated state; bs_order := bs_order state |}.

Definition withGenerated (state : BrowserState)
    (generated : JsMap.t GeneratedAsset) : BrowserState :=
  {| bs_merged := bs_merged state; bs_assets := bs_assets state;
     bs_assetMime := bs_assetMime state; bs_extras := bs_extras state;
     bs_generated := generated; bs_order := bs_order state |}.

(** [assets.set(key, blob); assetMime.set(key, blob.type)]. *)
Definition withBlob (state : BrowserState) (key : string) (data : Bytes)
    (type : string) : BrowserState :=
  {| bs_merged := bs_merged state;
     bs_assets :=
       JsMap.set (bs_assets state) key
         {| blob_data := data; blob_type := blobType type |};
     bs_assetMime := JsMap.set (bs_assetMime state) key (blobType type);
     bs_extras := bs_extras state; bs_generated := bs_generated state;
     bs_order := bs_order state |}.

(** [ensureGeneratedAssetBlobs]. *)
Definition ensureGeneratedAssetBlobs (assetsList : list GeneratedAsset)
    (entries : JsMap.t Bytes) (acc : BrowserState * list Warning)
    : BrowserState * list Warning :=
  fold_left
    (fun acc asset =>
       let path := ga_path asset in
       if String.eqb path EmptyString || JsMap.has (bs_assets (fst acc)) path
       then acc
       else if negb (isSafeRelativePath path)
       then (fst acc, snd acc ++ [UnsafeGeneratedAssetPath path])
       else
         match findAssetEntry entries path with
         | None => (fst acc, snd acc ++ [MissingGeneratedAssetPayload path])
         | Some data =>
             (withBlob (fst acc) path data
                (match Graph.truthy (ga_mime asset) with
                 | Some mime => mime
                 | None => Media.guessMimeByPath path
                 end), snd acc)
         end)
    assetsList acc.

(** The body of [for (const raw of rawList)] for an object. *)
Definition browserConvert (assetsJson : AssetsIndex)
    (acc : BrowserState * list Warning)
    (raw : @Graph.RawConversation Content Metadata)
    : BrowserState * list Warning :=
  match convertForImport convertParts buildDetails buildSnippet raw
          assetsJson with
  | None => acc
  | Some (inr warning) => (fst acc, snd acc ++ [warning])
  | Some (inl converted) =>
      let state := fst acc in
      let payload :=
        makePayload buildSearchData "local" None converted (bs_order state) in
      ({| bs_merged :=
            Merge.mergeInto rank (bs_merged state) (payloadId payload) payload;
          bs_assets := bs_assets state; bs_assetMime := bs_assetMime state;
          bs_extras := bs_extras state; bs_generated := bs_generated state;
          bs_order := bs_order state + 1 |}, snd acc)
  end.

(** [payload.assetKeys.forEach(...)]. *)
Definition collectBlobs (entries : JsMap.t Bytes)
    (acc : BrowserState * list Warning) (assetKeys : list string)
    : BrowserState * list Warning :=
  fold_left
    (fun acc assetKey =>
       if negb (isSafeRelativePath assetKey)
       then (fst acc, snd acc ++ [UnsafeAssetKey assetKey])
       else if JsMap.has (bs_assets (fst acc)) assetKey then acc
       else
         match findAssetEntry entries assetKey with
         | None => (fst acc, snd acc ++ [MissingAssetData assetKey])
         | Some data =>
             (withBlob (fst acc) assetKey data (Media.guessMimeByPath assetKey),
              snd acc)
         end)
    assetKeys acc.

(** What the entries of an archive give for [rawList], with the warnings:
    the conversations of [chat.html], and those of [conversations.json]
    when these are none and the file is there. *)
Definition rawListOf (scanned : @Scanned Bytes)
    : option (@Parsed Content Metadata) * list Warning :=
  let fromChat := conversationsFromChat parseConversations (sc_chatHtml scanned) in
  let fallback :=
    safeParseConversations parseConversations (sc_conversationsJson scanned) in
  if negb (hasItems (fst fromChat))
     && negb (String.eqb (sc_conversationsJson scanned) EmptyString)
  then (Some (fst fallback), snd fromChat ++ snd fallback)
  else fromChat.

(** The loop body from the point where the archive is known to have
    conversations: generated assets, conversations, assets.  The state is
    [None] when the body throws. *)
Definition importArchive (state : BrowserState) (scanned : @Scanned Bytes)
    (extracted : Extras Json) (parsed : @Parsed Content Metadata)
    (log : list Warning) : option BrowserState * list Warning :=
  let entries := sc_entries scanned in
  let assetsJson := assetsJsonOf parseAssets emptyAssets (sc_chatHtml scanned) in
  let log1 := log ++ assetsWarningsOf parseAssets (sc_chatHtml scanned) in
  match collectGeneratedAssets entries assetsJson
          (userIdFor extracted (bs_extras state)) with
  | None => (None, log1)
  | Some userAssets =>
      let ensured :=
        ensureGeneratedAssetBlobs userAssets entries
          (withGenerated state
             (mergeGeneratedAssets (bs_generated state) userAssets), log1) in
      let reach := loopOver parsed in
      let converted := fold_left (browserConvert assetsJson) (fst reach) ensured in
      match snd reach with
      | Some _ => (None, snd converted)
      | None =>
          let collected :=
            fold_left (collectBlobs entries)
              (map p_assetKeys (JsMap.values (bs_merged (fst converted))))
              converted in
          (Some (fst collected), snd collected)
      end
  end.

(** One turn of the loop over the archives: the state after it ([None] when
    the turn throws) and the warnings it emitted. *)
Definition parseArchive (state : BrowserState) (file : File Bytes)
    : option BrowserState * list Warning :=
  match unzipSync (file_bytes file) with
  | None => (Some state, [UnzipFailed (file_name file)])
  | Some entries =>
      let scanned := scanEntries strFromU8 true entries in
      let extracted := extractExtraData (sc_entries scanned) in
      let merged :=
        withExtras state (mergeExtras (bs_extras state) (fst extracted)) in
      let rawList := rawListOf scanned in
      let log := snd extracted ++ snd rawList in
      match fst rawList with
      | Some parsed =>
          if hasLength parsed
          then importArchive merged scanned (fst extracted) parsed log
          else (Some merged, log ++ [MissingConversationData])
      | None => (Some merged, log ++ [MissingConversationData])
      end
  end.

(** The loop over the archives: a turn that throws ends it. *)
Fixpoint parseAll (files : list (File Bytes)) (state : BrowserState)
    : option BrowserState * list Warning :=
  match files with
  | [] => (Some state, [])
  | file :: rest =>
      let step := parseArchive state file in
      match fst step with
      | None => (None, snd step)
      | Some state' =>
          let later := parseAll rest state' in
          (fst later, snd step ++ snd later)
      end
  end.

Record ImportBundle := {
  ib_conversations : list (@Payload Details);
  ib_assets : JsMap.t (Blob Bytes);
  ib_assetMime : JsMap.t string;
  ib_extras : Extras Json;
  ib_generatedAssets : list GeneratedAsset;
}.

Definition bundleOf (state : BrowserState) : ImportBundle :=
  {| ib_conversations := JsMap.values (bs_merged state);
     ib_assets := bs_assets state;
     ib_assetMime := bs_assetMime state;
     ib_extras := bs_extras state;
     ib_generatedAssets := JsMap.values (bs_generated state) |}.

(** [parseExportZips]: the bundle the promise resolves to ([None] when it
    is rejected), and the warnings emitted. *)
Definition parseExportZips (files : list (File Bytes))
    : option ImportBundle * list Warning :=
  let final := parseAll files initialState in
  (option_map bundleOf (fst final), snd final).

End WithRuntime.

End BrowserImport.

(** ** Facts about the browser importer *)

Module BrowserImportFacts.
Import Js AssetPath Dataset Ingest IngestFacts GeneratedAssets BrowserImport.

Section WithRuntime.
Context {Content Metadata Details AssetsIndex Bytes Json UserId : Type}.
Variable convertParts :
  option Content -> AssetsIndex -> list Graph.Block * list (string * string).
Variable buildDetails : @Graph.RawMessage Content Metadata -> option Details.
Variable buildSnippet : string -> string.
Variable buildSearchData :
  @Graph.Conversation Details -> list SearchLine * list string.
Variable unzipSync : Bytes -> option (list (string * Bytes)).
Variable strFromU8 : Bytes -> string.
Variable parseConversations : string -> option (@Parsed Content Metadata).
Variable parseAssets : string -> option AssetsIndex.
Variable emptyAssets : AssetsIndex.
Variable parseJson : string -> option Json.
Variable truthyJson : Json -> bool.
Variable userIdOf : Json -> option UserId.
Variable blobType : string -> string.
Variable collectGeneratedAssets :
  JsMap.t Bytes -> AssetsIndex -> option UserId -> option (list GeneratedAsset).

Implicit Types (state start middle : @BrowserState Details Bytes Json).
Implicit Types (file : File Bytes).
Implicit Types (files before after : list (File Bytes)).

#[local] Abbreviation parseArchive :=
  (parseArchive convertParts buildDetails buildSnippet buildSearchData
     unzipSync strFromU8 parseConversations parseAssets emptyAssets
     parseJson truthyJson userIdOf blobType collectGeneratedAssets).
#[local] Abbreviation parseAll :=
  (parseAll convertParts buildDetails buildSnippet buildSearchData
     unzipSync strFromU8 parseConversations parseAssets emptyAssets
     parseJson truthyJson userIdOf blobType collectGeneratedAssets).
#[local] Abbreviation parseExportZips :=
  (parseExportZips convertParts buildDetails buildSnippet buildSearchData
     unzipSync strFromU8 parseConversations parseAssets emptyAssets
     parseJson truthyJson userIdOf blobType collectGeneratedAssets).
#[local] Abbreviation rawListOf := (rawListOf parseConversations).
#[local] Abbreviation extractExtraData :=
  (extractExtraData strFromU8 parseJson).
#[local] Abbreviation mergeExtras := (mergeExtras truthyJson).
#[local] Abbreviation scanEntries := (scanEntries strFromU8).
#[local] Abbreviation loadZipArchive :=
  (loadZipArchive unzipSync strFromU8 parseConversations parseAssets emptyAssets).
#[local] Abbreviation importSources :=
  (importSources convertParts buildDetails buildSnippet buildSearchData
     unzipSync strFromU8 parseConversations parseAssets emptyAssets).
#[local] Abbreviation importDatasets :=
  (importDatasets convertParts buildDetails buildSnippet buildSearchData
     unzipSync strFromU8 parseConversations parseAssets emptyAssets).

(** The conversations of an unpacked archive are missing: neither
    [chat.html] nor [conversations.json] gave any. *)
Definition noConversations (entries : list (string * Bytes)) : Prop :=
  hasItems (fst (rawListOf (scanEntries true entries))) = false.


(** The archive of the claim: no [chat.html] or none with the marker of
    the embedded graphs, and no [conversations.json] (or an empty one). *)
Definition withoutMarkersAndFallback (entries : list (string * Bytes)) : Prop :=
  let scanned := scanEntries true entries in
  (sc_chatHtml scanned = EmptyString \/
   suffixFrom "var jsonData" (sc_chatHtml scanned) = None) /\
  sc_conversationsJson scanned = EmptyString.

Lemma withoutMarkersAndFallback_noConversations entries :
  withoutMarkersAndFallback entries -> noConversations entries.
Proof.
  unfold withoutMarkersAndFallback, noConversations, BrowserImport.rawListOf,
    conversationsFromChat.
  intros [Hchat ->]. rewrite String.eqb_refl, andb_false_r.
  destruct Hchat as [->|Hmarker]; [done|].
  destruct (String.eqb _ EmptyString); [done|]. simpl.
  unfold extractConversationsFromChat. by rewrite Hmarker.
Qed.








End WithRuntime.

(** *** A sample runtime *)

(** Archives are strings, as in [IngestFacts]: [corrupt] does not
    decompress; [sidecar] unpacks to a user profile and nothing else; any
    other unpacks to a single [conversations.json] with that text.  JSON
    values are their texts. *)
Definition browserUnzip (bytes : string) : option (list (string * string)) :=
  if String.eqb bytes "corrupt" then None
  else if String.eqb bytes "sidecar" then Some [("tmp/user.json", "profile")]
  else Some [("conversations.json", bytes)].

Definition sampleParseZips :=
  parseExportZips GraphSample.textParts GraphSample.noDetails id
    sampleSearchData browserUnzip id sampleParse (fun _ => None) tt
    (fun text : string => Some text) (fun _ => true)
    (fun _ => @None string) id (fun _ _ _ => Some []).

Definition badFile : File string :=
  {| file_name := "bad.zip"; file_bytes := "corrupt" |}.

Definition sidecarFile : File string :=
  {| file_name := "sidecar.zip"; file_bytes := "sidecar" |}.

Definition goodFile : File string :=
  {| file_name := "good.zip"; file_bytes := "one" |}.

Definition nullFile : File string :=
  {| file_name := "null.zip"; file_bytes := "null" |}.

(** A batch with both kinds of unusable archive in front: the conversation
    of the good archive is imported, and the profile of the archive without
    conversations is in the extras. *)
Example sample_browser_batch :
  (option_map
     (fun bundle =>
        (map payloadId (ib_conversations bundle), ex_user (ib_extras bundle)))
     (fst (sampleParseZips [badFile; sidecarFile; goodFile])),
   snd (sampleParseZips [badFile; sidecarFile; goodFile]))
  = (Some (["c1"], Some "profile"),
     [UnzipFailed "bad.zip"; MissingConversationData]).
Proof. vm_compute. reflexivity. Qed.

(** An archive whose list of conversations holds [null] is not skipped: it
    makes the whole batch fail. *)
Example sample_browser_batch_rejected :
  fst (sampleParseZips [goodFile; nullFile; goodFile]) = None.
Proof. vm_compute. reflexivity. Qed.


End BrowserImportFacts.
